(** * sha1-sat: the SHA-1 instance generator, embedded and verified

    The generator (main.cc) compiles attacks on (round-reduced) SHA-1 into
    CNF and OPB instances.  This development embeds its encoder as state
    passing over the process-wide registry, counters and the two output
    buffers, and proves properties of the constraints it emits.

    Conventions of the embedding:
    - a variable id is a C++ [int], here a [Z]; a literal is a signed id;
    - a 32-bit word of the circuit ([int x[32]]) is a [list Z], bit 0 first;
    - a native [uint32_t] is a [Z] with the wrap-around written as [wrap32];
    - loop counters and sizes ([unsigned int]) are [nat];
    - the two [std::ostringstream] buffers are lists of lines, one
      constructor per textual line format. *)

From stdpp Require Import base numbers list gmap strings pretty.
From Stdlib Require Import ZArith Lia Ascii.

Local Open Scope string_scope.
Local Open Scope list_scope.
Local Open Scope Z_scope.

(** ** Configuration (the [config_*] globals) *)

Record config := Config {
  config_attack : string;
  config_nr_rounds : nat;
  config_nr_message_bits : nat;
  config_nr_hash_bits : nat;
  config_cnf : bool;
  config_opb : bool;
  config_use_xor_clauses : bool;
  config_use_halfadder_clauses : bool;
  config_use_tseitin_adders : bool;
  config_restrict_branching : bool;
  config_use_compact_adders : bool
}.

(** The initial values of the globals. *)
Definition default_config : config :=
  {| config_attack := "preimage";
     config_nr_rounds := 80;
     config_nr_message_bits := 0;
     config_nr_hash_bits := 160;
     config_cnf := false;
     config_opb := false;
     config_use_xor_clauses := false;
     config_use_halfadder_clauses := false;
     config_use_tseitin_adders := false;
     config_restrict_branching := false;
     config_use_compact_adders := false |}.

(** ** Output lines *)

(** A line of the CNF buffer. *)
Inductive cnf_line :=
  | CComment (s : string)            (* c <s> *)
  | CHint (l : Z)                    (* d <l> 0 *)
  | CClause (c : list Z)             (* <l1> ... <lk> 0 *)
  | CXor (c : list Z)                (* x <l1> ... <lk> 0 *)
  | CHalfAdder (lhs rhs : list Z).   (* h <lhs> 0 <rhs> 0 *)

Inductive opb_op := Ge | Eq.

(** A line of the OPB buffer; a term is a coefficient and a literal, a
    negative literal being printed as [~x<id>]. *)
Inductive opb_line :=
  | OComment (s : string)                               (* * <s> *)
  | OConstraint (ts : list (Z * Z)) (op : opb_op) (k : Z). (* <c> <x> ... op k; *)

(** ** Process state: registry, counters, buffers, minimizer cache, stderr *)

Record state := State {
  nr_variables : Z;
  nr_clauses : Z;
  nr_xor_clauses : Z;
  nr_constraints : Z;
  cnf : list cnf_line;
  opb : list opb_line;
  cache : gmap (nat * nat) (list (list Z));
  cerr : list string
}.

Definition initial_state : state :=
  {| nr_variables := 0; nr_clauses := 0; nr_xor_clauses := 0;
     nr_constraints := 0; cnf := []; opb := []; cache := ∅; cerr := [] |}.

(** [unsigned int] arithmetic. *)
Definition wrap32 (x : Z) : Z := x mod 2 ^ 32.

Definition set_nr_variables (v : Z) (st : state) : state :=
  State v (nr_clauses st) (nr_xor_clauses st) (nr_constraints st)
        (cnf st) (opb st) (cache st) (cerr st).
Definition incr_nr_clauses (st : state) : state :=
  State (nr_variables st) (wrap32 (nr_clauses st + 1)) (nr_xor_clauses st)
        (nr_constraints st) (cnf st) (opb st) (cache st) (cerr st).
Definition incr_nr_xor_clauses (st : state) : state :=
  State (nr_variables st) (nr_clauses st) (wrap32 (nr_xor_clauses st + 1))
        (nr_constraints st) (cnf st) (opb st) (cache st) (cerr st).
Definition incr_nr_constraints (st : state) : state :=
  State (nr_variables st) (nr_clauses st) (nr_xor_clauses st)
        (wrap32 (nr_constraints st + 1)) (cnf st) (opb st) (cache st) (cerr st).
Definition put_cnf (ls : list cnf_line) (st : state) : state :=
  State (nr_variables st) (nr_clauses st) (nr_xor_clauses st)
        (nr_constraints st) (cnf st ++ ls) (opb st) (cache st) (cerr st).
Definition put_opb (ls : list opb_line) (st : state) : state :=
  State (nr_variables st) (nr_clauses st) (nr_xor_clauses st)
        (nr_constraints st) (cnf st) (opb st ++ ls) (cache st) (cerr st).
Definition set_cache (c : gmap (nat * nat) (list (list Z))) (st : state) : state :=
  State (nr_variables st) (nr_clauses st) (nr_xor_clauses st)
        (nr_constraints st) (cnf st) (opb st) c (cerr st).
Definition put_cerr (s : string) (st : state) : state :=
  State (nr_variables st) (nr_clauses st) (nr_xor_clauses st)
        (nr_constraints st) (cnf st) (opb st) (cache st) (cerr st ++ [s]).

(** ** The encoder monad: state passing over [state] *)

Definition M (A : Type) : Type := state → A * state.

Definition ret {A} (x : A) : M A := λ st, (x, st).
Definition bind {A B} (m : M A) (f : A → M B) : M B :=
  λ st, let '(x, st') := m st in f x st'.
Definition modify (f : state → state) : M unit := λ st, (tt, f st).
Definition gets {A} (f : state → A) : M A := λ st, (f st, st).

Declare Scope enc_scope.
Delimit Scope enc_scope with enc.
Notation "x <- m ;; k" := (bind m (λ x, k))
  (at level 100, m at next level, right associativity) : enc_scope.
Notation "m ;;; k" := (bind m (λ _, k))
  (at level 100, right associativity) : enc_scope.
Local Open Scope enc_scope.

(** [for (x : l) body] *)
Fixpoint forM {A} (l : list A) (body : A → M unit) : M unit :=
  match l with
  | [] => ret tt
  | x :: l' => body x ;;; forM l' body
  end.

(** A loop that updates local arrays: the locals are the accumulator. *)
Fixpoint foldM {A S} (body : S → A → M S) (s : S) (l : list A) : M S :=
  match l with
  | [] => ret s
  | x :: l' => s' <- body s x ;; foldM body s' l'
  end.

(** [for (unsigned int i = lo; i < hi; ++i)] ranges over [range lo hi]. *)
Definition range (lo hi : nat) : list nat := seq lo (hi - lo).

(** [a[i]] on a word; reading past the end does not happen in the program. *)
Definition at_ (a : list Z) (i : nat) : Z := nth i a 0.

(** ** Semantics of the emitted lines *)

Definition assignment := Z → bool.

Abbreviation b2z := Z.b2z.

(** A literal is printed as sign and [abs]; it denotes the variable [abs l],
    negated when [l < 0]. *)
Definition lit_val (ρ : assignment) (l : Z) : bool :=
  if l <? 0 then negb (ρ (Z.abs l)) else ρ (Z.abs l).

Definition clause_sat (ρ : assignment) (c : list Z) : bool :=
  existsb (lit_val ρ) c.

(** An XOR line holds when an odd number of its literals are true. *)
Definition xor_sat (ρ : assignment) (c : list Z) : bool :=
  foldr xorb false (map (lit_val ρ) c).

(** Number of true variables among [xs]. *)
Definition count_true (ρ : assignment) (xs : list Z) : Z :=
  foldr (λ x acc, b2z (ρ x) + acc) 0 xs.

(** The binary number spelled by the variables [xs], least significant
    first. *)
Fixpoint word_val (ρ : assignment) (xs : list Z) : Z :=
  match xs with
  | [] => 0
  | x :: xs' => b2z (ρ x) + 2 * word_val ρ xs'
  end.

(** A half-adder line: the unary sum of [lhs] equals the binary number
    [rhs]. *)
Definition halfadder_sat (ρ : assignment) (lhs rhs : list Z) : bool :=
  count_true ρ lhs =? word_val ρ rhs.

Definition cnf_line_sat (ρ : assignment) (l : cnf_line) : bool :=
  match l with
  | CComment _ => true
  | CHint _ => true
  | CClause c => clause_sat ρ c
  | CXor c => xor_sat ρ c
  | CHalfAdder lhs rhs => halfadder_sat ρ lhs rhs
  end.

Definition term_val (ρ : assignment) (t : Z * Z) : Z :=
  t.1 * b2z (lit_val ρ t.2).

Definition lin_val (ρ : assignment) (ts : list (Z * Z)) : Z :=
  foldr (λ t acc, term_val ρ t + acc) 0 ts.

Definition opb_line_sat (ρ : assignment) (l : opb_line) : bool :=
  match l with
  | OComment _ => true
  | OConstraint ts Ge k => k <=? lin_val ρ ts
  | OConstraint ts Eq k => lin_val ρ ts =? k
  end.

Definition sat_cnf (ρ : assignment) (ls : list cnf_line) : bool :=
  forallb (cnf_line_sat ρ) ls.
Definition sat_opb (ρ : assignment) (ls : list opb_line) : bool :=
  forallb (opb_line_sat ρ) ls.

(** ** Helpers for the C idioms of the source *)

(** [__builtin_popcount] on the small unsigned values the program uses. *)
Definition popcount (i : nat) : nat :=
  length (filter (λ k, Nat.testbit i k = true) (seq 0 32)).

(** [(j & mask) ? ... : ...] *)
Definition masked (j mask : nat) : bool := negb (Nat.land j mask =? 0)%nat.

(** [v[k].push_back(x)] on an array of vectors. *)
Definition push_back (k : nat) (x : Z) (v : list (list Z)) : list (list Z) :=
  alter (λ l, l ++ [x]) k v.

(** ** The external minimizer

    The dialogue with espresso is a function from the lines written to its
    standard input to the lines read from its standard output. *)

(** One row of the truth table written to the minimizer. *)
Definition pla_bits (n i : nat) : string :=
  foldr (λ k s, pretty (1 - Nat.b2n (Nat.testbit i k))%nat +:+ s) ""
        (rev (seq 0 n)).

Definition pla_row (n m i j : nat) : string :=
  pla_bits n i +:+ pla_bits m j +:+ " " +:+
  (if (popcount i =? j)%nat then "0" else "1").

Definition pla_input (n m : nat) : list string :=
  [".i " +:+ pretty (n + m)%nat; ".o 1"] ++
  flat_map (λ i, map (λ j, pla_row n m i j) (range 0 (2 ^ m)))
           (range 0 (2 ^ n)) ++
  [".e"].

(** The literals of one product term read back: character [i] selects
    literal [i + 1]. *)
Definition cube_clause (nm : nat) (buf : string) : list Z :=
  flat_map (λ i,
    match String.get i buf with
    | Some ch =>
        if Ascii.eqb ch "0"%char then [- (Z.of_nat i + 1)]
        else if Ascii.eqb ch "1"%char then [Z.of_nat i + 1]
        else []
    | None => []
    end) (seq 0 nm).

(** The read loop: header lines are skipped, [.e] ends the answer. *)
Fixpoint read_espresso (nm : nat) (lines : list string) : list (list Z) :=
  match lines with
  | [] => []
  | buf :: rest =>
      if String.prefix ".i" buf then read_espresso nm rest
      else if String.prefix ".o" buf then read_espresso nm rest
      else if String.prefix ".p" buf then read_espresso nm rest
      else if String.prefix ".e" buf then []
      else cube_clause nm buf :: read_espresso nm rest
  end.

(** ** The encoder *)

Section Encoder.

Variable cfg : config.
Variable espresso : list string → list string.

Definition comment (str : string) : M unit :=
  modify (put_cnf [CComment str]);;;
  modify (put_opb [OComment str]).

(** [x[i] = ++nr_variables] *)
Definition fresh_var : M Z :=
  modify (λ st, set_nr_variables (nr_variables st + 1) st);;;
  gets nr_variables.

(** With [n = 0] the source formats the unwritten [x[0]]; it never calls
    [new_vars] with [n = 0] on the paths it takes. *)
Definition new_vars (label : string) (n : nat) (decision_var : bool)
  : M (list Z) :=
  x <- foldM (λ x _, v <- fresh_var;; ret (x ++ [v])) [] (range 0 n);;
  comment ("var " +:+ pretty (at_ x 0) +:+ "/" +:+ pretty n +:+ " " +:+ label);;;
  (if config_restrict_branching cfg then
     if decision_var then
       forM (range 0 n) (λ i, modify (put_cnf [CHint (at_ x i)]))
     else
       forM (range 0 n) (λ i, modify (put_cnf [CHint (- at_ x i)]))
   else ret tt);;;
  ret x.

Definition constant (r : Z) (value : bool) : M unit :=
  modify (put_cnf [CClause [if value then r else - r]]);;;
  modify (put_opb [OConstraint [(1, r)] Eq (if value then 1 else 0)]);;;
  modify incr_nr_clauses;;;
  modify incr_nr_constraints.

Definition constant32 (r : list Z) (value : Z) : M unit :=
  comment ("constant32 (" +:+ pretty value +:+ ")");;;
  forM (range 0 32) (λ i,
    modify (put_cnf [CClause [if Z.testbit value (Z.of_nat i)
                              then at_ r i else - at_ r i]]);;;
    modify (put_opb [OConstraint [(1, at_ r i)] Eq
                       (b2z (Z.testbit value (Z.of_nat i)))]);;;
    modify incr_nr_clauses;;;
    modify incr_nr_constraints).

Definition new_constant (label : string) (value : Z) : M (list Z) :=
  r <- new_vars label 32 true;;
  constant32 r value;;;
  ret r.

Definition clause (v : list Z) : M unit :=
  modify (put_cnf [CClause v]);;;
  modify (put_opb [OConstraint (map (λ x, (1, x)) v) Ge 1]);;;
  modify incr_nr_clauses;;;
  modify incr_nr_constraints.

Definition xor_clause (v : list Z) : M unit :=
  modify (put_cnf [CXor v]);;;
  modify incr_nr_xor_clauses.

(** The variable a minimized literal stands for: [lhs] first, then [rhs]
    from its most significant end. *)
Definition halfadder_lit (lhs rhs : list Z) (i : Z) : Z :=
  let n := length lhs in
  let m := length rhs in
  let j := Z.to_nat (Z.abs i - 1) in
  let var := if (j <? n)%nat then at_ lhs j else at_ rhs (m - 1 - (j - n)) in
  if i <? 0 then - var else var.

(** The clauses for the shape [(n, m)]: from the cache, or from a run of
    the minimizer whose answer is then cached. *)
Definition minimized_clauses (n m : nat) : M (list (list Z)) :=
  it <- gets (λ st, cache st !! (n, m));;
  match it with
  | Some cl => ret cl
  | None =>
      let cl := read_espresso (n + m) (espresso (pla_input n m)) in
      modify (λ st, set_cache (<[(n, m) := cl]> (cache st)) st);;;
      ret cl
  end.

Definition halfadder (lhs rhs : list Z) : M unit :=
  (if config_use_halfadder_clauses cfg then
     modify (put_cnf [CHalfAdder lhs rhs])
   else
     let n := length lhs in
     let m := length rhs in
     clauses <- minimized_clauses n m;;
     forM clauses (λ c,
       modify (put_cnf [CClause (map (halfadder_lit lhs rhs) c)]);;;
       modify incr_nr_clauses));;;
  modify (put_opb
    [OConstraint (map (λ x, (1, x)) lhs ++
                  imap (λ i x, (- 2 ^ Z.of_nat i, x)) rhs) Eq 0]);;;
  modify incr_nr_constraints.

Definition xor2 (r a b : list Z) (n : nat) : M unit :=
  comment "xor2";;;
  if config_use_xor_clauses cfg then
    forM (range 0 n) (λ i, xor_clause [- at_ r i; at_ a i; at_ b i])
  else
    forM (range 0 n) (λ i,
      forM (range 0 8) (λ j,
        if (popcount (Nat.lxor j 1) mod 2 =? 1)%nat then ret tt
        else clause [if masked j 1 then - at_ r i else at_ r i;
                     if masked j 2 then at_ a i else - at_ a i;
                     if masked j 4 then at_ b i else - at_ b i])).

Definition xor3 (r a b c : list Z) (n : nat) : M unit :=
  comment "xor3";;;
  if config_use_xor_clauses cfg then
    forM (range 0 n) (λ i, xor_clause [- at_ r i; at_ a i; at_ b i; at_ c i])
  else
    forM (range 0 n) (λ i,
      forM (range 0 16) (λ j,
        if (popcount (Nat.lxor j 1) mod 2 =? 0)%nat then ret tt
        else clause [if masked j 1 then - at_ r i else at_ r i;
                     if masked j 2 then at_ a i else - at_ a i;
                     if masked j 4 then at_ b i else - at_ b i;
                     if masked j 8 then at_ c i else - at_ c i])).

Definition xor4 (r a b c d : list Z) : M unit :=
  comment "xor4";;;
  if config_use_xor_clauses cfg then
    forM (range 0 32) (λ i,
      xor_clause [- at_ r i; at_ a i; at_ b i; at_ c i; at_ d i])
  else
    forM (range 0 32) (λ i,
      forM (range 0 32) (λ j,
        if (popcount (Nat.lxor j 1) mod 2 =? 1)%nat then ret tt
        else clause [if masked j 1 then - at_ r i else at_ r i;
                     if masked j 2 then at_ a i else - at_ a i;
                     if masked j 4 then at_ b i else - at_ b i;
                     if masked j 8 then at_ c i else - at_ c i;
                     if masked j 16 then at_ d i else - at_ d i])).

Definition eq (a b : list Z) (n : nat) : M unit :=
  if config_use_xor_clauses cfg then
    forM (range 0 n) (λ i, xor_clause [- at_ a i; at_ b i])
  else
    forM (range 0 n) (λ i,
      clause [- at_ a i; at_ b i];;;
      clause [at_ a i; - at_ b i]).

Definition neq (a b : list Z) (n : nat) : M unit :=
  if config_use_xor_clauses cfg then
    forM (range 0 n) (λ i, xor_clause [at_ a i; at_ b i])
  else
    forM (range 0 n) (λ i,
      clause [at_ a i; at_ b i];;;
      clause [- at_ a i; - at_ b i]).

Definition and2 (r a b : list Z) (n : nat) : M unit :=
  forM (range 0 n) (λ i,
    clause [at_ r i; - at_ a i; - at_ b i];;;
    clause [- at_ r i; at_ a i];;;
    clause [- at_ r i; at_ b i]).

Definition or2 (r a b : list Z) (n : nat) : M unit :=
  forM (range 0 n) (λ i,
    clause [- at_ r i; at_ a i; at_ b i];;;
    clause [at_ r i; - at_ a i];;;
    clause [at_ r i; - at_ b i]).

(** The terms [2^i x_i] of a word in a compact adder equation. *)
Definition pow_terms (a : list Z) : list (Z * Z) :=
  map (λ i, (2 ^ Z.of_nat i, at_ a i)) (range 0 32).
Definition neg_pow_terms (r : list Z) : list (Z * Z) :=
  map (λ i, (- 2 ^ Z.of_nat i, at_ r i)) (range 0 32).

(** One column of a half-adder mode adder: the column's own bits [ins] are
    pushed, the carries are allocated and routed upwards, and the column's
    constraint is emitted. *)
Definition adder_column (label : string) (r : list Z) (ins : nat → list Z)
    (addends : list (list Z)) (i : nat) : M (list (list Z)) :=
  let addends := foldl (λ ad x, push_back i x ad) addends (ins i) in
  let m := Nat.log2 (length (addends !!! i)) in
  cs <- new_vars (label +:+ "_rhs[" +:+ pretty i +:+ "]") m true;;
  let rhs := at_ r i :: cs in
  let addends :=
    foldl (λ ad j, push_back (i + j) (at_ rhs j) ad) addends (range 1 (1 + m)) in
  halfadder (addends !!! i) rhs;;;
  ret addends.

Definition add2 (label : string) (r a b : list Z) : M unit :=
  comment "add2";;;
  if config_use_tseitin_adders cfg then
    c <- new_vars "carry" 31 true;;
    t0 <- new_vars "t0" 31 true;;
    t1 <- new_vars "t1" 31 true;;
    t2 <- new_vars "t2" 31 true;;
    and2 c a b 1;;;
    xor2 r a b 1;;;
    xor2 t0 (drop 1 a) (drop 1 b) 31;;;
    and2 t1 (drop 1 a) (drop 1 b) 31;;;
    and2 t2 t0 c 31;;;
    or2 (drop 1 c) t1 t2 30;;;
    xor2 (drop 1 r) t0 c 31
  else if config_use_compact_adders cfg then
    modify (put_opb
      [OConstraint (pow_terms a ++ pow_terms b ++ neg_pow_terms r) Eq 0]);;;
    modify incr_nr_constraints
  else
    foldM (adder_column label r (λ i, [at_ a i; at_ b i]))
          (replicate (32 + 5) []) (range 0 32);;;
    ret tt.

Definition add5 (label : string) (r a b c d e : list Z) : M unit :=
  comment "add5";;;
  if config_use_tseitin_adders cfg then
    t0 <- new_vars "t0" 32 true;;
    t1 <- new_vars "t1" 32 true;;
    t2 <- new_vars "t2" 32 true;;
    add2 label t0 a b;;;
    add2 label t1 c d;;;
    add2 label t2 t0 t1;;;
    add2 label r t2 e
  else if config_use_compact_adders cfg then
    modify (put_opb
      [OConstraint (pow_terms a ++ pow_terms b ++ pow_terms c ++
                    pow_terms d ++ pow_terms e ++ neg_pow_terms r) Eq 0]);;;
    modify incr_nr_constraints
  else
    foldM (adder_column label r
             (λ i, [at_ a i; at_ b i; at_ c i; at_ d i; at_ e i]))
          (replicate (32 + 5) []) (range 0 32);;;
    ret tt.


(** Rotation is a rewiring. *)
Definition rotl (x : list Z) (n : nat) : list Z :=
  map (λ i, at_ x ((i + 32 - n) mod 32)) (seq 0 32).

(** *** The SHA-1 circuit (class [sha1]) *)

(** The members [w], [h_in], [h_out] and [a] of the class.  An array of
    words is a list of words; an entry that was never written is the empty
    word (the program reads only entries it has written). *)
Record sha1 := Sha1 {
  sha1_w : list (list Z);
  sha1_h_in : list (list Z);
  sha1_h_out : list (list Z);
  sha1_a : list (list Z)
}.

(** The mixing function of round [i], on the words [f], [b], [c], [d]. *)
Definition round_f (i : nat) (f b c d : list Z) : M unit :=
  if (i <? 20)%nat then
    forM (range 0 32) (λ j,
      clause [- at_ f j; - at_ b j; at_ c j];;;
      clause [- at_ f j; at_ b j; at_ d j];;;
      clause [- at_ f j; at_ c j; at_ d j];;;
      clause [at_ f j; - at_ b j; - at_ c j];;;
      clause [at_ f j; at_ b j; - at_ d j];;;
      clause [at_ f j; - at_ c j; - at_ d j])
  else if (i <? 40)%nat then
    xor3 f b c d 32
  else if (i <? 60)%nat then
    forM (range 0 32) (λ j,
      clause [- at_ f j; at_ b j; at_ c j];;;
      clause [- at_ f j; at_ b j; at_ d j];;;
      clause [- at_ f j; at_ c j; at_ d j];;;
      clause [at_ f j; - at_ b j; - at_ c j];;;
      clause [at_ f j; - at_ b j; - at_ d j];;;
      clause [at_ f j; - at_ c j; - at_ d j])
  else if (i <? 80)%nat then
    xor3 f b c d 32
  else ret tt.

(** One iteration of the round loop. *)
Definition sha1_round (w k a : list (list Z)) (i : nat) : M unit :=
  let prev_a := rotl (a !!! (i + 4)%nat) 5 in
  let b := rotl (a !!! (i + 3)%nat) 0 in
  let c := rotl (a !!! (i + 2)%nat) 30 in
  let d := rotl (a !!! (i + 1)%nat) 30 in
  let e := rotl (a !!! (i + 0)%nat) 30 in
  f <- new_vars ("f[" +:+ pretty i +:+ "]") 32 true;;
  round_f i f b c d;;;
  add5 ("a[" +:+ pretty (i + 5)%nat +:+ "]") (a !!! (i + 5)%nat)
       prev_a f e (k !!! (i / 20)%nat) (w !!! i).

(** The constructor [sha1(nr_rounds, name)]. *)
Definition sha1_new (nr_rounds : nat) (name : string) : M sha1 :=
  comment "sha1";;;
  comment ("parameter nr_rounds = " +:+ pretty nr_rounds);;;
  w <- foldM (λ w i,
         x <- new_vars ("w" +:+ name +:+ "[" +:+ pretty i +:+ "]") 32
                       (negb (config_restrict_branching cfg));;
         ret (<[i := x]> w)) (replicate 80 []) (range 0 16);;
  wt <- foldM (λ wt i,
          x <- new_vars ("w" +:+ name +:+ "[" +:+ pretty i +:+ "]") 32 true;;
          ret (<[i := x]> wt)) (replicate 80 []) (range 16 nr_rounds);;
  h_in0 <- new_vars ("h" +:+ name +:+ "_in0") 32 true;;
  h_in1 <- new_vars ("h" +:+ name +:+ "_in1") 32 true;;
  h_in2 <- new_vars ("h" +:+ name +:+ "_in2") 32 true;;
  h_in3 <- new_vars ("h" +:+ name +:+ "_in3") 32 true;;
  h_in4 <- new_vars ("h" +:+ name +:+ "_in4") 32 true;;
  h_out0 <- new_vars ("h" +:+ name +:+ "_out0") 32 true;;
  h_out1 <- new_vars ("h" +:+ name +:+ "_out1") 32 true;;
  h_out2 <- new_vars ("h" +:+ name +:+ "_out2") 32 true;;
  h_out3 <- new_vars ("h" +:+ name +:+ "_out3") 32 true;;
  h_out4 <- new_vars ("h" +:+ name +:+ "_out4") 32 true;;
  a <- foldM (λ a i,
         x <- new_vars ("a[" +:+ pretty (i + 5)%nat +:+ "]") 32 true;;
         ret (<[(i + 5)%nat := x]> a)) (replicate 85 []) (range 0 nr_rounds);;
  w <- foldM (λ w i,
         xor4 (wt !!! i) (w !!! (i - 3)%nat) (w !!! (i - 8)%nat)
              (w !!! (i - 14)%nat) (w !!! (i - 16)%nat);;;
         ret (<[i := rotl (wt !!! i) 1]> w)) w (range 16 nr_rounds);;
  (* Fix constants *)
  k0 <- new_constant "k[0]" 0x5a827999;;
  k1 <- new_constant "k[1]" 0x6ed9eba1;;
  k2 <- new_constant "k[2]" 0x8f1bbcdc;;
  k3 <- new_constant "k[3]" 0xca62c1d6;;
  let k := [k0; k1; k2; k3] in
  constant32 h_in0 0x67452301;;;
  constant32 h_in1 0xefcdab89;;;
  constant32 h_in2 0x98badcfe;;;
  constant32 h_in3 0x10325476;;;
  constant32 h_in4 0xc3d2e1f0;;;
  let a := <[4%nat := rotl h_in0 (32 - 0)]> a in
  let a := <[3%nat := rotl h_in1 (32 - 0)]> a in
  let a := <[2%nat := rotl h_in2 (32 - 30)]> a in
  let a := <[1%nat := rotl h_in3 (32 - 30)]> a in
  let a := <[0%nat := rotl h_in4 (32 - 30)]> a in
  forM (range 0 nr_rounds) (sha1_round w k a);;;
  (* Rotate back *)
  let c := rotl (a !!! (nr_rounds + 2)%nat) 30 in
  let d := rotl (a !!! (nr_rounds + 1)%nat) 30 in
  let e := rotl (a !!! (nr_rounds + 0)%nat) 30 in
  add2 "h_out" h_out0 h_in0 (a !!! (nr_rounds + 4)%nat);;;
  add2 "h_out" h_out1 h_in1 (a !!! (nr_rounds + 3)%nat);;;
  add2 "h_out" h_out2 h_in2 c;;;
  add2 "h_out" h_out3 h_in3 d;;;
  add2 "h_out" h_out4 h_in4 e;;;
  ret (Sha1 w [h_in0; h_in1; h_in2; h_in3; h_in4]
            [h_out0; h_out1; h_out2; h_out3; h_out4] a).

End Encoder.

(** ** The native reference computation *)

(** [rotl] on [uint32_t]. *)
Definition rotl32 (x : Z) (n : Z) : Z :=
  Z.lor (wrap32 (Z.shiftl x n)) (Z.shiftr x (32 - n)).

(** The five working variables of the compression loop. *)
Record regs := Regs { reg_a : Z; reg_b : Z; reg_c : Z; reg_d : Z; reg_e : Z }.

(** [f] and [k] of round [i]; past round 79 the source leaves them
    unassigned. *)
Definition native_f (i : nat) (b c d : Z) : Z :=
  if (i <? 20)%nat then Z.lor (Z.land b c) (Z.land (wrap32 (Z.lnot b)) d)
  else if (i <? 40)%nat then Z.lxor (Z.lxor b c) d
  else if (i <? 60)%nat then
    Z.lor (Z.lor (Z.land b c) (Z.land b d)) (Z.land c d)
  else if (i <? 80)%nat then Z.lxor (Z.lxor b c) d
  else 0.

Definition native_k (i : nat) : Z :=
  if (i <? 20)%nat then 0x5A827999
  else if (i <? 40)%nat then 0x6ED9EBA1
  else if (i <? 60)%nat then 0x8F1BBCDC
  else if (i <? 80)%nat then 0xCA62C1D6
  else 0.

Definition native_round (w : list Z) (s : regs) (i : nat) : regs :=
  let f := native_f i (reg_b s) (reg_c s) (reg_d s) in
  let k := native_k i in
  let t := wrap32 (rotl32 (reg_a s) 5 + f + reg_e s + k + w !!! i) in
  Regs t (reg_a s) (rotl32 (reg_b s) 30) (reg_c s) (reg_d s).

(** The message schedule, written into [w] in place. *)
Definition native_schedule (nr_rounds : nat) (w : list Z) : list Z :=
  foldl (λ w i,
    <[i := rotl32 (Z.lxor (Z.lxor (Z.lxor (w !!! (i - 3)%nat) (w !!! (i - 8)%nat))
                                  (w !!! (i - 14)%nat)) (w !!! (i - 16)%nat)) 1]> w)
    w (range 16 nr_rounds).

(** [sha1_forward(nr_rounds, w, h_out)]: the value left in [h_out]. *)
Definition sha1_forward (nr_rounds : nat) (w : list Z) : list Z :=
  let h0 := 0x67452301 in
  let h1 := 0xEFCDAB89 in
  let h2 := 0x98BADCFE in
  let h3 := 0x10325476 in
  let h4 := 0xC3D2E1F0 in
  let w := native_schedule nr_rounds w in
  let s := foldl (native_round w) (Regs h0 h1 h2 h3 h4) (range 0 nr_rounds) in
  [wrap32 (h0 + reg_a s); wrap32 (h1 + reg_b s); wrap32 (h2 + reg_c s);
   wrap32 (h3 + reg_d s); wrap32 (h4 + reg_e s)].

(** ** The attack layer *)

(** What the C library's generators deliver after seeding: the successive
    results of [lrand48()] and the outcome of the successive calls of
    [std::random_shuffle]. *)
Record randomness := Randomness {
  lrand48 : nat → Z;
  random_shuffle : nat → list nat → list nat
}.

Section Attacks.

Variable cfg : config.
Variable espresso : list string → list string.
Variable rnd : randomness.

(** The known-valid message: [w[i] = lrand48()] for [i < 16]. *)
Definition reference_message : list Z :=
  foldl (λ w i, <[i := wrap32 (lrand48 rnd i)]> w) (replicate 80 0) (range 0 16).

(** [(w[r] >> s) & 1] *)
Definition native_bit (w : list Z) (r s : nat) : bool :=
  Z.testbit (w !!! r) (Z.of_nat s).

(** The loop pinning hash bits, shared by both preimage attacks. *)
Definition fix_hash_bits (f : sha1) (h : list Z) : M unit :=
  comment ("Fix " +:+ pretty (config_nr_hash_bits cfg) +:+ " hash bits");;;
  let hash_bits := random_shuffle rnd 1 (seq 0 160) in
  forM (range 0 (config_nr_hash_bits cfg)) (λ i,
    let r := (nth i hash_bits 0 / 32)%nat in
    let s := (nth i hash_bits 0 mod 32)%nat in
    constant (at_ (sha1_h_out f !!! r) s) (native_bit h r s)).

Definition preimage : M unit :=
  f <- sha1_new cfg espresso (config_nr_rounds cfg) "";;
  let h := sha1_forward (config_nr_rounds cfg) reference_message in
  (* [sha1_forward] has expanded [w] in place *)
  let w := native_schedule (config_nr_rounds cfg) reference_message in
  comment ("Fix " +:+ pretty (config_nr_message_bits cfg) +:+ " message bits");;;
  let message_bits := random_shuffle rnd 0 (seq 0 512) in
  forM (range 0 (config_nr_message_bits cfg)) (λ i,
    let r := (nth i message_bits 0 / 32)%nat in
    let s := (nth i message_bits 0 mod 32)%nat in
    constant (at_ (sha1_w f !!! r) s) (native_bit w r s));;;
  fix_hash_bits f h.

Definition second_preimage : M unit :=
  f <- sha1_new cfg espresso (config_nr_rounds cfg) "";;
  let h := sha1_forward (config_nr_rounds cfg) reference_message in
  (* [sha1_forward] has expanded [w] in place *)
  let w := native_schedule (config_nr_rounds cfg) reference_message in
  comment ("Fix " +:+ pretty (config_nr_message_bits cfg) +:+ " message bits");;;
  let message_bits := random_shuffle rnd 0 (seq 0 512) in
  (* Flip the first bit *)
  (if (0 <? config_nr_message_bits cfg)%nat then
     let r := (nth 0 message_bits 0 / 32)%nat in
     let s := (nth 0 message_bits 0 mod 32)%nat in
     constant (at_ (sha1_w f !!! r) s) (negb (native_bit w r s))
   else ret tt);;;
  forM (range 1 (config_nr_message_bits cfg)) (λ i,
    let r := (nth i message_bits 0 / 32)%nat in
    let s := (nth i message_bits 0 mod 32)%nat in
    constant (at_ (sha1_w f !!! r) s) (native_bit w r s));;;
  fix_hash_bits f h.

Definition collision : M unit :=
  f <- sha1_new cfg espresso (config_nr_rounds cfg) "0";;
  g <- sha1_new cfg espresso (config_nr_rounds cfg) "1";;
  (if (0 <? config_nr_message_bits cfg)%nat then
     modify (put_cerr "warning: collision attacks do not use fixed message bits")
   else ret tt);;;
  comment ("Fix " +:+ pretty (config_nr_message_bits cfg) +:+ " message bits");;;
  let message_bits := random_shuffle rnd 0 (seq 0 512) in
  (* Flip some random bit *)
  (let r := (nth 0 message_bits 0 / 32)%nat in
   let s := (nth 0 message_bits 0 mod 32)%nat in
   neq cfg (drop s (sha1_w f !!! r)) (drop s (sha1_w g !!! r)) 1);;;
  comment ("Fix " +:+ pretty (config_nr_hash_bits cfg) +:+ " hash bits");;;
  let hash_bits := random_shuffle rnd 1 (seq 0 160) in
  forM (range 0 (config_nr_hash_bits cfg)) (λ i,
    let r := (nth i hash_bits 0 / 32)%nat in
    let s := (nth i hash_bits 0 mod 32)%nat in
    eq cfg (drop s (sha1_h_out f !!! r)) (drop s (sha1_h_out g !!! r)) 1).

End Attacks.

(** ** The driver *)

(** The parsed command line (the [variables_map]): how often [--help] and
    [--attack] occur, the values given, the flags present. *)
Record options := Options {
  opt_help : bool;
  opt_attack : list string;
  opt_seed : option Z;
  opt_rounds : option nat;
  opt_message_bits : option nat;
  opt_hash_bits : option nat;
  opt_cnf : bool;
  opt_opb : bool;
  opt_tseitin_adders : bool;
  opt_xor : bool;
  opt_halfadder : bool;
  opt_restrict_branching : bool;
  opt_compact_adders : bool
}.

(** What is written to standard output. *)
Inductive out_chunk :=
  | OutHelp                                         (* the option summary *)
  | OutCnf (nv nc : Z) (body : list cnf_line)       (* p cnf <nv> <nc>, buffer *)
  | OutOpb (nv nc : Z) (body : list opb_line).      (* * #variable= ..., buffer *)

Record outcome := Outcome {
  exit_code : Z;
  stdout : list out_chunk;
  stderr : list string
}.

Definition EXIT_FAILURE : Z := 1.

Section Driver.

Variable espresso : list string → list string.
(** [srand(seed); srand48(rand())]: the generators as seeded by [seed]. *)
Variable libc : Z → randomness.

(** The configuration after the command line is processed; [None] with the
    message when [--attack] is refused. *)
Definition configure (opts : options) : string + config :=
  let attack :=
    match opt_attack opts with
    | [] => inr (config_attack default_config)
    | [x] => inr x
    | _ => inl "Can only specify --attack once"
    end in
  match attack with
  | inl msg => inl msg
  | inr attack =>
      if negb (String.eqb attack "preimage") &&
         negb (String.eqb attack "second-preimage") &&
         negb (String.eqb attack "collision")
      then inl "Invalid --attack"
      else inr
        {| config_attack := attack;
           config_nr_rounds :=
             default (config_nr_rounds default_config) (opt_rounds opts);
           config_nr_message_bits :=
             default (config_nr_message_bits default_config) (opt_message_bits opts);
           config_nr_hash_bits :=
             default (config_nr_hash_bits default_config) (opt_hash_bits opts);
           config_cnf := opt_cnf opts;
           config_opb := opt_opb opts;
           config_use_xor_clauses := opt_xor opts;
           config_use_halfadder_clauses := opt_halfadder opts;
           config_use_tseitin_adders := opt_tseitin_adders opts;
           config_restrict_branching := opt_restrict_branching opts;
           config_use_compact_adders := opt_compact_adders opts |}
  end.

(** The checks after the command line block. *)
Definition check_config (cfg : config) : option string :=
  if negb (config_cnf cfg) && negb (config_opb cfg)
  then Some "Must specify either --cnf or --opb"
  else if config_use_xor_clauses cfg && negb (config_cnf cfg)
  then Some "Cannot specify --xor without --cnf"
  else if config_use_halfadder_clauses cfg && negb (config_cnf cfg)
  then Some "Cannot specify --halfadder without --cnf"
  else if config_use_compact_adders cfg && negb (config_opb cfg)
  then Some "Cannot specify --compact-adders without --opb"
  else None.

(** Everything between the checks and the flush. *)
Definition generate (cfg : config) (argv : list string) (seed : Z) : M unit :=
  comment "";;;
  comment "Instance generated by sha1-sat";;;
  comment "Written by Vegard Nossum <vegard.nossum@gmail.com>";;;
  comment "<https://github.com/vegard/sha1-sat>";;;
  comment "";;;
  comment ("command line: " +:+ String.concat " " argv);;;
  comment ("parameter seed = " +:+ pretty seed);;;
  let rnd := libc seed in
  if String.eqb (config_attack cfg) "preimage" then
    preimage cfg espresso rnd
  else if String.eqb (config_attack cfg) "second-preimage" then
    second_preimage cfg espresso rnd
  else if String.eqb (config_attack cfg) "collision" then
    collision cfg espresso rnd
  else ret tt.

(** The flush to standard output. *)
Definition flush (cfg : config) (st : state) : list out_chunk :=
  (if config_cnf cfg
   then [OutCnf (nr_variables st) (nr_clauses st) (cnf st)] else []) ++
  (if config_opb cfg
   then [OutOpb (nr_variables st) (nr_constraints st) (opb st)] else []).

(** [main]: [argv] as typed, its parse [opts], and [now], the value of
    [time(0)]. *)
Definition main (argv : list string) (opts : options) (now : Z) : outcome :=
  let seed := default now (opt_seed opts) in
  if opt_help opts then Outcome 0 [OutHelp] []
  else
    match configure opts with
    | inl msg => Outcome EXIT_FAILURE [] [msg]
    | inr cfg =>
        match check_config cfg with
        | Some msg => Outcome EXIT_FAILURE [] [msg]
        | None =>
            let st := (generate cfg argv seed initial_state).2 in
            Outcome 0 (flush cfg st) (cerr st)
        end
    end.

End Driver.


(** * Specification vocabulary *)

(** A word whose first [n] entries are allocated variables. *)
Definition posw (n : nat) (xs : list Z) : Prop :=
  ∀ i, (i < n)%nat → 0 < at_ xs i.

(** A full 32-bit word of the circuit. *)
Definition word32 (xs : list Z) : Prop := length xs = 32%nat ∧ posw 32 xs.

(** *** What is asked of the minimizer

    The answer for a shape [(n, m)] is checked row by row: over the
    variables [1 .. n + m], the clauses read back hold exactly on the rows
    whose first [n] bits sum to the number spelled by the last [m] bits,
    most significant first. *)

Fixpoint all_rows (k : nat) : list (list bool) :=
  match k with
  | O => [[]]
  | S k' => flat_map (λ r, [false :: r; true :: r]) (all_rows k')
  end.

Definition row_assignment (row : list bool) : assignment :=
  λ v, nth (Z.to_nat (v - 1)) row false.

Definition shape_lhs (n : nat) : list Z :=
  map (λ i, Z.of_nat i + 1) (seq 0 n).
Definition shape_rhs (n m : nat) : list Z :=
  rev (map (λ i, Z.of_nat i + 1) (seq n m)).

Definition exact_cover (n m : nat) (cl : list (list Z)) : bool :=
  forallb (λ row,
    Bool.eqb (forallb (clause_sat (row_assignment row)) cl)
             (halfadder_sat (row_assignment row) (shape_lhs n) (shape_rhs n m)))
    (all_rows (n + m)).

(** The column shapes of the 2-input and 5-input adders. *)
Definition adder_shapes : list (nat * nat) :=
  [(2, 2); (3, 2); (5, 3); (6, 3); (7, 3)]%nat.

Definition minimizer_exact (espresso : list string → list string) : bool :=
  forallb (λ s, exact_cover s.1 s.2
                  (read_espresso (s.1 + s.2) (espresso (pla_input s.1 s.2))))
          adder_shapes.

Section Logic.

Variable cfg : config.
Variable espresso : list string → list string.

(** The cache holds nothing but answers of the minimizer. *)
Definition cache_ok (st : state) : Prop :=
  ∀ n m cl, cache st !! (n, m) = Some cl →
            cl = read_espresso (n + m) (espresso (pla_input n m)).

Definition inv (st : state) : Prop := 0 ≤ nr_variables st ∧ cache_ok st.

(** The assignment satisfies what [main] prints of the lines [dc], [do]. *)
Definition printed (ρ : assignment) (dc : list cnf_line) (do : list opb_line)
  : Prop :=
  (config_cnf cfg = true → sat_cnf ρ dc = true) ∧
  (config_opb cfg = true → sat_opb ρ do = true).

(** The configurations [main] accepts; where only the CNF is printed and
    its adder columns come from the minimizer, the minimizer is trusted. *)
Definition sound_cfg : Prop :=
  check_config cfg = None ∧
  (config_opb cfg = false → config_use_tseitin_adders cfg = false →
   config_use_halfadder_clauses cfg = false → minimizer_exact espresso = true).

(** The configurations in which both buffers carry every constraint. *)
Definition equiv_cfg : Prop :=
  config_use_xor_clauses cfg = false ∧
  (config_use_tseitin_adders cfg = true ∨ config_use_compact_adders cfg = false) ∧
  (config_use_tseitin_adders cfg = false →
   config_use_halfadder_clauses cfg = false → minimizer_exact espresso = true).

Definition holds (ρ : assignment) (dc : list cnf_line) (do : list opb_line)
  : Prop := sound_cfg ∧ printed ρ dc do.

Definition agree (dc : list cnf_line) (do : list opb_line) : Prop :=
  equiv_cfg → ∀ ρ, sat_cnf ρ dc = sat_opb ρ do.

(** [spec m st Q]: run from [st], [m] appends [dc] and [do] to the buffers,
    keeps the invariant, and its result, final state and the appended lines
    satisfy [Q]. *)
Definition spec {A} (m : M A) (st : state)
    (Q : A → state → list cnf_line → list opb_line → Prop) : Prop :=
  ∃ dc do,
    cnf (m st).2 = cnf st ++ dc ∧ opb (m st).2 = opb st ++ do ∧
    inv (m st).2 ∧ agree dc do ∧ Q (m st).1 (m st).2 dc do.

End Logic.

(** *** The quantities of the adder proofs *)

(** The weighted number of true bits waiting in the columns [k] and up. *)
Fixpoint wsum (ρ : assignment) (k j : nat) (ad : list (list Z)) : Z :=
  match ad with
  | [] => 0
  | l :: ad' =>
      (if (k <=? j)%nat then 2 ^ Z.of_nat j * count_true ρ l else 0) +
      wsum ρ k (S j) ad'
  end.

Definition pending (ρ : assignment) (ad : list (list Z)) (k : nat) : Z :=
  wsum ρ k 0 ad.

(** The weighted number of true input bits of the columns below [k]. *)
Fixpoint ins_sum (ρ : assignment) (ins : nat → list Z) (k : nat) : Z :=
  match k with
  | O => 0
  | S k' => ins_sum ρ ins k' + 2 ^ Z.of_nat k' * count_true ρ (ins k')
  end.

(** The pending addends while the columns below [k] are done: 37 columns of
    allocated variables, at most [M] carries waiting in column [k], one less
    in each column above. *)
Definition cols_ok (M k : nat) (ad : list (list Z)) : Prop :=
  length ad = 37%nat ∧
  (∀ j x, x ∈ ad !!! j → 0 < x) ∧
  (∀ j, (k ≤ j)%nat → (length (ad !!! j) ≤ M - (j - k))%nat).

(** The clauses of the selector and of the majority, bit [j]. *)
Definition ch_clauses (f b c d : Z) : list (list Z) :=
  [[- f; - b; c]; [- f; b; d]; [- f; c; d];
   [f; - b; - c]; [f; b; - d]; [f; - c; - d]].

Definition maj_clauses (f b c d : Z) : list (list Z) :=
  [[- f; b; c]; [- f; b; d]; [- f; c; d];
   [f; - b; - c]; [f; - b; - d]; [f; - c; - d]].

(** The mixing function of round [i] on one bit. *)
Definition f_bit (i : nat) (b c d : bool) : bool :=
  if (i <? 20)%nat then (b && c) || (negb b && d)
  else if (i <? 40)%nat then xorb (xorb b c) d
  else if (i <? 60)%nat then (b && c) || (b && d) || (c && d)
  else xorb (xorb b c) d.


(** The working variables of the native loop as the circuit holds them
    before round [i]: [a[i+4]], [a[i+3]], and the three older words rotated
    back. *)
Definition regs_at (ρ : assignment) (a : list (list Z)) (i : nat) : regs :=
  Regs (word_val ρ (a !!! (i + 4)%nat)) (word_val ρ (a !!! (i + 3)%nat))
       (rotl32 (word_val ρ (a !!! (i + 2)%nat)) 30)
       (rotl32 (word_val ρ (a !!! (i + 1)%nat)) 30)
       (rotl32 (word_val ρ (a !!! (i + 0)%nat)) 30).

(** [std::random_shuffle] permutes. *)
Definition shuffle_ok (rnd : randomness) : Prop :=
  ∀ n l, random_shuffle rnd n l ≡ₚ l.

(** The constraint lines [main] printed, by format. *)
Definition printed_cnf (o : outcome) : list cnf_line :=
  flat_map (λ ch, match ch with OutCnf _ _ body => body | _ => [] end) (stdout o).
Definition printed_opb (o : outcome) : list opb_line :=
  flat_map (λ ch, match ch with OutOpb _ _ body => body | _ => [] end) (stdout o).

(** The command lines [main] refuses: --attack given twice or naming no
    attack, no output format, a format-specific flag without its format. *)
Definition refused (opts : options) : Prop :=
  (2 ≤ length (opt_attack opts))%nat ∨
  (∃ x, opt_attack opts = [x] ∧ x ≠ "preimage" ∧ x ≠ "second-preimage" ∧
        x ≠ "collision") ∨
  (opt_cnf opts = false ∧ opt_opb opts = false) ∨
  (opt_xor opts = true ∧ opt_cnf opts = false) ∨
  (opt_halfadder opts = true ∧ opt_cnf opts = false) ∨
  (opt_compact_adders opts = true ∧ opt_opb opts = false).

(** *** Frame properties *)

(** [m] leaves the quantity [μ] of the state as it found it. *)
Definition keeps {T A} (μ : state → T) (m : M A) : Prop :=
  ∀ st, μ (m st).2 = μ st.

(** [m] raises the counter [μ] by [n]. *)
Definition emits {A} (μ : state → nat) (m : M A) (n : nat) : Prop :=
  ∀ st, μ (m st).2 = (μ st + n)%nat.

(** The OPB lines that state a sum: an equation over more than one
    variable (a pinned bit is an equation over one). *)
Definition is_adder_equation (l : opb_line) : bool :=
  match l with
  | OConstraint ts Eq _ => (1 <? length ts)%nat
  | _ => false
  end.

Definition adder_equations (ls : list opb_line) : nat :=
  length (List.filter is_adder_equation ls).

Definition adder_count (st : state) : nat := adder_equations (opb st).

(** The column loop shared by [add2] and [add5] in half-adder mode, on the
    input words [words]; its result is the array [addends]. *)
Definition columns (cfg : config) (espresso : list string → list string)
    (label : string) (r : list Z) (words : list (list Z))
  : M (list (list Z)) :=
  foldM (adder_column cfg espresso label r (λ i, map (λ w, at_ w i) words))
        (replicate (32 + 5) []) (range 0 32).

(** *** Vocabulary of the half-adder and schedule proofs *)

(** The row of the truth table that [ρ] selects. *)
Definition row_of (ρ : assignment) (lhs rhs : list Z) : list bool :=
  map ρ lhs ++ map ρ (rev rhs).

(** The OPB line of a half-adder constraint. *)
Definition ha_opb (lhs rhs : list Z) : opb_line :=
  OConstraint (map (λ x, (1, x)) lhs ++
               imap (λ i x, (- 2 ^ Z.of_nat i, x)) rhs) Eq 0.

(** The CNF lines of a half-adder constraint. *)
Definition ha_cnf (cfg : config) (espresso : list string → list string)
    (lhs rhs : list Z) : list cnf_line :=
  if config_use_halfadder_clauses cfg then [CHalfAdder lhs rhs]
  else map (λ c, CClause (map (halfadder_lit lhs rhs) c))
           (read_espresso (length lhs + length rhs)
              (espresso (pla_input (length lhs) (length rhs)))).

(** One step of the native message schedule. *)
Definition schedule_step (w : list Z) (i : nat) : list Z :=
  <[i := rotl32 (Z.lxor (Z.lxor (Z.lxor (w !!! (i - 3)%nat) (w !!! (i - 8)%nat))
                                (w !!! (i - 14)%nat)) (w !!! (i - 16)%nat)) 1]> w.

(** *** Vocabulary of the attacks *)

(** Entry [i] of the shuffled [message_bits] (the first call of
    [std::random_shuffle]) and of the shuffled [hash_bits] (the second). *)
Definition message_bit (rnd : randomness) (i : nat) : nat :=
  nth i (random_shuffle rnd 0 (seq 0 512)) 0%nat.
Definition hash_bit (rnd : randomness) (i : nat) : nat :=
  nth i (random_shuffle rnd 1 (seq 0 160)) 0%nat.

(** Bit [p] of an array of 32-bit words: bit [p mod 32] of word [p / 32]. *)
Definition bit_at (w : list Z) (p : nat) : bool :=
  native_bit w (p / 32) (p mod 32).

(** *** The counters and the buffers *)

Definition is_clause (l : cnf_line) : bool :=
  match l with CClause _ => true | _ => false end.
Definition is_xor (l : cnf_line) : bool :=
  match l with CXor _ => true | _ => false end.
Definition is_constraint (l : opb_line) : bool :=
  match l with OConstraint _ _ _ => true | _ => false end.

(** How many lines of a buffer satisfy [p]. *)
Definition count_lines {A} (p : A → bool) (ls : list A) : Z :=
  Z.of_nat (length (List.filter p ls)).

(** The counters agree with the buffers; a counter is an [unsigned int]. *)
Definition counted (st : state) : Prop :=
  nr_clauses st = wrap32 (count_lines is_clause (cnf st)) ∧
  nr_xor_clauses st = wrap32 (count_lines is_xor (cnf st)) ∧
  nr_constraints st = wrap32 (count_lines is_constraint (opb st)).

(** [m] keeps the property [P] of the state. *)
Definition preserves {A} (P : state → Prop) (m : M A) : Prop :=
  ∀ st, P st → P (m st).2.

(** What a header of the output says about the body under it. *)
Definition header_ok (ch : out_chunk) : Prop :=
  match ch with
  | OutHelp => True
  | OutCnf nv nc body => nc = wrap32 (count_lines is_clause body)
  | OutOpb nv nc body => nc = wrap32 (count_lines is_constraint body)
  end.

(** *** What a program writes *)

(** [m] appends the lines [dc] to the CNF buffer and [do] to the OPB
    buffer, whatever the state. *)
Definition writes {A} (m : M A) (dc : list cnf_line) (do : list opb_line)
  : Prop :=
  ∀ st, cnf (m st).2 = cnf st ++ dc ∧ opb (m st).2 = opb st ++ do.

(** The OPB line of a clause. *)
Definition clause_line (v : list Z) : opb_line :=
  OConstraint (map (λ x, (1, x)) v) Ge 1.

(** The value of clause and XOR lines, and of OPB lines, on the values [L]
    of the literals. *)
Definition lines_val (L : Z → bool) (ls : list cnf_line) : bool :=
  forallb (λ l, match l with
                | CClause c => existsb L c
                | CXor c => foldr xorb false (map L c)
                | _ => true
                end) ls.
Definition constraints_val (L : Z → bool) (ls : list opb_line) : bool :=
  forallb (λ l, match l with
                | OComment _ => true
                | OConstraint ts Ge k =>
                    k <=? foldr (λ t acc, t.1 * b2z (L t.2) + acc) 0 ts
                | OConstraint ts Eq k =>
                    foldr (λ t acc, t.1 * b2z (L t.2) + acc) 0 ts =? k
                end) ls.

(** [m] appends the lines [l] to standard error. *)
Definition says {A} (m : M A) (l : list string) : Prop :=
  ∀ st, cerr (m st).2 = cerr st ++ l.

(** The lines of the minimizer's answer the read loop skips, and those it
    reads as product terms. *)
Definition is_header (buf : string) : bool :=
  String.prefix ".i" buf || String.prefix ".o" buf || String.prefix ".p" buf.
Definition is_cube (buf : string) : bool :=
  negb (is_header buf) && negb (String.prefix ".e" buf).

(** The one line the generator ever writes to standard error after the
    command line is accepted. *)
Definition collision_warning : string :=
  "warning: collision attacks do not use fixed message bits".


(** *** Vocabulary of the truth table *)

(** A row of bits as the characters 0 and 1. *)
Definition digits (bs : list bool) : string :=
  foldr (λ (b : bool) s, String (if b then "1" else "0")%char s) "" bs.

(** The number spelled by the bits [bs], least significant first. *)
Definition bits_val (bs : list bool) : nat :=
  foldr (λ b acc, (2 * acc + Nat.b2n b)%nat) 0%nat bs.

(** The number of true bits. *)
Definition ones (bs : list bool) : nat :=
  foldr (λ b acc, (Nat.b2n b + acc)%nat) 0%nat bs.

(** The bits [n - 1 .. 0] of [i], then the bits [m - 1 .. 0] of [j]: the
    row of the truth table for the inputs [i] and the outputs [j]. *)
Definition table_row (n m i j : nat) : list bool :=
  map (Nat.testbit i) (rev (seq 0 n)) ++ map (Nat.testbit j) (rev (seq 0 m)).

(** *** Well-formed output *)

(** A variable, and a literal, of an instance with [N] variables. *)
Definition var_ok (N x : Z) : Prop := 1 ≤ x ≤ N.
Definition lit_ok (N l : Z) : Prop := 1 ≤ Z.abs l ≤ N.

(** A CNF line whose literals are literals of the instance; the entries of
    an [h] line are printed as they are, so they have to be variables. *)
Definition cnf_line_ok (N : Z) (l : cnf_line) : Prop :=
  match l with
  | CComment _ => True
  | CHint x => lit_ok N x
  | CClause c => Forall (lit_ok N) c
  | CXor c => Forall (lit_ok N) c
  | CHalfAdder lhs rhs => Forall (var_ok N) lhs ∧ Forall (var_ok N) rhs
  end.

(** An OPB line: the terms of a [>=] line are printed with [~] and [abs],
    those of an [=] line as they are. *)
Definition opb_line_ok (N : Z) (l : opb_line) : Prop :=
  match l with
  | OComment _ => True
  | OConstraint ts Ge _ => Forall (λ t : Z * Z, lit_ok N t.2) ts
  | OConstraint ts Eq _ => Forall (λ t : Z * Z, var_ok N t.2) ts
  end.

(** A chunk of standard output whose body mentions only the variables its
    header declares. *)
Definition chunk_ok (ch : out_chunk) : Prop :=
  match ch with
  | OutHelp => True
  | OutCnf nv _ body => Forall (cnf_line_ok nv) body
  | OutOpb nv _ body => Forall (opb_line_ok nv) body
  end.

(** The cached clauses mention only the positions of their shape. *)
Definition cache_ranged (st : state) : Prop :=
  ∀ n m cl c l, cache st !! (n, m) = Some cl → c ∈ cl → l ∈ c →
                1 ≤ Z.abs l ≤ Z.of_nat (n + m).

(** A state whose buffers are well formed for [N] variables. *)
Definition tidy_state (N : Z) (st : state) : Prop :=
  0 ≤ nr_variables st ∧
  Forall (cnf_line_ok N) (cnf st) ∧ Forall (opb_line_ok N) (opb st) ∧
  cache_ranged st.

(** The first [n] entries of [w] are variables of the instance. *)
Definition fits (N : Z) (n : nat) (w : list Z) : Prop :=
  ∀ i, (i < n)%nat → var_ok N (at_ w i).

(** [m] never lowers the variable counter. *)
Definition grows {A} (m : M A) : Prop :=
  ∀ st, nr_variables st ≤ nr_variables (m st).2.

(** [m], run to a state whose counter is at most [N], keeps the buffers
    well formed for [N] variables and returns a result with [Q]. *)
Definition tidy {A} (N : Z) (m : M A) (Q : A → Prop) : Prop :=
  ∀ st, nr_variables (m st).2 ≤ N → tidy_state N st →
        tidy_state N (m st).2 ∧ Q (m st).1.

(** *** Variable numbering *)

(** The [n] variables that follow [nv]. *)
Definition block (nv : Z) (n : nat) : list Z :=
  map (λ i, nv + 1 + Z.of_nat i) (seq 0 n).

(** Run from [st], [m] returns a result and leaves a variable counter
    with [Q]. *)
Definition numbered {A} (m : M A) (st : state) (Q : A → Z → Prop) : Prop :=
  Q (m st).1 (nr_variables (m st).2).

(** The pending columns while the columns below [k] are done, by length
    alone: at most [M] carries wait in column [k], one less in each column
    above. *)
Definition caps (M k : nat) (ad : list (list Z)) : Prop :=
  length ad = 37%nat ∧
  ∀ j, (k ≤ j)%nat → (length (ad !!! j) ≤ M - (j - k))%nat.

(** The variables an adder allocates: four arrays of 31 in a Tseitin
    [add2], three words and four [add2] in a Tseitin [add5]; none in a
    compact adder; one carry per column of a half-adder [add2], two per
    column of a half-adder [add5]. *)
Definition adder2_vars (cfg : config) : Z :=
  if config_use_tseitin_adders cfg then 4 * 31
  else if config_use_compact_adders cfg then 0 else 32.
Definition adder5_vars (cfg : config) : Z :=
  if config_use_tseitin_adders cfg then 3 * 32 + 4 * (4 * 31)
  else if config_use_compact_adders cfg then 0 else 2 * 32.

(** The variables of one circuit of [R] rounds: the words [w], [h_in],
    [h_out], [a], [k] and [f], and those of its adders. *)
Definition circuit_vars (cfg : config) (R : nat) : Z :=
  32 * (Z.of_nat (Nat.max 16 R) + 10 + Z.of_nat R + 4) +
  Z.of_nat R * (32 + adder5_vars cfg) + 5 * adder2_vars cfg.

(** The variables of an instance: a collision instance has two circuits. *)
Definition instance_vars (cfg : config) : Z :=
  (if String.eqb (config_attack cfg) "collision" then 2 else 1) *
  circuit_vars cfg (config_nr_rounds cfg).

(** A chunk of standard output whose header declares [nv] variables. *)
Definition declares (nv : Z) (ch : out_chunk) : Prop :=
  match ch with
  | OutHelp => True
  | OutCnf n _ _ => n = nv
  | OutOpb n _ _ => n = nv
  end.

(** * Concrete runs *)

(** An assignment given by the 32-bit words it spells, in allocation order:
    variable [v] is bit [(v - 1) mod 32] of word [(v - 1) / 32]. *)
Definition assignment_of_words (ws : list Z) : assignment :=
  λ v, Z.testbit (nth (Z.to_nat ((v - 1) / 32)) ws 0) ((v - 1) mod 32).

(** A minimizer that is never consulted. *)
Definition no_espresso : list string → list string := λ _, [].

(** [--opb], the default adders. *)
Definition opb_config : config :=
  {| config_attack := "preimage";
     config_nr_rounds := 16;
     config_nr_message_bits := 0;
     config_nr_hash_bits := 0;
     config_cnf := false;
     config_opb := true;
     config_use_xor_clauses := false;
     config_use_halfadder_clauses := false;
     config_use_tseitin_adders := false;
     config_restrict_branching := false;
     config_use_compact_adders := false |}.

(** The one-block message "abc", padded. *)
Definition abc_message : list Z :=
  <[15%nat := 0x18]> (<[0%nat := 0x61626380]> (replicate 80 0)).

(** The values the 16-round circuit takes on that message, half-adder
    carries included. *)
Definition abc_assignment : assignment :=
  assignment_of_words
  [0x61626380; 0x00000000; 0x00000000; 0x00000000; 0x00000000; 0x00000000;
   0x00000000; 0x00000000; 0x00000000; 0x00000000; 0x00000000; 0x00000000;
   0x00000000; 0x00000000; 0x00000000; 0x00000018; 0x67452301; 0xefcdab89;
   0x98badcfe; 0x10325476; 0xc3d2e1f0; 0x8802f930; 0x09399a00; 0xfd051aa3;
   0x21b4420f; 0xdc9905e9; 0x0116fc33; 0x8990536d; 0xa1390f08; 0xcdd8e11b;
   0xcfd499de; 0x3fc7ca40; 0x993e30c1; 0x9e8c07d4; 0x4b6ae328; 0x8351f929;
   0xfbda9e89; 0x63188fe4; 0x4607b664; 0x9128f695; 0x196bee77; 0x20bdd62f;
   0x5a827999; 0x6ed9eba1; 0x8f1bbcdc; 0xca62c1d6; 0x98badcfe; 0x6956d990;
   0xa989d949; 0xfbfbfefe; 0x66656654; 0x2648999a; 0x7bf14ac0; 0x6995a655;
   0x26889549; 0xd0411b8c; 0x59899550; 0x26495416; 0x6064b40c; 0x59555541;
   0x26455555; 0x2a6c55c2; 0x5b669595; 0x65445555; 0xe35e5a46; 0x25955599;
   0x69496555; 0xf3f53246; 0x26455549; 0x59566559; 0x2bf136b6; 0x5a949259;
   0x66499515; 0x077df410; 0x59255255; 0x26666665; 0x27270d30; 0x59525600;
   0x14994926; 0x26f2b8dc; 0x66415695; 0x5999655a; 0x60d03e4a; 0x59959595;
   0x59499505; 0x62d4f7aa; 0x99959484; 0x2548a258; 0x38f623e2; 0x26499544;
   0x59549224; 0x19c6e5f9; 0x9966a645; 0x26a66558; 0x67fd060f; 0xffcfefff;
   0x00fafdfc; 0x1003fdf0; 0x03c6e3f0].

(** A C library whose generators deliver zeros and leave vectors in
    order. *)
Definition still_libc : Z → randomness :=
  λ _, {| lrand48 := λ _, 0; random_shuffle := λ _ l, l |}.

Definition no_options : options :=
  {| opt_help := false; opt_attack := []; opt_seed := None;
     opt_rounds := None; opt_message_bits := None; opt_hash_bits := None;
     opt_cnf := false; opt_opb := false; opt_tseitin_adders := false;
     opt_xor := false; opt_halfadder := false;
     opt_restrict_branching := false; opt_compact_adders := false |}.

(** [./main --cnf --opb --compact-adders --rounds 16 --hash-bits 0 --seed 1] *)
Definition compact_argv : list string :=
  ["./main"; "--cnf"; "--opb"; "--compact-adders"; "--rounds"; "16";
   "--hash-bits"; "0"; "--seed"; "1"].
Definition compact_options : options :=
  {| opt_help := false; opt_attack := []; opt_seed := Some 1;
     opt_rounds := Some 16%nat; opt_message_bits := None;
     opt_hash_bits := Some 0%nat;
     opt_cnf := true; opt_opb := true; opt_tseitin_adders := false;
     opt_xor := false; opt_halfadder := false;
     opt_restrict_branching := false; opt_compact_adders := true |}.

(** The constants pinned, the round functions evaluated on them, all else
    at zero: it satisfies every clause of the compact-mode CNF. *)
Definition compact_assignment : assignment :=
  assignment_of_words
  [0x00000000; 0x00000000; 0x00000000; 0x00000000; 0x00000000; 0x00000000;
   0x00000000; 0x00000000; 0x00000000; 0x00000000; 0x00000000; 0x00000000;
   0x00000000; 0x00000000; 0x00000000; 0x00000000; 0x67452301; 0xefcdab89;
   0x98badcfe; 0x10325476; 0xc3d2e1f0; 0x00000000; 0x00000000; 0x00000000;
   0x00000000; 0x00000000; 0x00000000; 0x00000000; 0x00000000; 0x00000000;
   0x00000000; 0x00000000; 0x00000000; 0x00000000; 0x00000000; 0x00000000;
   0x00000000; 0x00000000; 0x00000000; 0x00000000; 0x00000000; 0x00000000;
   0x5a827999; 0x6ed9eba1; 0x8f1bbcdc; 0xca62c1d6; 0x98badcfe; 0xfbfbfefe;
   0x7bf36ae2; 0x59d148c0; 0x00000000; 0x00000000; 0x00000000; 0x00000000;
   0x00000000; 0x00000000; 0x00000000; 0x00000000; 0x00000000; 0x00000000;
   0x00000000; 0x00000000].

(** [./main --cnf --opb --tseitin-adders --rounds 16 --seed 1] *)
Definition tseitin_argv : list string :=
  ["./main"; "--cnf"; "--opb"; "--tseitin-adders"; "--rounds"; "16";
   "--seed"; "1"].
Definition tseitin_options : options :=
  {| opt_help := false; opt_attack := []; opt_seed := Some 1;
     opt_rounds := Some 16%nat; opt_message_bits := None;
     opt_hash_bits := None;
     opt_cnf := true; opt_opb := true; opt_tseitin_adders := true;
     opt_xor := false; opt_halfadder := false;
     opt_restrict_branching := false; opt_compact_adders := false |}.

(** The words [1..32], [33..64], [65..96] and [97..128]. *)
Definition word_from (first : Z) : list Z :=
  map (λ i, first + Z.of_nat i) (seq 0 32).

(** A state in which the variables [1..96] are allocated. *)
Definition state_96 : state := set_nr_variables 96 initial_state.

(** [--opb --compact-adders] *)
Definition compact_config : config :=
  {| config_attack := "preimage";
     config_nr_rounds := 16;
     config_nr_message_bits := 0;
     config_nr_hash_bits := 0;
     config_cnf := false;
     config_opb := true;
     config_use_xor_clauses := false;
     config_use_halfadder_clauses := false;
     config_use_tseitin_adders := false;
     config_restrict_branching := false;
     config_use_compact_adders := true |}.

(** [a = b = 0x80000000] on the words [1..32] and [33..64], [r = 0] on
    [65..96]. *)
Definition wrap_assignment : assignment := λ v, (v =? 32) || (v =? 64).

(** [./main --cnf --halfadder --restrict-branching --rounds 16 --hash-bits 0
    --seed 1] *)
Definition restrict_argv : list string :=
  ["./main"; "--cnf"; "--halfadder"; "--restrict-branching"; "--rounds"; "16";
   "--hash-bits"; "0"; "--seed"; "1"].
Definition restrict_options : options :=
  {| opt_help := false; opt_attack := []; opt_seed := Some 1;
     opt_rounds := Some 16%nat; opt_message_bits := None;
     opt_hash_bits := Some 0%nat;
     opt_cnf := true; opt_opb := false; opt_tseitin_adders := false;
     opt_xor := false; opt_halfadder := true;
     opt_restrict_branching := true; opt_compact_adders := false |}.

Definition is_hint (l : cnf_line) : bool :=
  match l with CHint _ => true | _ => false end.

(** The same command line under the name the benchmark script uses. *)
Definition compact_argv' : list string :=
  ["./sha1-sat"; "--cnf"; "--opb"; "--compact-adders"; "--rounds"; "16";
   "--hash-bits"; "0"; "--seed"; "1"].

(** [./main --cnf --halfadder --rounds 15 --hash-bits 0 --seed 1] *)
Definition short_argv : list string :=
  ["./main"; "--cnf"; "--halfadder"; "--rounds"; "15"; "--hash-bits"; "0";
   "--seed"; "1"].
Definition short_options : options :=
  {| opt_help := false; opt_attack := []; opt_seed := Some 1;
     opt_rounds := Some 15%nat; opt_message_bits := None;
     opt_hash_bits := Some 0%nat;
     opt_cnf := true; opt_opb := false; opt_tseitin_adders := false;
     opt_xor := false; opt_halfadder := true;
     opt_restrict_branching := false; opt_compact_adders := false |}.

(** [./main --xor --opb] *)
Definition xor_opb_options : options :=
  {| opt_help := false; opt_attack := []; opt_seed := None;
     opt_rounds := None; opt_message_bits := None; opt_hash_bits := None;
     opt_cnf := false; opt_opb := true; opt_tseitin_adders := false;
     opt_xor := true; opt_halfadder := false;
     opt_restrict_branching := false; opt_compact_adders := false |}.

(** The flags of [compact_argv] in another order. *)
Definition compact_argv_reordered : list string :=
  ["./main"; "--opb"; "--cnf"; "--compact-adders"; "--rounds"; "16";
   "--hash-bits"; "0"; "--seed"; "1"].

(** [--cnf --opb --halfadder] *)
Definition halfadder_config : config :=
  {| config_attack := "preimage";
     config_nr_rounds := 16;
     config_nr_message_bits := 0;
     config_nr_hash_bits := 0;
     config_cnf := true;
     config_opb := true;
     config_use_xor_clauses := false;
     config_use_halfadder_clauses := true;
     config_use_tseitin_adders := false;
     config_restrict_branching := false;
     config_use_compact_adders := false |}.

Definition all_false : assignment := λ _, false.
(** Only variable 128 true. *)
Definition only_128 : assignment := λ v, v =? 128.

(** [./main --opb --compact-adders --attack preimage --rounds 80
    --hash-bits 160 --seed 1] *)
Definition compact80_argv : list string :=
  ["./main"; "--opb"; "--compact-adders"; "--attack"; "preimage"; "--rounds";
   "80"; "--hash-bits"; "160"; "--seed"; "1"].
Definition compact80_options : options :=
  {| opt_help := false; opt_attack := ["preimage"]; opt_seed := Some 1;
     opt_rounds := Some 80%nat; opt_message_bits := None;
     opt_hash_bits := Some 160%nat;
     opt_cnf := false; opt_opb := true; opt_tseitin_adders := false;
     opt_xor := false; opt_halfadder := false;
     opt_restrict_branching := false; opt_compact_adders := true |}.
Definition compact80_config : config :=
  {| config_attack := "preimage";
     config_nr_rounds := 80;
     config_nr_message_bits := 0;
     config_nr_hash_bits := 160;
     config_cnf := false;
     config_opb := true;
     config_use_xor_clauses := false;
     config_use_halfadder_clauses := false;
     config_use_tseitin_adders := false;
     config_restrict_branching := false;
     config_use_compact_adders := true |}.

(** [./main --opb --compact-adders --attack second-preimage --rounds 16
    --message-bits 0 --hash-bits 8 --seed 1] *)
Definition second_argv : list string :=
  ["./main"; "--opb"; "--compact-adders"; "--attack"; "second-preimage";
   "--rounds"; "16"; "--message-bits"; "0"; "--hash-bits"; "8"; "--seed"; "1"].
Definition second_options : options :=
  {| opt_help := false; opt_attack := ["second-preimage"]; opt_seed := Some 1;
     opt_rounds := Some 16%nat; opt_message_bits := Some 0%nat;
     opt_hash_bits := Some 8%nat;
     opt_cnf := false; opt_opb := true; opt_tseitin_adders := false;
     opt_xor := false; opt_halfadder := false;
     opt_restrict_branching := false; opt_compact_adders := true |}.
Definition second_config : config :=
  {| config_attack := "second-preimage";
     config_nr_rounds := 16;
     config_nr_message_bits := 0;
     config_nr_hash_bits := 8;
     config_cnf := false;
     config_opb := true;
     config_use_xor_clauses := false;
     config_use_halfadder_clauses := false;
     config_use_tseitin_adders := false;
     config_restrict_branching := false;
     config_use_compact_adders := true |}.

(** A generator whose reference message is "abc" and whose shuffles leave
    the order alone. *)
Definition abc_rnd : randomness :=
  {| lrand48 := λ i, abc_message !!! i; random_shuffle := λ _ l, l |}.

(** "abc" with the lowest bit of its first word flipped. *)
Definition flipped_message : list Z := <[0%nat := 0x61626381]> abc_message.

(** The values the 16-round circuit takes on the flipped message. *)
Definition flipped_assignment : assignment :=
  assignment_of_words
  [0x61626381; 0x00000000; 0x00000000; 0x00000000; 0x00000000; 0x00000000;
   0x00000000; 0x00000000; 0x00000000; 0x00000000; 0x00000000; 0x00000000;
   0x00000000; 0x00000000; 0x00000000; 0x00000018; 0x67452301; 0xefcdab89;
   0x98badcfe; 0x10325476; 0xc3d2e1f0; 0x37792cba; 0x8a9c8554; 0xcbe4047a;
   0x057c7351; 0xf1242c41; 0x0116fc34; 0x8990538d; 0xa139130a; 0x4dd9611c;
   0x8fe4a1e9; 0x81c8caba; 0x196e2a0f; 0x449418bd; 0x636f0c06; 0x10cf4d62;
   0xda13df10; 0xb5452944; 0xd5287b6f; 0xcca49df0; 0x9aced9cb; 0xd03409b9;
   0x5a827999; 0x6ed9eba1; 0x8f1bbcdc; 0xca62c1d6; 0x98badcfe; 0x6956d995;
   0xa989d949; 0xfbfbfefe; 0x66656654; 0x2648999a; 0x7bf14ac2; 0x6995a655;
   0x26889549; 0x50411b4d; 0x59966555; 0x26495409; 0x2064bc07; 0x59954155;
   0x26455555; 0x2a6c54e3; 0x5b625552; 0x59945525; 0x236e4443; 0x22226505;
   0x59495555; 0x13fe187f; 0x25526549; 0x49966499; 0x62f3227e; 0x26499995;
   0x52489509; 0xe4722a83; 0x49449595; 0x68999905; 0xc5358687; 0x49549499;
   0x55559955; 0x51eb430d; 0x65494596; 0x2148998a; 0x80dbd311; 0x55554255;
   0x55449526; 0x3436f35c; 0x69565595; 0x5655559a; 0x2784cec1; 0x99995241;
   0x55254509; 0xe5515ed1; 0x6b666255; 0x59999156; 0xc0040301; 0xffcffb8b;
   0x303bfffc; 0xf0021cfe; 0x0fd3c3f0].

(** Two 16-round circuits in a row (3168 variables each): the first on
    "abc", the second on the flipped message. *)
Definition pair_assignment : assignment :=
  λ v, if v <=? 3168 then abc_assignment v else flipped_assignment (v - 3168).

(** [--opb --rounds 16] with pinned bits: [m] of the message, [h] of the
    hash. *)
Definition pinned_config (attack : string) (m h : nat) : config :=
  {| config_attack := attack;
     config_nr_rounds := 16;
     config_nr_message_bits := m;
     config_nr_hash_bits := h;
     config_cnf := false;
     config_opb := true;
     config_use_xor_clauses := false;
     config_use_halfadder_clauses := false;
     config_use_tseitin_adders := false;
     config_restrict_branching := false;
     config_use_compact_adders := false |}.

(** [--cnf --opb --tseitin-adders]. *)
Definition tseitin_config : config :=
  {| config_attack := "preimage";
     config_nr_rounds := 16;
     config_nr_message_bits := 0;
     config_nr_hash_bits := 0;
     config_cnf := true;
     config_opb := true;
     config_use_xor_clauses := false;
     config_use_halfadder_clauses := false;
     config_use_tseitin_adders := true;
     config_restrict_branching := false;
     config_use_compact_adders := false |}.

(** A minimizer that does not minimize: it answers with the rows of its
    input whose output is 1, one product term for each. *)
Definition echo_espresso : list string → list string :=
  λ input,
    List.filter (λ l, negb (String.prefix "." l) &&
                      bool_decide (String.get (String.length l - 1) l
                                   = Some "1"%char)) input ++ [".e"].

(** Variables 1 and 3 true. *)
Definition one_and_three : assignment := λ v, (v =? 1) || (v =? 3).

(** An answer of the minimizer for two inputs and two outputs. *)
Definition answer_header : list string := [".i 4"; ".o 1"; ".p 2"].
Definition answer_rows : list string := ["01-1 1"; "1-00 1"].

(** [--cnf --attack collision --message-bits 3 --rounds 16 --seed 1]. *)
Definition collision_argv : list string :=
  ["./main"; "--cnf"; "--attack"; "collision"; "--message-bits"; "3";
   "--rounds"; "16"; "--seed"; "1"].
Definition collision_options : options :=
  {| opt_help := false; opt_attack := ["collision"]; opt_seed := Some 1;
     opt_rounds := Some 16%nat; opt_message_bits := Some 3%nat;
     opt_hash_bits := None;
     opt_cnf := true; opt_opb := false; opt_tseitin_adders := false;
     opt_xor := false; opt_halfadder := false;
     opt_restrict_branching := false; opt_compact_adders := false |}.
Definition collision_config : config :=
  {| config_attack := "collision";
     config_nr_rounds := 16;
     config_nr_message_bits := 3;
     config_nr_hash_bits := 160;
     config_cnf := true;
     config_opb := false;
     config_use_xor_clauses := false;
     config_use_halfadder_clauses := false;
     config_use_tseitin_adders := false;
     config_restrict_branching := false;
     config_use_compact_adders := false |}.
(** * Verification *)

(** ** Running the monad *)

Lemma bind_run {A B} (m : M A) (f : A → M B) st :
  bind m f st = f (m st).1 (m st).2.
Proof. unfold bind. by destruct (m st). Qed.

Lemma forM_app {A} (l1 l2 : list A) body :
  ∀ st, forM (l1 ++ l2) body st = forM l2 body (forM l1 body st).2.
Proof.
  induction l1 as [|x l1 IH]; intros st; simpl; [done|].
  rewrite !bind_run. apply IH.
Qed.

Lemma range_S lo hi : (lo ≤ hi)%nat → range lo (S hi) = range lo hi ++ [hi].
Proof.
  intros H. unfold range. replace (S hi - lo)%nat with (S (hi - lo)) by lia.
  rewrite seq_S. do 2 f_equal. lia.
Qed.

Lemma range_lookup lo hi k :
  (k < hi - lo)%nat → range lo hi !! k = Some (lo + k)%nat.
Proof. intros H. unfold range. by apply lookup_seq_lt. Qed.

Lemma range_length lo hi : length (range lo hi) = (hi - lo)%nat.
Proof. apply length_seq. Qed.

(** ** Bits, literals and words *)

Lemma lit_val_pos ρ x : 0 < x → lit_val ρ x = ρ x.
Proof.
  intros H. unfold lit_val. destruct (Z.ltb_spec x 0); [lia|].
  by rewrite Z.abs_eq by lia.
Qed.

Lemma lit_val_neg ρ x : 0 < x → lit_val ρ (- x) = negb (ρ x).
Proof.
  intros H. unfold lit_val. destruct (Z.ltb_spec (- x) 0); [|lia].
  by rewrite Z.abs_opp, Z.abs_eq by lia.
Qed.

Lemma sat_cnf_app ρ l1 l2 :
  sat_cnf ρ (l1 ++ l2) = sat_cnf ρ l1 && sat_cnf ρ l2.
Proof. apply forallb_app. Qed.

Lemma sat_opb_app ρ l1 l2 :
  sat_opb ρ (l1 ++ l2) = sat_opb ρ l1 && sat_opb ρ l2.
Proof. apply forallb_app. Qed.

Lemma lin_val_app ρ t1 t2 : lin_val ρ (t1 ++ t2) = lin_val ρ t1 + lin_val ρ t2.
Proof.
  unfold lin_val. induction t1 as [|t t1 IH]; simpl; [done|]. rewrite IH. lia.
Qed.

Lemma count_true_app ρ l1 l2 :
  count_true ρ (l1 ++ l2) = count_true ρ l1 + count_true ρ l2.
Proof.
  unfold count_true. induction l1 as [|t t1 IH]; simpl; [done|]. rewrite IH. lia.
Qed.

Lemma count_true_bounds ρ l : 0 ≤ count_true ρ l ≤ Z.of_nat (length l).
Proof.
  induction l as [|x l IH]; simpl; [lia|].
  unfold count_true in *. simpl. destruct (ρ x); simpl; lia.
Qed.

Lemma word_val_bounds ρ xs : 0 ≤ word_val ρ xs < 2 ^ Z.of_nat (length xs).
Proof.
  induction xs as [|x xs IH]; simpl length; [simpl; lia|].
  rewrite Nat2Z.inj_succ, Z.pow_succ_r by lia.
  simpl. destruct (ρ x); simpl; lia.
Qed.

Lemma word_val_app ρ xs ys :
  word_val ρ (xs ++ ys) =
  word_val ρ xs + 2 ^ Z.of_nat (length xs) * word_val ρ ys.
Proof.
  induction xs as [|x xs IH]; simpl length.
  - simpl. lia.
  - rewrite Nat2Z.inj_succ, Z.pow_succ_r by lia. simpl. rewrite IH. lia.
Qed.

Lemma word_val_testbit ρ xs i :
  Z.testbit (word_val ρ xs) (Z.of_nat i) =
  if (i <? length xs)%nat then ρ (at_ xs i) else false.
Proof.
  revert i. induction xs as [|x xs IH]; intros i.
  - simpl. by rewrite Z.testbit_0_l.
  - cbn [word_val]. rewrite (Z.add_comm (b2z (ρ x))). destruct i as [|i].
    + by rewrite Z.testbit_0_r.
    + rewrite Nat2Z.inj_succ, Z.testbit_succ_r by lia. rewrite IH. done.
Qed.

Lemma word_val_testbit_high ρ xs i :
  Z.of_nat (length xs) ≤ i → Z.testbit (word_val ρ xs) i = false.
Proof.
  intros H. pose proof (word_val_bounds ρ xs) as Hb.
  destruct (Z.eq_dec (word_val ρ xs) 0) as [->|Hne]; [apply Z.testbit_0_l|].
  apply Z.bits_above_log2; [lia|].
  apply Z.log2_lt_pow2; [lia|].
  eapply Z.lt_le_trans; [apply Hb|]. apply Z.pow_le_mono_r; lia.
Qed.

(** Two words of known width are equal when their bits are. *)
Lemma word_val_ext ρ xs (v : Z) n :
  length xs = n → 0 ≤ v < 2 ^ Z.of_nat n →
  (∀ i, (i < n)%nat → ρ (at_ xs i) = Z.testbit v (Z.of_nat i)) →
  word_val ρ xs = v.
Proof.
  intros Hlen Hv Hbits. apply Z.bits_inj'. intros i Hi.
  destruct (Z.lt_ge_cases i (Z.of_nat n)) as [Hlt|Hge].
  - rewrite <- (Z2Nat.id i) by lia. rewrite word_val_testbit.
    destruct (Nat.ltb_spec (Z.to_nat i) (length xs)); [|lia].
    apply Hbits. lia.
  - rewrite word_val_testbit_high by lia.
    destruct (Z.eq_dec v 0) as [->|Hne]; [by rewrite Z.testbit_0_l|].
    symmetry. apply Z.bits_above_log2; [lia|].
    apply Z.log2_lt_pow2; [lia|].
    eapply Z.lt_le_trans; [apply Hv|]. apply Z.pow_le_mono_r; lia.
Qed.

Lemma forM_cnf_flat {X} (l : list X) (body : X → M unit)
    (g : X → list cnf_line) :
  (∀ x st, cnf (body x st).2 = cnf st ++ g x) →
  ∀ st, cnf (forM l body st).2 = cnf st ++ flat_map g l.
Proof.
  intros Hb. induction l as [|x l IH]; intros st; simpl.
  - by rewrite app_nil_r.
  - rewrite bind_run, IH, Hb. by rewrite <- app_assoc.
Qed.

(** ** The rules of [spec] *)

Section Rules.

Variable cfg : config.
Variable espresso : list string → list string.

Abbreviation inv := (inv espresso).
Abbreviation agree := (agree cfg espresso).
Abbreviation holds := (holds cfg espresso).
Abbreviation spec := (spec cfg espresso).

Lemma agree_nil : agree [] [].
Proof. by intros _ ρ. Qed.

Lemma agree_app dc1 do1 dc2 do2 :
  agree dc1 do1 → agree dc2 do2 → agree (dc1 ++ dc2) (do1 ++ do2).
Proof.
  intros H1 H2 He ρ. rewrite sat_cnf_app, sat_opb_app, H1, H2; done.
Qed.

Lemma holds_app ρ dc1 do1 dc2 do2 :
  holds ρ (dc1 ++ dc2) (do1 ++ do2) ↔ holds ρ dc1 do1 ∧ holds ρ dc2 do2.
Proof.
  unfold holds, printed. rewrite sat_cnf_app, sat_opb_app.
  rewrite !andb_true_iff. tauto.
Qed.

Lemma holds_nil ρ : sound_cfg cfg espresso → holds ρ [] [].
Proof. intros H. split; [done|]. by split. Qed.

Lemma spec_ret {A} (x : A) st (Q : A → state → _ → _ → Prop) :
  inv st → Q x st [] [] → spec (ret x) st Q.
Proof.
  intros Hi HQ. exists [], []. simpl. rewrite !app_nil_r.
  split_and!; try done.
Qed.

Lemma spec_bind {A B} (m : M A) (f : A → M B) st Q1 (Q : B → state → _ → _ → Prop) :
  spec m st Q1 →
  (∀ x st1 dc1 do1, inv st1 → Q1 x st1 dc1 do1 →
     spec (f x) st1 (λ y st2 dc2 do2, Q y st2 (dc1 ++ dc2) (do1 ++ do2))) →
  spec (bind m f) st Q.
Proof.
  intros (dc1 & do1 & Hc1 & Ho1 & Hi1 & Ha1 & HQ1) Hk.
  destruct (Hk _ _ _ _ Hi1 HQ1) as (dc2 & do2 & Hc2 & Ho2 & Hi2 & Ha2 & HQ2).
  exists (dc1 ++ dc2), (do1 ++ do2). rewrite bind_run.
  rewrite Hc2, Ho2, Hc1, Ho1, <- !app_assoc.
  split_and!; try done. by apply agree_app.
Qed.

Lemma spec_ext {A} (m m' : M A) st (Q : A → state → _ → _ → Prop) :
  (∀ s, m s = m' s) → spec m' st Q → spec m st Q.
Proof. intros H (dc & do & Hs). exists dc, do. by rewrite H. Qed.

Lemma spec_conseq {A} (m : M A) st (Q Q' : A → state → _ → _ → Prop) :
  spec m st Q → (∀ x st' dc do, inv st' → Q x st' dc do → Q' x st' dc do) →
  spec m st Q'.
Proof.
  intros (dc & do & Hc & Ho & Hi & Ha & HQ) H.
  exists dc, do. split_and!; try done. by apply H.
Qed.

Lemma spec_foldM {A T} (body : T → A → M T) (l : list A) :
  ∀ (s : T) st (I : nat → T → state → list cnf_line → list opb_line → Prop),
  inv st → I 0%nat s st [] [] →
  (∀ k x s1 st1 dc do, l !! k = Some x → inv st1 → I k s1 st1 dc do →
     spec (body s1 x) st1
          (λ s2 st2 dc2 do2, I (S k) s2 st2 (dc ++ dc2) (do ++ do2))) →
  spec (foldM body s l) st (λ s' st' dc do, I (length l) s' st' dc do).
Proof.
  induction l as [|x l IH]; intros s st I Hi H0 Hstep.
  - simpl. by apply spec_ret.
  - simpl. eapply spec_bind.
    + apply (Hstep 0%nat x s st [] []); done.
    + simpl. intros s1 st1 dc1 do1 Hi1 H1.
      apply (IH s1 st1 (λ k s2 st2 dc2 do2,
                         I (S k) s2 st2 (dc1 ++ dc2) (do1 ++ do2))); [done|..].
      * by rewrite !app_nil_r.
      * intros k y s2 st2 dc do Hk Hi2 HI.
        eapply spec_conseq.
        { apply (Hstep (S k) y s2 st2 (dc1 ++ dc) (do1 ++ do)); done. }
        simpl. intros ? ? ? ? _ HQ. by rewrite !app_assoc.
Qed.

Lemma spec_forM {A} (body : A → M unit) (l : list A) :
  ∀ st (I : nat → state → list cnf_line → list opb_line → Prop),
  inv st → I 0%nat st [] [] →
  (∀ k x st1 dc do, l !! k = Some x → inv st1 → I k st1 dc do →
     spec (body x) st1 (λ _ st2 dc2 do2, I (S k) st2 (dc ++ dc2) (do ++ do2))) →
  spec (forM l body) st (λ _ st' dc do, I (length l) st' dc do).
Proof.
  induction l as [|x l IH]; intros st I Hi H0 Hstep.
  - simpl. by apply spec_ret.
  - simpl. eapply spec_bind.
    + apply (Hstep 0%nat x st [] []); done.
    + simpl. intros _ st1 dc1 do1 Hi1 H1.
      apply (IH st1 (λ k st2 dc2 do2,
                      I (S k) st2 (dc1 ++ dc2) (do1 ++ do2))); [done|..].
      * by rewrite !app_nil_r.
      * intros k y st2 dc do Hk Hi2 HI.
        eapply spec_conseq.
        { apply (Hstep (S k) y st2 (dc1 ++ dc) (do1 ++ do)); done. }
        simpl. intros ? ? ? ? _ HQ. by rewrite !app_assoc.
Qed.

End Rules.

(** ** The primitives *)

Lemma clause_opb ρ v :
  clause_sat ρ v = (1 <=? lin_val ρ (map (λ x, (1, x)) v)).
Proof.
  assert (Hnn : ∀ v, 0 ≤ lin_val ρ (map (λ x, (1, x)) v)).
  { clear v. induction v as [|x v IH]; simpl; [done|].
    unfold term_val. simpl. destruct (lit_val ρ x); simpl; lia. }
  induction v as [|x v IH]; simpl; [done|].
  unfold term_val at 1. simpl. specialize (Hnn v).
  destruct (lit_val ρ x); simpl.
  - symmetry. apply Z.leb_le. lia.
  - rewrite IH. f_equal.
Qed.

Lemma check_config_out cfg :
  check_config cfg = None → config_cnf cfg = true ∨ config_opb cfg = true.
Proof.
  unfold check_config. destruct (config_cnf cfg), (config_opb cfg); simpl; auto.
  discriminate.
Qed.

Lemma check_config_xor cfg :
  check_config cfg = None → config_use_xor_clauses cfg = true →
  config_cnf cfg = true.
Proof.
  unfold check_config. intros H Hx. rewrite Hx in H.
  destruct (config_cnf cfg), (config_opb cfg); simpl in *; done.
Qed.

Lemma check_config_halfadder cfg :
  check_config cfg = None → config_use_halfadder_clauses cfg = true →
  config_cnf cfg = true.
Proof.
  unfold check_config. intros H Hx. rewrite Hx in H.
  destruct (config_cnf cfg), (config_opb cfg),
    (config_use_xor_clauses cfg); simpl in *; done.
Qed.

Lemma check_config_compact cfg :
  check_config cfg = None → config_use_compact_adders cfg = true →
  config_opb cfg = true.
Proof.
  unfold check_config. intros H Hx. rewrite Hx in H.
  destruct (config_cnf cfg), (config_opb cfg), (config_use_xor_clauses cfg),
    (config_use_halfadder_clauses cfg); simpl in *; done.
Qed.

Section Leaves.

Variable cfg : config.
Variable espresso : list string → list string.

Abbreviation inv := (inv espresso).
Abbreviation agree := (agree cfg espresso).
Abbreviation holds := (holds cfg espresso).
Abbreviation spec := (spec cfg espresso).

(** A step that only touches buffers and counters. *)
Lemma spec_leaf {A} (m : M A) st dc do (Q : A → state → _ → _ → Prop) :
  inv st →
  cnf (m st).2 = cnf st ++ dc → opb (m st).2 = opb st ++ do →
  0 ≤ nr_variables (m st).2 → cache (m st).2 = cache st →
  agree dc do → Q (m st).1 (m st).2 dc do → spec m st Q.
Proof.
  intros [Hn Hc] H1 H2 H3 H4 Ha HQ. exists dc, do. split_and!; try done.
  split; [done|]. unfold cache_ok. by rewrite H4.
Qed.

Lemma holds_clause ρ v :
  holds ρ [CClause v] [OConstraint (map (λ x, (1, x)) v) Ge 1] →
  clause_sat ρ v = true.
Proof.
  intros [[Hc _] [H1 H2]]. simpl in *. rewrite <- clause_opb in H2.
  rewrite andb_true_r in *. destruct (check_config_out _ Hc); auto.
Qed.

Lemma comment_spec str st :
  inv st →
  spec (comment str) st
       (λ _ st' dc do, nr_variables st' = nr_variables st ∧
                       dc = [CComment str] ∧ do = [OComment str]).
Proof.
  intros Hi. apply (spec_leaf _ _ [CComment str] [OComment str]);
    try done; apply Hi.
Qed.

Lemma clause_spec v st :
  inv st →
  spec (clause v) st
       (λ _ st' dc do, nr_variables st' = nr_variables st ∧
                       ∀ ρ, holds ρ dc do → clause_sat ρ v = true).
Proof.
  intros Hi.
  apply (spec_leaf _ _ [CClause v] [OConstraint (map (λ x, (1, x)) v) Ge 1]);
    try done; try apply Hi.
  - intros _ ρ. simpl. by rewrite clause_opb.
  - split; [done|]. intros ρ. apply holds_clause.
Qed.

Lemma xor_clause_spec v st :
  inv st → config_use_xor_clauses cfg = true →
  spec (xor_clause v) st
       (λ _ st' dc do, nr_variables st' = nr_variables st ∧
                       ∀ ρ, holds ρ dc do → xor_sat ρ v = true).
Proof.
  intros Hi Hx. apply (spec_leaf _ _ [CXor v] []); try done; try apply Hi.
  - simpl. by rewrite app_nil_r.
  - intros (He & _). congruence.
  - split; [done|]. intros ρ [[Hc _] [H1 _]]. simpl in H1.
    rewrite andb_true_r in H1. apply H1. by apply check_config_xor.
Qed.

Lemma constant_spec r value st :
  inv st → 0 < r →
  spec (constant r value) st
       (λ _ st' dc do, nr_variables st' = nr_variables st ∧
                       ∀ ρ, holds ρ dc do → ρ r = value).
Proof.
  intros Hi Hr.
  apply (spec_leaf _ _ [CClause [if value then r else - r]]
           [OConstraint [(1, r)] Eq (if value then 1 else 0)]);
    try done; try apply Hi.
  - intros _ ρ. simpl. unfold term_val. simpl. rewrite (lit_val_pos _ r) by done.
    destruct value; rewrite ?lit_val_pos, ?lit_val_neg by done;
      by destruct (ρ r).
  - split; [done|]. intros ρ [[Hc _] [H1 H2]]. simpl in H1, H2.
    unfold term_val in H2. simpl in H2. rewrite (lit_val_pos _ r) in H2 by done.
    destruct (check_config_out _ Hc) as [E|E]; [specialize (H1 E)|specialize (H2 E)].
    + destruct value; rewrite ?lit_val_pos, ?lit_val_neg in H1 by done;
        by destruct (ρ r).
    + by destruct value, (ρ r).
Qed.

Lemma hints_spec (l : list nat) (g : nat → Z) st :
  inv st →
  spec (forM l (λ i, modify (put_cnf [CHint (g i)]))) st
       (λ _ st' dc do, nr_variables st' = nr_variables st).
Proof.
  intros Hi.
  eapply spec_conseq.
  { apply (spec_forM cfg espresso _ _ _
             (λ _ st1 _ _, nr_variables st1 = nr_variables st)); [done..|].
    intros k x st1 dc do _ Hi1 Hn.
    apply (spec_leaf _ _ [CHint (g x)] []); cbn; rewrite ?app_nil_r;
      try done; apply Hi1. }
  done.
Qed.

Lemma new_vars_spec label n d st :
  inv st →
  spec (new_vars cfg label n d) st
       (λ x st' dc do,
          x = map (λ i, nr_variables st + 1 + Z.of_nat i) (seq 0 n) ∧
          nr_variables st' = nr_variables st + Z.of_nat n).
Proof.
  intros Hi. unfold new_vars.
  eapply spec_bind.
  { apply (spec_foldM cfg espresso _ _ _ _
      (λ k x st1 dc do,
         x = map (λ i, nr_variables st + 1 + Z.of_nat i) (seq 0 k) ∧
         nr_variables st1 = nr_variables st + Z.of_nat k));
      [done|split; [done|lia]|].
    intros k i x st1 dc do Hk Hi1 [-> Hn].
    apply (spec_leaf _ _ [] []); cbn; rewrite ?app_nil_r; try done.
    { destruct Hi1. lia. }
    split; [|lia]. rewrite Hn.
    transitivity (map (λ i0, nr_variables st + 1 + Z.of_nat i0) (seq 0 (S k)));
      [|done].
    rewrite seq_S, map_app. simpl. do 2 f_equal. lia. }
  cbn beta. intros x st1 dc1 do1 Hi1 [-> Hn].
  rewrite range_length, Nat.sub_0_r in Hn. rewrite range_length, Nat.sub_0_r.
  eapply spec_bind; [by apply comment_spec|].
  cbn beta. intros _ st2 dc2 do2 Hi2 (Hn2 & _).
  eapply spec_bind.
  { instantiate (1 := λ _ st' dc do, nr_variables st' = nr_variables st2).
    destruct (config_restrict_branching cfg); [|by apply spec_ret].
    destruct d; by apply hints_spec. }
  cbn beta. intros _ st3 dc3 do3 Hi3 Hn3.
  apply spec_ret; [done|]. split; [done|lia].
Qed.

(** The variables [new_vars] hands out are positive and fresh. *)
Lemma new_vars_pos (nv : Z) n i :
  0 ≤ nv → (i < n)%nat →
  at_ (map (λ i, nv + 1 + Z.of_nat i) (seq 0 n)) i = nv + 1 + Z.of_nat i.
Proof.
  intros Hnv Hi. unfold at_.
  rewrite (nth_indep _ 0 (nv + 1 + Z.of_nat 0)) by (by rewrite length_map, length_seq).
  rewrite (map_nth (λ i, nv + 1 + Z.of_nat i)). by rewrite seq_nth.
Qed.

Lemma new_vars_word32 (nv : Z) :
  0 ≤ nv → word32 (map (λ i, nv + 1 + Z.of_nat i) (seq 0 32)).
Proof.
  intros H. split; [by rewrite length_map, length_seq|].
  intros i Hi. rewrite new_vars_pos by done. lia.
Qed.

Lemma new_vars_posw (nv : Z) n :
  0 ≤ nv → posw n (map (λ i, nv + 1 + Z.of_nat i) (seq 0 n)).
Proof. intros H i Hi. rewrite new_vars_pos by done. lia. Qed.

Lemma constant32_spec r value st :
  inv st → posw 32 r →
  spec (constant32 r value) st
       (λ _ st' dc do,
          nr_variables st' = nr_variables st ∧
          ∀ ρ, holds ρ dc do →
               ∀ i, (i < 32)%nat → ρ (at_ r i) = Z.testbit value (Z.of_nat i)).
Proof.
  intros Hi Hr. unfold constant32.
  eapply spec_bind; [by apply comment_spec|].
  cbn beta. intros _ st1 dc1 do1 Hi1 (Hn1 & -> & ->).
  eapply spec_conseq.
  { apply (spec_forM cfg espresso _ _ _
      (λ k st2 dc do,
         nr_variables st2 = nr_variables st1 ∧
         ∀ ρ, holds ρ dc do →
              ∀ i, (i < k)%nat → ρ (at_ r i) = Z.testbit value (Z.of_nat i)));
      [done|split; [done|intros; lia]|].
    intros k i st2 dc do Hk Hi2 [Hn2 IH].
    apply lookup_seq in Hk as [-> Hk]. rewrite Nat.sub_0_r in Hk. simpl.
    eapply spec_conseq; [apply (constant_spec (at_ r k)
                                  (Z.testbit value (Z.of_nat k)) st2); auto|].
    cbn beta. intros _ st3 dc3 do3 Hi3 [Hn3 H3]. split; [lia|].
    intros ρ Hh i Hik. apply holds_app in Hh as [Hh1 Hh2].
    destruct (decide (i = k)) as [->|]; [by apply H3|]. apply IH; [done|lia]. }
  cbn beta. intros _ st2 dc do Hi2 [Hn2 H]. split; [lia|].
  intros ρ Hh. apply (holds_app _ _ _ [_] [_]) in Hh as [_ Hh].
  rewrite range_length in H. by apply H.
Qed.

End Leaves.

(** ** The gates *)

(** Turning the satisfied clauses of a gate into an equation between the
    values of its variables: the variables are abstracted, the clause list
    is computed, and the finitely many valuations are enumerated. *)
Ltac gate_var ρ x :=
  let Hp := fresh "Hp" in
  let Hn := fresh "Hn" in
  assert (Hp : lit_val ρ x = ρ x) by (apply lit_val_pos; assumption);
  assert (Hn : lit_val ρ (- x) = negb (ρ x)) by (apply lit_val_neg; assumption);
  let nx := fresh "nx" in
  set (nx := - x) in *; clearbody nx;
  let v := fresh "v" in
  set (v := ρ x) in *; clearbody v;
  let z := fresh "z" in
  set (z := x) in *; clearbody z.

Ltac gate_solve ρ H :=
  unfold clause_sat, xor_sat in H;
  let L := fresh "L" in
  set (L := lit_val ρ) in *; clearbody L;
  vm_compute in H;
  repeat match goal with
         | H' : Forall _ (_ :: _) |- _ =>
             apply Forall_cons in H';
             let Hc := fresh "Hc" in destruct H' as [Hc H']
         end;
  repeat match goal with
         | E : L _ = _ |- _ => rewrite ?E in *; clear E
         end;
  repeat match goal with v : bool |- _ => destruct v end;
  simpl in *; congruence.

Section Gates.

Variable cfg : config.
Variable espresso : list string → list string.

Abbreviation inv := (inv espresso).
Abbreviation agree := (agree cfg espresso).
Abbreviation holds := (holds cfg espresso).
Abbreviation spec := (spec cfg espresso).

(** A straight run of clauses. *)
Lemma batch_spec (m : M unit) (cs : list (list Z)) st :
  inv st → (∀ s, m s = forM cs clause s) →
  spec m st (λ _ st' dc do,
    nr_variables st' = nr_variables st ∧
    ∀ ρ, holds ρ dc do → Forall (λ c, clause_sat ρ c = true) cs).
Proof.
  intros Hi Hm. apply (spec_ext _ _ _ _ _ _ Hm).
  eapply spec_conseq.
  { apply (spec_forM cfg espresso _ _ _
      (λ k st1 dc do,
         nr_variables st1 = nr_variables st ∧
         ∀ ρ, holds ρ dc do → Forall (λ c, clause_sat ρ c = true) (take k cs)));
      [done|split; [done|intros; by rewrite take_0]|].
    intros k c st1 dc do Hk Hi1 [Hn IH].
    eapply spec_conseq; [by apply clause_spec|].
    cbn beta. intros _ st2 dc2 do2 Hi2 [Hn2 H2]. split; [lia|].
    intros ρ Hh. apply holds_app in Hh as [Hh1 Hh2].
    rewrite (take_S_r _ _ _ Hk). apply Forall_app. split; [by apply IH|].
    apply Forall_singleton. by apply H2. }
  cbn beta. intros _ st1 dc do Hi1 [Hn H]. split; [done|].
  intros ρ Hh. rewrite <- (firstn_all cs). by apply H.
Qed.

(** A loop over the bits of a word whose body establishes [P] bit by bit. *)
Lemma bits_spec (body : nat → M unit) (n : nat) st (P : assignment → nat → Prop) :
  inv st →
  (∀ i st1, (i < n)%nat → inv st1 →
     spec (body i) st1 (λ _ st2 dc do,
       nr_variables st2 = nr_variables st1 ∧ ∀ ρ, holds ρ dc do → P ρ i)) →
  spec (forM (range 0 n) body) st (λ _ st' dc do,
    nr_variables st' = nr_variables st ∧
    ∀ ρ, holds ρ dc do → ∀ i, (i < n)%nat → P ρ i).
Proof.
  intros Hi Hbody.
  eapply spec_conseq.
  { apply (spec_forM cfg espresso _ _ _
      (λ k st1 dc do,
         nr_variables st1 = nr_variables st ∧
         ∀ ρ, holds ρ dc do → ∀ i, (i < k)%nat → P ρ i));
      [done|split; [done|intros; lia]|].
    intros k i st1 dc do Hk Hi1 [Hn IH].
    apply lookup_seq in Hk as [-> Hk]. rewrite Nat.sub_0_r in Hk. simpl.
    eapply spec_conseq; [by apply Hbody|].
    cbn beta. intros _ st2 dc2 do2 Hi2 [Hn2 H2]. split; [lia|].
    intros ρ Hh i Hik. apply holds_app in Hh as [Hh1 Hh2].
    destruct (decide (i = k)) as [->|]; [by apply H2|]. apply IH; [done|lia]. }
  cbn beta. intros _ st1 dc do Hi1 [Hn H]. split; [done|].
  rewrite range_length, Nat.sub_0_r in H. done.
Qed.

Lemma and2_spec r a b n st :
  inv st → posw n r → posw n a → posw n b →
  spec (and2 r a b n) st (λ _ st' dc do,
    nr_variables st' = nr_variables st ∧
    ∀ ρ, holds ρ dc do →
         ∀ i, (i < n)%nat → ρ (at_ r i) = ρ (at_ a i) && ρ (at_ b i)).
Proof.
  intros Hi Hr Ha Hb. apply bits_spec; [done|]. intros i st1 Hin Hi1.
  eapply spec_conseq.
  { by apply (batch_spec _ [[at_ r i; - at_ a i; - at_ b i];
                            [- at_ r i; at_ a i]; [- at_ r i; at_ b i]]). }
  cbn beta. intros _ st2 dc do _ [Hn H]. split; [done|]. intros ρ Hh.
  specialize (H ρ Hh). specialize (Hr i Hin). specialize (Ha i Hin).
  specialize (Hb i Hin).
  gate_var ρ (at_ r i). gate_var ρ (at_ a i). gate_var ρ (at_ b i).
  gate_solve ρ H.
Qed.

Lemma or2_spec r a b n st :
  inv st → posw n r → posw n a → posw n b →
  spec (or2 r a b n) st (λ _ st' dc do,
    nr_variables st' = nr_variables st ∧
    ∀ ρ, holds ρ dc do →
         ∀ i, (i < n)%nat → ρ (at_ r i) = ρ (at_ a i) || ρ (at_ b i)).
Proof.
  intros Hi Hr Ha Hb. apply bits_spec; [done|]. intros i st1 Hin Hi1.
  eapply spec_conseq.
  { by apply (batch_spec _ [[- at_ r i; at_ a i; at_ b i];
                            [at_ r i; - at_ a i]; [at_ r i; - at_ b i]]). }
  cbn beta. intros _ st2 dc do _ [Hn H]. split; [done|]. intros ρ Hh.
  specialize (H ρ Hh). specialize (Hr i Hin). specialize (Ha i Hin).
  specialize (Hb i Hin).
  gate_var ρ (at_ r i). gate_var ρ (at_ a i). gate_var ρ (at_ b i).
  gate_solve ρ H.
Qed.

Lemma xor2_spec r a b n st :
  inv st → posw n r → posw n a → posw n b →
  spec (xor2 cfg r a b n) st (λ _ st' dc do,
    nr_variables st' = nr_variables st ∧
    ∀ ρ, holds ρ dc do →
         ∀ i, (i < n)%nat → ρ (at_ r i) = xorb (ρ (at_ a i)) (ρ (at_ b i))).
Proof.
  intros Hi Hr Ha Hb. unfold xor2.
  eapply spec_bind; [by apply comment_spec|].
  cbn beta. intros _ st0 dc0 do0 Hi0 (Hn0 & -> & ->).
  eapply spec_conseq.
  { instantiate (1 := λ _ st' dc do,
      nr_variables st' = nr_variables st0 ∧
      ∀ ρ, holds ρ dc do →
           ∀ i, (i < n)%nat → ρ (at_ r i) = xorb (ρ (at_ a i)) (ρ (at_ b i))).
    destruct (config_use_xor_clauses cfg) eqn:Hx.
    - apply bits_spec; [done|]. intros i st1 Hin Hi1.
      eapply spec_conseq; [by apply xor_clause_spec|].
      cbn beta. intros _ st2 dc do _ [Hn H]. split; [done|]. intros ρ Hh.
      specialize (H ρ Hh). specialize (Hr i Hin). specialize (Ha i Hin).
      specialize (Hb i Hin).
      gate_var ρ (at_ r i). gate_var ρ (at_ a i). gate_var ρ (at_ b i).
      gate_solve ρ H.
    - apply bits_spec; [done|]. intros i st1 Hin Hi1.
      eapply spec_conseq.
      { by apply (batch_spec _
          (flat_map (λ j,
             if (popcount (Nat.lxor j 1) mod 2 =? 1)%nat then []
             else [[if masked j 1 then - at_ r i else at_ r i;
                    if masked j 2 then at_ a i else - at_ a i;
                    if masked j 4 then at_ b i else - at_ b i]])
             (range 0 8))). }
      cbn beta. intros _ st2 dc do _ [Hn H]. split; [done|]. intros ρ Hh.
      specialize (H ρ Hh). specialize (Hr i Hin). specialize (Ha i Hin).
      specialize (Hb i Hin).
      gate_var ρ (at_ r i). gate_var ρ (at_ a i). gate_var ρ (at_ b i).
      gate_solve ρ H. }
  cbn beta. intros _ st1 dc do _ [Hn H]. split; [lia|]. intros ρ Hh.
  apply (holds_app _ _ _ [_] [_]) in Hh as [_ Hh]. by apply H.
Qed.

Lemma xor3_spec r a b c n st :
  inv st → posw n r → posw n a → posw n b → posw n c →
  spec (xor3 cfg r a b c n) st (λ _ st' dc do,
    nr_variables st' = nr_variables st ∧
    ∀ ρ, holds ρ dc do →
         ∀ i, (i < n)%nat →
              ρ (at_ r i) = xorb (xorb (ρ (at_ a i)) (ρ (at_ b i))) (ρ (at_ c i))).
Proof.
  intros Hi Hr Ha Hb Hc. unfold xor3.
  eapply spec_bind; [by apply comment_spec|].
  cbn beta. intros _ st0 dc0 do0 Hi0 (Hn0 & -> & ->).
  eapply spec_conseq.
  { instantiate (1 := λ _ st' dc do,
      nr_variables st' = nr_variables st0 ∧
      ∀ ρ, holds ρ dc do →
           ∀ i, (i < n)%nat →
                ρ (at_ r i) = xorb (xorb (ρ (at_ a i)) (ρ (at_ b i))) (ρ (at_ c i))).
    destruct (config_use_xor_clauses cfg) eqn:Hx.
    - apply bits_spec; [done|]. intros i st1 Hin Hi1.
      eapply spec_conseq; [by apply xor_clause_spec|].
      cbn beta. intros _ st2 dc do _ [Hn H]. split; [done|]. intros ρ Hh.
      specialize (H ρ Hh). specialize (Hr i Hin). specialize (Ha i Hin).
      specialize (Hb i Hin). specialize (Hc i Hin).
      gate_var ρ (at_ r i). gate_var ρ (at_ a i). gate_var ρ (at_ b i).
      gate_var ρ (at_ c i). gate_solve ρ H.
    - apply bits_spec; [done|]. intros i st1 Hin Hi1.
      eapply spec_conseq.
      { by apply (batch_spec _
          (flat_map (λ j,
             if (popcount (Nat.lxor j 1) mod 2 =? 0)%nat then []
             else [[if masked j 1 then - at_ r i else at_ r i;
                    if masked j 2 then at_ a i else - at_ a i;
                    if masked j 4 then at_ b i else - at_ b i;
                    if masked j 8 then at_ c i else - at_ c i]])
             (range 0 16))). }
      cbn beta. intros _ st2 dc do _ [Hn H]. split; [done|]. intros ρ Hh.
      specialize (H ρ Hh). specialize (Hr i Hin). specialize (Ha i Hin).
      specialize (Hb i Hin). specialize (Hc i Hin).
      gate_var ρ (at_ r i). gate_var ρ (at_ a i). gate_var ρ (at_ b i).
      gate_var ρ (at_ c i). gate_solve ρ H. }
  cbn beta. intros _ st1 dc do _ [Hn H]. split; [lia|]. intros ρ Hh.
  apply (holds_app _ _ _ [_] [_]) in Hh as [_ Hh]. by apply H.
Qed.

Lemma xor4_spec r a b c d st :
  inv st → posw 32 r → posw 32 a → posw 32 b → posw 32 c → posw 32 d →
  spec (xor4 cfg r a b c d) st (λ _ st' dc do,
    nr_variables st' = nr_variables st ∧
    ∀ ρ, holds ρ dc do →
         ∀ i, (i < 32)%nat →
              ρ (at_ r i) =
              xorb (xorb (xorb (ρ (at_ a i)) (ρ (at_ b i))) (ρ (at_ c i)))
                   (ρ (at_ d i))).
Proof.
  intros Hi Hr Ha Hb Hc Hd. unfold xor4.
  eapply spec_bind; [by apply comment_spec|].
  cbn beta. intros _ st0 dc0 do0 Hi0 (Hn0 & -> & ->).
  eapply spec_conseq.
  { instantiate (1 := λ _ st' dc do,
      nr_variables st' = nr_variables st0 ∧
      ∀ ρ, holds ρ dc do →
           ∀ i, (i < 32)%nat →
                ρ (at_ r i) =
                xorb (xorb (xorb (ρ (at_ a i)) (ρ (at_ b i))) (ρ (at_ c i)))
                     (ρ (at_ d i))).
    destruct (config_use_xor_clauses cfg) eqn:Hx.
    - apply bits_spec; [done|]. intros i st1 Hin Hi1.
      eapply spec_conseq; [by apply xor_clause_spec|].
      cbn beta. intros _ st2 dc do _ [Hn H]. split; [done|]. intros ρ Hh.
      specialize (H ρ Hh). specialize (Hr i Hin). specialize (Ha i Hin).
      specialize (Hb i Hin). specialize (Hc i Hin). specialize (Hd i Hin).
      gate_var ρ (at_ r i). gate_var ρ (at_ a i). gate_var ρ (at_ b i).
      gate_var ρ (at_ c i). gate_var ρ (at_ d i). gate_solve ρ H.
    - apply bits_spec; [done|]. intros i st1 Hin Hi1.
      eapply spec_conseq.
      { by apply (batch_spec _
          (flat_map (λ j,
             if (popcount (Nat.lxor j 1) mod 2 =? 1)%nat then []
             else [[if masked j 1 then - at_ r i else at_ r i;
                    if masked j 2 then at_ a i else - at_ a i;
                    if masked j 4 then at_ b i else - at_ b i;
                    if masked j 8 then at_ c i else - at_ c i;
                    if masked j 16 then at_ d i else - at_ d i]])
             (range 0 32))). }
      cbn beta. intros _ st2 dc do _ [Hn H]. split; [done|]. intros ρ Hh.
      specialize (H ρ Hh). specialize (Hr i Hin). specialize (Ha i Hin).
      specialize (Hb i Hin). specialize (Hc i Hin). specialize (Hd i Hin).
      gate_var ρ (at_ r i). gate_var ρ (at_ a i). gate_var ρ (at_ b i).
      gate_var ρ (at_ c i). gate_var ρ (at_ d i). gate_solve ρ H. }
  cbn beta. intros _ st1 dc do _ [Hn H]. split; [lia|]. intros ρ Hh.
  apply (holds_app _ _ _ [_] [_]) in Hh as [_ Hh]. by apply H.
Qed.

Lemma eq_spec a b n st :
  inv st → posw n a → posw n b →
  spec (eq cfg a b n) st (λ _ st' dc do,
    nr_variables st' = nr_variables st ∧
    ∀ ρ, holds ρ dc do → ∀ i, (i < n)%nat → ρ (at_ a i) = ρ (at_ b i)).
Proof.
  intros Hi Ha Hb. unfold eq.
  destruct (config_use_xor_clauses cfg) eqn:Hx.
  - apply bits_spec; [done|]. intros i st1 Hin Hi1.
    eapply spec_conseq; [by apply xor_clause_spec|].
    cbn beta. intros _ st2 dc do _ [Hn H]. split; [done|]. intros ρ Hh.
    specialize (H ρ Hh). specialize (Ha i Hin). specialize (Hb i Hin).
    gate_var ρ (at_ a i). gate_var ρ (at_ b i). gate_solve ρ H.
  - apply bits_spec; [done|]. intros i st1 Hin Hi1.
    eapply spec_conseq.
    { by apply (batch_spec _ [[- at_ a i; at_ b i]; [at_ a i; - at_ b i]]). }
    cbn beta. intros _ st2 dc do _ [Hn H]. split; [done|]. intros ρ Hh.
    specialize (H ρ Hh). specialize (Ha i Hin). specialize (Hb i Hin).
    gate_var ρ (at_ a i). gate_var ρ (at_ b i). gate_solve ρ H.
Qed.

Lemma neq_spec a b n st :
  inv st → posw n a → posw n b →
  spec (neq cfg a b n) st (λ _ st' dc do,
    nr_variables st' = nr_variables st ∧
    ∀ ρ, holds ρ dc do → ∀ i, (i < n)%nat → ρ (at_ a i) = negb (ρ (at_ b i))).
Proof.
  intros Hi Ha Hb. unfold neq.
  destruct (config_use_xor_clauses cfg) eqn:Hx.
  - apply bits_spec; [done|]. intros i st1 Hin Hi1.
    eapply spec_conseq; [by apply xor_clause_spec|].
    cbn beta. intros _ st2 dc do _ [Hn H]. split; [done|]. intros ρ Hh.
    specialize (H ρ Hh). specialize (Ha i Hin). specialize (Hb i Hin).
    gate_var ρ (at_ a i). gate_var ρ (at_ b i). gate_solve ρ H.
  - apply bits_spec; [done|]. intros i st1 Hin Hi1.
    eapply spec_conseq.
    { by apply (batch_spec _ [[at_ a i; at_ b i]; [- at_ a i; - at_ b i]]). }
    cbn beta. intros _ st2 dc do _ [Hn H]. split; [done|]. intros ρ Hh.
    specialize (H ρ Hh). specialize (Ha i Hin). specialize (Hb i Hin).
    gate_var ρ (at_ a i). gate_var ρ (at_ b i). gate_solve ρ H.
Qed.

Lemma round_f_spec i f b c d st :
  inv st → (i < 80)%nat → posw 32 f → posw 32 b → posw 32 c → posw 32 d →
  spec (round_f cfg i f b c d) st (λ _ st' dc do,
    nr_variables st' = nr_variables st ∧
    ∀ ρ, holds ρ dc do →
         ∀ j, (j < 32)%nat →
              ρ (at_ f j) = f_bit i (ρ (at_ b j)) (ρ (at_ c j)) (ρ (at_ d j))).
Proof.
  intros Hi Hi80 Hf Hb Hc Hd. unfold round_f, f_bit.
  destruct (i <? 20)%nat; [|destruct (i <? 40)%nat; [|destruct (i <? 60)%nat;
    [|destruct (Nat.ltb_spec i 80); [|lia]]]].
  - apply bits_spec; [done|]. intros j st1 Hj Hi1.
    eapply spec_conseq.
    { by apply (batch_spec _ (ch_clauses (at_ f j) (at_ b j) (at_ c j) (at_ d j))). }
    cbn beta. intros _ st2 dc do _ [Hn H]. split; [done|]. intros ρ Hh.
    specialize (H ρ Hh). specialize (Hf j Hj). specialize (Hb j Hj).
    specialize (Hc j Hj). specialize (Hd j Hj).
    unfold ch_clauses, maj_clauses in H.
    gate_var ρ (at_ f j). gate_var ρ (at_ b j). gate_var ρ (at_ c j).
    gate_var ρ (at_ d j). gate_solve ρ H.
  - by apply xor3_spec.
  - apply bits_spec; [done|]. intros j st1 Hj Hi1.
    eapply spec_conseq.
    { by apply (batch_spec _ (maj_clauses (at_ f j) (at_ b j) (at_ c j) (at_ d j))). }
    cbn beta. intros _ st2 dc do _ [Hn H]. split; [done|]. intros ρ Hh.
    specialize (H ρ Hh). specialize (Hf j Hj). specialize (Hb j Hj).
    specialize (Hc j Hj). specialize (Hd j Hj).
    unfold ch_clauses, maj_clauses in H.
    gate_var ρ (at_ f j). gate_var ρ (at_ b j). gate_var ρ (at_ c j).
    gate_var ρ (at_ d j). gate_solve ρ H.
  - by apply xor3_spec.
Qed.

End Gates.

(** ** The minimized half-adder clauses *)

Lemma all_rows_complete (row : list bool) : row ∈ all_rows (length row).
Proof.
  induction row as [|b row IH]; simpl; [by apply list_elem_of_singleton|].
  apply list_elem_of_In, in_flat_map. exists row. split; [by apply list_elem_of_In|].
  destruct b; simpl; auto.
Qed.

Lemma cube_clause_range nm buf l :
  l ∈ cube_clause nm buf → 1 ≤ Z.abs l ≤ Z.of_nat nm.
Proof.
  unfold cube_clause. intros H. apply list_elem_of_In, in_flat_map in H.
  destruct H as (i & Hi & Hl). apply in_seq in Hi.
  destruct (String.get i buf) as [ch|]; [|done].
  destruct (Ascii.eqb ch "0"); [|destruct (Ascii.eqb ch "1")]; simpl in Hl;
    try done; destruct Hl as [<-|[]]; lia.
Qed.

Lemma read_espresso_range nm lines c l :
  c ∈ read_espresso nm lines → l ∈ c → 1 ≤ Z.abs l ≤ Z.of_nat nm.
Proof.
  induction lines as [|buf rest IH]; simpl; [by intros ?%elem_of_nil|].
  destruct (String.prefix ".i" buf); [done|].
  destruct (String.prefix ".o" buf); [done|].
  destruct (String.prefix ".p" buf); [done|].
  destruct (String.prefix ".e" buf); [by intros ?%elem_of_nil|].
  intros [->|H]%elem_of_cons; [apply cube_clause_range|by apply IH].
Qed.

Section Cover.

Variables (ρ : assignment) (lhs rhs : list Z).
Hypothesis lhs_pos : Forall (λ x, 0 < x) lhs.
Hypothesis rhs_pos : Forall (λ x, 0 < x) rhs.

Abbreviation the_row := (row_of ρ lhs rhs).

Lemma at_pos xs i : Forall (λ x, 0 < x) xs → (i < length xs)%nat → 0 < at_ xs i.
Proof.
  intros H Hi. rewrite Forall_forall in H. apply H, list_elem_of_In, nth_In, Hi.
Qed.

Lemma row_of_lookup j :
  (j < length lhs + length rhs)%nat →
  nth j the_row false =
  ρ (if (j <? length lhs)%nat then at_ lhs j
     else at_ rhs (length rhs - 1 - (j - length lhs))).
Proof.
  intros Hj. unfold row_of, at_. destruct (Nat.ltb_spec j (length lhs)).
  - rewrite app_nth1 by (by rewrite length_map).
    rewrite (nth_indep _ false (ρ 0)) by (by rewrite length_map).
    by rewrite map_nth.
  - rewrite app_nth2 by (rewrite length_map; lia). rewrite length_map.
    rewrite (nth_indep _ false (ρ 0)) by (rewrite length_map, length_rev; lia).
    rewrite map_nth, rev_nth by lia. do 2 f_equal. lia.
Qed.

Lemma row_lit l :
  1 ≤ Z.abs l ≤ Z.of_nat (length lhs + length rhs) →
  lit_val (row_assignment the_row) l = lit_val ρ (halfadder_lit lhs rhs l).
Proof.
  intros Hl. unfold halfadder_lit.
  set (j := Z.to_nat (Z.abs l - 1)).
  assert (Hj : (j < length lhs + length rhs)%nat) by lia.
  set (var := if (j <? length lhs)%nat then at_ lhs j
              else at_ rhs (length rhs - 1 - (j - length lhs))).
  assert (Hvar : 0 < var).
  { unfold var. destruct (Nat.ltb_spec j (length lhs)); apply at_pos; try done; lia. }
  pose proof (row_of_lookup j Hj) as Hrow. fold var in Hrow.
  unfold lit_val at 1, row_assignment. fold j. rewrite Hrow.
  destruct (Z.ltb_spec l 0).
  - by rewrite lit_val_neg.
  - by rewrite lit_val_pos.
Qed.

Lemma row_clause c :
  (∀ l, l ∈ c → 1 ≤ Z.abs l ≤ Z.of_nat (length lhs + length rhs)) →
  clause_sat (row_assignment the_row) c =
  clause_sat ρ (map (halfadder_lit lhs rhs) c).
Proof.
  unfold clause_sat. induction c as [|l c IH]; intros Hc; simpl; [done|].
  rewrite row_lit by (apply Hc; left). rewrite IH; [done|].
  intros l' Hl'. apply Hc. by right.
Qed.

Lemma row_lhs :
  map (row_assignment the_row) (shape_lhs (length lhs)) = map ρ lhs.
Proof.
  unfold shape_lhs. apply nth_ext with (d := false) (d' := false).
  { by rewrite !length_map, length_seq. }
  intros i Hi. rewrite !length_map, length_seq in Hi.
  rewrite (nth_indep _ false (row_assignment the_row 0))
    by (by rewrite !length_map, length_seq).
  rewrite map_nth.
  rewrite (nth_indep _ 0 (Z.of_nat 0 + 1)) by (by rewrite length_map, length_seq).
  rewrite (map_nth (λ i, Z.of_nat i + 1)), seq_nth by done. simpl.
  unfold row_assignment. replace (Z.to_nat (Z.of_nat i + 1 - 1)) with i by lia.
  rewrite row_of_lookup by lia. destruct (Nat.ltb_spec i (length lhs)); [|lia].
  rewrite (nth_indep _ false (ρ 0)) by (by rewrite length_map).
  by rewrite map_nth.
Qed.

Lemma row_rhs :
  map (row_assignment the_row) (shape_rhs (length lhs) (length rhs)) = map ρ rhs.
Proof.
  unfold shape_rhs. rewrite map_rev. rewrite <- (rev_involutive (map ρ rhs)).
  f_equal. rewrite <- map_rev.
  apply nth_ext with (d := false) (d' := false).
  { by rewrite !length_map, length_seq, length_rev. }
  intros i Hi. rewrite !length_map, length_seq in Hi.
  rewrite (nth_indep _ false (row_assignment the_row 0))
    by (by rewrite !length_map, length_seq).
  rewrite map_nth.
  rewrite (nth_indep _ 0 (Z.of_nat 0 + 1)) by (by rewrite length_map, length_seq).
  rewrite (map_nth (λ i, Z.of_nat i + 1)), seq_nth by done.
  unfold row_assignment.
  replace (Z.to_nat (Z.of_nat (length lhs + i) + 1 - 1)) with (length lhs + i)%nat by lia.
  unfold row_of. rewrite app_nth2 by (rewrite length_map; lia).
  rewrite length_map. f_equal. lia.
Qed.

Lemma count_true_map xs ρ' ys :
  map ρ' xs = map ρ ys → count_true ρ' xs = count_true ρ ys.
Proof.
  revert ys. induction xs as [|x xs IH]; intros [|y ys] H; simpl in *; try done.
  injection H as H1 H2. unfold count_true in *. simpl. rewrite H1.
  f_equal. by apply IH.
Qed.

Lemma word_val_map xs ρ' ys :
  map ρ' xs = map ρ ys → word_val ρ' xs = word_val ρ ys.
Proof.
  revert ys. induction xs as [|x xs IH]; intros [|y ys] H; simpl in *; try done.
  injection H as H1 H2. rewrite H1. do 2 f_equal. by apply IH.
Qed.

(** An exact answer of the minimizer, read over the column's variables, is
    the half-adder constraint. *)
Lemma exact_cover_sound cl :
  exact_cover (length lhs) (length rhs) cl = true →
  (∀ c l, c ∈ cl → l ∈ c → 1 ≤ Z.abs l ≤ Z.of_nat (length lhs + length rhs)) →
  forallb (clause_sat ρ) (map (map (halfadder_lit lhs rhs)) cl) =
  halfadder_sat ρ lhs rhs.
Proof.
  intros Hex Hrange. unfold exact_cover in Hex.
  rewrite forallb_forall in Hex. specialize (Hex the_row).
  assert (Hin : In the_row (all_rows (length lhs + length rhs))).
  { apply list_elem_of_In.
    replace (length lhs + length rhs)%nat with (length the_row);
      [apply all_rows_complete|].
    unfold row_of. by rewrite length_app, !length_map, length_rev. }
  apply Hex, Bool.eqb_prop in Hin. clear Hex.
  unfold halfadder_sat in *.
  rewrite (count_true_map _ _ _ row_lhs), (word_val_map _ _ _ row_rhs) in Hin.
  rewrite <- Hin. clear Hin.
  induction cl as [|c cl IH]; simpl; [done|].
  rewrite row_clause by (intros l Hl; apply (Hrange c); [left|done]).
  f_equal. apply IH. intros c' l Hc'. apply Hrange. by right.
Qed.

End Cover.

(** ** The half-adder constraint *)

Lemma lin_val_unit ρ xs :
  Forall (λ x, 0 < x) xs → lin_val ρ (map (λ x, (1, x)) xs) = count_true ρ xs.
Proof.
  induction 1 as [|x xs Hx _ IH]; simpl; [done|].
  unfold term_val. simpl. rewrite lit_val_pos by done. rewrite IH. lia.
Qed.

Lemma lin_val_binary ρ xs k :
  Forall (λ x, 0 < x) xs →
  lin_val ρ (imap (λ i x, (- 2 ^ Z.of_nat (k + i), x)) xs) =
  - (2 ^ Z.of_nat k * word_val ρ xs).
Proof.
  intros H. revert k. induction H as [|x xs Hx _ IH]; intros k; simpl; [lia|].
  unfold term_val at 1. simpl. rewrite lit_val_pos by done.
  rewrite Nat.add_0_r.
  rewrite (imap_ext _ (λ i x, (- 2 ^ Z.of_nat (S k + i), x)))
    by (intros; simpl; do 3 f_equal; lia).
  rewrite IH. rewrite Nat2Z.inj_succ, Z.pow_succ_r by lia. lia.
Qed.

Lemma ha_opb_sat ρ lhs rhs :
  Forall (λ x, 0 < x) lhs → Forall (λ x, 0 < x) rhs →
  opb_line_sat ρ (ha_opb lhs rhs) = halfadder_sat ρ lhs rhs.
Proof.
  intros Hl Hr. unfold ha_opb, halfadder_sat. simpl.
  rewrite lin_val_app, lin_val_unit by done.
  replace (lin_val ρ (imap (λ i x, (- 2 ^ Z.of_nat i, x)) rhs))
    with (- (1 * word_val ρ rhs)) by (symmetry; exact (lin_val_binary ρ rhs 0 Hr)).
  destruct (Z.eqb_spec (count_true ρ lhs) (word_val ρ rhs));
    destruct (Z.eqb_spec (count_true ρ lhs + - (1 * word_val ρ rhs)) 0); lia.
Qed.

Lemma sat_cnf_clauses ρ (g : list Z → list Z) cl :
  sat_cnf ρ (map (λ c, CClause (g c)) cl) = forallb (clause_sat ρ) (map g cl).
Proof. induction cl as [|c cl IH]; simpl; [done|]. by rewrite <- IH. Qed.

Lemma minimizer_exact_shape espresso n m :
  minimizer_exact espresso = true → (n, m) ∈ adder_shapes →
  exact_cover n m (read_espresso (n + m) (espresso (pla_input n m))) = true.
Proof.
  unfold minimizer_exact. rewrite forallb_forall. intros H Hin.
  apply (H (n, m)). by apply list_elem_of_In.
Qed.

Section HalfAdder.

Variable cfg : config.
Variable espresso : list string → list string.

Abbreviation inv := (inv espresso).
Abbreviation agree := (agree cfg espresso).
Abbreviation holds := (holds cfg espresso).
Abbreviation spec := (spec cfg espresso).

Abbreviation ha_lines := (ha_cnf cfg espresso).

Lemma forM_clauses_run (g : list Z → list Z) (cl : list (list Z)) st :
  let st' := (forM cl (λ c, modify (put_cnf [CClause (g c)]);;;
                            modify incr_nr_clauses) st).2 in
  cnf st' = cnf st ++ map (λ c, CClause (g c)) cl ∧ opb st' = opb st ∧
  nr_variables st' = nr_variables st ∧ cache st' = cache st ∧
  cerr st' = cerr st.
Proof.
  revert st. induction cl as [|c cl IH]; intros st; simpl.
  - by rewrite app_nil_r.
  - rewrite bind_run.
    destruct (IH ((modify (put_cnf [CClause (g c)]);;;
                   modify incr_nr_clauses) st).2) as (H1 & H2 & H3 & H4 & H5).
    rewrite H1, H2, H3, H4, H5. simpl. by rewrite <- app_assoc.
Qed.

Lemma minimized_clauses_run n m st :
  cache_ok espresso st →
  let r := minimized_clauses espresso n m st in
  r.1 = read_espresso (n + m) (espresso (pla_input n m)) ∧
  cnf r.2 = cnf st ∧ opb r.2 = opb st ∧
  nr_variables r.2 = nr_variables st ∧ cache_ok espresso r.2 ∧
  cerr r.2 = cerr st.
Proof.
  intros Hc. unfold minimized_clauses. rewrite bind_run. cbn [gets fst snd].
  destruct (cache st !! (n, m)) as [cl|] eqn:Hlook.
  - cbn. split_and!; try done. by apply Hc.
  - cbn. split_and!; try done. intros n' m' cl.
    destruct (decide ((n, m) = (n', m'))) as [[= <- <-]|Hne]; cbn.
    + rewrite lookup_insert_eq. by intros [= <-].
    + rewrite lookup_insert_ne by done. apply Hc.
Qed.

Lemma halfadder_run lhs rhs st :
  cache_ok espresso st →
  let st' := (halfadder cfg espresso lhs rhs st).2 in
  cnf st' = cnf st ++ ha_lines lhs rhs ∧ opb st' = opb st ++ [ha_opb lhs rhs] ∧
  nr_variables st' = nr_variables st ∧ cache_ok espresso st' ∧
  cerr st' = cerr st.
Proof.
  intros Hc. unfold halfadder, ha_cnf.
  destruct (config_use_halfadder_clauses cfg); [done|].
  cbn zeta. rewrite !bind_run.
  destruct (minimized_clauses_run (length lhs) (length rhs) st Hc)
    as (E & H1 & H2 & H3 & H4 & H5).
  rewrite E.
  destruct (forM_clauses_run (map (halfadder_lit lhs rhs))
    (read_espresso (length lhs + length rhs)
       (espresso (pla_input (length lhs) (length rhs))))
    (minimized_clauses espresso (length lhs) (length rhs) st).2)
    as (G1 & G2 & G3 & G4 & G5).
  set (s2 := (forM _ _ _).2) in *. clearbody s2.
  cbn. rewrite G1, G2, G3, G5, H1, H2, H3, H5. split_and!; try done.
  unfold cache_ok. cbn. rewrite G4. apply H4.
Qed.

Lemma ha_cnf_sat ρ lhs rhs :
  Forall (λ x, 0 < x) lhs → Forall (λ x, 0 < x) rhs →
  (config_use_halfadder_clauses cfg = false →
   minimizer_exact espresso = true ∧ (length lhs, length rhs) ∈ adder_shapes) →
  sat_cnf ρ (ha_lines lhs rhs) = halfadder_sat ρ lhs rhs.
Proof.
  intros Hl Hr Hex. unfold ha_cnf.
  destruct (config_use_halfadder_clauses cfg).
  - simpl. by rewrite andb_true_r.
  - destruct Hex as [Hex Hin]; [done|].
    rewrite <- (exact_cover_sound ρ lhs rhs Hl Hr _
                  (minimizer_exact_shape _ _ _ Hex Hin)).
    + by rewrite sat_cnf_clauses.
    + intros c l. apply read_espresso_range.
Qed.

Lemma halfadder_spec lhs rhs st :
  inv st → config_use_tseitin_adders cfg = false →
  Forall (λ x, 0 < x) lhs → Forall (λ x, 0 < x) rhs →
  (length lhs, length rhs) ∈ adder_shapes →
  spec (halfadder cfg espresso lhs rhs) st (λ _ st' dc do,
    nr_variables st' = nr_variables st ∧
    ∀ ρ, holds ρ dc do → count_true ρ lhs = word_val ρ rhs).
Proof.
  intros [Hn Hc] Ht Hl Hr Hin.
  destruct (halfadder_run lhs rhs st Hc) as (H1 & H2 & H3 & H4 & H5).
  exists (ha_lines lhs rhs), [ha_opb lhs rhs]. split_and!; try done.
  - split; [lia|done].
  - intros (_ & _ & Hex) ρ. unfold sat_opb. cbn [forallb].
    rewrite andb_true_r, ha_opb_sat by done.
    apply ha_cnf_sat; try done. intros Hh. split; [by apply Hex|done].
  - intros ρ [[Hcfg Htrust] [Hp1 Hp2]]. apply Z.eqb_eq.
    change (halfadder_sat ρ lhs rhs = true).
    destruct (config_opb cfg) eqn:Hopb.
    + specialize (Hp2 eq_refl). unfold sat_opb in Hp2. cbn [forallb] in Hp2.
      rewrite andb_true_r, ha_opb_sat in Hp2; done.
    + destruct (check_config_out _ Hcfg) as [E|E]; [|congruence].
      specialize (Hp1 E). rewrite ha_cnf_sat in Hp1; try done.
      intros Hh. split; [by apply Htrust|done].
Qed.

End HalfAdder.

(** ** The adders *)

Lemma word_val_take_S ρ xs k :
  (k < length xs)%nat →
  word_val ρ (take (S k) xs) =
  word_val ρ (take k xs) + 2 ^ Z.of_nat k * b2z (ρ (at_ xs k)).
Proof.
  intros Hk. destruct (lookup_lt_is_Some_2 xs k Hk) as [x Hx].
  rewrite (take_S_r _ _ _ Hx), word_val_app, length_take_le by lia.
  unfold at_. rewrite (nth_lookup_Some _ _ _ _ Hx). simpl. lia.
Qed.

Lemma count_true_pair ρ x y : count_true ρ [x; y] = b2z (ρ x) + b2z (ρ y).
Proof. unfold count_true. simpl. lia. Qed.

(** *** Columns of pending addends *)

Lemma push_back_length k x ad : length (push_back k x ad) = length ad.
Proof. apply length_alter. Qed.

Lemma push_back_lookup k x ad j :
  (k < length ad)%nat →
  push_back k x ad !!! j = if decide (j = k) then ad !!! k ++ [x] else ad !!! j.
Proof.
  intros Hk. unfold push_back. destruct (decide (j = k)) as [->|Hne].
  - destruct (lookup_lt_is_Some_2 ad k Hk) as [l Hl].
    rewrite (list_lookup_total_correct _ _ _ Hl).
    apply list_lookup_total_correct. by rewrite list_lookup_alter_eq, Hl.
  - rewrite !list_lookup_total_alt, list_lookup_alter_ne by done. done.
Qed.

Lemma wsum_push ρ k j p x ad :
  (p < length ad)%nat → (k ≤ j + p)%nat →
  wsum ρ k j (push_back p x ad) =
  wsum ρ k j ad + 2 ^ Z.of_nat (j + p) * b2z (ρ x).
Proof.
  revert j p. induction ad as [|l ad IH]; intros j p Hp Hk; simpl in Hp; [lia|].
  destruct p as [|p].
  - change (push_back 0 x (l :: ad)) with ((l ++ [x]) :: ad). cbn [wsum].
    rewrite Nat.add_0_r in *. destruct (Nat.leb_spec k j); [|lia].
    rewrite count_true_app. unfold count_true at 2. cbn [foldr]. lia.
  - change (push_back (S p) x (l :: ad)) with (l :: push_back p x ad).
    cbn [wsum]. rewrite IH by lia.
    replace (S j + p)%nat with (j + S p)%nat by lia. lia.
Qed.

Lemma pending_push ρ k p x ad :
  (p < length ad)%nat → (k ≤ p)%nat →
  pending ρ (push_back p x ad) k = pending ρ ad k + 2 ^ Z.of_nat p * b2z (ρ x).
Proof. intros. unfold pending. by rewrite wsum_push. Qed.

Lemma wsum_skip ρ k ad :
  ∀ j, (k < j)%nat → wsum ρ k j ad = wsum ρ (S k) j ad.
Proof.
  induction ad as [|l ad IH]; intros j Hj; cbn [wsum]; [done|].
  destruct (Nat.leb_spec k j); [|lia]. destruct (Nat.leb_spec (S k) j); [|lia].
  by rewrite IH by lia.
Qed.

Lemma wsum_split ρ k j ad :
  (j ≤ k)%nat → (k - j < length ad)%nat →
  wsum ρ k j ad =
  2 ^ Z.of_nat k * count_true ρ (ad !!! (k - j)%nat) + wsum ρ (S k) j ad.
Proof.
  revert j. induction ad as [|l ad IH]; intros j Hj Hk; simpl in Hk; [lia|].
  cbn [wsum]. destruct (decide (j = k)) as [->|Hne].
  - rewrite Nat.sub_diag. change ((l :: ad) !!! 0%nat) with l.
    destruct (Nat.leb_spec k k); [|lia]. destruct (Nat.leb_spec (S k) k); [lia|].
    rewrite wsum_skip by lia. lia.
  - destruct (Nat.leb_spec k j); [lia|]. destruct (Nat.leb_spec (S k) j); [lia|].
    rewrite IH by lia. replace (k - j)%nat with (S (k - S j)) by lia.
    change ((l :: ad) !!! S (k - S j)) with (ad !!! (k - S j)%nat). lia.
Qed.

Lemma pending_split ρ k ad :
  (k < length ad)%nat →
  pending ρ ad k =
  2 ^ Z.of_nat k * count_true ρ (ad !!! k) + pending ρ ad (S k).
Proof.
  intros Hk. unfold pending. rewrite wsum_split by lia. by rewrite Nat.sub_0_r.
Qed.

Lemma wsum_multiple ρ k j ad : ∃ q, wsum ρ k j ad = 2 ^ Z.of_nat k * q.
Proof.
  revert j. induction ad as [|l ad IH]; intros j; cbn [wsum]; [exists 0; lia|].
  destruct (IH (S j)) as [q ->]. destruct (Nat.leb_spec k j).
  - exists (2 ^ Z.of_nat (j - k) * count_true ρ l + q).
    replace (Z.of_nat j) with (Z.of_nat k + Z.of_nat (j - k)) by lia.
    rewrite Z.pow_add_r by lia. lia.
  - exists q. lia.
Qed.

Lemma pending_replicate ρ n k : pending ρ (replicate n []) k = 0.
Proof.
  unfold pending. generalize 0%nat.
  induction n as [|n IH]; intros j; cbn [replicate wsum]; [done|].
  rewrite IH. unfold count_true. cbn [foldr]. destruct (k <=? j)%nat; lia.
Qed.

Lemma replicate_nil_lookup n j : replicate n (@nil Z) !!! j = [].
Proof.
  rewrite list_lookup_total_alt. destruct (decide (j < n)%nat).
  - by rewrite lookup_replicate_2.
  - by rewrite lookup_ge_None_2 by (rewrite length_replicate; lia).
Qed.

(** Pushing the bits of a column. *)
Lemma push_ins_spec ρ i xs ad :
  (i < length ad)%nat →
  let ad' := foldl (λ ad x, push_back i x ad) ad xs in
  length ad' = length ad ∧
  (∀ j, ad' !!! j = if decide (j = i) then ad !!! i ++ xs else ad !!! j) ∧
  (∀ k, (k ≤ i)%nat →
        pending ρ ad' k = pending ρ ad k + 2 ^ Z.of_nat i * count_true ρ xs).
Proof.
  revert ad. induction xs as [|x xs IH]; intros ad Hi; simpl.
  - split; [done|]. split.
    + intros j. destruct (decide (j = i)) as [->|]; [by rewrite app_nil_r|done].
    + intros k _. unfold count_true. simpl. lia.
  - destruct (IH (push_back i x ad)) as (H1 & H2 & H3);
      [by rewrite push_back_length|].
    rewrite H1, push_back_length. split; [done|]. split.
    + intros j. rewrite H2, !push_back_lookup by done.
      destruct (decide (j = i)) as [->|].
      * destruct (decide (i = i)); [|done]. by rewrite <- app_assoc.
      * done.
    + intros k Hk. rewrite H3, pending_push by done.
      change (count_true ρ (x :: xs)) with (b2z (ρ x) + count_true ρ xs). lia.
Qed.

(** Routing the carries of a column upwards. *)
Lemma push_carries_spec ρ i r cs ad n :
  (n ≤ length cs)%nat → (i + n < length ad)%nat →
  let ad' := foldl (λ ad j, push_back (i + j) (at_ (r :: cs) j) ad) ad (seq 1 n) in
  length ad' = length ad ∧
  ad' !!! i = ad !!! i ∧
  (∀ j, (length (ad' !!! j) ≤
         length (ad !!! j) + if decide (i < j ≤ i + n)%nat then 1 else 0)%nat) ∧
  (∀ j x, x ∈ ad' !!! j → x ∈ ad !!! j ∨ x ∈ cs) ∧
  pending ρ ad' (S i) =
  pending ρ ad (S i) + 2 ^ Z.of_nat i * (2 * word_val ρ (take n cs)).
Proof.
  induction n as [|n IH]; intros Hn Hi.
  - simpl. split_and!; try done.
    + intros j. destruct (decide _); lia.
    + auto.
    + lia.
  - destruct IH as (H1 & H2 & H3 & H4 & H5); [lia..|].
    rewrite seq_S, foldl_app. cbn [foldl].
    set (ad1 := foldl _ ad (seq 1 n)) in *.
    rewrite push_back_length. split; [done|].
    assert (Hlt : (i + (1 + n) < length ad1)%nat) by lia.
    split; [|split; [|split]].
    + rewrite push_back_lookup by done. destruct (decide _); [lia|done].
    + intros j. rewrite push_back_lookup by done. specialize (H3 j).
      destruct (decide (j = i + (1 + n))%nat) as [->|].
      * rewrite length_app. cbn [length]. repeat case_decide; lia.
      * repeat case_decide; lia.
    + intros j x. rewrite push_back_lookup by done.
      destruct (decide (j = i + (1 + n))%nat) as [->|]; [|apply H4].
      intros [Hx|Hx%list_elem_of_singleton]%elem_of_app; [by apply H4|].
      right. subst x. change (at_ (r :: cs) (1 + n)) with (nth n cs 0).
      apply list_elem_of_In, nth_In. lia.
    + rewrite pending_push by lia. rewrite H5.
      rewrite word_val_take_S by lia.
      replace (at_ (r :: cs) (1 + n)) with (at_ cs n) by done.
      replace (Z.of_nat (i + (1 + n))) with (Z.of_nat i + 1 + Z.of_nat n) by lia.
      rewrite !Z.pow_add_r by lia. lia.
Qed.

(** *** The half-adder mode *)

Section Columns.

Variable cfg : config.
Variable espresso : list string → list string.

Abbreviation inv := (inv espresso).
Abbreviation agree := (agree cfg espresso).
Abbreviation holds := (holds cfg espresso).
Abbreviation spec := (spec cfg espresso).

(** [p] inputs per column and at most [M] carries waiting. *)
Variables (p M : nat).
Hypothesis shapes :
  ∀ N, (p ≤ N ≤ p + M)%nat →
       (Nat.log2 N ≤ M)%nat ∧ (N, S (Nat.log2 N)) ∈ adder_shapes.
Hypothesis M_small : (M ≤ 2)%nat.

Variables (label : string) (r : list Z) (ins : nat → list Z).
Hypothesis no_tseitin : config_use_tseitin_adders cfg = false.
Hypothesis r_word : word32 r.
Hypothesis ins_ok :
  ∀ i, (i < 32)%nat → length (ins i) = p ∧ Forall (λ x, 0 < x) (ins i).

Lemma adder_column_spec ad i st :
  inv st → (i < 32)%nat → cols_ok M i ad →
  spec (adder_column cfg espresso label r ins ad i) st (λ ad' st' dc do,
    cols_ok M (S i) ad' ∧
    nr_variables st ≤ nr_variables st' ∧
    (∀ j x, j ≠ i → x ∈ ad' !!! j →
            x ∈ ad !!! j ∨ nr_variables st < x ≤ nr_variables st') ∧
    ∀ ρ, holds ρ dc do →
         pending ρ ad' (S i) + 2 ^ Z.of_nat i * b2z (ρ (at_ r i)) =
         pending ρ ad i + 2 ^ Z.of_nat i * count_true ρ (ins i)).
Proof.
  intros Hi Hi32 (Hlen & Hpos & Hcap). unfold adder_column.
  destruct (ins_ok i Hi32) as [Hp Hins].
  assert (Hil : (i < length ad)%nat) by lia.
  set (ad1 := foldl (λ ad x, push_back i x ad) ad (ins i)).
  assert (H1l : length ad1 = length ad) by (apply (push_ins_spec (λ _, true)); done).
  assert (H1c : ∀ j, ad1 !!! j = if decide (j = i) then ad !!! i ++ ins i
                                 else ad !!! j)
    by (apply (push_ins_spec (λ _, true)); done).
  set (N := length (ad1 !!! i)).
  assert (HN : (p ≤ N ≤ p + M)%nat).
  { unfold N. rewrite H1c. destruct (decide (i = i)); [|done].
    rewrite length_app, Hp. specialize (Hcap i). lia. }
  destruct (shapes N HN) as [Hm Hshape].
  set (m := Nat.log2 N) in *.
  eapply spec_bind; [by apply new_vars_spec|].
  cbn beta. intros cs st1 dc1 do1 Hi1 [-> Hn1].
  set (cs := map (λ i0, nr_variables st + 1 + Z.of_nat i0) (seq 0 m)) in *.
  assert (Hcsl : length cs = m) by (unfold cs; by rewrite length_map, length_seq).
  assert (Hcsp : ∀ x, x ∈ cs → 0 < x).
  { intros x (k & -> & Hk)%list_elem_of_fmap. destruct Hi. lia. }
  set (ad2 := foldl (λ ad j, push_back (i + j) (at_ (at_ r i :: cs) j) ad)
                    ad1 (range 1 (1 + m))).
  assert (H2 := λ ρ, push_carries_spec ρ i (at_ r i) cs ad1 m
                       (eq_ind_r (λ n, (m ≤ n)%nat) (le_n m) Hcsl)
                       ltac:(lia)).
  replace (seq 1 m) with (range 1 (1 + m)) in H2
    by (unfold range; f_equal; lia).
  fold ad2 in H2.
  destruct (H2 (λ _, true)) as (H2l & H2i & H2c & H2m & _).
  assert (Hri : 0 < at_ r i) by (by apply r_word).
  eapply spec_bind.
  { apply halfadder_spec; try done.
    - rewrite H2i, H1c. destruct (decide (i = i)); [|done].
      apply Forall_app. split; [|done].
      apply Forall_forall. intros x Hx. by apply (Hpos i).
    - apply Forall_cons. split; [done|]. by apply Forall_forall.
    - rewrite H2i. simpl. by rewrite Hcsl. }
  cbn beta. intros _ st2 dc2 do2 Hi2 [Hn2 Hsem].
  apply spec_ret; [done|]. split; [|split; [|split]].
  - split; [lia|]. split.
    + intros j x Hx. apply H2m in Hx as [Hx|Hx]; [|by apply Hcsp].
      rewrite H1c in Hx. destruct (decide (j = i)) as [->|]; [|by apply (Hpos j)].
      apply elem_of_app in Hx as [Hx|Hx]; [by apply (Hpos i)|].
      rewrite Forall_forall in Hins. by apply Hins.
    + intros j Hj. specialize (H2c j). rewrite H1c in H2c.
      destruct (decide (j = i)); [lia|]. specialize (Hcap j).
      case_decide; lia.
  - lia.
  - intros j x Hj Hx. apply H2m in Hx as [Hx|Hx].
    + left. rewrite H1c in Hx. by destruct (decide (j = i)).
    + right. apply list_elem_of_fmap in Hx as (k & -> & Hk).
      apply elem_of_seq in Hk. lia.
  - intros ρ Hh. rewrite !app_nil_r in Hh.
    apply holds_app in Hh as [_ Hh]. specialize (Hsem ρ Hh).
    destruct (H2 ρ) as (_ & _ & _ & _ & H2p).
    destruct (push_ins_spec ρ i (ins i) ad Hil) as (_ & _ & H1p).
    fold ad1 in H1p. specialize (H1p i (le_n i)).
    rewrite (pending_split ρ i ad1) in H1p by lia.
    rewrite H2i in Hsem. rewrite firstn_all2 in H2p by lia.
    cbn [word_val] in Hsem. lia.
Qed.

Lemma adder_columns_exact st :
  inv st →
  spec (foldM (adder_column cfg espresso label r ins)
              (replicate (32 + 5) []) (range 0 32)) st (λ ad st' dc do,
    (∀ j x, (32 ≤ j)%nat → x ∈ ad !!! j →
            nr_variables st < x ≤ nr_variables st') ∧
    ∀ ρ, holds ρ dc do → ins_sum ρ ins 32 = word_val ρ r + pending ρ ad 32).
Proof.
  intros Hi. eapply spec_conseq.
  { apply (spec_foldM cfg espresso _ _ _ _
      (λ k ad st1 dc do,
         cols_ok M k ad ∧
         nr_variables st ≤ nr_variables st1 ∧
         (∀ j x, (k ≤ j)%nat → x ∈ ad !!! j →
                 nr_variables st < x ≤ nr_variables st1) ∧
         ∀ ρ, holds ρ dc do →
              ins_sum ρ ins k = word_val ρ (take k r) + pending ρ ad k));
      [done|..].
    - split; [|split; [lia|split]].
      + split; [done|]. split.
        * intros j x. rewrite replicate_nil_lookup. by intros ?%elem_of_nil.
        * intros j _. rewrite replicate_nil_lookup. simpl. lia.
      + intros j x _. rewrite replicate_nil_lookup. by intros ?%elem_of_nil.
      + intros ρ _. by rewrite pending_replicate.
    - intros k i ad st1 dc do Hk Hi1 (Hcols & Hle & Hfresh & IH).
      apply lookup_seq in Hk as [-> Hk]. rewrite Nat.sub_0_r in Hk. simpl.
      eapply spec_conseq; [by apply adder_column_spec|].
      cbn beta. intros ad' st2 dc2 do2 Hi2 (Hcols' & Hle' & Hnew & Hstep).
      split; [done|]. split; [lia|]. split.
      + intros j x Hj Hx. apply Hnew in Hx as [Hx|Hx]; [|lia..].
        apply Hfresh in Hx; lia.
      + intros ρ Hh. apply holds_app in Hh as [Hh1 Hh2].
        specialize (IH ρ Hh1). specialize (Hstep ρ Hh2).
        cbn [ins_sum]. rewrite word_val_take_S by (destruct r_word; lia). lia. }
  cbn beta. intros ad st1 dc do Hi1 (Hcols & _ & Hfresh & H).
  rewrite range_length in Hfresh, H.
  change (32 - 0)%nat with 32%nat in Hfresh, H. split; [done|].
  intros ρ Hh. specialize (H ρ Hh).
  destruct r_word as [Hrl _]. by rewrite firstn_all2 in H by lia.
Qed.

Lemma adder_columns_spec st :
  inv st →
  spec (foldM (adder_column cfg espresso label r ins)
              (replicate (32 + 5) []) (range 0 32)) st (λ _ st' dc do,
    ∀ ρ, holds ρ dc do → word_val ρ r = wrap32 (ins_sum ρ ins 32)).
Proof.
  intros Hi. eapply spec_conseq; [by apply adder_columns_exact|].
  cbn beta. intros ad st1 dc do Hi1 [_ H] ρ Hh.
  specialize (H ρ Hh).
  destruct r_word as [Hrl _].
  destruct (wsum_multiple ρ 32 0 ad) as [q Hq]. unfold pending in H.
  pose proof (word_val_bounds ρ r) as Hb. rewrite Hrl in Hb.
  unfold wrap32. rewrite H, Hq. change (2 ^ Z.of_nat 32) with (2 ^ 32) in *.
  replace (word_val ρ r + 2 ^ 32 * q) with (word_val ρ r + q * 2 ^ 32) by lia.
  rewrite Z_mod_plus_full. by rewrite Z.mod_small.
Qed.

End Columns.

(** *** Sums of words *)

Lemma at_drop k a i : at_ (drop k a) i = at_ a (k + i).
Proof. unfold at_. by rewrite !nth_lookup, lookup_drop. Qed.

Lemma at_drop_1 a i : at_ (drop 1 a) i = at_ a (S i).
Proof. apply at_drop. Qed.

Lemma posw_drop n k a : posw (k + n) a → posw n (drop k a).
Proof. intros H i Hi. rewrite at_drop. apply H. lia. Qed.

Lemma posw_le n n' a : (n ≤ n')%nat → posw n' a → posw n a.
Proof. intros Hn H i Hi. apply H. lia. Qed.

Lemma word32_Forall a : word32 a → Forall (λ x, 0 < x) a.
Proof.
  intros [Hl Hp]. apply Forall_forall. intros x Hx.
  apply list_elem_of_In, (In_nth _ _ 0) in Hx as (i & Hi & <-). apply Hp. lia.
Qed.

Lemma ins_sum_2 ρ a b k :
  (k ≤ length a)%nat → (k ≤ length b)%nat →
  ins_sum ρ (λ i, [at_ a i; at_ b i]) k =
  word_val ρ (take k a) + word_val ρ (take k b).
Proof.
  induction k as [|k IH]; intros Ha Hb; [done|].
  cbn [ins_sum]. rewrite IH, !word_val_take_S by lia.
  unfold count_true. cbn [foldr]. lia.
Qed.

Lemma ins_sum_5 ρ a b c d e k :
  (k ≤ length a)%nat → (k ≤ length b)%nat → (k ≤ length c)%nat →
  (k ≤ length d)%nat → (k ≤ length e)%nat →
  ins_sum ρ (λ i, [at_ a i; at_ b i; at_ c i; at_ d i; at_ e i]) k =
  word_val ρ (take k a) + word_val ρ (take k b) + word_val ρ (take k c) +
  word_val ρ (take k d) + word_val ρ (take k e).
Proof.
  induction k as [|k IH]; intros Ha Hb Hc Hd He; [done|].
  cbn [ins_sum]. rewrite IH, !word_val_take_S by lia.
  unfold count_true. cbn [foldr]. lia.
Qed.

Lemma shapes_2 N :
  (2 ≤ N ≤ 2 + 1)%nat →
  (Nat.log2 N ≤ 1)%nat ∧ (N, S (Nat.log2 N)) ∈ adder_shapes.
Proof.
  intros H. assert (N = 2 ∨ N = 3)%nat as [->| ->] by lia;
    (split; [vm_compute; lia|]); apply list_elem_of_In; vm_compute; tauto.
Qed.

Lemma shapes_5 N :
  (5 ≤ N ≤ 5 + 2)%nat →
  (Nat.log2 N ≤ 2)%nat ∧ (N, S (Nat.log2 N)) ∈ adder_shapes.
Proof.
  intros H. assert (N = 5 ∨ N = 6 ∨ N = 7)%nat as [->|[->| ->]] by lia;
    (split; [vm_compute; lia|]); apply list_elem_of_In; vm_compute; tauto.
Qed.

(** The ripple-carry chain adds. *)
Lemma ripple_carry ρ r a b c :
  length r = 32%nat → length a = 32%nat → length b = 32%nat →
  ρ (at_ c 0) = ρ (at_ a 0) && ρ (at_ b 0) →
  ρ (at_ r 0) = xorb (ρ (at_ a 0)) (ρ (at_ b 0)) →
  (∀ i, (i < 30)%nat →
        ρ (at_ c (S i)) =
        (ρ (at_ a (S i)) && ρ (at_ b (S i))) ||
        (xorb (ρ (at_ a (S i))) (ρ (at_ b (S i))) && ρ (at_ c i))) →
  (∀ i, (i < 31)%nat →
        ρ (at_ r (S i)) =
        xorb (xorb (ρ (at_ a (S i))) (ρ (at_ b (S i)))) (ρ (at_ c i))) →
  word_val ρ r = wrap32 (word_val ρ a + word_val ρ b).
Proof.
  intros Hr Ha Hb Hc0 Hr0 Hc Hrs.
  assert (Hk : ∀ k, (k ≤ 30)%nat →
    word_val ρ (take (S k) r) + 2 ^ Z.of_nat (S k) * b2z (ρ (at_ c k)) =
    word_val ρ (take (S k) a) + word_val ρ (take (S k) b)).
  { induction k as [|k IH]; intros Hk.
    - rewrite !word_val_take_S by lia. rewrite !take_0. simpl word_val.
      rewrite Hc0, Hr0. by destruct (ρ (at_ a 0)), (ρ (at_ b 0)).
    - specialize (IH ltac:(lia)).
      rewrite (word_val_take_S ρ r (S k)), (word_val_take_S ρ a (S k)),
        (word_val_take_S ρ b (S k)) by lia.
      rewrite (Hc k), (Hrs k) by lia.
      rewrite (Nat2Z.inj_succ (S k)), Z.pow_succ_r by lia.
      destruct (ρ (at_ a (S k))), (ρ (at_ b (S k))), (ρ (at_ c k));
        simpl b2z in *; lia. }
  specialize (Hk 30%nat ltac:(lia)).
  pose proof (word_val_bounds ρ (take 31 r)) as Hbr.
  rewrite length_take_le in Hbr by lia.
  rewrite <- (firstn_all r), <- (firstn_all a), <- (firstn_all b) at 1.
  rewrite Hr, Ha, Hb in *.
  rewrite (word_val_take_S ρ r 31), (word_val_take_S ρ a 31),
    (word_val_take_S ρ b 31) in * by lia.
  rewrite (Hrs 30%nat) in * by lia.
  change (2 ^ Z.of_nat 31) with 2147483648 in *.
  change (2 ^ Z.of_nat 32) with 4294967296 in *.
  unfold wrap32. change (2 ^ 32) with 4294967296.
  set (R := word_val ρ (take 31 r)) in *.
  set (A := word_val ρ (take 31 a)) in *.
  set (B := word_val ρ (take 31 b)) in *.
  destruct (ρ (at_ a 31)), (ρ (at_ b 31)), (ρ (at_ c 30)); simpl b2z in *;
    first [ apply (Z.mod_unique _ _ 0); lia
          | apply (Z.mod_unique _ _ 1); lia ].
Qed.

Lemma lin_val_pow ρ a :
  word32 a → lin_val ρ (pow_terms a) = word_val ρ a.
Proof.
  intros [Hl Hp]. unfold pow_terms.
  assert (H : ∀ k, (k ≤ 32)%nat →
    lin_val ρ (map (λ i, (2 ^ Z.of_nat i, at_ a i)) (seq 0 k)) =
    word_val ρ (take k a)).
  { induction k as [|k IH]; intros Hk; [done|].
    rewrite seq_S, map_app, lin_val_app, IH, word_val_take_S by lia.
    simpl. unfold term_val. simpl. rewrite lit_val_pos by (apply Hp; lia). lia. }
  unfold range. rewrite H by done. by rewrite firstn_all2 by lia.
Qed.

Lemma lin_val_neg_pow ρ r :
  word32 r → lin_val ρ (neg_pow_terms r) = - word_val ρ r.
Proof.
  intros [Hl Hp]. unfold neg_pow_terms.
  assert (H : ∀ k, (k ≤ 32)%nat →
    lin_val ρ (map (λ i, (- 2 ^ Z.of_nat i, at_ r i)) (seq 0 k)) =
    - word_val ρ (take k r)).
  { induction k as [|k IH]; intros Hk; [done|].
    rewrite seq_S, map_app, lin_val_app, IH, word_val_take_S by lia.
    simpl. unfold term_val. simpl. rewrite lit_val_pos by (apply Hp; lia). lia. }
  unfold range. rewrite H by done. by rewrite firstn_all2 by lia.
Qed.

(** *** The two adders *)

Section Adders.

Variable cfg : config.
Variable espresso : list string → list string.

Abbreviation inv := (inv espresso).
Abbreviation agree := (agree cfg espresso).
Abbreviation holds := (holds cfg espresso).
Abbreviation spec := (spec cfg espresso).

Lemma add2_spec label r a b st :
  inv st → word32 r → word32 a → word32 b →
  spec (add2 cfg espresso label r a b) st (λ _ st' dc do,
    ∀ ρ, holds ρ dc do → word_val ρ r = wrap32 (word_val ρ a + word_val ρ b)).
Proof.
  intros Hi Hr Ha Hb. unfold add2.
  eapply spec_bind; [by apply comment_spec|].
  cbn beta. intros _ st0 dc0 do0 Hi0 _.
  destruct (config_use_tseitin_adders cfg) eqn:Ht;
    [|destruct (config_use_compact_adders cfg) eqn:Hc].
  - (* Tseitin *)
    destruct Hr as [Hrl Hrp], Ha as [Hal Hap], Hb as [Hbl Hbp].
    eapply spec_bind; [by apply new_vars_spec|].
    cbn beta. intros c st1 dc1 do1 Hi1 [-> _].
    eapply spec_bind; [by apply new_vars_spec|].
    cbn beta. intros t0 st2 dc2 do2 Hi2 [-> _].
    eapply spec_bind; [by apply new_vars_spec|].
    cbn beta. intros t1 st3 dc3 do3 Hi3 [-> _].
    eapply spec_bind; [by apply new_vars_spec|].
    cbn beta. intros t2 st4 dc4 do4 Hi4 [-> _].
    pose proof (new_vars_posw (nr_variables st0) 31 (proj1 Hi0)) as Hcp.
    pose proof (new_vars_posw (nr_variables st1) 31 (proj1 Hi1)) as Ht0.
    pose proof (new_vars_posw (nr_variables st2) 31 (proj1 Hi2)) as Ht1.
    pose proof (new_vars_posw (nr_variables st3) 31 (proj1 Hi3)) as Ht2.
    set (c := map _ (seq 0 31)) in Hcp |- *.
    set (t0 := map _ (seq 0 31)) in Ht0 |- *.
    set (t1 := map _ (seq 0 31)) in Ht1 |- *.
    set (t2 := map _ (seq 0 31)) in Ht2 |- *.
    eapply spec_bind.
    { apply and2_spec; [done|by eapply posw_le; [|done]; lia..]. }
    cbn beta. intros _ st5 dc5 do5 Hi5 [_ F1].
    eapply spec_bind.
    { apply xor2_spec; [done|by eapply posw_le; [|done]; lia..]. }
    cbn beta. intros _ st6 dc6 do6 Hi6 [_ F2].
    eapply spec_bind.
    { apply xor2_spec; [done|done|by apply posw_drop..]. }
    cbn beta. intros _ st7 dc7 do7 Hi7 [_ F3].
    eapply spec_bind.
    { apply and2_spec; [done|done|by apply posw_drop..]. }
    cbn beta. intros _ st8 dc8 do8 Hi8 [_ F4].
    eapply spec_bind.
    { apply and2_spec; done. }
    cbn beta. intros _ st9 dc9 do9 Hi9 [_ F5].
    eapply spec_bind.
    { apply or2_spec; [done|by apply posw_drop|by eapply posw_le; [|done]; lia..]. }
    cbn beta. intros _ st10 dc10 do10 Hi10 [_ F6].
    eapply spec_conseq.
    { apply xor2_spec; [done|by apply posw_drop|done..]. }
    cbn beta. intros _ st11 dc11 do11 Hi11 [_ F7].
    intros ρ Hh. repeat (apply holds_app in Hh as [? Hh]).
    apply (ripple_carry ρ r a b c); try done.
    + by apply F1; [|lia].
    + by apply F2; [|lia].
    + intros i Hi30.
      rewrite <- (at_drop_1 c i), F6 by done.
      rewrite F4, F5, F3 by (done || lia). by rewrite !at_drop_1.
    + intros i Hi31.
      rewrite <- (at_drop_1 r i), F7 by done.
      rewrite F3 by done. by rewrite !at_drop_1.
  - (* compact *)
    apply (spec_leaf _ _ _ _ [] [OConstraint (pow_terms a ++ pow_terms b ++
                                              neg_pow_terms r) Eq 0]);
      try done; try apply Hi0.
    + simpl. by rewrite app_nil_r.
    + intros (_ & [?|?] & _); congruence.
    + intros ρ Hh.
      apply holds_app in Hh as [_ [[Hcfg _] [_ Ho]]].
      specialize (Ho (check_config_compact _ Hcfg Hc)).
      unfold sat_opb in Ho. cbn [forallb opb_line_sat] in Ho.
      rewrite andb_true_r in Ho. apply Z.eqb_eq in Ho.
      rewrite !lin_val_app, !lin_val_pow, lin_val_neg_pow in Ho by done.
      pose proof (word_val_bounds ρ r) as Hbr. destruct Hr as [Hrl _].
      rewrite Hrl in Hbr. unfold wrap32.
      replace (word_val ρ a + word_val ρ b) with (word_val ρ r) by lia.
      by rewrite Z.mod_small.
  - (* half-adder columns *)
    eapply spec_bind.
    { apply (adder_columns_spec cfg espresso 2 1 shapes_2); try done; [lia|].
      intros i Hi32. split; [done|].
      repeat (apply Forall_cons; split); [by apply Ha|by apply Hb|done]. }
    cbn beta. intros _ st1 dc1 do1 Hi1 H.
    apply spec_ret; [done|]. intros ρ Hh. rewrite !app_nil_r in Hh.
    apply holds_app in Hh as [_ Hh].
    rewrite (H ρ Hh). destruct Ha as [Hal _], Hb as [Hbl _].
    rewrite ins_sum_2 by lia. by rewrite !firstn_all2 by lia.
Qed.

Lemma wrap32_add_l x y : wrap32 (wrap32 x + y) = wrap32 (x + y).
Proof. apply Zplus_mod_idemp_l. Qed.

Lemma wrap32_add_r x y : wrap32 (x + wrap32 y) = wrap32 (x + y).
Proof. apply Zplus_mod_idemp_r. Qed.

Lemma add5_spec label r a b c d e st :
  inv st → word32 r → word32 a → word32 b → word32 c → word32 d → word32 e →
  spec (add5 cfg espresso label r a b c d e) st (λ _ st' dc do,
    ∀ ρ, holds ρ dc do →
         word_val ρ r =
         wrap32 (word_val ρ a + word_val ρ b + word_val ρ c + word_val ρ d +
                 word_val ρ e)).
Proof.
  intros Hi Hr Ha Hb Hc Hd He. unfold add5.
  eapply spec_bind; [by apply comment_spec|].
  cbn beta. intros _ st0 dc0 do0 Hi0 _.
  destruct (config_use_tseitin_adders cfg) eqn:Ht;
    [|destruct (config_use_compact_adders cfg) eqn:Hcp].
  - (* Tseitin: four chained adders *)
    eapply spec_bind; [by apply new_vars_spec|].
    cbn beta. intros t0 st1 dc1 do1 Hi1 [-> _].
    eapply spec_bind; [by apply new_vars_spec|].
    cbn beta. intros t1 st2 dc2 do2 Hi2 [-> _].
    eapply spec_bind; [by apply new_vars_spec|].
    cbn beta. intros t2 st3 dc3 do3 Hi3 [-> _].
    pose proof (new_vars_word32 (nr_variables st0) (proj1 Hi0)) as Ht0.
    pose proof (new_vars_word32 (nr_variables st1) (proj1 Hi1)) as Ht1.
    pose proof (new_vars_word32 (nr_variables st2) (proj1 Hi2)) as Ht2.
    set (t0 := map _ (seq 0 32)) in Ht0 |- *.
    set (t1 := map _ (seq 0 32)) in Ht1 |- *.
    set (t2 := map _ (seq 0 32)) in Ht2 |- *.
    eapply spec_bind; [by apply add2_spec|].
    cbn beta. intros _ st4 dc4 do4 Hi4 F1.
    eapply spec_bind; [by apply add2_spec|].
    cbn beta. intros _ st5 dc5 do5 Hi5 F2.
    eapply spec_bind; [by apply add2_spec|].
    cbn beta. intros _ st6 dc6 do6 Hi6 F3.
    eapply spec_conseq; [by apply add2_spec|].
    cbn beta. intros _ st7 dc7 do7 Hi7 F4.
    intros ρ Hh. repeat (apply holds_app in Hh as [? Hh]).
    rewrite (F4 ρ), (F3 ρ), (F2 ρ), (F1 ρ) by done.
    set (A := word_val ρ a + word_val ρ b).
    set (C := word_val ρ c + word_val ρ d).
    rewrite wrap32_add_l.
    replace (wrap32 A + wrap32 C + word_val ρ e)
      with (wrap32 A + (wrap32 C + word_val ρ e)) by lia.
    rewrite wrap32_add_l.
    replace (A + (wrap32 C + word_val ρ e))
      with (wrap32 C + (A + word_val ρ e)) by lia.
    rewrite wrap32_add_l. f_equal. lia.
  - (* compact *)
    apply (spec_leaf _ _ _ _ []
             [OConstraint (pow_terms a ++ pow_terms b ++ pow_terms c ++
                           pow_terms d ++ pow_terms e ++ neg_pow_terms r) Eq 0]);
      try done; try apply Hi0.
    + simpl. by rewrite app_nil_r.
    + intros (_ & [?|?] & _); congruence.
    + intros ρ Hh.
      apply holds_app in Hh as [_ [[Hcfg _] [_ Ho]]].
      specialize (Ho (check_config_compact _ Hcfg Hcp)).
      unfold sat_opb in Ho. cbn [forallb opb_line_sat] in Ho.
      rewrite andb_true_r in Ho. apply Z.eqb_eq in Ho.
      rewrite !lin_val_app, !lin_val_pow, lin_val_neg_pow in Ho by done.
      pose proof (word_val_bounds ρ r) as Hbr. destruct Hr as [Hrl _].
      rewrite Hrl in Hbr. unfold wrap32.
      replace (word_val ρ a + word_val ρ b + word_val ρ c + word_val ρ d +
               word_val ρ e) with (word_val ρ r) by lia.
      by rewrite Z.mod_small.
  - (* half-adder columns *)
    eapply spec_bind.
    { apply (adder_columns_spec cfg espresso 5 2 shapes_5); try done.
      intros i Hi32. split; [done|].
      repeat (apply Forall_cons; split);
        [by apply Ha|by apply Hb|by apply Hc|by apply Hd|by apply He|done]. }
    cbn beta. intros _ st1 dc1 do1 Hi1 H.
    apply spec_ret; [done|]. intros ρ Hh. rewrite !app_nil_r in Hh.
    apply holds_app in Hh as [_ Hh].
    rewrite (H ρ Hh).
    destruct Ha as [Hal _], Hb as [Hbl _], Hc as [Hcl _], Hd as [Hdl _],
      He as [Hel _].
    rewrite ins_sum_5 by lia. by rewrite !firstn_all2 by lia.
Qed.

End Adders.

(** ** Words: rotation and the bitwise functions *)

Lemma word_val_bits ρ xs (v : Z) :
  (∀ i, 0 ≤ i →
        Z.testbit v i =
        if i <? Z.of_nat (length xs) then ρ (at_ xs (Z.to_nat i)) else false) →
  word_val ρ xs = v.
Proof.
  intros H. apply Z.bits_inj'. intros i Hi. rewrite H by done.
  destruct (Z.ltb_spec i (Z.of_nat (length xs))).
  - rewrite <- (Z2Nat.id i) at 1 by lia. rewrite word_val_testbit.
    destruct (Nat.ltb_spec (Z.to_nat i) (length xs)); [done|lia].
  - by apply word_val_testbit_high.
Qed.

Lemma word_val_testbit_Z ρ xs i :
  0 ≤ i →
  Z.testbit (word_val ρ xs) i =
  if i <? Z.of_nat (length xs) then ρ (at_ xs (Z.to_nat i)) else false.
Proof.
  intros Hi. destruct (Z.ltb_spec i (Z.of_nat (length xs))).
  - rewrite <- (Z2Nat.id i) at 1 by lia. rewrite word_val_testbit.
    destruct (Nat.ltb_spec (Z.to_nat i) (length xs)); [done|lia].
  - by apply word_val_testbit_high.
Qed.

Lemma rotl_length x n : length (rotl x n) = 32%nat.
Proof. unfold rotl. by rewrite length_map, length_seq. Qed.

Lemma rotl_at x n i :
  (i < 32)%nat → at_ (rotl x n) i = at_ x ((i + 32 - n) mod 32).
Proof.
  intros Hi. unfold rotl, at_ at 1.
  rewrite (nth_indep _ 0 (at_ x ((0 + 32 - n) mod 32)))
    by (by rewrite length_map, length_seq).
  rewrite (map_nth (λ i, at_ x ((i + 32 - n) mod 32))). by rewrite seq_nth.
Qed.

Lemma rotl_word32 x n : word32 x → word32 (rotl x n).
Proof.
  intros [Hl Hp]. split; [apply rotl_length|].
  intros i Hi. rewrite rotl_at by done. apply Hp. apply Nat.mod_upper_bound. lia.
Qed.

Lemma rotl32_testbit X n i :
  0 ≤ X < 2 ^ 32 → 0 < n < 32 → 0 ≤ i →
  Z.testbit (rotl32 X n) i =
  if i <? 32 then Z.testbit X ((i + 32 - n) mod 32) else false.
Proof.
  intros HX Hn Hi. unfold rotl32, wrap32. rewrite Z.lor_spec.
  assert (Hhigh : ∀ j, 32 ≤ j → Z.testbit X j = false).
  { intros j Hj. destruct (Z.eq_dec X 0) as [->|]; [apply Z.testbit_0_l|].
    apply Z.bits_above_log2; [lia|]. apply Z.log2_lt_pow2; [lia|].
    eapply Z.lt_le_trans; [apply HX|]. apply Z.pow_le_mono_r; lia. }
  destruct (Z.ltb_spec i 32).
  - rewrite Z.mod_pow2_bits_low by lia.
    rewrite Z.shiftl_spec, Z.shiftr_spec by lia.
    destruct (Z.lt_ge_cases i n).
    + rewrite (Z.testbit_neg_r X (i - n)) by lia. simpl.
      rewrite Z.mod_small by lia. f_equal. lia.
    + rewrite (Hhigh (i + (32 - n))) by lia. rewrite orb_false_r.
      replace (i + 32 - n) with (i - n + 1 * 32) by lia.
      rewrite Z_mod_plus_full, Z.mod_small by lia. done.
  - rewrite Z.mod_pow2_bits_high by lia. simpl.
    rewrite Z.shiftr_spec by lia. apply Hhigh. lia.
Qed.

Lemma word_val_rotl ρ x n :
  length x = 32%nat → (0 < n < 32)%nat →
  word_val ρ (rotl x n) = rotl32 (word_val ρ x) (Z.of_nat n).
Proof.
  intros Hl Hn. apply word_val_bits. intros i Hi.
  pose proof (word_val_bounds ρ x) as Hb. rewrite Hl in Hb.
  rewrite rotl32_testbit, rotl_length by (done || lia).
  change (Z.of_nat 32) with 32. destruct (Z.ltb_spec i 32); [|done].
  rewrite rotl_at by lia.
  assert (Hm : (i + 32 - Z.of_nat n) mod 32 =
               Z.of_nat ((Z.to_nat i + 32 - n) mod 32)).
  { rewrite Nat2Z.inj_mod. f_equal. lia. }
  rewrite Hm, word_val_testbit, Hl.
  destruct (Nat.ltb_spec ((Z.to_nat i + 32 - n) mod 32) 32); [done|].
  pose proof (Nat.mod_upper_bound (Z.to_nat i + 32 - n) 32). lia.
Qed.

(** Rotation by 0 or by 32 leaves the word as it is. *)
Lemma word_val_rotl_id ρ x n :
  length x = 32%nat → n = 0%nat ∨ n = 32%nat →
  word_val ρ (rotl x n) = word_val ρ x.
Proof.
  intros Hl Hn. apply word_val_bits. intros i Hi.
  rewrite rotl_length, word_val_testbit_Z, Hl by done.
  destruct (Z.ltb_spec i (Z.of_nat 32)); [|done].
  rewrite rotl_at by lia. do 2 f_equal.
  destruct Hn as [-> | ->].
  - rewrite Nat.sub_0_r. replace (Z.to_nat i + 32)%nat
      with (Z.to_nat i + 1 * 32)%nat by lia.
    rewrite Nat.Div0.mod_add. symmetry. apply Nat.mod_small. lia.
  - replace (Z.to_nat i + 32 - 32)%nat with (Z.to_nat i) by lia.
    symmetry. apply Nat.mod_small. lia.
Qed.

(** A word whose bits are pinned to those of a constant. *)
Lemma word_val_constant ρ x K :
  length x = 32%nat → 0 ≤ K < 2 ^ 32 →
  (∀ i, (i < 32)%nat → ρ (at_ x i) = Z.testbit K (Z.of_nat i)) →
  word_val ρ x = K.
Proof. intros Hl HK H. by apply (word_val_ext ρ x K 32). Qed.

Lemma lnot32_testbit X i :
  0 ≤ i →
  Z.testbit (wrap32 (Z.lnot X)) i = if i <? 32 then negb (Z.testbit X i) else false.
Proof.
  intros Hi. unfold wrap32. destruct (Z.ltb_spec i 32).
  - rewrite Z.mod_pow2_bits_low by lia. by apply Z.lnot_spec.
  - by rewrite Z.mod_pow2_bits_high by lia.
Qed.

Lemma word_val_f ρ i f b c d :
  (i < 80)%nat →
  length f = 32%nat → length b = 32%nat → length c = 32%nat →
  length d = 32%nat →
  (∀ j, (j < 32)%nat →
        ρ (at_ f j) = f_bit i (ρ (at_ b j)) (ρ (at_ c j)) (ρ (at_ d j))) →
  word_val ρ f = native_f i (word_val ρ b) (word_val ρ c) (word_val ρ d).
Proof.
  intros Hi Hf Hb Hc Hd H. apply word_val_bits. intros j Hj.
  unfold native_f, f_bit in *. rewrite Hf.
  destruct (i <? 20)%nat; [|destruct (i <? 40)%nat; [|destruct (i <? 60)%nat;
    [|destruct (Nat.ltb_spec i 80); [|lia]]]];
    rewrite ?Z.lor_spec, ?Z.land_spec, ?Z.lxor_spec, ?lnot32_testbit by done;
    rewrite !word_val_testbit_Z, Hb, Hc, Hd by done;
    change (Z.of_nat 32) with 32;
    (destruct (Z.ltb_spec j 32); [by rewrite H by lia|done]).
Qed.

Lemma word_val_xor4 ρ r a b c d :
  length r = 32%nat → length a = 32%nat → length b = 32%nat →
  length c = 32%nat → length d = 32%nat →
  (∀ i, (i < 32)%nat →
        ρ (at_ r i) =
        xorb (xorb (xorb (ρ (at_ a i)) (ρ (at_ b i))) (ρ (at_ c i)))
             (ρ (at_ d i))) →
  word_val ρ r =
  Z.lxor (Z.lxor (Z.lxor (word_val ρ a) (word_val ρ b)) (word_val ρ c))
         (word_val ρ d).
Proof.
  intros Hr Ha Hb Hc Hd H. apply word_val_bits. intros j Hj.
  rewrite !Z.lxor_spec, !word_val_testbit_Z, Hr, Ha, Hb, Hc, Hd by done.
  destruct (Z.ltb_spec j (Z.of_nat 32)); [by rewrite H by lia|done].
Qed.

(** ** The SHA-1 circuit *)

(** *** The native schedule *)

Lemma native_schedule_S n W :
  (16 ≤ n)%nat →
  native_schedule (S n) W = schedule_step (native_schedule n W) n.
Proof.
  intros Hn. unfold native_schedule. by rewrite range_S, foldl_app by done.
Qed.

Lemma native_schedule_length n W : length (native_schedule n W) = length W.
Proof.
  destruct (decide (n ≤ 16)%nat) as [Hle|Hgt].
  - unfold native_schedule, range. by replace (n - 16)%nat with 0%nat by lia.
  - induction n as [|n IH]; [lia|].
    destruct (decide (n = 16%nat)) as [->|].
    + rewrite native_schedule_S by lia. unfold schedule_step.
      rewrite length_insert. unfold native_schedule, range. done.
    + rewrite native_schedule_S by lia. unfold schedule_step.
      rewrite length_insert. apply IH. lia.
Qed.

Lemma native_schedule_low n W i :
  (i < 16)%nat → native_schedule n W !!! i = W !!! i.
Proof.
  intros Hi. destruct (decide (n ≤ 16)%nat) as [Hle|Hgt].
  - unfold native_schedule, range. by replace (n - 16)%nat with 0%nat by lia.
  - induction n as [|n IH]; [lia|].
    rewrite native_schedule_S by lia. unfold schedule_step.
    rewrite list_lookup_total_insert_ne by lia.
    destruct (decide (n = 16%nat)) as [->|]; [|apply IH; lia].
    unfold native_schedule, range. done.
Qed.

Lemma native_k_table i :
  (i < 80)%nat →
  native_k i =
  nth (i / 20) [0x5a827999; 0x6ed9eba1; 0x8f1bbcdc; 0xca62c1d6] 0.
Proof.
  intros Hi. do 80 (destruct i as [|i]; [reflexivity|]). lia.
Qed.

Section Circuit.

Variable cfg : config.
Variable espresso : list string → list string.

Abbreviation inv := (inv espresso).
Abbreviation agree := (agree cfg espresso).
Abbreviation holds := (holds cfg espresso).
Abbreviation spec := (spec cfg espresso).

(** A loop that allocates one word per index. *)
Lemma alloc_loop_spec (lbl : nat → string) (d : bool) (idx : nat → nat)
    (arr : list (list Z)) lo hi st :
  inv st →
  (∀ i, (lo ≤ i < hi)%nat → (idx i < length arr)%nat) →
  (∀ i j, (lo ≤ i < hi)%nat → (lo ≤ j < hi)%nat → idx i = idx j → i = j) →
  spec (foldM (λ w i, x <- new_vars cfg (lbl i) 32 d;; ret (<[idx i := x]> w))
              arr (range lo hi)) st
    (λ arr' st' dc do,
       length arr' = length arr ∧
       (∀ i, (lo ≤ i < hi)%nat → word32 (arr' !!! idx i)) ∧
       (∀ j, (∀ i, (lo ≤ i < hi)%nat → j ≠ idx i) → arr' !!! j = arr !!! j)).
Proof.
  intros Hi Hidx Hinj. eapply spec_conseq.
  { apply (spec_foldM cfg espresso _ _ _ _
      (λ k arr' st1 dc do,
         length arr' = length arr ∧
         (∀ i, (lo ≤ i < lo + k)%nat → word32 (arr' !!! idx i)) ∧
         (∀ j, (∀ i, (lo ≤ i < lo + k)%nat → j ≠ idx i) →
               arr' !!! j = arr !!! j))); [done|..].
    - split; [done|]. split; [intros; lia|done].
    - intros k i arr' st1 dc do Hk Hi1 (Hl & Hw & Hu).
      apply lookup_seq in Hk as [-> Hk].
      eapply spec_bind; [by apply new_vars_spec|].
      cbn beta. intros x st2 dc2 do2 Hi2 [-> _].
      apply spec_ret; [done|]. split; [by rewrite length_insert|]. split.
      + intros i Hik. destruct (decide (i = lo + k)%nat) as [->|Hne].
        * rewrite list_lookup_total_insert_eq by (rewrite Hl; apply Hidx; lia).
          apply new_vars_word32, Hi1.
        * rewrite list_lookup_total_insert_ne; [apply Hw; lia|].
          intros E. apply Hinj in E; lia.
      + intros j Hj. rewrite list_lookup_total_insert_ne; [apply Hu|].
        * intros i Hik. apply Hj. lia.
        * intros E. apply (Hj (lo + k)%nat); [lia|done]. }
  cbn beta. intros arr' st1 dc do Hi1 (Hl & Hw & Hu).
  rewrite range_length in *. split; [done|]. split.
  - intros i Hik. apply Hw. lia.
  - intros j Hj. apply Hu. intros i Hik. apply Hj. lia.
Qed.

(** The message schedule: [w[i]] for [16 <= i < R]. *)
Lemma schedule_loop_spec (w wt : list (list Z)) R st :
  inv st → (16 ≤ R ≤ 80)%nat → length w = 80%nat →
  (∀ i, (i < 16)%nat → word32 (w !!! i)) →
  (∀ i, (16 ≤ i < R)%nat → word32 (wt !!! i)) →
  spec (foldM (λ w i,
          xor4 cfg (wt !!! i) (w !!! (i - 3)%nat) (w !!! (i - 8)%nat)
               (w !!! (i - 14)%nat) (w !!! (i - 16)%nat);;;
          ret (<[i := rotl (wt !!! i) 1]> w)) w (range 16 R)) st
    (λ w' st' dc do,
       length w' = 80%nat ∧
       (∀ i, (i < 16)%nat → w' !!! i = w !!! i) ∧
       (∀ i, (i < R)%nat → word32 (w' !!! i)) ∧
       ∀ ρ, holds ρ dc do →
            ∀ W, length W = 80%nat →
                 (∀ i, (i < 16)%nat → W !!! i = word_val ρ (w !!! i)) →
                 ∀ i, (i < R)%nat →
                      word_val ρ (w' !!! i) = native_schedule R W !!! i).
Proof.
  intros Hi HR Hl Hw Hwt. eapply spec_conseq.
  { apply (spec_foldM cfg espresso _ _ _ _
      (λ k w' st1 dc do,
         length w' = 80%nat ∧
         (∀ i, (i < 16)%nat → w' !!! i = w !!! i) ∧
         (∀ i, (i < 16 + k)%nat → word32 (w' !!! i)) ∧
         ∀ ρ, holds ρ dc do →
              ∀ W, length W = 80%nat →
                   (∀ i, (i < 16)%nat → W !!! i = word_val ρ (w !!! i)) →
                   ∀ i, (i < 16 + k)%nat →
                        word_val ρ (w' !!! i) =
                        native_schedule (16 + k) W !!! i)); [done|..].
    - split; [done|]. split; [done|]. split; [intros i ?; apply Hw; lia|].
      intros ρ _ W HW HWl i Hi16. rewrite native_schedule_low by lia.
      symmetry. apply HWl. lia.
    - intros k i w' st1 dc do Hk Hi1 (Hl' & Hlow & Hw' & Hval).
      apply lookup_seq in Hk as [-> Hk].
      eapply spec_bind.
      { apply xor4_spec; [done|apply Hwt; lia|apply Hw'; lia..]. }
      cbn beta. intros _ st2 dc2 do2 Hi2 [_ Hx].
      apply spec_ret; [done|].
      split; [by rewrite length_insert|]. split; [|split].
      + intros j Hj. rewrite list_lookup_total_insert_ne by lia. by apply Hlow.
      + intros j Hj. destruct (decide (j = 16 + k)%nat) as [->|].
        * rewrite list_lookup_total_insert_eq by lia.
          apply rotl_word32, Hwt. lia.
        * rewrite list_lookup_total_insert_ne by lia. apply Hw'. lia.
      + intros ρ Hh W HW HWl j Hj. rewrite !app_nil_r in Hh.
        apply holds_app in Hh as [Hh1 Hh2].
        replace (16 + S k)%nat with (S (16 + k)) by lia.
        rewrite native_schedule_S by lia. unfold schedule_step.
        specialize (Hval ρ Hh1 W HW HWl).
        destruct (decide (j = 16 + k)%nat) as [->|].
        * rewrite !list_lookup_total_insert_eq
            by (rewrite ?native_schedule_length; lia).
          rewrite word_val_rotl by (lia || (apply Hwt; lia)).
          rewrite <- !Hval by lia. f_equal.
          apply word_val_xor4; try (apply Hwt; lia); try (apply Hw'; lia).
          by apply Hx.
        * rewrite !list_lookup_total_insert_ne by lia. apply Hval. lia. }
  cbn beta. intros w' st1 dc do Hi1 (Hl' & Hlow & Hw' & Hval).
  rewrite range_length in *. replace (16 + (R - 16))%nat with R in * by lia.
  done.
Qed.

Lemma sha1_round_spec w k a i st :
  inv st → (i < 80)%nat → word32 (w !!! i) → word32 (k !!! (i / 20)%nat) →
  (∀ j, (j ≤ 5)%nat → word32 (a !!! (i + j)%nat)) →
  spec (sha1_round cfg espresso w k a i) st (λ _ st' dc do,
    ∀ ρ, holds ρ dc do →
         word_val ρ (a !!! (i + 5)%nat) =
         wrap32 (rotl32 (word_val ρ (a !!! (i + 4)%nat)) 5 +
                 native_f i (word_val ρ (a !!! (i + 3)%nat))
                            (rotl32 (word_val ρ (a !!! (i + 2)%nat)) 30)
                            (rotl32 (word_val ρ (a !!! (i + 1)%nat)) 30) +
                 rotl32 (word_val ρ (a !!! (i + 0)%nat)) 30 +
                 word_val ρ (k !!! (i / 20)%nat) + word_val ρ (w !!! i))).
Proof.
  intros Hi Hi80 Hw Hk Ha. unfold sha1_round. cbn zeta.
  eapply spec_bind; [by apply new_vars_spec|].
  cbn beta. intros f st1 dc1 do1 Hi1 [-> _].
  pose proof (new_vars_word32 (nr_variables st) (proj1 Hi)) as Hf.
  set (f := map _ (seq 0 32)) in Hf |- *.
  eapply spec_bind.
  { apply round_f_spec; [done|done|apply Hf|apply rotl_word32, Ha; lia..]. }
  cbn beta. intros _ st2 dc2 do2 Hi2 [_ Hfv].
  eapply spec_conseq.
  { apply add5_spec; [done|apply Ha; lia|apply rotl_word32, Ha; lia|done|
                      apply rotl_word32, Ha; lia|done..]. }
  cbn beta. intros _ st3 dc3 do3 Hi3 Hadd ρ Hh.
  apply holds_app in Hh as [_ Hh]. apply holds_app in Hh as [Hh2 Hh3].
  rewrite (Hadd ρ Hh3).
  rewrite (word_val_f ρ i f _ _ _ Hi80 (proj1 Hf) (rotl_length _ _)
             (rotl_length _ _) (rotl_length _ _) (Hfv ρ Hh2)).
  rewrite (word_val_rotl_id ρ _ 0) by (auto || (apply Ha; lia)).
  rewrite !(word_val_rotl ρ _ 30), (word_val_rotl ρ _ 5)
    by (lia || (apply Ha; lia)).
  done.
Qed.

Lemma rounds_spec w k a R st :
  inv st → (R ≤ 80)%nat →
  (∀ i, (i < R)%nat → word32 (w !!! i)) →
  (∀ j, (j < 4)%nat → word32 (k !!! j)) →
  (∀ j, (j < R + 5)%nat → word32 (a !!! j)) →
  spec (forM (range 0 R) (sha1_round cfg espresso w k a)) st (λ _ st' dc do,
    ∀ ρ, holds ρ dc do →
         ∀ Wn, (∀ i, (i < R)%nat → word_val ρ (w !!! i) = Wn !!! i) →
               (∀ i, (i < R)%nat → word_val ρ (k !!! (i / 20)%nat) = native_k i) →
               foldl (native_round Wn) (regs_at ρ a 0) (range 0 R) =
               regs_at ρ a R).
Proof.
  intros Hi HR Hw Hk Ha. eapply spec_conseq.
  { apply (spec_forM cfg espresso _ _ _
      (λ n st1 dc do,
         ∀ ρ, holds ρ dc do →
              ∀ Wn, (∀ i, (i < R)%nat → word_val ρ (w !!! i) = Wn !!! i) →
                    (∀ i, (i < R)%nat →
                          word_val ρ (k !!! (i / 20)%nat) = native_k i) →
                    foldl (native_round Wn) (regs_at ρ a 0) (range 0 n) =
                    regs_at ρ a n)); [done|done|].
    intros n i st1 dc do Hn Hi1 IH.
    apply lookup_seq in Hn as [-> Hn]. rewrite Nat.sub_0_r in Hn.
    change (0 + n)%nat with n.
    eapply spec_conseq.
    { apply sha1_round_spec; [done|lia|by apply Hw| |intros; apply Ha; lia].
      apply Hk. apply Nat.Div0.div_lt_upper_bound. lia. }
    cbn beta. intros _ st2 dc2 do2 Hi2 Hround ρ Hh Wn HWn Hkn.
    apply holds_app in Hh as [Hh1 Hh2].
    rewrite range_S, foldl_app, (IH ρ Hh1 Wn HWn Hkn) by lia.
    cbn [foldl]. unfold native_round, regs_at. cbn [reg_a reg_b reg_c reg_d reg_e].
    rewrite <- HWn, <- Hkn by done. rewrite <- (Hround ρ Hh2).
    replace (S n + 4)%nat with (n + 5)%nat by lia.
    replace (S n + 3)%nat with (n + 4)%nat by lia.
    replace (S n + 2)%nat with (n + 3)%nat by lia.
    replace (S n + 1)%nat with (n + 2)%nat by lia.
    replace (S n + 0)%nat with (n + 1)%nat by lia. done. }
  cbn beta. intros _ st1 dc do Hi1 H. rewrite range_length, Nat.sub_0_r in H.
  done.
Qed.

Lemma new_constant_spec label value st :
  inv st → 0 ≤ value < 2 ^ 32 →
  spec (new_constant cfg label value) st (λ r st' dc do,
    word32 r ∧ ∀ ρ, holds ρ dc do → word_val ρ r = value).
Proof.
  intros Hi Hv. unfold new_constant.
  eapply spec_bind; [by apply new_vars_spec|].
  cbn beta. intros r st1 dc1 do1 Hi1 [-> _].
  pose proof (new_vars_word32 (nr_variables st) (proj1 Hi)) as Hr.
  set (r := map _ (seq 0 32)) in Hr |- *.
  eapply spec_bind; [apply constant32_spec; [done|apply Hr]|].
  cbn beta. intros _ st2 dc2 do2 Hi2 [_ Hc].
  apply spec_ret; [done|]. split; [done|]. intros ρ Hh.
  rewrite !app_nil_r in Hh. apply holds_app in Hh as [_ Hh].
  apply word_val_constant; [apply Hr|done|by apply Hc].
Qed.

Lemma pinned_word_spec r value st :
  inv st → word32 r → 0 ≤ value < 2 ^ 32 →
  spec (constant32 r value) st (λ _ st' dc do,
    ∀ ρ, holds ρ dc do → word_val ρ r = value).
Proof.
  intros Hi Hr Hv.
  eapply spec_conseq; [apply constant32_spec; [done|apply Hr]|].
  cbn beta. intros _ st1 dc do _ [_ Hc] ρ Hh.
  apply word_val_constant; [apply Hr|done|by apply Hc].
Qed.

End Circuit.

(** The facts the circuit's constraints establish, put together. *)
Lemma sha1_assemble ρ R W (w a : list (list Z))
    (k0 k1 k2 k3 i0 i1 i2 i3 i4 o0 o1 o2 o3 o4 : list Z) :
  (16 ≤ R ≤ 80)%nat →
  (∀ i, (i < R)%nat → word_val ρ (w !!! i) = native_schedule R W !!! i) →
  word_val ρ k0 = 0x5a827999 → word_val ρ k1 = 0x6ed9eba1 →
  word_val ρ k2 = 0x8f1bbcdc → word_val ρ k3 = 0xca62c1d6 →
  word_val ρ i0 = 0x67452301 → word_val ρ i1 = 0xefcdab89 →
  word_val ρ i2 = 0x98badcfe → word_val ρ i3 = 0x10325476 →
  word_val ρ i4 = 0xc3d2e1f0 →
  length i0 = 32%nat → length i1 = 32%nat → length i2 = 32%nat →
  length i3 = 32%nat → length i4 = 32%nat →
  a !!! 4%nat = rotl i0 (32 - 0) → a !!! 3%nat = rotl i1 (32 - 0) →
  a !!! 2%nat = rotl i2 (32 - 30) → a !!! 1%nat = rotl i3 (32 - 30) →
  a !!! 0%nat = rotl i4 (32 - 30) →
  (∀ j, (j < R + 5)%nat → length (a !!! j) = 32%nat) →
  ((∀ i, (i < R)%nat → word_val ρ (w !!! i) = native_schedule R W !!! i) →
   (∀ i, (i < R)%nat →
         word_val ρ ([k0; k1; k2; k3] !!! (i / 20)%nat) = native_k i) →
   foldl (native_round (native_schedule R W)) (regs_at ρ a 0) (range 0 R) =
   regs_at ρ a R) →
  word_val ρ o0 = wrap32 (word_val ρ i0 + word_val ρ (a !!! (R + 4)%nat)) →
  word_val ρ o1 = wrap32 (word_val ρ i1 + word_val ρ (a !!! (R + 3)%nat)) →
  word_val ρ o2 =
    wrap32 (word_val ρ i2 + word_val ρ (rotl (a !!! (R + 2)%nat) 30)) →
  word_val ρ o3 =
    wrap32 (word_val ρ i3 + word_val ρ (rotl (a !!! (R + 1)%nat) 30)) →
  word_val ρ o4 =
    wrap32 (word_val ρ i4 + word_val ρ (rotl (a !!! (R + 0)%nat) 30)) →
  map (word_val ρ) [o0; o1; o2; o3; o4] = sha1_forward R W.
Proof.
  intros HR Hsched Hk0 Hk1 Hk2 Hk3 Hi0 Hi1 Hi2 Hi3 Hi4 Hl0 Hl1 Hl2 Hl3 Hl4
    Ha4 Ha3 Ha2 Ha1 Ha0 Hal Hrounds Ho0 Ho1 Ho2 Ho3 Ho4.
  assert (Hk : ∀ i, (i < R)%nat →
    word_val ρ ([k0; k1; k2; k3] !!! (i / 20)%nat) = native_k i).
  { intros i Hi. rewrite native_k_table by lia.
    assert (Hd : (i / 20 < 4)%nat) by (apply Nat.Div0.div_lt_upper_bound; lia).
    destruct (i / 20)%nat as [|[|[|[|?]]]]; try lia; done. }
  specialize (Hrounds Hsched Hk).
  assert (Hstart : regs_at ρ a 0 =
    Regs 0x67452301 0xEFCDAB89 0x98BADCFE 0x10325476 0xC3D2E1F0).
  { unfold regs_at. cbn [Nat.add]. rewrite Ha4, Ha3, Ha2, Ha1, Ha0.
    rewrite !(word_val_rotl_id ρ _ (32 - 0)) by auto.
    rewrite !(word_val_rotl ρ _ (32 - 30)) by (done || lia).
    rewrite Hi0, Hi1, Hi2, Hi3, Hi4. reflexivity. }
  unfold sha1_forward. cbn zeta. rewrite <- Hstart, Hrounds.
  unfold regs_at. cbn [reg_a reg_b reg_c reg_d reg_e map].
  rewrite Ho0, Ho1, Ho2, Ho3, Ho4.
  rewrite !(word_val_rotl ρ _ 30) by (lia || (apply Hal; lia)).
  by rewrite Hi0, Hi1, Hi2, Hi3, Hi4.
Qed.

Section Builder.

Variable cfg : config.
Variable espresso : list string → list string.

Abbreviation inv := (inv espresso).
Abbreviation agree := (agree cfg espresso).
Abbreviation holds := (holds cfg espresso).
Abbreviation spec := (spec cfg espresso).

Lemma sha1_new_spec R name st :
  inv st → (16 ≤ R ≤ 80)%nat →
  spec (sha1_new cfg espresso R name) st (λ c st' dc do,
    (∀ i, (i < R)%nat → word32 (sha1_w c !!! i)) ∧
    length (sha1_h_out c) = 5%nat ∧
    (∀ i, (i < 5)%nat → word32 (sha1_h_out c !!! i)) ∧
    ∀ ρ, holds ρ dc do →
         ∀ W, (∀ i, (i < 16)%nat → W !!! i = word_val ρ (sha1_w c !!! i)) →
              length W = 80%nat →
              map (word_val ρ) (sha1_h_out c) = sha1_forward R W).
Proof.
  intros Hi HR. unfold sha1_new.
  eapply spec_bind; [by apply comment_spec|].
  cbn beta. intros _ sta dca doa Hia _.
  eapply spec_bind; [by apply comment_spec|].
  cbn beta. intros _ stb dcb dob Hib _.
  (* w[0..16) *)
  eapply spec_bind.
  { apply (alloc_loop_spec cfg espresso
             (λ i, "w" +:+ name +:+ "[" +:+ pretty i +:+ "]")
             (negb (config_restrict_branching cfg)) (λ i, i));
      [done|intros; rewrite length_replicate; lia|done]. }
  cbn beta. intros w0 st1 dc1 do1 Hi1 (Hw0l & Hw0 & _).
  rewrite length_replicate in Hw0l.
  (* wt[16..R) *)
  eapply spec_bind.
  { apply (alloc_loop_spec cfg espresso
             (λ i, "w" +:+ name +:+ "[" +:+ pretty i +:+ "]") true (λ i, i));
      [done|intros; rewrite length_replicate; lia|done]. }
  cbn beta. intros wt st2 dc2 do2 Hi2 (_ & Hwt & _).
  (* h_in, h_out *)
  eapply spec_bind; [by apply new_vars_spec|].
  cbn beta. intros i0 st3 dc3 do3 Hi3 [-> _].
  pose proof (new_vars_word32 _ (proj1 Hi2)) as Hi0w.
  set (i0 := map _ (seq 0 32)) in Hi0w |- *.
  eapply spec_bind; [by apply new_vars_spec|].
  cbn beta. intros i1 st4 dc4 do4 Hi4 [-> _].
  pose proof (new_vars_word32 _ (proj1 Hi3)) as Hi1w.
  set (i1 := map _ (seq 0 32)) in Hi1w |- *.
  eapply spec_bind; [by apply new_vars_spec|].
  cbn beta. intros i2 st5 dc5 do5 Hi5 [-> _].
  pose proof (new_vars_word32 _ (proj1 Hi4)) as Hi2w.
  set (i2 := map _ (seq 0 32)) in Hi2w |- *.
  eapply spec_bind; [by apply new_vars_spec|].
  cbn beta. intros i3 st6 dc6 do6 Hi6 [-> _].
  pose proof (new_vars_word32 _ (proj1 Hi5)) as Hi3w.
  set (i3 := map _ (seq 0 32)) in Hi3w |- *.
  eapply spec_bind; [by apply new_vars_spec|].
  cbn beta. intros i4 st7 dc7 do7 Hi7 [-> _].
  pose proof (new_vars_word32 _ (proj1 Hi6)) as Hi4w.
  set (i4 := map _ (seq 0 32)) in Hi4w |- *.
  eapply spec_bind; [by apply new_vars_spec|].
  cbn beta. intros o0 st8 dc8 do8 Hi8 [-> _].
  pose proof (new_vars_word32 _ (proj1 Hi7)) as Ho0w.
  set (o0 := map _ (seq 0 32)) in Ho0w |- *.
  eapply spec_bind; [by apply new_vars_spec|].
  cbn beta. intros o1 st9 dc9 do9 Hi9 [-> _].
  pose proof (new_vars_word32 _ (proj1 Hi8)) as Ho1w.
  set (o1 := map _ (seq 0 32)) in Ho1w |- *.
  eapply spec_bind; [by apply new_vars_spec|].
  cbn beta. intros o2 st10 dc10 do10 Hi10 [-> _].
  pose proof (new_vars_word32 _ (proj1 Hi9)) as Ho2w.
  set (o2 := map _ (seq 0 32)) in Ho2w |- *.
  eapply spec_bind; [by apply new_vars_spec|].
  cbn beta. intros o3 st11 dc11 do11 Hi11 [-> _].
  pose proof (new_vars_word32 _ (proj1 Hi10)) as Ho3w.
  set (o3 := map _ (seq 0 32)) in Ho3w |- *.
  eapply spec_bind; [by apply new_vars_spec|].
  cbn beta. intros o4 st12 dc12 do12 Hi12 [-> _].
  pose proof (new_vars_word32 _ (proj1 Hi11)) as Ho4w.
  set (o4 := map _ (seq 0 32)) in Ho4w |- *.
  (* a[5..R+5) *)
  eapply spec_bind.
  { apply (alloc_loop_spec cfg espresso
             (λ i, "a[" +:+ pretty (i + 5)%nat +:+ "]") true (λ i, (i + 5)%nat));
      [done|intros; rewrite length_replicate; lia|intros; lia]. }
  cbn beta. intros a0 st13 dc13 do13 Hi13 (Ha0l & Ha0 & _).
  rewrite length_replicate in Ha0l.
  (* the schedule *)
  eapply spec_bind.
  { apply schedule_loop_spec; try done. intros i Hi16. apply Hw0. lia. }
  cbn beta. intros w st14 dc14 do14 Hi14 (Hwl & Hwlow & Hw & Hsched).
  (* constants *)
  eapply spec_bind; [by apply new_constant_spec|].
  cbn beta. intros k0 st15 dc15 do15 Hi15 [Hk0w Hk0].
  eapply spec_bind; [by apply new_constant_spec|].
  cbn beta. intros k1 st16 dc16 do16 Hi16 [Hk1w Hk1].
  eapply spec_bind; [by apply new_constant_spec|].
  cbn beta. intros k2 st17 dc17 do17 Hi17 [Hk2w Hk2].
  eapply spec_bind; [by apply new_constant_spec|].
  cbn beta. intros k3 st18 dc18 do18 Hi18 [Hk3w Hk3].
  cbn zeta.
  eapply spec_bind; [by apply pinned_word_spec|].
  cbn beta. intros _ st19 dc19 do19 Hi19 Hp0.
  eapply spec_bind; [by apply pinned_word_spec|].
  cbn beta. intros _ st20 dc20 do20 Hi20 Hp1.
  eapply spec_bind; [by apply pinned_word_spec|].
  cbn beta. intros _ st21 dc21 do21 Hi21 Hp2.
  eapply spec_bind; [by apply pinned_word_spec|].
  cbn beta. intros _ st22 dc22 do22 Hi22 Hp3.
  eapply spec_bind; [by apply pinned_word_spec|].
  cbn beta. intros _ st23 dc23 do23 Hi23 Hp4.
  (* the working words *)
  set (a := <[0%nat := rotl i4 (32 - 30)]>
            (<[1%nat := rotl i3 (32 - 30)]>
             (<[2%nat := rotl i2 (32 - 30)]>
              (<[3%nat := rotl i1 (32 - 0)]>
               (<[4%nat := rotl i0 (32 - 0)]> a0))))).
  assert (Ha4 : a !!! 4%nat = rotl i0 (32 - 0)).
  { unfold a. rewrite !list_lookup_total_insert_ne by lia.
    by rewrite list_lookup_total_insert_eq by lia. }
  assert (Ha3 : a !!! 3%nat = rotl i1 (32 - 0)).
  { unfold a. rewrite !list_lookup_total_insert_ne by lia.
    by rewrite list_lookup_total_insert_eq by (rewrite ?length_insert; lia). }
  assert (Ha2 : a !!! 2%nat = rotl i2 (32 - 30)).
  { unfold a. rewrite !list_lookup_total_insert_ne by lia.
    by rewrite list_lookup_total_insert_eq by (rewrite ?length_insert; lia). }
  assert (Ha1 : a !!! 1%nat = rotl i3 (32 - 30)).
  { unfold a. rewrite !list_lookup_total_insert_ne by lia.
    by rewrite list_lookup_total_insert_eq by (rewrite ?length_insert; lia). }
  assert (Ha0' : a !!! 0%nat = rotl i4 (32 - 30)).
  { unfold a.
    by rewrite list_lookup_total_insert_eq by (rewrite ?length_insert; lia). }
  assert (Haw : ∀ j, (j < R + 5)%nat → word32 (a !!! j)).
  { intros j Hj. destruct (decide (j < 5)%nat) as [Hlt|Hge].
    - destruct j as [|[|[|[|[|?]]]]]; try lia;
        rewrite ?Ha4, ?Ha3, ?Ha2, ?Ha1, ?Ha0'; by apply rotl_word32.
    - unfold a. rewrite !list_lookup_total_insert_ne by lia.
      replace j with (j - 5 + 5)%nat by lia. apply Ha0. lia. }
  clearbody a.
  (* the rounds *)
  eapply spec_bind.
  { apply rounds_spec; [done|lia|done| |done].
    intros j Hj. destruct j as [|[|[|[|?]]]]; try lia; done. }
  cbn beta. intros _ st24 dc24 do24 Hi24 Hrounds.
  (* the final additions *)
  eapply spec_bind.
  { apply add2_spec; [done|done|done|apply Haw; lia]. }
  cbn beta. intros _ st25 dc25 do25 Hi25 Hout0.
  eapply spec_bind.
  { apply add2_spec; [done|done|done|apply Haw; lia]. }
  cbn beta. intros _ st26 dc26 do26 Hi26 Hout1.
  eapply spec_bind.
  { apply add2_spec; [done|done|done|apply rotl_word32, Haw; lia]. }
  cbn beta. intros _ st27 dc27 do27 Hi27 Hout2.
  eapply spec_bind.
  { apply add2_spec; [done|done|done|apply rotl_word32, Haw; lia]. }
  cbn beta. intros _ st28 dc28 do28 Hi28 Hout3.
  eapply spec_bind.
  { apply add2_spec; [done|done|done|apply rotl_word32, Haw; lia]. }
  cbn beta. intros _ st29 dc29 do29 Hi29 Hout4.
  apply spec_ret; [done|]. cbn [sha1_w sha1_h_out].
  split; [done|]. split; [done|]. split.
  { intros j Hj. destruct j as [|[|[|[|[|?]]]]]; try lia; done. }
  intros ρ Hh W HW HWl. rewrite !app_nil_r in Hh.
  repeat (apply holds_app in Hh as [? Hh]).
  apply (sha1_assemble ρ R W w a k0 k1 k2 k3 i0 i1 i2 i3 i4); try done;
    try (by apply Hi0w); try (by apply Hi1w); try (by apply Hi2w);
    try (by apply Hi3w); try (by apply Hi4w); auto.
  - apply Hsched; try done. intros i Hi16'. rewrite <- Hwlow by done. by apply HW.
  - intros j Hj. by apply Haw.
Qed.

End Builder.

(** ** The attacks and the driver *)

Lemma shuffle_bound rnd n k i :
  shuffle_ok rnd → (0 < k)%nat →
  (nth i (random_shuffle rnd n (seq 0 k)) 0 < k)%nat.
Proof.
  intros Hs Hk. destruct (decide (i < length (random_shuffle rnd n (seq 0 k)))%nat).
  - assert (Hin : In (nth i (random_shuffle rnd n (seq 0 k)) 0%nat) (seq 0 k)).
    { apply (Permutation_in _ (Hs n (seq 0 k))). by apply nth_In. }
    apply in_seq in Hin. lia.
  - rewrite nth_overflow by lia. done.
Qed.

Section AttackSpecs.

Variable cfg : config.
Variable espresso : list string → list string.
Variable rnd : randomness.

Abbreviation inv := (inv espresso).
Abbreviation agree := (agree cfg espresso).
Abbreviation holds := (holds cfg espresso).
Abbreviation spec := (spec cfg espresso).

Hypothesis shuffles : shuffle_ok rnd.
Hypothesis rounds : (16 ≤ config_nr_rounds cfg ≤ 80)%nat.

Lemma pin_bit_pos (ws : list (list Z)) (bound k i : nat) n :
  (∀ j, (j < bound)%nat → word32 (ws !!! j)) → (k = 32 * bound)%nat →
  (0 < bound)%nat →
  0 < at_ (ws !!! (nth i (random_shuffle rnd n (seq 0 k)) 0 / 32)%nat)
          (nth i (random_shuffle rnd n (seq 0 k)) 0 mod 32)%nat.
Proof.
  intros Hw -> Hb.
  pose proof (shuffle_bound rnd n (32 * bound) i shuffles ltac:(lia)) as Hlt.
  apply Hw.
  - apply Nat.Div0.div_lt_upper_bound. lia.
  - apply Nat.mod_upper_bound. lia.
Qed.

Lemma pins_spec (ws : list (list Z)) (vals : nat → nat → bool)
    (bound k lo hi : nat) n st :
  inv st → (∀ j, (j < bound)%nat → word32 (ws !!! j)) →
  (k = 32 * bound)%nat → (0 < bound)%nat →
  spec (forM (range lo hi) (λ i,
          let r := (nth i (random_shuffle rnd n (seq 0 k)) 0 / 32)%nat in
          let s := (nth i (random_shuffle rnd n (seq 0 k)) 0 mod 32)%nat in
          constant (at_ (ws !!! r) s) (vals r s))) st
       (λ _ _ _ _, True).
Proof.
  intros Hi Hw Hk Hb. eapply spec_conseq.
  { apply (spec_forM cfg espresso _ _ _ (λ _ _ _ _, True)); [done|done|].
    intros j i st1 dc do _ Hi1 _. cbn zeta.
    eapply spec_conseq; [apply constant_spec; [done|by eapply pin_bit_pos]|].
    done. }
  done.
Qed.

Lemma fix_hash_bits_spec f h st :
  inv st → (∀ j, (j < 5)%nat → word32 (sha1_h_out f !!! j)) →
  spec (fix_hash_bits cfg rnd f h) st (λ _ _ _ _, True).
Proof.
  intros Hi Hw. unfold fix_hash_bits.
  eapply spec_bind; [by apply comment_spec|].
  cbn beta. intros _ st1 dc1 do1 Hi1 _. cbn zeta.
  eapply spec_conseq.
  { apply (pins_spec (sha1_h_out f) (native_bit h) 5 160);
      [done|done|reflexivity|lia]. }
  done.
Qed.

Lemma preimage_spec st :
  inv st → spec (preimage cfg espresso rnd) st (λ _ _ _ _, True).
Proof.
  intros Hi. unfold preimage.
  eapply spec_bind; [by apply sha1_new_spec|].
  cbn beta. intros f st1 dc1 do1 Hi1 (Hw & _ & Ho & _). cbn zeta.
  eapply spec_bind; [by apply comment_spec|].
  cbn beta. intros _ st2 dc2 do2 Hi2 _.
  eapply spec_bind.
  { apply (pins_spec (sha1_w f) _ 16 512); [done| |reflexivity|lia].
    intros j Hj. apply Hw. lia. }
  cbn beta. intros _ st3 dc3 do3 Hi3 _.
  eapply spec_conseq; [by apply fix_hash_bits_spec|]. done.
Qed.

Lemma second_preimage_spec st :
  inv st → spec (second_preimage cfg espresso rnd) st (λ _ _ _ _, True).
Proof.
  intros Hi. unfold second_preimage.
  eapply spec_bind; [by apply sha1_new_spec|].
  cbn beta. intros f st1 dc1 do1 Hi1 (Hw & _ & Ho & _). cbn zeta.
  assert (Hw16 : ∀ j, (j < 16)%nat → word32 (sha1_w f !!! j))
    by (intros j Hj; apply Hw; lia).
  eapply spec_bind; [by apply comment_spec|].
  cbn beta. intros _ st2 dc2 do2 Hi2 _.
  eapply spec_bind.
  { instantiate (1 := λ _ _ _ _, True).
    destruct (0 <? config_nr_message_bits cfg)%nat; [|by apply spec_ret].
    eapply spec_conseq;
      [apply constant_spec;
         [done|by eapply (pin_bit_pos _ 16 512); [|reflexivity|lia]]|].
    done. }
  cbn beta. intros _ st3 dc3 do3 Hi3 _.
  eapply spec_bind.
  { by apply (pins_spec (sha1_w f) _ 16 512); [| |reflexivity|lia]. }
  cbn beta. intros _ st4 dc4 do4 Hi4 _.
  eapply spec_conseq; [by apply fix_hash_bits_spec|]. done.
Qed.

Lemma posw_bit (x : list Z) s : word32 x → (s < 32)%nat → posw 1 (drop s x).
Proof.
  intros [_ Hp] Hs i Hi. rewrite at_drop. apply Hp. lia.
Qed.

Lemma collision_spec st :
  inv st → spec (collision cfg espresso rnd) st (λ _ _ _ _, True).
Proof.
  intros Hi. unfold collision.
  eapply spec_bind; [by apply sha1_new_spec|].
  cbn beta. intros f st1 dc1 do1 Hi1 (Hwf & _ & Hof & _).
  eapply spec_bind; [by apply sha1_new_spec|].
  cbn beta. intros g st2 dc2 do2 Hi2 (Hwg & _ & Hog & _). cbn zeta.
  eapply spec_bind.
  { instantiate (1 := λ _ _ _ _, True).
    destruct (0 <? config_nr_message_bits cfg)%nat; [|by apply spec_ret].
    apply (spec_leaf _ _ _ _ [] []); try done; try apply Hi2;
      simpl; by rewrite app_nil_r. }
  cbn beta. intros _ st3 dc3 do3 Hi3 _.
  eapply spec_bind; [by apply comment_spec|].
  cbn beta. intros _ st4 dc4 do4 Hi4 _.
  pose proof (shuffle_bound rnd 0 512 0 shuffles ltac:(lia)) as Hm.
  eapply spec_bind.
  { apply neq_spec; [done|apply posw_bit..].
    - apply Hwf. assert (nth 0 (random_shuffle rnd 0 (seq 0 512)) 0 / 32 < 16)%nat
        by (apply Nat.Div0.div_lt_upper_bound; lia). lia.
    - apply Nat.mod_upper_bound. lia.
    - apply Hwg. assert (nth 0 (random_shuffle rnd 0 (seq 0 512)) 0 / 32 < 16)%nat
        by (apply Nat.Div0.div_lt_upper_bound; lia). lia.
    - apply Nat.mod_upper_bound. lia. }
  cbn beta. intros _ st5 dc5 do5 Hi5 _.
  eapply spec_bind; [by apply comment_spec|].
  cbn beta. intros _ st6 dc6 do6 Hi6 _.
  eapply spec_conseq.
  { apply (spec_forM cfg espresso _ _ _ (λ _ _ _ _, True)); [done|done|].
    intros j i st7 dc do _ Hi7 _. cbn zeta.
    pose proof (shuffle_bound rnd 1 160 i shuffles ltac:(lia)) as Hh.
    assert (nth i (random_shuffle rnd 1 (seq 0 160)) 0 / 32 < 5)%nat
      by (apply Nat.Div0.div_lt_upper_bound; lia).
    eapply spec_conseq.
    { apply eq_spec; [done|apply posw_bit..]; auto;
        apply Nat.mod_upper_bound; lia. }
    done. }
  done.
Qed.

End AttackSpecs.

Lemma generate_spec cfg espresso libc argv seed st :
  inv espresso st → (16 ≤ config_nr_rounds cfg ≤ 80)%nat →
  shuffle_ok (libc seed) →
  spec cfg espresso (generate espresso libc cfg argv seed) st (λ _ _ _ _, True).
Proof.
  intros Hi HR Hs. unfold generate.
  do 7 (eapply spec_bind; [by apply comment_spec|];
        cbn beta; intros _ ? ? ? ? _).
  cbn zeta.
  destruct (String.eqb (config_attack cfg) "preimage");
    [by apply preimage_spec|].
  destruct (String.eqb (config_attack cfg) "second-preimage");
    [by apply second_preimage_spec|].
  destruct (String.eqb (config_attack cfg) "collision");
    [by apply collision_spec|].
  by apply spec_ret.
Qed.

(** ** What a solution of an attack instance is *)

Lemma spec_self {A} cfg espresso (m : M A) st
    (Q : A → state → list cnf_line → list opb_line → Prop) :
  spec cfg espresso m st Q →
  spec cfg espresso m st
       (λ x st' dc do, x = (m st).1 ∧ st' = (m st).2 ∧ Q x st' dc do).
Proof.
  intros (dc & do & H1 & H2 & H3 & H4 & H5). exists dc, do. by split_and!.
Qed.

Lemma word_bit ρ (W : list Z) (x : list Z) r s :
  W !!! r = word_val ρ x → length x = 32%nat → (s < 32)%nat →
  native_bit W r s = ρ (at_ x s).
Proof.
  intros HW Hl Hs. unfold native_bit. rewrite HW, word_val_testbit, Hl.
  by destruct (Nat.ltb_spec s 32); [|lia].
Qed.

Section AttackSound.

Variable cfg : config.
Variable espresso : list string → list string.
Variable rnd : randomness.

Abbreviation inv := (inv espresso).
Abbreviation holds := (holds cfg espresso).
Abbreviation spec := (spec cfg espresso).

Hypothesis shuffles : shuffle_ok rnd.
Hypothesis rounds : (16 ≤ config_nr_rounds cfg ≤ 80)%nat.

Lemma pins_sound (ws : list (list Z)) (vals : nat → nat → bool)
    (bound k lo hi : nat) n st :
  inv st → (∀ j, (j < bound)%nat → word32 (ws !!! j)) →
  (k = 32 * bound)%nat → (0 < bound)%nat →
  spec (forM (range lo hi) (λ i,
          let r := (nth i (random_shuffle rnd n (seq 0 k)) 0 / 32)%nat in
          let s := (nth i (random_shuffle rnd n (seq 0 k)) 0 mod 32)%nat in
          constant (at_ (ws !!! r) s) (vals r s))) st
       (λ _ _ dc do,
          ∀ ρ, holds ρ dc do → ∀ i, (lo ≤ i < hi)%nat →
            ρ (at_ (ws !!! (nth i (random_shuffle rnd n (seq 0 k)) 0 / 32)%nat)
                   (nth i (random_shuffle rnd n (seq 0 k)) 0 mod 32)%nat) =
            vals (nth i (random_shuffle rnd n (seq 0 k)) 0 / 32)%nat
                 (nth i (random_shuffle rnd n (seq 0 k)) 0 mod 32)%nat).
Proof.
  intros Hi Hw Hk Hb. eapply spec_conseq.
  { apply (spec_forM cfg espresso _ _ _
      (λ j _ dc do,
         ∀ ρ, holds ρ dc do → ∀ i, (lo ≤ i < lo + j)%nat →
           ρ (at_ (ws !!! (nth i (random_shuffle rnd n (seq 0 k)) 0 / 32)%nat)
                  (nth i (random_shuffle rnd n (seq 0 k)) 0 mod 32)%nat) =
           vals (nth i (random_shuffle rnd n (seq 0 k)) 0 / 32)%nat
                (nth i (random_shuffle rnd n (seq 0 k)) 0 mod 32)%nat));
      [done|intros ρ _ i Hi'; lia|].
    intros j i st1 dc do Hj Hi1 IH. cbn zeta.
    apply lookup_seq in Hj as [-> Hj].
    eapply spec_conseq;
      [apply constant_spec; [done|by eapply pin_bit_pos]|].
    cbn beta. intros _ st2 dc2 do2 _ [_ H2] ρ Hh i Hi'.
    apply holds_app in Hh as [Hh1 Hh2].
    destruct (decide (i = lo + j)%nat) as [->|]; [by apply H2|].
    apply (IH ρ Hh1). lia. }
  cbn beta. intros _ st' dc do _ H ρ Hh i Hi'. apply (H ρ Hh).
  rewrite range_length. lia.
Qed.

(** The pinned hash bits, read on the circuit's [h_out]. *)
Lemma fix_hash_bits_sound f h st :
  inv st → (∀ j, (j < 5)%nat → word32 (sha1_h_out f !!! j)) →
  spec (fix_hash_bits cfg rnd f h) st (λ _ _ dc do,
    ∀ ρ, holds ρ dc do → ∀ i, (i < config_nr_hash_bits cfg)%nat →
      ρ (at_ (sha1_h_out f !!! (hash_bit rnd i / 32)%nat)
             (hash_bit rnd i mod 32)%nat) = bit_at h (hash_bit rnd i)).
Proof.
  intros Hi Hw. unfold fix_hash_bits.
  eapply spec_bind; [by apply comment_spec|].
  cbn beta. intros _ st1 dc1 do1 Hi1 _. cbn zeta.
  eapply spec_conseq.
  { apply (pins_sound (sha1_h_out f) (native_bit h) 5 160);
      [done|done|reflexivity|lia]. }
  cbn beta. intros _ st2 dc2 do2 _ H ρ Hh i Hi'.
  apply holds_app in Hh as [_ Hh]. apply (H ρ Hh). lia.
Qed.

(** From the pins to the hash of the message a solution spells. *)
Lemma hash_bits_agree ρ f W h :
  (∀ j, (j < 5)%nat → word32 (sha1_h_out f !!! j)) →
  length (sha1_h_out f) = 5%nat →
  map (word_val ρ) (sha1_h_out f) = W →
  (∀ i, (i < config_nr_hash_bits cfg)%nat →
     ρ (at_ (sha1_h_out f !!! (hash_bit rnd i / 32)%nat)
            (hash_bit rnd i mod 32)%nat) = bit_at h (hash_bit rnd i)) →
  ∀ i, (i < config_nr_hash_bits cfg)%nat →
       bit_at W (hash_bit rnd i) = bit_at h (hash_bit rnd i).
Proof.
  intros Hw Hl HW H i Hi. rewrite <- (H i Hi). unfold bit_at.
  pose proof (shuffle_bound rnd 1 160 i shuffles ltac:(lia)) as Hp.
  fold (hash_bit rnd i) in Hp.
  assert (Hr : (hash_bit rnd i / 32 < 5)%nat)
    by (apply Nat.Div0.div_lt_upper_bound; lia).
  apply word_bit.
  - rewrite <- HW. apply list_lookup_total_fmap. lia.
  - apply Hw, Hr.
  - apply Nat.mod_upper_bound. lia.
Qed.

Lemma message_bits_agree ρ f W (vals : nat → nat → bool) lo hi :
  (∀ j, (j < 16)%nat → word32 (sha1_w f !!! j)) →
  (∀ j, (j < 16)%nat → W !!! j = word_val ρ (sha1_w f !!! j)) →
  (∀ i, (lo ≤ i < hi)%nat →
     ρ (at_ (sha1_w f !!! (message_bit rnd i / 32)%nat)
            (message_bit rnd i mod 32)%nat) =
     vals (message_bit rnd i / 32)%nat (message_bit rnd i mod 32)%nat) →
  ∀ i, (lo ≤ i < hi)%nat →
       bit_at W (message_bit rnd i) =
       vals (message_bit rnd i / 32)%nat (message_bit rnd i mod 32)%nat.
Proof.
  intros Hw HW H i Hi. rewrite <- (H i Hi). unfold bit_at.
  pose proof (shuffle_bound rnd 0 512 i shuffles ltac:(lia)) as Hp.
  fold (message_bit rnd i) in Hp.
  assert (Hr : (message_bit rnd i / 32 < 16)%nat)
    by (apply Nat.Div0.div_lt_upper_bound; lia).
  apply word_bit; [by apply HW|by apply Hw|].
  apply Nat.mod_upper_bound. lia.
Qed.

Lemma reference_bit i :
  native_bit (native_schedule (config_nr_rounds cfg) (reference_message rnd))
             (message_bit rnd i / 32) (message_bit rnd i mod 32) =
  bit_at (reference_message rnd) (message_bit rnd i).
Proof.
  pose proof (shuffle_bound rnd 0 512 i shuffles ltac:(lia)) as Hp.
  fold (message_bit rnd i) in Hp.
  unfold bit_at, native_bit. rewrite native_schedule_low; [done|].
  apply Nat.Div0.div_lt_upper_bound. lia.
Qed.

Lemma preimage_sound st :
  inv st →
  spec (preimage cfg espresso rnd) st (λ _ _ dc do,
    ∀ ρ, holds ρ dc do →
    ∀ W, length W = 80%nat →
      (∀ j, (j < 16)%nat →
         W !!! j =
         word_val ρ (sha1_w (sha1_new cfg espresso (config_nr_rounds cfg)
                                      "" st).1 !!! j)) →
      (∀ i, (i < config_nr_message_bits cfg)%nat →
         bit_at W (message_bit rnd i) =
         bit_at (reference_message rnd) (message_bit rnd i)) ∧
      (∀ i, (i < config_nr_hash_bits cfg)%nat →
         bit_at (sha1_forward (config_nr_rounds cfg) W) (hash_bit rnd i) =
         bit_at (sha1_forward (config_nr_rounds cfg) (reference_message rnd))
                (hash_bit rnd i))).
Proof.
  intros Hi. unfold preimage.
  eapply spec_bind; [apply spec_self; by apply sha1_new_spec|].
  cbn beta. intros f st1 dc1 do1 Hi1 (Ef & _ & Hw & Hl & Ho & Hsem). cbn zeta.
  assert (Hw16 : ∀ j, (j < 16)%nat → word32 (sha1_w f !!! j))
    by (intros j Hj; apply Hw; lia).
  eapply spec_bind; [by apply comment_spec|].
  cbn beta. intros _ st2 dc2 do2 Hi2 _.
  eapply spec_bind.
  { by apply (pins_sound (sha1_w f) _ 16 512); [| |reflexivity|lia]. }
  cbn beta. intros _ st3 dc3 do3 Hi3 Hm.
  eapply spec_conseq; [by apply fix_hash_bits_sound|].
  cbn beta. intros _ st4 dc4 do4 _ Hh ρ Hholds W HWl HW. rewrite <- Ef in HW.
  apply holds_app in Hholds as [H1 Hholds].
  apply holds_app in Hholds as [_ Hholds].
  apply holds_app in Hholds as [H3 H4].
  split.
  - intros i Hi'. rewrite <- reference_bit.
    apply (message_bits_agree ρ f W _ 0 (config_nr_message_bits cfg));
      [done|done| |lia].
    intros i' Hi''. apply (Hm ρ H3). lia.
  - apply (hash_bits_agree ρ f); [done|done|by apply Hsem|by apply Hh].
Qed.

Lemma second_preimage_sound st :
  inv st →
  spec (second_preimage cfg espresso rnd) st (λ _ _ dc do,
    ∀ ρ, holds ρ dc do →
    ∀ W, length W = 80%nat →
      (∀ j, (j < 16)%nat →
         W !!! j =
         word_val ρ (sha1_w (sha1_new cfg espresso (config_nr_rounds cfg)
                                      "" st).1 !!! j)) →
      ((0 < config_nr_message_bits cfg)%nat →
         bit_at W (message_bit rnd 0) =
         negb (bit_at (reference_message rnd) (message_bit rnd 0))) ∧
      (∀ i, (1 ≤ i < config_nr_message_bits cfg)%nat →
         bit_at W (message_bit rnd i) =
         bit_at (reference_message rnd) (message_bit rnd i)) ∧
      (∀ i, (i < config_nr_hash_bits cfg)%nat →
         bit_at (sha1_forward (config_nr_rounds cfg) W) (hash_bit rnd i) =
         bit_at (sha1_forward (config_nr_rounds cfg) (reference_message rnd))
                (hash_bit rnd i))).
Proof.
  intros Hi. unfold second_preimage.
  eapply spec_bind; [apply spec_self; by apply sha1_new_spec|].
  cbn beta. intros f st1 dc1 do1 Hi1 (Ef & _ & Hw & Hl & Ho & Hsem). cbn zeta.
  assert (Hw16 : ∀ j, (j < 16)%nat → word32 (sha1_w f !!! j))
    by (intros j Hj; apply Hw; lia).
  eapply spec_bind; [by apply comment_spec|].
  cbn beta. intros _ st2 dc2 do2 Hi2 _.
  eapply spec_bind.
  { instantiate (1 := λ _ _ dc do,
      ∀ ρ, holds ρ dc do → (0 < config_nr_message_bits cfg)%nat →
        ρ (at_ (sha1_w f !!! (message_bit rnd 0 / 32)%nat)
               (message_bit rnd 0 mod 32)%nat) =
        negb (native_bit (native_schedule (config_nr_rounds cfg)
                            (reference_message rnd))
                (message_bit rnd 0 / 32) (message_bit rnd 0 mod 32))).
    destruct (Nat.ltb_spec 0 (config_nr_message_bits cfg)).
    - assert (Hpin : 0 < at_ (sha1_w f !!! (message_bit rnd 0 / 32)%nat)
                             (message_bit rnd 0 mod 32)%nat).
      { pose proof (shuffle_bound rnd 0 512 0 shuffles ltac:(lia)) as Hp.
        fold (message_bit rnd 0) in Hp.
        apply Hw16; [apply Nat.Div0.div_lt_upper_bound; lia|].
        apply Nat.mod_upper_bound. lia. }
      eapply spec_conseq; [by apply constant_spec|].
      cbn beta. intros _ st' dc do _ [_ H'] ρ Hh _. by apply H'.
    - apply spec_ret; [done|]. intros ρ _ ?. lia. }
  cbn beta. intros _ st3 dc3 do3 Hi3 Hflip.
  eapply spec_bind.
  { by apply (pins_sound (sha1_w f) _ 16 512); [| |reflexivity|lia]. }
  cbn beta. intros _ st4 dc4 do4 Hi4 Hm.
  eapply spec_conseq; [by apply fix_hash_bits_sound|].
  cbn beta. intros _ st5 dc5 do5 _ Hh ρ Hholds W HWl HW. rewrite <- Ef in HW.
  apply holds_app in Hholds as [H1 Hholds].
  apply holds_app in Hholds as [_ Hholds].
  apply holds_app in Hholds as [H3 Hholds].
  apply holds_app in Hholds as [H4 H5].
  split; [|split].
  - intros Hpos. rewrite <- reference_bit, <- (Hflip ρ H3 Hpos).
    unfold bit_at.
    pose proof (shuffle_bound rnd 0 512 0 shuffles ltac:(lia)) as Hp.
    fold (message_bit rnd 0) in Hp.
    assert (Hr : (message_bit rnd 0 / 32 < 16)%nat)
      by (apply Nat.Div0.div_lt_upper_bound; lia).
    apply word_bit; [by apply HW|by apply Hw16|].
    apply Nat.mod_upper_bound. lia.
  - intros i Hi'. rewrite <- reference_bit.
    apply (message_bits_agree ρ f W _ 1 (config_nr_message_bits cfg));
      [done|done| |lia].
    intros i' Hi''. by apply (Hm ρ H4).
  - apply (hash_bits_agree ρ f); [done|done|by apply Hsem|by apply Hh].
Qed.

Lemma collision_sound st :
  inv st →
  spec (collision cfg espresso rnd) st (λ _ _ dc do,
    ∀ ρ, holds ρ dc do →
    ∀ W W', length W = 80%nat → length W' = 80%nat →
      (∀ j, (j < 16)%nat →
         W !!! j =
         word_val ρ (sha1_w (sha1_new cfg espresso (config_nr_rounds cfg)
                                      "0" st).1 !!! j)) →
      (∀ j, (j < 16)%nat →
         W' !!! j =
         word_val ρ
           (sha1_w (sha1_new cfg espresso (config_nr_rounds cfg) "1"
                      (sha1_new cfg espresso (config_nr_rounds cfg)
                                "0" st).2).1 !!! j)) →
      bit_at W (message_bit rnd 0) = negb (bit_at W' (message_bit rnd 0)) ∧
      (∀ i, (i < config_nr_hash_bits cfg)%nat →
         bit_at (sha1_forward (config_nr_rounds cfg) W) (hash_bit rnd i) =
         bit_at (sha1_forward (config_nr_rounds cfg) W') (hash_bit rnd i))).
Proof.
  intros Hi. unfold collision.
  eapply spec_bind; [apply spec_self; by apply sha1_new_spec|].
  cbn beta. intros f st1 dc1 do1 Hi1 (Ef & Est & Hwf & Hlf & Hof & Hsf).
  eapply spec_bind; [apply spec_self; by apply sha1_new_spec|].
  cbn beta. intros g st2 dc2 do2 Hi2 (Eg & _ & Hwg & Hlg & Hog & Hsg).
  cbn zeta. rewrite Est in Eg.
  assert (Hf16 : ∀ j, (j < 16)%nat → word32 (sha1_w f !!! j))
    by (intros j Hj; apply Hwf; lia).
  assert (Hg16 : ∀ j, (j < 16)%nat → word32 (sha1_w g !!! j))
    by (intros j Hj; apply Hwg; lia).
  eapply spec_bind.
  { instantiate (1 := λ _ _ _ _, True).
    destruct (0 <? config_nr_message_bits cfg)%nat; [|by apply spec_ret].
    apply (spec_leaf _ _ _ _ [] []); try done; try apply Hi2;
      simpl; by rewrite app_nil_r. }
  cbn beta. intros _ st3 dc3 do3 Hi3 _.
  eapply spec_bind; [by apply comment_spec|].
  cbn beta. intros _ st4 dc4 do4 Hi4 _.
  pose proof (shuffle_bound rnd 0 512 0 shuffles ltac:(lia)) as Hm.
  fold (message_bit rnd 0) in Hm.
  assert (Hmr : (message_bit rnd 0 / 32 < 16)%nat)
    by (apply Nat.Div0.div_lt_upper_bound; lia).
  assert (Hms : (message_bit rnd 0 mod 32 < 32)%nat)
    by (apply Nat.mod_upper_bound; lia).
  eapply spec_bind.
  { apply neq_spec; [done|apply (posw_bit cfg rounds)..]; auto. }
  cbn beta. intros _ st5 dc5 do5 Hi5 [_ Hneq].
  eapply spec_bind; [by apply comment_spec|].
  cbn beta. intros _ st6 dc6 do6 Hi6 _.
  eapply spec_conseq.
  { apply (spec_forM cfg espresso _ _ _
      (λ k _ dc do,
         ∀ ρ, holds ρ dc do → ∀ i, (i < k)%nat →
           ρ (at_ (sha1_h_out f !!! (hash_bit rnd i / 32)%nat)
                  (hash_bit rnd i mod 32)%nat) =
           ρ (at_ (sha1_h_out g !!! (hash_bit rnd i / 32)%nat)
                  (hash_bit rnd i mod 32)%nat)));
      [done|intros ρ _ i Hi'; lia|].
    intros k i st7 dc do Hk Hi7 IH. cbn zeta.
    apply lookup_seq in Hk as [-> Hk]. change (0 + k)%nat with k.
    pose proof (shuffle_bound rnd 1 160 k shuffles ltac:(lia)) as Hh.
    assert (nth k (random_shuffle rnd 1 (seq 0 160)) 0 / 32 < 5)%nat
      by (apply Nat.Div0.div_lt_upper_bound; lia).
    eapply spec_conseq.
    { apply eq_spec; [done|apply (posw_bit cfg rounds)..]; auto;
        apply Nat.mod_upper_bound; lia. }
    cbn beta. intros _ st8 dc8 do8 _ [_ Heq] ρ Hh' i Hi'.
    apply holds_app in Hh' as [Hh1 Hh2].
    destruct (decide (i = k)) as [->|]; [|apply (IH ρ Hh1); lia].
    specialize (Heq ρ Hh2 0%nat ltac:(lia)).
    rewrite !at_drop, Nat.add_0_r in Heq. exact Heq. }
  cbn beta. intros _ st7 dc7 do7 _ Heq ρ Hholds W W' HWl HWl' HW HW'.
  rewrite <- Ef in HW. rewrite <- Eg in HW'.
  rewrite range_length, Nat.sub_0_r in Heq.
  apply holds_app in Hholds as [H1 Hholds].
  apply holds_app in Hholds as [H2 Hholds].
  apply holds_app in Hholds as [_ Hholds].
  apply holds_app in Hholds as [_ Hholds].
  apply holds_app in Hholds as [H5 Hholds].
  apply holds_app in Hholds as [_ H7].
  split.
  - specialize (Hneq ρ H5 0%nat ltac:(lia)).
    rewrite !at_drop, Nat.add_0_r in Hneq. unfold bit_at.
    rewrite (word_bit ρ W (sha1_w f !!! (message_bit rnd 0 / 32)%nat)),
      (word_bit ρ W' (sha1_w g !!! (message_bit rnd 0 / 32)%nat));
      [done|by apply HW'|by apply Hg16|done|by apply HW|by apply Hf16|done].
  - intros i Hi'.
    pose proof (shuffle_bound rnd 1 160 i shuffles ltac:(lia)) as Hp.
    fold (hash_bit rnd i) in Hp.
    assert (Hr : (hash_bit rnd i / 32 < 5)%nat)
      by (apply Nat.Div0.div_lt_upper_bound; lia).
    assert (Hs : (hash_bit rnd i mod 32 < 32)%nat)
      by (apply Nat.mod_upper_bound; lia).
    unfold bit_at.
    rewrite (word_bit ρ _ (sha1_h_out f !!! (hash_bit rnd i / 32)%nat)),
      (word_bit ρ _ (sha1_h_out g !!! (hash_bit rnd i / 32)%nat)).
    + by apply (Heq ρ H7).
    + rewrite <- (Hsg ρ H2 W' HW' HWl'). apply list_lookup_total_fmap. lia.
    + by apply Hog.
    + done.
    + rewrite <- (Hsf ρ H1 W HW HWl). apply list_lookup_total_fmap. lia.
    + by apply Hof.
    + done.
Qed.

End AttackSound.

(** From the satisfied buffers to the satisfied lines of a run. *)
Lemma holds_of_buffers cfg espresso ρ c0 dc o0 do :
  check_config cfg = None →
  (config_opb cfg = false → config_use_tseitin_adders cfg = false →
   config_use_halfadder_clauses cfg = false → minimizer_exact espresso = true) →
  (config_cnf cfg = true → sat_cnf ρ (c0 ++ dc) = true) →
  (config_opb cfg = true → sat_opb ρ (o0 ++ do) = true) →
  holds cfg espresso ρ dc do.
Proof.
  intros Hcfg Htrust Hc Ho. split; [by split|]. split.
  - intros E. specialize (Hc E). rewrite sat_cnf_app in Hc.
    by apply andb_true_iff in Hc as [_ ?].
  - intros E. specialize (Ho E). rewrite sat_opb_app in Ho.
    by apply andb_true_iff in Ho as [_ ?].
Qed.

(** A check of the sixteen message words in one evaluation. *)
Lemma words_checked ρ (W : list Z) (ws : list (list Z)) :
  (let c := ws in
   forallb (λ j, W !!! j =? word_val ρ (c !!! j)) (seq 0 16)) = true →
  ∀ j, (j < 16)%nat → W !!! j = word_val ρ (ws !!! j).
Proof.
  cbv zeta. rewrite forallb_forall. intros H j Hj. apply Z.eqb_eq, H.
  apply in_seq. lia.
Qed.

Lemma abc_rnd_shuffles : shuffle_ok abc_rnd.
Proof. by intros n l. Qed.

(** * What the generator leaves alone *)

Lemma keeps_ret {T A} (μ : state → T) (x : A) : keeps μ (ret x).
Proof. by intros st. Qed.

Lemma keeps_gets {T A} (μ : state → T) (f : state → A) : keeps μ (gets f).
Proof. by intros st. Qed.

Lemma keeps_modify {T} (μ : state → T) f :
  (∀ st, μ (f st) = μ st) → keeps μ (modify f).
Proof. intros H st. apply H. Qed.

Lemma keeps_bind {T A B} (μ : state → T) (m : M A) (f : A → M B) :
  keeps μ m → (∀ x, keeps μ (f x)) → keeps μ (bind m f).
Proof. intros Hm Hf st. rewrite bind_run, Hf. apply Hm. Qed.

Lemma keeps_forM {T X} (μ : state → T) (l : list X) body :
  (∀ x, keeps μ (body x)) → keeps μ (forM l body).
Proof.
  intros Hb. induction l as [|x l IH]; [apply keeps_ret|].
  apply keeps_bind; [apply Hb|]. intros _. apply IH.
Qed.

Lemma keeps_foldM {T X Acc} (μ : state → T) (l : list X)
    (body : Acc → X → M Acc) s :
  (∀ s x, keeps μ (body s x)) → keeps μ (foldM body s l).
Proof.
  intros Hb. revert s. induction l as [|x l IH]; intros s; [apply keeps_ret|].
  apply keeps_bind; [apply Hb|]. intros s'. apply IH.
Qed.

Lemma emits_ret {A} μ (x : A) : emits μ (ret x) 0.
Proof. intros st. simpl. lia. Qed.

Lemma emits_bind {A B} μ (m : M A) (f : A → M B) n k :
  emits μ m n → (∀ x, emits μ (f x) k) → emits μ (bind m f) (n + k).
Proof. intros Hm Hf st. rewrite bind_run, Hf, Hm. lia. Qed.

Lemma emits_after {A B} μ (m : M A) (f : A → M B) k :
  keeps μ m → (∀ x, emits μ (f x) k) → emits μ (bind m f) k.
Proof. intros Hm Hf st. by rewrite bind_run, Hf, Hm. Qed.

Lemma emits_modify μ f n :
  (∀ st, μ (f st) = (μ st + n)%nat) → emits μ (modify f) n.
Proof. intros H st. apply H. Qed.

Lemma keeps_emits {A} μ (m : M A) : keeps μ m → emits μ m 0.
Proof. intros H st. rewrite H. lia. Qed.

Lemma emits_forM {X} μ (l : list X) body k :
  (∀ x, emits μ (body x) k) → emits μ (forM l body) (length l * k).
Proof.
  intros Hb. induction l as [|x l IH]; [apply emits_ret|].
  apply (emits_bind _ _ _ k (length l * k)); [apply Hb|]. intros _. apply IH.
Qed.

Lemma adder_equations_app l1 l2 :
  adder_equations (l1 ++ l2) = (adder_equations l1 + adder_equations l2)%nat.
Proof. unfold adder_equations. by rewrite List.filter_app, length_app. Qed.

Create HintDb ops discriminated.
Create HintDb keeps discriminated.

#[local] Hint Unfold comment fresh_var new_vars constant constant32
  new_constant clause xor_clause xor2 xor3 xor4 eq neq and2 or2 round_f
  minimized_clauses fix_hash_bits : ops.

(** One step through a program: by the shape of its head. *)
Ltac keeps_step leaf :=
  lazymatch goal with
  | |- keeps _ (ret _) => apply keeps_ret
  | |- keeps _ (gets _) => apply keeps_gets
  | |- keeps _ (modify _) => apply keeps_modify; intros ?; leaf
  | |- keeps _ (bind _ _) => apply keeps_bind; [|intros ?]
  | |- keeps _ (forM _ _) => apply keeps_forM; intros ?
  | |- keeps _ (foldM _ _ _) => apply keeps_foldM; intros ? ?
  | |- keeps _ (if ?b then _ else _) => destruct b
  | |- keeps _ (match ?o with _ => _ end) => destruct o
  | |- keeps _ (let _ := _ in _) => cbv zeta
  | |- keeps _ _ =>
      first [solve [auto 1 with keeps nocore] | progress autounfold with ops]
  end.

Ltac quiet := repeat keeps_step ltac:(reflexivity).

Ltac count_leaf :=
  first [ reflexivity
        | unfold adder_count, put_opb; cbn [opb];
          rewrite adder_equations_app; unfold adder_equations;
          cbn [List.filter is_adder_equation length Nat.ltb Nat.leb]; lia ].

Ltac uncounted := repeat keeps_step count_leaf.

(** ** Standard error *)

Lemma halfadder_quiet cfg e l r : keeps cerr (halfadder cfg e l r).
Proof. unfold halfadder. quiet. Qed.
#[local] Hint Resolve halfadder_quiet : keeps.

Lemma adder_column_quiet cfg e l r ins ad i :
  keeps cerr (adder_column cfg e l r ins ad i).
Proof. unfold adder_column. quiet. Qed.
#[local] Hint Resolve adder_column_quiet : keeps.

Lemma add2_quiet cfg e l r a b : keeps cerr (add2 cfg e l r a b).
Proof. unfold add2. quiet. Qed.
#[local] Hint Resolve add2_quiet : keeps.

Lemma add5_quiet cfg e l r a b c d f : keeps cerr (add5 cfg e l r a b c d f).
Proof. unfold add5. quiet. Qed.
#[local] Hint Resolve add5_quiet : keeps.

Lemma sha1_round_quiet cfg e w k a i : keeps cerr (sha1_round cfg e w k a i).
Proof. unfold sha1_round. quiet. Qed.
#[local] Hint Resolve sha1_round_quiet : keeps.

Lemma sha1_new_quiet cfg e R name : keeps cerr (sha1_new cfg e R name).
Proof. unfold sha1_new. quiet. Qed.
#[local] Hint Resolve sha1_new_quiet : keeps.

Lemma preimage_quiet cfg e rnd : keeps cerr (preimage cfg e rnd).
Proof. unfold preimage. quiet. Qed.

Lemma second_preimage_quiet cfg e rnd : keeps cerr (second_preimage cfg e rnd).
Proof. unfold second_preimage. quiet. Qed.

(** ** The sums of the compact adders *)

Section Compact.

Variable cfg : config.
Variable espresso : list string → list string.
Hypothesis no_tseitin : config_use_tseitin_adders cfg = false.
Hypothesis compact : config_use_compact_adders cfg = true.

Lemma add2_count l r a b : emits adder_count (add2 cfg espresso l r a b) 1.
Proof.
  unfold add2. rewrite no_tseitin, compact.
  apply emits_after; [uncounted|]. intros _.
  apply (emits_bind _ _ _ 1 0); [|intros _; apply keeps_emits; uncounted].
  apply emits_modify. intros st. unfold adder_count, put_opb. cbn [opb].
  rewrite adder_equations_app. by f_equal.
Qed.

Lemma add5_count l r a b c d e :
  emits adder_count (add5 cfg espresso l r a b c d e) 1.
Proof.
  unfold add5. rewrite no_tseitin, compact.
  apply emits_after; [uncounted|]. intros _.
  apply (emits_bind _ _ _ 1 0); [|intros _; apply keeps_emits; uncounted].
  apply emits_modify. intros st. unfold adder_count, put_opb. cbn [opb].
  rewrite adder_equations_app. by f_equal.
Qed.

Lemma sha1_round_count w k a i :
  emits adder_count (sha1_round cfg espresso w k a i) 1.
Proof.
  unfold sha1_round. cbv zeta.
  apply emits_after; [uncounted|]. intros f.
  apply emits_after; [uncounted|]. intros _. apply add5_count.
Qed.

Lemma sha1_new_count R name :
  emits adder_count (sha1_new cfg espresso R name) (R + 5).
Proof.
  unfold sha1_new.
  do 25 (apply emits_after; [uncounted|]; intros ?). cbv zeta.
  apply emits_bind.
  { replace R with (length (range 0 R) * 1)%nat at 2
      by (rewrite range_length; lia).
    apply emits_forM. intros i. apply sha1_round_count. }
  intros _.
  apply (emits_bind _ _ _ 1 4); [apply add2_count|]. intros _.
  apply (emits_bind _ _ _ 1 3); [apply add2_count|]. intros _.
  apply (emits_bind _ _ _ 1 2); [apply add2_count|]. intros _.
  apply (emits_bind _ _ _ 1 1); [apply add2_count|]. intros _.
  apply (emits_bind _ _ _ 1 0); [apply add2_count|]. intros _.
  apply emits_ret.
Qed.

Lemma preimage_count rnd :
  emits adder_count (preimage cfg espresso rnd) (config_nr_rounds cfg + 5).
Proof.
  unfold preimage.
  replace (config_nr_rounds cfg + 5)%nat
    with (config_nr_rounds cfg + 5 + 0)%nat by lia.
  apply emits_bind; [apply sha1_new_count|]. intros f. cbv zeta.
  intros st. rewrite Nat.add_0_r. revert st. change (keeps adder_count
    (comment ("Fix " +:+ pretty (config_nr_message_bits cfg) +:+ " message bits");;;
     forM (range 0 (config_nr_message_bits cfg)) (λ i,
       constant (at_ (sha1_w f !!! (nth i (random_shuffle rnd 0 (seq 0 512)) 0 / 32)%nat)
                     (nth i (random_shuffle rnd 0 (seq 0 512)) 0 mod 32)%nat)
                (native_bit (native_schedule (config_nr_rounds cfg)
                               (reference_message rnd))
                   (nth i (random_shuffle rnd 0 (seq 0 512)) 0 / 32)%nat
                   (nth i (random_shuffle rnd 0 (seq 0 512)) 0 mod 32)%nat));;;
     fix_hash_bits cfg rnd f
       (sha1_forward (config_nr_rounds cfg) (reference_message rnd)))).
  uncounted.
Qed.

Lemma generate_count libc argv seed :
  config_attack cfg = "preimage" →
  emits adder_count (generate espresso libc cfg argv seed)
        (config_nr_rounds cfg + 5).
Proof.
  intros Ha. unfold generate. rewrite Ha. cbv zeta.
  change ("preimage" =? "preimage")%string with true. cbv iota.
  do 7 (apply emits_after; [uncounted|]; intros _).
  apply preimage_count.
Qed.

End Compact.

(** * The counters of the headers *)

Lemma preserves_ret {A} P (x : A) : preserves P (ret x).
Proof. by intros st. Qed.

Lemma preserves_gets {A} P (f : state → A) : preserves P (gets f).
Proof. by intros st. Qed.

Lemma preserves_bind {A B} P (m : M A) (f : A → M B) :
  preserves P m → (∀ x, preserves P (f x)) → preserves P (bind m f).
Proof. intros Hm Hf st H. rewrite bind_run. by apply Hf, Hm. Qed.

Lemma preserves_forM {X} P (l : list X) body :
  (∀ x, preserves P (body x)) → preserves P (forM l body).
Proof.
  intros Hb. induction l as [|x l IH]; [apply preserves_ret|].
  apply preserves_bind; [apply Hb|]. intros _. apply IH.
Qed.

Lemma preserves_foldM {X Acc} P (l : list X) (body : Acc → X → M Acc) s :
  (∀ s x, preserves P (body s x)) → preserves P (foldM body s l).
Proof.
  intros Hb. revert s. induction l as [|x l IH]; intros s;
    [apply preserves_ret|].
  apply preserves_bind; [apply Hb|]. intros s'. apply IH.
Qed.

Lemma count_lines_app {A} (p : A → bool) l1 l2 :
  count_lines p (l1 ++ l2) = count_lines p l1 + count_lines p l2.
Proof. unfold count_lines. rewrite List.filter_app, length_app. lia. Qed.

(** A straight run of updates of the state: by evaluation. *)
Ltac counted_block :=
  let st := fresh "st" in
  let H1 := fresh "H" in let H2 := fresh "H" in let H3 := fresh "H" in
  intros st (H1 & H2 & H3);
  rewrite ?bind_run;
  unfold counted, modify, gets, ret, put_cnf, put_opb, put_cerr, set_cache,
    set_nr_variables, incr_nr_clauses, incr_nr_xor_clauses,
    incr_nr_constraints;
  cbn [fst snd nr_clauses nr_xor_clauses nr_constraints cnf opb];
  rewrite ?count_lines_app;
  unfold count_lines at 2 4 6 || idtac;
  cbn [List.filter is_clause is_xor is_constraint length Z.of_nat
       Pos.of_succ_nat];
  rewrite ?Z.add_0_r, ?H1, ?H2, ?H3, ?wrap32_add_l;
  split_and!; reflexivity.

Ltac head_of t :=
  lazymatch t with
  | ?f _ => head_of f
  | _ => t
  end.

Create HintDb counted discriminated.

Ltac counted_step :=
  lazymatch goal with
  | |- preserves _ (ret _) => apply preserves_ret
  | |- preserves _ (gets _) => apply preserves_gets
  | |- preserves _ (modify _) => counted_block
  | |- preserves _ (bind (modify _) _) => counted_block
  | |- preserves _ (bind _ _) => apply preserves_bind; [|intros ?]
  | |- preserves _ (forM _ _) => apply preserves_forM; intros ?
  | |- preserves _ (foldM _ _ _) => apply preserves_foldM; intros ? ?
  | |- preserves _ (if true then _ else _) => cbv iota
  | |- preserves _ (if false then _ else _) => cbv iota
  | |- preserves _ (if ?b then _ else _) => destruct b
  | |- preserves _ (match ?o with _ => _ end) => destruct o
  | |- preserves _ (let _ := _ in _) => cbv zeta
  | |- preserves _ ?m =>
      first [ solve [auto 1 with counted nocore]
            | let h := head_of m in unfold h ]
  end.

Ltac counted_tac := repeat counted_step.

Lemma comment_counted s : preserves counted (comment s).
Proof. unfold comment. counted_tac. Qed.
#[local] Hint Resolve comment_counted : counted.

Lemma clause_counted v : preserves counted (clause v).
Proof. unfold clause. counted_tac. Qed.
#[local] Hint Resolve clause_counted : counted.

Lemma xor_clause_counted v : preserves counted (xor_clause v).
Proof. unfold xor_clause. counted_tac. Qed.
#[local] Hint Resolve xor_clause_counted : counted.

Lemma constant_counted r v : preserves counted (constant r v).
Proof. unfold constant. counted_tac. Qed.
#[local] Hint Resolve constant_counted : counted.

Lemma constant32_counted r v : preserves counted (constant32 r v).
Proof. unfold constant32. counted_tac. Qed.
#[local] Hint Resolve constant32_counted : counted.

Lemma new_vars_counted cfg l n d : preserves counted (new_vars cfg l n d).
Proof. unfold new_vars. counted_tac. Qed.
#[local] Hint Resolve new_vars_counted : counted.

Lemma new_constant_counted cfg l v : preserves counted (new_constant cfg l v).
Proof. unfold new_constant. counted_tac. Qed.
#[local] Hint Resolve new_constant_counted : counted.

Lemma halfadder_counted cfg e l r : preserves counted (halfadder cfg e l r).
Proof. unfold halfadder. counted_tac. Qed.
#[local] Hint Resolve halfadder_counted : counted.

Lemma xor2_counted cfg r a b n : preserves counted (xor2 cfg r a b n).
Proof. unfold xor2. counted_tac. Qed.
#[local] Hint Resolve xor2_counted : counted.

Lemma xor3_counted cfg r a b c n : preserves counted (xor3 cfg r a b c n).
Proof. unfold xor3. counted_tac. Qed.
#[local] Hint Resolve xor3_counted : counted.

Lemma xor4_counted cfg r a b c d : preserves counted (xor4 cfg r a b c d).
Proof. unfold xor4. counted_tac. Qed.
#[local] Hint Resolve xor4_counted : counted.

Lemma eq_counted cfg a b n : preserves counted (eq cfg a b n).
Proof. unfold eq. counted_tac. Qed.
#[local] Hint Resolve eq_counted : counted.

Lemma neq_counted cfg a b n : preserves counted (neq cfg a b n).
Proof. unfold neq. counted_tac. Qed.
#[local] Hint Resolve neq_counted : counted.

Lemma and2_counted r a b n : preserves counted (and2 r a b n).
Proof. unfold and2. counted_tac. Qed.
#[local] Hint Resolve and2_counted : counted.

Lemma or2_counted r a b n : preserves counted (or2 r a b n).
Proof. unfold or2. counted_tac. Qed.
#[local] Hint Resolve or2_counted : counted.

Lemma adder_column_counted cfg e l r ins ad i : preserves counted (adder_column cfg e l r ins ad i).
Proof. unfold adder_column. counted_tac. Qed.
#[local] Hint Resolve adder_column_counted : counted.

Lemma add2_counted cfg e l r a b : preserves counted (add2 cfg e l r a b).
Proof. unfold add2. counted_tac. Qed.
#[local] Hint Resolve add2_counted : counted.

Lemma add5_counted cfg e l r a b c d f : preserves counted (add5 cfg e l r a b c d f).
Proof. unfold add5. counted_tac. Qed.
#[local] Hint Resolve add5_counted : counted.

Lemma round_f_counted cfg i f b c d : preserves counted (round_f cfg i f b c d).
Proof. unfold round_f. counted_tac. Qed.
#[local] Hint Resolve round_f_counted : counted.

Lemma sha1_round_counted cfg e w k a i : preserves counted (sha1_round cfg e w k a i).
Proof. unfold sha1_round. counted_tac. Qed.
#[local] Hint Resolve sha1_round_counted : counted.

Lemma sha1_new_counted cfg e R name : preserves counted (sha1_new cfg e R name).
Proof. unfold sha1_new. counted_tac. Qed.
#[local] Hint Resolve sha1_new_counted : counted.

Lemma fix_hash_bits_counted cfg rnd f h : preserves counted (fix_hash_bits cfg rnd f h).
Proof. unfold fix_hash_bits. counted_tac. Qed.
#[local] Hint Resolve fix_hash_bits_counted : counted.

Lemma preimage_counted cfg e rnd : preserves counted (preimage cfg e rnd).
Proof. unfold preimage. counted_tac. Qed.
#[local] Hint Resolve preimage_counted : counted.

Lemma second_preimage_counted cfg e rnd : preserves counted (second_preimage cfg e rnd).
Proof. unfold second_preimage. counted_tac. Qed.
#[local] Hint Resolve second_preimage_counted : counted.

Lemma collision_counted cfg e rnd : preserves counted (collision cfg e rnd).
Proof. unfold collision. counted_tac. Qed.
#[local] Hint Resolve collision_counted : counted.

Lemma generate_counted e libc cfg argv seed : preserves counted (generate e libc cfg argv seed).
Proof. unfold generate. counted_tac. Qed.
#[local] Hint Resolve generate_counted : counted.

Lemma counted_initial : counted initial_state.
Proof. by split_and!. Qed.

(** * The lines of the gates, and what satisfies them *)

Lemma writes_ret {A} (x : A) : writes (ret x) [] [].
Proof. intros st. simpl. by rewrite !app_nil_r. Qed.

Lemma writes_bind {A B} (m : M A) (f : A → M B) dc1 do1 dc2 do2 :
  writes m dc1 do1 → (∀ x, writes (f x) dc2 do2) →
  writes (bind m f) (dc1 ++ dc2) (do1 ++ do2).
Proof.
  intros Hm Hf st. rewrite bind_run.
  destruct (Hf (m st).1 (m st).2) as [-> ->]. destruct (Hm st) as [-> ->].
  by rewrite <- !app_assoc.
Qed.

Lemma writes_forM {X} (l : list X) body gc go :
  (∀ x, writes (body x) (gc x) (go x)) →
  writes (forM l body) (flat_map gc l) (flat_map go l).
Proof.
  intros Hb. induction l as [|x l IH]; [apply writes_ret|].
  simpl. apply writes_bind; [apply Hb|]. intros _. apply IH.
Qed.

Lemma writes_if {A} (b : bool) (m1 m2 : M A) dc1 do1 dc2 do2 :
  writes m1 dc1 do1 → writes m2 dc2 do2 →
  writes (if b then m1 else m2) (if b then dc1 else dc2)
         (if b then do1 else do2).
Proof. by destruct b. Qed.

Lemma writes_comment s : writes (comment s) [CComment s] [OComment s].
Proof. by intros st. Qed.

Lemma writes_clause v : writes (clause v) [CClause v] [clause_line v].
Proof. by intros st. Qed.

Lemma writes_xor_clause v : writes (xor_clause v) [CXor v] [].
Proof. intros st. simpl. by rewrite app_nil_r. Qed.

(** A line written to each buffer, counted. *)
Lemma writes_pin l1 l2 :
  writes (modify (put_cnf [l1]);;; modify (put_opb [l2]);;;
          modify incr_nr_clauses;;; modify incr_nr_constraints) [l1] [l2].
Proof. by intros st. Qed.

Ltac writes_step :=
  lazymatch goal with
  | |- writes (ret _) _ _ => apply writes_ret
  | |- writes (comment _) _ _ => apply writes_comment
  | |- writes (clause _) _ _ => apply writes_clause
  | |- writes (xor_clause _) _ _ => apply writes_xor_clause
  | |- writes (bind (modify _) _) _ _ => apply writes_pin
  | |- writes (bind _ _) _ _ => eapply writes_bind; [|intros ?]
  | |- writes (forM _ _) _ _ => eapply writes_forM; intros ?
  | |- writes (if _ then _ else _) _ _ => eapply writes_if
  end.

Lemma sat_cnf_flat_map ρ {X} (g : X → list cnf_line) l :
  sat_cnf ρ (flat_map g l) = forallb (λ x, sat_cnf ρ (g x)) l.
Proof.
  induction l as [|x l IH]; [done|]. simpl. by rewrite sat_cnf_app, IH.
Qed.

Lemma sat_opb_flat_map ρ {X} (g : X → list opb_line) l :
  sat_opb ρ (flat_map g l) = forallb (λ x, sat_opb ρ (g x)) l.
Proof.
  induction l as [|x l IH]; [done|]. simpl. by rewrite sat_opb_app, IH.
Qed.

Lemma forallb_range (P : nat → bool) n :
  forallb P (range 0 n) = true ↔ ∀ i, (i < n)%nat → P i = true.
Proof.
  rewrite forallb_forall. unfold range. rewrite Nat.sub_0_r. split.
  - intros H i Hi. apply H, in_seq. lia.
  - intros H i Hi%in_seq. apply H. lia.
Qed.

Lemma sat_cnf_bits ρ (g : nat → list cnf_line) n (P : nat → Prop) :
  (∀ i, (i < n)%nat → sat_cnf ρ (g i) = true ↔ P i) →
  sat_cnf ρ (flat_map g (range 0 n)) = true ↔ ∀ i, (i < n)%nat → P i.
Proof.
  intros H. rewrite sat_cnf_flat_map, forallb_range. split.
  - intros Hs i Hi. by apply H, Hs.
  - intros Hp i Hi. by apply H, Hp.
Qed.

Lemma sat_opb_bits ρ (g : nat → list opb_line) n (P : nat → Prop) :
  (∀ i, (i < n)%nat → sat_opb ρ (g i) = true ↔ P i) →
  sat_opb ρ (flat_map g (range 0 n)) = true ↔ ∀ i, (i < n)%nat → P i.
Proof.
  intros H. rewrite sat_opb_flat_map, forallb_range. split.
  - intros Hs i Hi. by apply H, Hs.
  - intros Hp i Hi. by apply H, Hp.
Qed.

Lemma sat_cnf_comment ρ s l : sat_cnf ρ (CComment s :: l) = sat_cnf ρ l.
Proof. done. Qed.

Lemma sat_opb_comment ρ s l : sat_opb ρ (OComment s :: l) = sat_opb ρ l.
Proof. done. Qed.

Lemma sat_opb_nothing ρ {X} (l : list X) :
  sat_opb ρ (flat_map (λ _, []) l) = true.
Proof. by induction l. Qed.

Lemma or_left_iff (P Q R : Prop) : ¬ R → (P ↔ Q) → (P ↔ R ∨ Q).
Proof. tauto. Qed.

(** The truth table of one bit of a gate: every literal is abstracted to
    its value, and the lines are evaluated on each row. *)
Ltac gate_table ρ :=
  lazymatch goal with
  | |- sat_cnf ρ ?ls = true ↔ _ =>
      let x := fresh "x" in
      set (x := ls); vm_compute in x; subst x;
      lazymatch goal with
      | |- sat_cnf ρ ?ls' = true ↔ _ =>
          change (sat_cnf ρ ls') with (lines_val (lit_val ρ) ls')
      end
  | |- sat_opb ρ ?ls = true ↔ _ =>
      let x := fresh "x" in
      set (x := ls); vm_compute in x; subst x;
      lazymatch goal with
      | |- sat_opb ρ ?ls' = true ↔ _ =>
          change (sat_opb ρ ls') with (constraints_val (lit_val ρ) ls')
      end
  end;
  let L := fresh "L" in
  set (L := lit_val ρ) in *; clearbody L;
  cbv [lines_val constraints_val forallb existsb foldr map fst snd];
  repeat match goal with
         | E : L _ = _ |- _ => rewrite ?E; clear E
         end;
  repeat match goal with v : bool |- _ => destruct v end;
  vm_compute; split; intros; congruence.

(** The positions of bit [i] of the words of a gate. *)
Ltac gate_bit ρ i Hi :=
  repeat match goal with
         | H : posw _ ?x |- _ =>
             let Hx := fresh "Hx" in
             pose proof (H i Hi) as Hx; clear H; gate_var ρ (at_ x i)
         end.

Lemma lines_per_bit {X Y} (g : X → list Y) (l : list X) k :
  (∀ x, length (g x) = k) → length (flat_map g l) = (k * length l)%nat.
Proof.
  intros H. induction l as [|x l IH]; simpl; [lia|].
  rewrite length_app, H, IH. lia.
Qed.

(** ** Words *)

Lemma native_f_testbit ρ i b c d j :
  (i < 80)%nat →
  length b = 32%nat → length c = 32%nat → length d = 32%nat → (j < 32)%nat →
  Z.testbit (native_f i (word_val ρ b) (word_val ρ c) (word_val ρ d))
            (Z.of_nat j) =
  f_bit i (ρ (at_ b j)) (ρ (at_ c j)) (ρ (at_ d j)).
Proof.
  intros Hi Hb Hc Hd Hj. unfold native_f, f_bit.
  destruct (i <? 20)%nat; [|destruct (i <? 40)%nat; [|destruct (i <? 60)%nat;
    [|destruct (Nat.ltb_spec i 80); [|lia]]]];
    rewrite ?Z.lor_spec, ?Z.land_spec, ?Z.lxor_spec, ?lnot32_testbit by lia;
    rewrite !word_val_testbit, Hb, Hc, Hd;
    destruct (Nat.ltb_spec j 32); try lia;
    destruct (Z.ltb_spec (Z.of_nat j) 32); try lia; done.
Qed.

Lemma f_word_bits ρ i f b c d :
  (i < 80)%nat →
  length f = 32%nat → length b = 32%nat → length c = 32%nat →
  length d = 32%nat →
  word_val ρ f = native_f i (word_val ρ b) (word_val ρ c) (word_val ρ d) ↔
  ∀ j, (j < 32)%nat →
       ρ (at_ f j) = f_bit i (ρ (at_ b j)) (ρ (at_ c j)) (ρ (at_ d j)).
Proof.
  intros Hi Hf Hb Hc Hd. split; [|by apply word_val_f].
  intros H j Hj. rewrite <- (native_f_testbit ρ i b c d j), <- H by done.
  rewrite word_val_testbit, Hf. by destruct (Nat.ltb_spec j 32); [|lia].
Qed.

Lemma constant_bits_word ρ r value :
  word32 r → 0 ≤ value < 2 ^ 32 →
  (∀ i, (i < 32)%nat → ρ (at_ r i) = Z.testbit value (Z.of_nat i)) ↔
  word_val ρ r = value.
Proof.
  intros [Hl _] Hv. split; [by apply word_val_constant|].
  intros <- i Hi. rewrite word_val_testbit, Hl.
  by destruct (Nat.ltb_spec i 32); [|lia].
Qed.

Lemma rotl_index i n :
  (i < 32)%nat → (n ≤ 32)%nat →
  (((i + 32 - (32 - n)) mod 32 + 32 - n) mod 32 = i)%nat.
Proof.
  intros Hi Hn. destruct (decide (i + n < 32)%nat).
  - rewrite (Nat.mod_small (i + 32 - (32 - n))) by lia.
    replace (i + 32 - (32 - n) + 32 - n)%nat with (i + 1 * 32)%nat by lia.
    rewrite Nat.Div0.mod_add. apply Nat.mod_small. lia.
  - replace ((i + 32 - (32 - n)) mod 32)%nat with (i + n - 32)%nat
      by (apply (Nat.mod_unique _ 32 1); lia).
    replace (i + n - 32 + 32 - n)%nat with i by lia.
    apply Nat.mod_small. lia.
Qed.
(** * Fresh variables, the minimizer's answer and standard error *)

(** ** Fresh variables *)

Lemma fresh_loop {X} (l : list X) acc st :
  foldM (λ x _, v <- fresh_var;; ret (x ++ [v])) acc l st =
  (acc ++ map (λ i, nr_variables st + 1 + Z.of_nat i) (seq 0 (length l)),
   set_nr_variables (nr_variables st + Z.of_nat (length l)) st).
Proof.
  revert acc st. induction l as [|x l IH]; intros acc st.
  - destruct st. cbn. by rewrite app_nil_r, Z.add_0_r.
  - cbn [foldM length]. rewrite bind_run.
    change ((v <- fresh_var;; ret (acc ++ [v])) st)
      with (acc ++ [nr_variables st + 1],
            set_nr_variables (nr_variables st + 1) st).
    cbn [fst snd]. rewrite IH. f_equal.
    + rewrite <- app_assoc. f_equal. cbn [seq map app]. f_equal; [lia|].
      rewrite <- seq_shift, map_map. apply map_ext. intros i.
      destruct st. cbn. lia.
    + destruct st. unfold set_nr_variables. cbn. f_equal. lia.
Qed.

Lemma sat_cnf_put_hint ρ l st :
  Forall (λ x, match x with CClause _ | CXor _ | CHalfAdder _ _ => False
               | _ => True end) l →
  sat_cnf ρ (cnf (put_cnf l st)) = sat_cnf ρ (cnf st).
Proof.
  intros H. unfold put_cnf. cbn [cnf]. rewrite sat_cnf_app.
  replace (sat_cnf ρ l) with true; [apply andb_true_r|].
  symmetry. induction H as [|x l Hx _ IH]; [done|].
  change (sat_cnf ρ (x :: l)) with (cnf_line_sat ρ x && sat_cnf ρ l).
  rewrite IH. by destruct x.
Qed.

Lemma sat_opb_put_comment ρ s st :
  sat_opb ρ (opb (put_opb [OComment s] st)) = sat_opb ρ (opb st).
Proof.
  unfold put_opb. cbn [opb]. rewrite sat_opb_app. apply andb_true_r.
Qed.

Lemma new_vars_cnf_value ρ cfg label n d :
  keeps (λ st, sat_cnf ρ (cnf st)) (new_vars cfg label n d).
Proof.
  unfold new_vars, fresh_var, comment.
  repeat keeps_step
    ltac:(first [reflexivity | by apply sat_cnf_put_hint; repeat constructor]).
Qed.

Lemma new_vars_opb_value ρ cfg label n d :
  keeps (λ st, sat_opb ρ (opb st)) (new_vars cfg label n d).
Proof.
  unfold new_vars, fresh_var, comment.
  repeat keeps_step ltac:(first [reflexivity | apply sat_opb_put_comment]).
Qed.

Lemma new_vars_run cfg label n d st :
  (new_vars cfg label n d st).1 = block (nr_variables st) n ∧
  nr_variables (new_vars cfg label n d st).2 = nr_variables st + Z.of_nat n.
Proof.
  unfold new_vars. rewrite bind_run, fresh_loop.
  cbn [fst snd]. rewrite range_length, Nat.sub_0_r. split.
  - by rewrite !bind_run.
  - match goal with
    | |- nr_variables (?m ?s).2 = _ =>
        assert (K : keeps nr_variables m) by (unfold comment; quiet);
        by rewrite K
    end.
Qed.

(** ** The minimizer's answer *)

Lemma read_espresso_header nm hdr rest :
  forallb is_header hdr = true →
  read_espresso nm (hdr ++ rest) = read_espresso nm rest.
Proof.
  induction hdr as [|h hdr IH]; [done|]. cbn [forallb app read_espresso].
  intros [Hh Hr]%andb_true_iff. unfold is_header in Hh.
  destruct (String.prefix ".i" h); [by apply IH|].
  destruct (String.prefix ".o" h); [by apply IH|].
  destruct (String.prefix ".p" h); [by apply IH|]. done.
Qed.

Lemma read_espresso_rows nm rows rest :
  forallb is_cube rows = true →
  read_espresso nm (rows ++ rest) =
  map (cube_clause nm) rows ++ read_espresso nm rest.
Proof.
  induction rows as [|r rows IH]; [done|]. cbn [forallb app read_espresso map].
  intros [Hh Hr]%andb_true_iff. unfold is_cube, is_header in Hh.
  destruct (String.prefix ".i" r); [done|].
  destruct (String.prefix ".o" r); [done|].
  destruct (String.prefix ".p" r); [done|].
  destruct (String.prefix ".e" r); [done|].
  by rewrite IH.
Qed.

Lemma read_espresso_end nm buf rest :
  String.prefix ".e" buf = true → is_header buf = false →
  read_espresso nm (buf :: rest) = [].
Proof.
  intros He Hh. cbn [read_espresso]. unfold is_header in Hh.
  destruct (String.prefix ".i" buf); [done|].
  destruct (String.prefix ".o" buf); [done|].
  destruct (String.prefix ".p" buf); [done|]. by rewrite He.
Qed.

Lemma minimized_clauses_eq espresso n m st :
  minimized_clauses espresso n m st =
  match cache st !! (n, m) with
  | Some cl => (cl, st)
  | None =>
      let cl := read_espresso (n + m) (espresso (pla_input n m)) in
      (cl, set_cache (<[(n, m) := cl]> (cache st)) st)
  end.
Proof.
  unfold minimized_clauses. rewrite bind_run. cbn [gets fst snd].
  by destruct (cache st !! (n, m)).
Qed.

(** ** Standard error *)

Lemma says_keeps {A} (m : M A) : keeps cerr m → says m [].
Proof. intros H st. by rewrite H, app_nil_r. Qed.

Lemma says_bind {A B} (m : M A) (f : A → M B) l1 l2 :
  says m l1 → (∀ x, says (f x) l2) → says (bind m f) (l1 ++ l2).
Proof. intros Hm Hf st. by rewrite bind_run, Hf, Hm, app_assoc. Qed.

Lemma says_after {A B} (m : M A) (f : A → M B) l :
  keeps cerr m → (∀ x, says (f x) l) → says (bind m f) l.
Proof. intros Hm Hf st. by rewrite bind_run, Hf, Hm. Qed.

Lemma says_before {A B} (m : M A) (f : A → M B) l :
  says m l → (∀ x, keeps cerr (f x)) → says (bind m f) l.
Proof. intros Hm Hf st. by rewrite bind_run, Hf, Hm. Qed.

Lemma says_put_cerr s : says (modify (put_cerr s)) [s].
Proof. by intros st. Qed.

Lemma collision_says cfg e rnd :
  says (collision cfg e rnd)
       (if (0 <? config_nr_message_bits cfg)%nat
        then [collision_warning] else []).
Proof.
  unfold collision.
  apply says_after; [apply sha1_new_quiet|]. intros f.
  apply says_after; [apply sha1_new_quiet|]. intros g.
  apply says_before.
  - destruct (0 <? config_nr_message_bits cfg)%nat;
      [apply says_put_cerr | apply says_keeps, keeps_ret].
  - intros _. quiet.
Qed.

Lemma generate_says e libc cfg argv seed :
  says (generate e libc cfg argv seed)
       (if String.eqb (config_attack cfg) "collision" &&
           (0 <? config_nr_message_bits cfg)%nat
        then [collision_warning] else []).
Proof.
  unfold generate.
  do 7 (apply says_after; [quiet|]; intros _).
  cbv zeta.
  destruct (String.eqb_spec (config_attack cfg) "preimage") as [->|_].
  { apply says_keeps, preimage_quiet. }
  destruct (String.eqb_spec (config_attack cfg) "second-preimage") as [->|_].
  { apply says_keeps, second_preimage_quiet. }
  destruct (String.eqb (config_attack cfg) "collision").
  - apply collision_says.
  - apply says_keeps, keeps_ret.
Qed.
(** * The truth table written to the minimizer *)

(** ** Strings of digits *)

Lemma pretty_bit (b : bool) :
  pretty (1 - Nat.b2n b)%nat = if b then "0" else "1".
Proof. destruct b; vm_compute; reflexivity. Qed.

Lemma pla_bits_digits n i :
  pla_bits n i = digits (map (λ k, negb (Nat.testbit i k)) (rev (seq 0 n))).
Proof.
  unfold pla_bits. generalize (rev (seq 0 n)). intros l.
  induction l as [|k l IH]; [done|]. cbn [foldr map digits].
  rewrite pretty_bit, IH. by destruct (Nat.testbit i k).
Qed.

Lemma digits_app a b : digits (a ++ b) = digits a +:+ digits b.
Proof.
  induction a as [|x a IH]; [done|].
  change (digits ((x :: a) ++ b))
    with (String (if x then "1" else "0")%char (digits (a ++ b))).
  by rewrite IH.
Qed.

Lemma digits_length bs : String.length (digits bs) = length bs.
Proof.
  induction bs as [|b bs IH]; [done|].
  change (S (String.length (digits bs)) = S (length bs)). by rewrite IH.
Qed.

Lemma get_digits k bs t :
  (k < length bs)%nat →
  String.get k (digits bs +:+ t) =
  Some (if nth k bs false then "1" else "0")%char.
Proof.
  revert k. induction bs as [|b bs IH]; intros k Hk; [simpl in Hk; lia|].
  destruct k as [|k]; [done|].
  change (String.get k (digits bs +:+ t) =
          Some (if nth k bs false then "1" else "0")%char).
  apply IH. simpl in Hk. lia.
Qed.

Lemma get_past s t k :
  String.get (String.length s + k) (s +:+ t) = String.get k t.
Proof. induction s as [|c s IH]; [done|]. cbn. apply IH. Qed.

Lemma length_append s t :
  String.length (s +:+ t) = (String.length s + String.length t)%nat.
Proof.
  induction s as [|c s IH]; [done|].
  change (S (String.length (s +:+ t)) =
          S (String.length s + String.length t)). by rewrite IH.
Qed.

(** ** A row read back as a clause *)

Lemma cube_clause_digits bs t :
  cube_clause (length bs) (digits bs +:+ t) =
  map (λ k, if nth k bs false then Z.of_nat k + 1 else - (Z.of_nat k + 1))
      (seq 0 (length bs)).
Proof.
  unfold cube_clause.
  assert (H : ∀ l, Forall (λ k, k < length bs)%nat l →
    flat_map (λ i, match String.get i (digits bs +:+ t) with
                   | Some ch =>
                       if Ascii.eqb ch "0" then [- (Z.of_nat i + 1)]
                       else if Ascii.eqb ch "1" then [Z.of_nat i + 1] else []
                   | None => []
                   end) l =
    map (λ k, if nth k bs false then Z.of_nat k + 1 else - (Z.of_nat k + 1)) l).
  { induction 1 as [|k l Hk _ IH]; [done|]. cbn [flat_map map].
    rewrite IH, get_digits by done. by destruct (nth k bs false). }
  apply H, Forall_forall. intros k Hk%elem_of_seq. lia.
Qed.

Lemma row_assignment_lit row k (b : bool) :
  lit_val (row_assignment row)
          (if b then Z.of_nat k + 1 else - (Z.of_nat k + 1)) =
  if b then nth k row false else negb (nth k row false).
Proof.
  unfold lit_val, row_assignment. destruct b.
  - destruct (Z.ltb_spec (Z.of_nat k + 1) 0); [lia|].
    by replace (Z.to_nat (Z.abs (Z.of_nat k + 1) - 1)) with k by lia.
  - destruct (Z.ltb_spec (- (Z.of_nat k + 1)) 0); [|lia].
    by replace (Z.to_nat (Z.abs (- (Z.of_nat k + 1)) - 1)) with k by lia.
Qed.

(** The clause read from a row of digits excludes exactly the row of the
    complemented digits. *)
Lemma clause_of_digits row bs t :
  length row = length bs →
  clause_sat (row_assignment row) (cube_clause (length bs) (digits bs +:+ t))
    = false ↔ row = map negb bs.
Proof.
  intros Hl. rewrite cube_clause_digits. unfold clause_sat.
  rewrite <- Bool.not_true_iff_false, existsb_exists. split.
  - intros H. apply (nth_ext _ _ false false); [by rewrite length_map|].
    intros k Hk. rewrite (nth_indep (map negb bs) false (negb false))
      by (rewrite length_map; lia).
    rewrite map_nth.
    destruct (Bool.bool_dec (nth k row false) (negb (nth k bs false)))
      as [|Hne]; [done|].
    exfalso. apply H.
    exists (if nth k bs false then Z.of_nat k + 1 else - (Z.of_nat k + 1)).
    split; [apply in_map_iff; exists k; split; [done|apply in_seq; lia]|].
    rewrite row_assignment_lit.
    by destruct (nth k row false), (nth k bs false).
  - intros -> (l & (k & <- & Hk%in_seq)%in_map_iff & Hv).
    rewrite row_assignment_lit in Hv.
    rewrite (nth_indep (map negb bs) false (negb false)) in Hv
      by (rewrite length_map; lia).
    rewrite map_nth in Hv. by destruct (nth k bs false).
Qed.

(** ** The rows of the table *)

Lemma append_assoc (a b c : string) : (a +:+ b) +:+ c = a +:+ (b +:+ c).
Proof.
  induction a as [|x a IH]; [done|].
  change (String x ((a +:+ b) +:+ c) = String x (a +:+ (b +:+ c))).
  by rewrite IH.
Qed.

Lemma table_row_length n m i j : length (table_row n m i j) = (n + m)%nat.
Proof.
  unfold table_row. by rewrite length_app, !length_map, !length_rev, !length_seq.
Qed.

Lemma pla_row_digits n m i j :
  pla_row n m i j =
  digits (map negb (table_row n m i j)) +:+
  (" " +:+ (if (popcount i =? j)%nat then "0" else "1")).
Proof.
  unfold pla_row, table_row. rewrite !pla_bits_digits, map_app, !map_map.
  by rewrite digits_app, append_assoc.
Qed.

Lemma negb_negb_map (l : list bool) : map negb (map negb l) = l.
Proof.
  rewrite map_map. rewrite <- (map_id l) at 2. apply map_ext, negb_involutive.
Qed.

Lemma pla_row_clause row n m i j :
  length row = (n + m)%nat →
  clause_sat (row_assignment row) (cube_clause (n + m) (pla_row n m i j))
    = false ↔ row = table_row n m i j.
Proof.
  intros Hl. rewrite pla_row_digits.
  rewrite <- (negb_negb_map (table_row n m i j)) at 2.
  replace (n + m)%nat with (length (map negb (table_row n m i j)))
    by (by rewrite length_map, table_row_length).
  apply clause_of_digits. by rewrite length_map, table_row_length.
Qed.

Lemma digits_no_dot bs t c :
  String.prefix (String "." c) (digits bs +:+ (" " +:+ t)) = false.
Proof. by destruct bs as [|[] bs]. Qed.

Lemma pla_row_cube n m i j : is_cube (pla_row n m i j) = true.
Proof.
  rewrite pla_row_digits. unfold is_cube, is_header.
  by rewrite !digits_no_dot.
Qed.

Lemma pla_row_output n m i j :
  negb (String.prefix "." (pla_row n m i j)) &&
  bool_decide (String.get (String.length (pla_row n m i j) - 1)
                          (pla_row n m i j) = Some "1"%char) =
  negb (popcount i =? j)%nat.
Proof.
  rewrite pla_row_digits, digits_no_dot.
  set (bs := map negb (table_row n m i j)).
  set (o := if (popcount i =? j)%nat then "0" else "1").
  replace (String.length (digits bs +:+ (" " +:+ o)) - 1)%nat
    with (String.length (digits bs) + 1)%nat
    by (rewrite length_append; unfold o; destruct (popcount i =? j)%nat;
        simpl; lia).
  rewrite get_past. unfold o. by destruct (popcount i =? j)%nat.
Qed.

(** ** The table, echoed and read back *)

Lemma echoed_rows n m i js :
  List.filter
    (λ l, negb (String.prefix "." l) &&
          bool_decide (String.get (String.length l - 1) l = Some "1"%char))
    (map (λ j, pla_row n m i j) js) =
  flat_map (λ j, if (popcount i =? j)%nat then [] else [pla_row n m i j]) js.
Proof.
  induction js as [|j js IH]; [done|].
  cbn [map flat_map List.filter]. rewrite pla_row_output, IH.
  by destruct (popcount i =? j)%nat.
Qed.

Lemma echo_pla_input n m :
  read_espresso (n + m) (echo_espresso (pla_input n m)) =
  map (cube_clause (n + m))
    (flat_map (λ i,
       flat_map (λ j, if (popcount i =? j)%nat then []
                      else [pla_row n m i j]) (range 0 (2 ^ m)))
       (range 0 (2 ^ n))).
Proof.
  unfold echo_espresso, pla_input.
  rewrite !List.filter_app.
  change (List.filter _ [".i " +:+ pretty (n + m)%nat; ".o 1"]) with (@nil string).
  change (List.filter _ [".e"]) with (@nil string).
  rewrite app_nil_l, app_nil_r.
  rewrite read_espresso_rows.
  2:{ apply forallb_forall. intros r [Hr _]%filter_In.
      apply in_flat_map in Hr as (i & _ & (j & <- & _)%in_map_iff).
      apply pla_row_cube. }
  rewrite (read_espresso_end _ ".e") by done. rewrite app_nil_r. f_equal.
  generalize (range 0 (2 ^ m)). intros js.
  induction (range 0 (2 ^ n)) as [|i l IH]; [done|].
  cbn [flat_map]. by rewrite List.filter_app, IH, echoed_rows.
Qed.

Lemma echoed_clauses ρ n m :
  forallb (clause_sat ρ)
    (read_espresso (n + m) (echo_espresso (pla_input n m))) = true ↔
  ∀ i j, (i < 2 ^ n)%nat → (j < 2 ^ m)%nat → popcount i ≠ j →
         clause_sat ρ (cube_clause (n + m) (pla_row n m i j)) = true.
Proof.
  rewrite echo_pla_input, forallb_forall. split.
  - intros H i j Hi Hj Hp. apply H, in_map, in_flat_map.
    exists i. split; [apply in_seq; lia|]. apply in_flat_map.
    exists j. split; [apply in_seq; lia|].
    destruct (Nat.eqb_spec (popcount i) j); [done|by left].
  - intros H c (r & <- & Hr)%in_map_iff.
    apply in_flat_map in Hr as (i & Hi%in_seq & Hr).
    apply in_flat_map in Hr as (j & Hj%in_seq & Hr).
    destruct (Nat.eqb_spec (popcount i) j); [done|].
    destruct Hr as [<-|[]]. apply H; [lia|lia|done].
Qed.

(** ** Bits and numbers *)

Lemma bits_val_testbit l k :
  (k < length l)%nat → Nat.testbit (bits_val l) k = nth k l false.
Proof.
  revert k. induction l as [|b l IH]; intros k Hk; [simpl in Hk; lia|].
  change (bits_val (b :: l)) with (2 * bits_val l + Nat.b2n b)%nat.
  destruct k as [|k]; [apply Nat.testbit_0_r|].
  rewrite Nat.testbit_succ_r. apply IH. simpl in Hk. lia.
Qed.

Lemma bits_val_bound l : (bits_val l < 2 ^ length l)%nat.
Proof.
  induction l as [|b l IH]; [simpl; lia|].
  change (bits_val (b :: l)) with (2 * bits_val l + Nat.b2n b)%nat.
  cbn [length]. rewrite Nat.pow_succ_r'. destruct b; simpl Nat.b2n; lia.
Qed.

Lemma testbit_small i n k :
  (i < 2 ^ n)%nat → (n ≤ k)%nat → Nat.testbit i k = false.
Proof.
  intros Hi Hk. rewrite <- (Nat.mod_small i (2 ^ n)) by done.
  by apply Nat.mod_pow2_bits_high.
Qed.

Lemma nth_map_seq {A} (f : nat → A) d lo n k :
  (k < n)%nat → nth k (map f (seq lo n)) d = f (lo + k)%nat.
Proof.
  intros Hk. rewrite (nth_indep _ d (f 0%nat)) by (by rewrite length_map, length_seq).
  by rewrite map_nth, seq_nth.
Qed.

Lemma bits_val_bits i n :
  (i < 2 ^ n)%nat → bits_val (map (Nat.testbit i) (seq 0 n)) = i.
Proof.
  intros Hi. apply Nat.bits_inj. intros k.
  destruct (Nat.lt_ge_cases k n) as [Hk|Hk].
  - rewrite bits_val_testbit by (by rewrite length_map, length_seq).
    by rewrite nth_map_seq.
  - rewrite (testbit_small i n k) by done.
    apply (testbit_small _ n); [|done].
    pose proof (bits_val_bound (map (Nat.testbit i) (seq 0 n))) as H.
    by rewrite length_map, length_seq in H.
Qed.

Lemma bits_of_bits_val l :
  map (Nat.testbit (bits_val l)) (seq 0 (length l)) = l.
Proof.
  apply (nth_ext _ _ false false); [by rewrite length_map, length_seq|].
  intros k Hk. rewrite length_map, length_seq in Hk.
  rewrite nth_map_seq by done. by apply bits_val_testbit.
Qed.

Lemma ones_app a b : ones (a ++ b) = (ones a + ones b)%nat.
Proof.
  induction a as [|x a IH]; [done|].
  change (Nat.b2n x + ones (a ++ b) = Nat.b2n x + ones a + ones b)%nat.
  rewrite IH. lia.
Qed.

Lemma ones_rev l : ones (rev l) = ones l.
Proof.
  induction l as [|x l IH]; [done|]. cbn [rev]. rewrite ones_app, IH.
  change (ones l + (Nat.b2n x + 0) = Nat.b2n x + ones l)%nat. lia.
Qed.

Lemma filter_testbit_length i l :
  length (filter (λ k, Nat.testbit i k = true) l) =
  ones (map (Nat.testbit i) l).
Proof.
  induction l as [|k l IH]; [done|]. rewrite filter_cons. cbn [map].
  change (ones (Nat.testbit i k :: map (Nat.testbit i) l))
    with (Nat.b2n (Nat.testbit i k) + ones (map (Nat.testbit i) l))%nat.
  destruct (decide (Nat.testbit i k = true)) as [E|E].
  - rewrite E. cbn. by rewrite IH.
  - apply Bool.not_true_is_false in E. rewrite E. by rewrite IH.
Qed.

Lemma popcount_ones i n :
  (i < 2 ^ n)%nat → (n ≤ 32)%nat →
  popcount i = ones (map (Nat.testbit i) (seq 0 n)).
Proof.
  intros Hi Hn. unfold popcount. rewrite filter_testbit_length.
  replace 32%nat with (n + (32 - n))%nat at 1 by lia.
  rewrite seq_app, map_app, ones_app.
  replace (ones (map (Nat.testbit i) (seq (0 + n) (32 - n)))) with 0%nat; [lia|].
  generalize (32 - n)%nat. intros d. symmetry.
  assert (H : ∀ l, Forall (λ k, n ≤ k)%nat l → ones (map (Nat.testbit i) l) = 0%nat).
  { induction 1 as [|k l Hk _ IH]; [done|]. cbn [map].
    change (Nat.b2n (Nat.testbit i k) + ones (map (Nat.testbit i) l) = 0)%nat.
    by rewrite IH, (testbit_small i n k). }
  apply H, Forall_forall. intros k Hk%elem_of_seq. lia.
Qed.

(** ** The half-adder relation on a row *)

Lemma count_true_ones ρ xs : count_true ρ xs = Z.of_nat (ones (map ρ xs)).
Proof.
  induction xs as [|x xs IH]; [done|].
  change (b2z (ρ x) + count_true ρ xs =
          Z.of_nat (Nat.b2n (ρ x) + ones (map ρ xs))).
  rewrite IH. destruct (ρ x); simpl Nat.b2n; simpl b2z; lia.
Qed.

Lemma word_val_of_bits ρ xs : word_val ρ xs = Z.of_nat (bits_val (map ρ xs)).
Proof.
  induction xs as [|x xs IH]; [done|].
  change (b2z (ρ x) + 2 * word_val ρ xs =
          Z.of_nat (2 * bits_val (map ρ xs) + Nat.b2n (ρ x))).
  rewrite IH. destruct (ρ x); simpl Nat.b2n; simpl b2z; lia.
Qed.

Lemma row_assignment_shape row lo n :
  map (row_assignment row) (map (λ i, Z.of_nat i + 1) (seq lo n)) =
  map (λ i, nth i row false) (seq lo n).
Proof.
  rewrite map_map. apply map_ext. intros i. unfold row_assignment.
  by replace (Z.to_nat (Z.of_nat i + 1 - 1)) with i by lia.
Qed.

Lemma row_lhs_bits row n m :
  length row = (n + m)%nat →
  map (row_assignment row) (shape_lhs n) = take n row.
Proof.
  intros Hl. unfold shape_lhs. rewrite row_assignment_shape.
  apply (nth_ext _ _ false false).
  { rewrite length_map, length_seq, length_take. lia. }
  intros k Hk. rewrite length_map, length_seq in Hk.
  rewrite nth_map_seq by done. simpl.
  rewrite <- (take_drop n row) at 1. rewrite app_nth1; [done|].
  rewrite length_take. lia.
Qed.

Lemma row_rhs_bits row n m :
  length row = (n + m)%nat →
  map (row_assignment row) (shape_rhs n m) = rev (drop n row).
Proof.
  intros Hl. unfold shape_rhs. rewrite map_rev. f_equal.
  rewrite row_assignment_shape.
  apply (nth_ext _ _ false false).
  { rewrite length_map, length_seq, length_drop. lia. }
  intros k Hk. rewrite length_map, length_seq in Hk.
  rewrite nth_map_seq by done.
  rewrite <- (take_drop n row) at 1. rewrite app_nth2; rewrite length_take; [|lia].
  f_equal. lia.
Qed.

Lemma table_row_split n m i j :
  take n (table_row n m i j) = rev (map (Nat.testbit i) (seq 0 n)) ∧
  drop n (table_row n m i j) = rev (map (Nat.testbit j) (seq 0 m)).
Proof.
  unfold table_row. rewrite !map_rev.
  assert (E : length (rev (map (Nat.testbit i) (seq 0 n))) = n)
    by (by rewrite length_rev, length_map, length_seq).
  split.
  - rewrite take_app_length'; done.
  - rewrite drop_app_length'; done.
Qed.

(** The rows the clauses of the table leave are those of the relation. *)
Lemma table_relation row n m :
  (n ≤ 32)%nat → length row = (n + m)%nat →
  (∀ i j, (i < 2 ^ n)%nat → (j < 2 ^ m)%nat → popcount i ≠ j →
          row ≠ table_row n m i j) ↔
  count_true (row_assignment row) (shape_lhs n) =
  word_val (row_assignment row) (shape_rhs n m).
Proof.
  intros Hn Hl.
  rewrite count_true_ones, word_val_of_bits.
  rewrite (row_lhs_bits row n m), (row_rhs_bits row n m) by done.
  set (a := rev (take n row)). set (b := rev (drop n row)).
  assert (Ha : length a = n) by (unfold a; rewrite length_rev, length_take; lia).
  assert (Hb : length b = m) by (unfold b; rewrite length_rev, length_drop; lia).
  assert (Era : take n row = rev a) by (unfold a; by rewrite rev_involutive).
  assert (Erb : drop n row = rev b) by (unfold b; by rewrite rev_involutive).
  rewrite Era, ones_rev.
  split.
  - intros H. destruct (Nat.eq_dec (ones a) (bits_val b)) as [E|E]; [by rewrite E|].
    exfalso. apply (H (bits_val a) (bits_val b)).
    + rewrite <- Ha. apply bits_val_bound.
    + rewrite <- Hb. apply bits_val_bound.
    + rewrite (popcount_ones _ n);
        [|rewrite <- Ha; apply bits_val_bound|done].
      rewrite <- Ha at 1. by rewrite bits_of_bits_val.
    + rewrite <- (take_drop n row), Era, Erb. unfold table_row.
      rewrite !map_rev. rewrite <- Ha at 1. rewrite <- Hb at 1.
      by rewrite !bits_of_bits_val.
  - intros E i j Hi Hj Hp ->.
    destruct (table_row_split n m i j) as [Et Ed].
    apply Hp. apply Nat2Z.inj. rewrite (popcount_ones i n) by done.
    assert (a = map (Nat.testbit i) (seq 0 n)) as Ea'.
    { unfold a. by rewrite Et, rev_involutive. }
    assert (b = map (Nat.testbit j) (seq 0 m)) as Eb'.
    { unfold b. by rewrite Ed, rev_involutive. }
    rewrite <- Ea', E, Eb'. by rewrite bits_val_bits.
Qed.

Lemma all_rows_length k row : row ∈ all_rows k → length row = k.
Proof.
  revert row. induction k as [|k IH]; intros row; cbn [all_rows].
  - by intros ->%list_elem_of_singleton.
  - intros (r & Hr & Hrow)%list_elem_of_In%in_flat_map.
    apply list_elem_of_In, IH in Hr.
    destruct Hrow as [<-|[<-|[]]]; simpl; lia.
Qed.
(** * The numbering of the variables *)

(** ** The rules of [numbered] *)

Lemma numbered_ret {A} (x : A) st (Q : A → Z → Prop) :
  Q x (nr_variables st) → numbered (ret x) st Q.
Proof. done. Qed.

Lemma numbered_bind {A B} (m : M A) (f : A → M B) st Q1 (Q : B → Z → Prop) :
  numbered m st Q1 →
  (∀ x st1, Q1 x (nr_variables st1) → numbered (f x) st1 Q) →
  numbered (bind m f) st Q.
Proof. intros Hm Hf. unfold numbered. rewrite bind_run. by apply Hf. Qed.

Lemma numbered_conseq {A} (m : M A) st (Q Q' : A → Z → Prop) :
  numbered m st Q → (∀ x nv, Q x nv → Q' x nv) → numbered m st Q'.
Proof. intros Hm H. by apply H. Qed.

Lemma numbered_keeps {A} (m : M A) st :
  keeps nr_variables m → numbered m st (λ _ nv, nv = nr_variables st).
Proof. intros H. apply H. Qed.

Lemma numbered_foldM {Acc} (body : Acc → nat → M Acc) (lo hi : nat)
    (I : nat → Acc → Z → Prop) s st :
  I lo s (nr_variables st) →
  (∀ k s st1, (lo ≤ k < hi)%nat → I k s (nr_variables st1) →
     numbered (body s k) st1 (I (S k))) →
  numbered (foldM body s (range lo hi)) st (I (Nat.max lo hi)).
Proof.
  intros H0 Hb. unfold range.
  destruct (Nat.le_gt_cases hi lo) as [Hle|Hlt].
  { replace (hi - lo)%nat with 0%nat by lia.
    replace (Nat.max lo hi) with lo by lia. by apply numbered_ret. }
  replace (Nat.max lo hi) with (lo + (hi - lo))%nat by lia.
  assert (Hd : (lo + (hi - lo) ≤ hi)%nat) by lia.
  revert Hd. generalize (hi - lo)%nat. intros d. clear Hlt.
  revert lo s st H0 Hb. induction d as [|d IH]; intros lo s st H0 Hb Hd.
  { rewrite Nat.add_0_r. by apply numbered_ret. }
  cbn [seq foldM]. apply (numbered_bind _ _ _ (I (S lo))).
  - apply Hb; [lia|done].
  - intros s' st1 Hs'. replace (lo + S d)%nat with (S lo + d)%nat by lia.
    apply IH; [done| |lia]. intros k s'' st2 Hk. apply Hb. lia.
Qed.

Lemma numbered_forM (body : nat → M unit) (lo hi : nat)
    (I : nat → Z → Prop) st :
  I lo (nr_variables st) →
  (∀ k st1, (lo ≤ k < hi)%nat → I k (nr_variables st1) →
     numbered (body k) st1 (λ _, I (S k))) →
  numbered (forM (range lo hi) body) st (λ _, I (Nat.max lo hi)).
Proof.
  intros H0 Hb. unfold range.
  destruct (Nat.le_gt_cases hi lo) as [Hle|Hlt].
  { replace (hi - lo)%nat with 0%nat by lia.
    replace (Nat.max lo hi) with lo by lia. by apply numbered_ret. }
  replace (Nat.max lo hi) with (lo + (hi - lo))%nat by lia.
  assert (Hd : (lo + (hi - lo) ≤ hi)%nat) by lia.
  revert Hd. generalize (hi - lo)%nat. intros d. clear Hlt.
  revert lo st H0 Hb. induction d as [|d IH]; intros lo st H0 Hb Hd.
  { rewrite Nat.add_0_r. by apply numbered_ret. }
  cbn [seq forM]. apply (numbered_bind _ _ _ (λ _, I (S lo))).
  - apply Hb; [lia|done].
  - intros _ st1 Hs'. replace (lo + S d)%nat with (S lo + d)%nat by lia.
    apply IH; [done| |lia]. intros k st2 Hk. apply Hb. lia.
Qed.

(** ** What leaves the counter alone *)

Ltac still_step :=
  lazymatch goal with
  | |- keeps _ (ret _) => apply keeps_ret
  | |- keeps _ (gets _) => apply keeps_gets
  | |- keeps _ (modify _) => apply keeps_modify; intros ?; reflexivity
  | |- keeps _ (bind _ _) => apply keeps_bind; [|intros ?]
  | |- keeps _ (forM _ _) => apply keeps_forM; intros ?
  | |- keeps _ (foldM _ _ _) => apply keeps_foldM; intros ? ?
  | |- keeps _ (if ?b then _ else _) => destruct b
  | |- keeps _ (match ?o with _ => _ end) => destruct o
  | |- keeps _ (let _ := _ in _) => cbv zeta
  | |- keeps _ ?m => let h := head_of m in unfold h
  end.

Ltac still := repeat still_step.

(** A step that allocates nothing. *)
Ltac skip_step :=
  eapply numbered_bind;
    [apply numbered_keeps; still
    |cbn beta; let st := fresh "st" in let E := fresh "E" in intros _ st E].

Section Numbers.

Variable cfg : config.
Variable espresso : list string → list string.

Lemma new_vars_numbered label n d st :
  numbered (new_vars cfg label n d) st
    (λ x nv, x = block (nr_variables st) n ∧
             nv = nr_variables st + Z.of_nat n).
Proof. apply new_vars_run. Qed.

Lemma new_constant_numbered label value st :
  numbered (new_constant cfg label value) st
    (λ _ nv, nv = nr_variables st + 32).
Proof.
  unfold new_constant.
  eapply numbered_bind; [apply new_vars_numbered|].
  cbn beta. intros r st1 [_ E]. skip_step. apply numbered_ret. lia.
Qed.

(** A loop that allocates one word per index. *)
Lemma alloc_loop_numbered (lbl : nat → string) (d : bool) (idx : nat → nat)
    (arr : list (list Z)) lo hi st :
  (∀ i, (lo ≤ i < hi)%nat → (idx i < length arr)%nat) →
  (∀ i j, (lo ≤ i < hi)%nat → (lo ≤ j < hi)%nat → idx i = idx j → i = j) →
  numbered (foldM (λ w i, x <- new_vars cfg (lbl i) 32 d;;
                          ret (<[idx i := x]> w)) arr (range lo hi)) st
    (λ arr' nv,
       nv = nr_variables st + 32 * Z.of_nat (hi - lo) ∧
       length arr' = length arr ∧
       (∀ i, (lo ≤ i < hi)%nat →
             arr' !!! idx i =
             block (nr_variables st + 32 * Z.of_nat (i - lo)) 32) ∧
       (∀ j, (∀ i, (lo ≤ i < hi)%nat → j ≠ idx i) → arr' !!! j = arr !!! j)).
Proof.
  intros Hidx Hinj. eapply numbered_conseq.
  { apply (numbered_foldM _ lo hi
      (λ k arr' nv,
         nv = nr_variables st + 32 * Z.of_nat (k - lo) ∧
         length arr' = length arr ∧
         (∀ i, (lo ≤ i < k)%nat → (i < hi)%nat →
               arr' !!! idx i =
               block (nr_variables st + 32 * Z.of_nat (i - lo)) 32) ∧
         (∀ j, (∀ i, (lo ≤ i < k)%nat → (i < hi)%nat → j ≠ idx i) →
               arr' !!! j = arr !!! j))).
    - split; [lia|]. split; [done|]. split; [intros; lia|done].
    - intros k arr' st1 Hk (Hn & Hl & Hw & Hu).
      eapply numbered_bind; [apply new_vars_numbered|].
      cbn beta. intros x st2 [-> Hn2]. apply numbered_ret.
      split; [lia|]. split; [by rewrite length_insert|]. split.
      + intros i Hik Hih. destruct (decide (i = k)) as [->|Hne].
        * rewrite list_lookup_total_insert_eq by (rewrite Hl; apply Hidx; lia).
          by rewrite Hn.
        * rewrite list_lookup_total_insert_ne; [apply Hw; lia|].
          intros E. apply Hinj in E; lia.
      + intros j Hj. rewrite list_lookup_total_insert_ne; [apply Hu|].
        * intros i Hik Hih. apply Hj; lia.
        * intros E. apply (Hj k); [lia|lia|done]. }
  cbn beta. intros arr' nv (Hn & Hl & Hw & Hu).
  split; [rewrite Hn; f_equal; f_equal; lia|]. split; [done|]. split.
  - intros i Hi. apply Hw; lia.
  - intros j Hj. apply Hu. intros i Hi Hih. apply Hj. lia.
Qed.

(** The message schedule allocates nothing and leaves [w[0..16)] alone. *)
Lemma schedule_loop_numbered (w wt : list (list Z)) R st :
  numbered (foldM (λ w i,
              xor4 cfg (wt !!! i) (w !!! (i - 3)%nat) (w !!! (i - 8)%nat)
                   (w !!! (i - 14)%nat) (w !!! (i - 16)%nat);;;
              ret (<[i := rotl (wt !!! i) 1]> w)) w (range 16 R)) st
    (λ w' nv, nv = nr_variables st ∧
              ∀ i, (i < 16)%nat → w' !!! i = w !!! i).
Proof.
  eapply numbered_conseq.
  { apply (numbered_foldM _ 16 R
      (λ _ w' nv, nv = nr_variables st ∧
                  ∀ i, (i < 16)%nat → w' !!! i = w !!! i)); [done|].
    intros k w' st1 Hk [Hn Hlow]. skip_step. apply numbered_ret.
    split; [lia|]. intros i Hi.
    rewrite list_lookup_total_insert_ne by lia. by apply Hlow. }
  done.
Qed.

(** *** The adders *)

Lemma adder_column_numbered (p M : nat) label r (ins : nat → list Z) ad i st :
  (∀ n, (p ≤ n ≤ p + M)%nat → Nat.log2 n = M) →
  (i < 32)%nat → (M ≤ 2)%nat → length (ins i) = p → caps M i ad →
  numbered (adder_column cfg espresso label r ins ad i) st
    (λ ad' nv, nv = nr_variables st + Z.of_nat M ∧ caps M (S i) ad').
Proof.
  intros Hlog Hi HM Hp [Hlen Hcap]. unfold adder_column. cbv zeta.
  assert (Hil : (i < length ad)%nat) by lia.
  destruct (push_ins_spec (λ _, true) i (ins i) ad Hil) as (H1l & H1c & _).
  set (ad1 := foldl (λ ad x, push_back i x ad) ad (ins i)) in *.
  assert (HN : Nat.log2 (length (ad1 !!! i)) = M).
  { apply Hlog. rewrite H1c. destruct (decide (i = i)); [|done].
    rewrite length_app, Hp. specialize (Hcap i). lia. }
  rewrite HN.
  eapply numbered_bind; [apply new_vars_numbered|].
  cbn beta. intros cs st1 [-> Hn1].
  assert (Hcsl : length (block (nr_variables st) M) = M)
    by (unfold block; by rewrite length_map, length_seq).
  destruct (push_carries_spec (λ _, true) i (at_ r i)
              (block (nr_variables st) M) ad1 M
              ltac:(lia) ltac:(lia)) as (H2l & _ & H2c & _).
  replace (seq 1 M) with (range 1 (1 + M)) in H2l, H2c
    by (unfold range; f_equal; lia).
  set (ad2 := foldl _ ad1 (range 1 (1 + M))) in *.
  skip_step. apply numbered_ret. split; [lia|]. split; [lia|].
  intros j Hj. specialize (H2c j). rewrite H1c in H2c.
  destruct (decide (j = i)); [lia|]. specialize (Hcap j).
  case_decide; lia.
Qed.

Lemma adder_columns_numbered (p M : nat) label r (ins : nat → list Z) st :
  (∀ n, (p ≤ n ≤ p + M)%nat → Nat.log2 n = M) → (M ≤ 2)%nat →
  (∀ i, (i < 32)%nat → length (ins i) = p) →
  numbered (foldM (adder_column cfg espresso label r ins)
                  (replicate (32 + 5) []) (range 0 32);;; ret tt) st
    (λ _ nv, nv = nr_variables st + 32 * Z.of_nat M).
Proof.
  intros Hlog HM Hins.
  eapply numbered_bind.
  { apply (numbered_foldM _ 0 32
      (λ k ad nv, nv = nr_variables st + Z.of_nat k * Z.of_nat M ∧
                  caps M k ad)).
    - split; [lia|]. split; [done|]. intros j _.
      rewrite replicate_nil_lookup. simpl. lia.
    - intros k ad st1 Hk [Hn Hc]. eapply numbered_conseq.
      { apply (adder_column_numbered p M); try done; [lia|]. apply Hins. lia. }
      cbn beta. intros ad' nv [-> Hc']. split; [lia|done]. }
  cbn beta. intros ad st1 [Hn _]. apply numbered_ret. simpl in Hn. lia.
Qed.

Lemma log2_add2 n : (2 ≤ n ≤ 2 + 1)%nat → Nat.log2 n = 1%nat.
Proof. intros H. by assert (n = 2 ∨ n = 3)%nat as [->| ->] by lia. Qed.

Lemma log2_add5 n : (5 ≤ n ≤ 5 + 2)%nat → Nat.log2 n = 2%nat.
Proof.
  intros H. by assert (n = 5 ∨ n = 6 ∨ n = 7)%nat as [->|[->| ->]] by lia.
Qed.

Lemma add2_numbered label r a b st :
  numbered (add2 cfg espresso label r a b) st
    (λ _ nv, nv = nr_variables st + adder2_vars cfg).
Proof.
  unfold add2, adder2_vars. skip_step.
  destruct (config_use_tseitin_adders cfg);
    [|destruct (config_use_compact_adders cfg)].
  - eapply numbered_bind; [apply new_vars_numbered|].
    cbn beta. intros c st1 [_ E1].
    eapply numbered_bind; [apply new_vars_numbered|].
    cbn beta. intros t0 st2 [_ E2].
    eapply numbered_bind; [apply new_vars_numbered|].
    cbn beta. intros t1 st3 [_ E3].
    eapply numbered_bind; [apply new_vars_numbered|].
    cbn beta. intros t2 st4 [_ E4].
    eapply numbered_conseq; [apply numbered_keeps; still|].
    cbn beta. intros _ nv ->. lia.
  - eapply numbered_conseq; [apply numbered_keeps; still|].
    cbn beta. intros _ nv ->. lia.
  - eapply numbered_conseq.
    { apply (adder_columns_numbered 2 1); [apply log2_add2|lia|done]. }
    cbn beta. intros _ nv ->. lia.
Qed.

Lemma add5_numbered label r a b c d e st :
  numbered (add5 cfg espresso label r a b c d e) st
    (λ _ nv, nv = nr_variables st + adder5_vars cfg).
Proof.
  unfold add5, adder5_vars. skip_step.
  destruct (config_use_tseitin_adders cfg) eqn:Ht;
    [|destruct (config_use_compact_adders cfg)].
  - eapply numbered_bind; [apply new_vars_numbered|].
    cbn beta. intros t0 st1 [_ E1].
    eapply numbered_bind; [apply new_vars_numbered|].
    cbn beta. intros t1 st2 [_ E2].
    eapply numbered_bind; [apply new_vars_numbered|].
    cbn beta. intros t2 st3 [_ E3].
    eapply numbered_bind; [apply add2_numbered|].
    cbn beta. intros _ st4 E4.
    eapply numbered_bind; [apply add2_numbered|].
    cbn beta. intros _ st5 E5.
    eapply numbered_bind; [apply add2_numbered|].
    cbn beta. intros _ st6 E6.
    eapply numbered_conseq; [apply add2_numbered|].
    cbn beta. intros _ nv ->. unfold adder2_vars in *. rewrite Ht in *. lia.
  - eapply numbered_conseq; [apply numbered_keeps; still|].
    cbn beta. intros _ nv ->. lia.
  - eapply numbered_conseq.
    { apply (adder_columns_numbered 5 2); [apply log2_add5|lia|done]. }
    cbn beta. intros _ nv ->. lia.
Qed.

(** *** The circuit *)

Lemma sha1_round_numbered w k a i st :
  numbered (sha1_round cfg espresso w k a i) st
    (λ _ nv, nv = nr_variables st + 32 + adder5_vars cfg).
Proof.
  unfold sha1_round. cbv zeta.
  eapply numbered_bind; [apply new_vars_numbered|].
  cbn beta. intros f st1 [_ E1]. skip_step.
  eapply numbered_conseq; [apply add5_numbered|].
  cbn beta. intros _ nv ->. lia.
Qed.

Lemma rounds_numbered w k a R st :
  numbered (forM (range 0 R) (sha1_round cfg espresso w k a)) st
    (λ _ nv, nv = nr_variables st + Z.of_nat R * (32 + adder5_vars cfg)).
Proof.
  eapply numbered_conseq.
  { apply (numbered_forM _ 0 R
      (λ n nv, nv = nr_variables st + Z.of_nat n * (32 + adder5_vars cfg)));
      [lia|].
    intros n st1 Hn E. eapply numbered_conseq; [apply sha1_round_numbered|].
    cbn beta. intros _ nv ->. lia. }
  cbn beta. intros _ nv ->. by replace (Nat.max 0 R) with R by lia.
Qed.

Lemma sha1_new_numbered R name st :
  (R ≤ 80)%nat →
  numbered (sha1_new cfg espresso R name) st
    (λ c nv,
       nv = nr_variables st + circuit_vars cfg R ∧
       (∀ i, (i < 16)%nat →
          sha1_w c !!! i = block (nr_variables st + 32 * Z.of_nat i) 32) ∧
       (∀ i, (i < 5)%nat →
          sha1_h_in c !!! i =
          block (nr_variables st + 32 * Z.of_nat (Nat.max 16 R + i)) 32) ∧
       (∀ i, (i < 5)%nat →
          sha1_h_out c !!! i =
          block (nr_variables st + 32 * Z.of_nat (Nat.max 16 R + 5 + i)) 32)).
Proof.
  intros HR. unfold sha1_new. skip_step. skip_step.
  (* w[0..16) *)
  eapply numbered_bind.
  { apply (alloc_loop_numbered
             (λ i, "w" +:+ name +:+ "[" +:+ pretty i +:+ "]")
             (negb (config_restrict_branching cfg)) (λ i, i));
      [intros; rewrite length_replicate; lia|done]. }
  cbn beta. intros w0 sx1 (Hx1 & _ & Hw0 & _).
  (* wt[16..R) *)
  eapply numbered_bind.
  { apply (alloc_loop_numbered
             (λ i, "w" +:+ name +:+ "[" +:+ pretty i +:+ "]") true (λ i, i));
      [intros; rewrite length_replicate; lia|done]. }
  cbn beta. intros wt sx2 (Hx2 & _ & _ & _).
  (* h_in, h_out *)
  eapply numbered_bind; [apply new_vars_numbered|].
  cbn beta. intros i0 sx3 [-> Hx3].
  eapply numbered_bind; [apply new_vars_numbered|].
  cbn beta. intros i1 sx4 [-> Hx4].
  eapply numbered_bind; [apply new_vars_numbered|].
  cbn beta. intros i2 sx5 [-> Hx5].
  eapply numbered_bind; [apply new_vars_numbered|].
  cbn beta. intros i3 sx6 [-> Hx6].
  eapply numbered_bind; [apply new_vars_numbered|].
  cbn beta. intros i4 sx7 [-> Hx7].
  eapply numbered_bind; [apply new_vars_numbered|].
  cbn beta. intros o0 sx8 [-> Hx8].
  eapply numbered_bind; [apply new_vars_numbered|].
  cbn beta. intros o1 sx9 [-> Hx9].
  eapply numbered_bind; [apply new_vars_numbered|].
  cbn beta. intros o2 sx10 [-> Hx10].
  eapply numbered_bind; [apply new_vars_numbered|].
  cbn beta. intros o3 sx11 [-> Hx11].
  eapply numbered_bind; [apply new_vars_numbered|].
  cbn beta. intros o4 sx12 [-> Hx12].
  (* a[5..R+5) *)
  eapply numbered_bind.
  { apply (alloc_loop_numbered
             (λ i, "a[" +:+ pretty (i + 5)%nat +:+ "]") true
             (λ i, (i + 5)%nat));
      [intros; rewrite length_replicate; lia|intros; lia]. }
  cbn beta. intros a0 sx13 (Hx13 & _ & _ & _).
  (* the schedule *)
  eapply numbered_bind; [apply schedule_loop_numbered|].
  cbn beta. intros w sx14 [Hx14 Hw].
  (* constants *)
  eapply numbered_bind; [apply new_constant_numbered|].
  cbn beta. intros k0 sx15 Hx15.
  eapply numbered_bind; [apply new_constant_numbered|].
  cbn beta. intros k1 sx16 Hx16.
  eapply numbered_bind; [apply new_constant_numbered|].
  cbn beta. intros k2 sx17 Hx17.
  eapply numbered_bind; [apply new_constant_numbered|].
  cbn beta. intros k3 sx18 Hx18.
  cbv zeta.
  skip_step. skip_step. skip_step. skip_step. skip_step.
  (* the rounds *)
  eapply numbered_bind; [apply rounds_numbered|].
  cbn beta. intros _ sx24 Hx24.
  (* the final additions *)
  eapply numbered_bind; [apply add2_numbered|].
  cbn beta. intros _ sx25 Hx25.
  eapply numbered_bind; [apply add2_numbered|].
  cbn beta. intros _ sx26 Hx26.
  eapply numbered_bind; [apply add2_numbered|].
  cbn beta. intros _ sx27 Hx27.
  eapply numbered_bind; [apply add2_numbered|].
  cbn beta. intros _ sx28 Hx28.
  eapply numbered_bind; [apply add2_numbered|].
  cbn beta. intros _ sx29 Hx29.
  apply numbered_ret. cbn [sha1_w sha1_h_in sha1_h_out].
  split; [unfold circuit_vars; lia|]. split; [|split].
  - intros i Hi. rewrite Hw, Hw0 by lia. f_equal. lia.
  - intros j Hj. destruct j as [|[|[|[|[|?]]]]]; try lia;
      cbn [lookup_total list_lookup_total]; f_equal; lia.
  - intros j Hj. destruct j as [|[|[|[|[|?]]]]]; try lia;
      cbn [lookup_total list_lookup_total]; f_equal; lia.
Qed.

End Numbers.

(** *** The attacks and the run *)

Lemma preimage_numbered cfg espresso rnd st :
  (config_nr_rounds cfg ≤ 80)%nat →
  numbered (preimage cfg espresso rnd) st
    (λ _ nv, nv = nr_variables st + circuit_vars cfg (config_nr_rounds cfg)).
Proof.
  intros HR. unfold preimage.
  eapply numbered_bind; [by apply sha1_new_numbered|].
  cbn beta. intros f sx1 [E _]. cbv zeta.
  eapply numbered_conseq; [apply numbered_keeps; still|].
  cbn beta. intros _ nv ->. done.
Qed.

Lemma second_preimage_numbered cfg espresso rnd st :
  (config_nr_rounds cfg ≤ 80)%nat →
  numbered (second_preimage cfg espresso rnd) st
    (λ _ nv, nv = nr_variables st + circuit_vars cfg (config_nr_rounds cfg)).
Proof.
  intros HR. unfold second_preimage.
  eapply numbered_bind; [by apply sha1_new_numbered|].
  cbn beta. intros f sx1 [E _]. cbv zeta.
  eapply numbered_conseq; [apply numbered_keeps; still|].
  cbn beta. intros _ nv ->. done.
Qed.

Lemma collision_numbered cfg espresso rnd st :
  (config_nr_rounds cfg ≤ 80)%nat →
  numbered (collision cfg espresso rnd) st
    (λ _ nv,
       nv = nr_variables st + 2 * circuit_vars cfg (config_nr_rounds cfg)).
Proof.
  intros HR. unfold collision.
  eapply numbered_bind; [by apply sha1_new_numbered|].
  cbn beta. intros f sx1 [Hx1 _].
  eapply numbered_bind; [by apply sha1_new_numbered|].
  cbn beta. intros g sx2 [Hx2 _].
  eapply numbered_conseq; [apply numbered_keeps; still|].
  cbn beta. intros _ nv ->. lia.
Qed.

Lemma configure_attack opts cfg :
  configure opts = inr cfg →
  config_attack cfg = "preimage" ∨ config_attack cfg = "second-preimage" ∨
  config_attack cfg = "collision".
Proof.
  unfold configure.
  set (attack := match opt_attack opts with
                 | [] => _ | [x] => _ | _ => _ end).
  destruct attack as [msg|attack]; [done|].
  destruct (String.eqb_spec attack "preimage") as [->|_];
    [intros [= <-]; by left|].
  destruct (String.eqb_spec attack "second-preimage") as [->|_];
    [intros [= <-]; right; by left|].
  destruct (String.eqb_spec attack "collision") as [->|_];
    [intros [= <-]; right; by right|done].
Qed.

Lemma generate_numbered espresso libc cfg argv seed st :
  (config_nr_rounds cfg ≤ 80)%nat →
  config_attack cfg = "preimage" ∨ config_attack cfg = "second-preimage" ∨
  config_attack cfg = "collision" →
  numbered (generate espresso libc cfg argv seed) st
    (λ _ nv, nv = nr_variables st + instance_vars cfg).
Proof.
  intros HR Ha. unfold generate, instance_vars. do 7 skip_step. cbv zeta.
  destruct Ha as [-> |[-> | ->]]; cbn [String.eqb Ascii.eqb Bool.eqb].
  - eapply numbered_conseq; [by apply preimage_numbered|].
    cbn beta. intros _ nv ->. lia.
  - eapply numbered_conseq; [by apply second_preimage_numbered|].
    cbn beta. intros _ nv ->. lia.
  - eapply numbered_conseq; [by apply collision_numbered|].
    cbn beta. intros _ nv ->. lia.
Qed.

Lemma at_block nv n j :
  (j < n)%nat → at_ (block nv n) j = nv + 1 + Z.of_nat j.
Proof. intros Hj. unfold at_, block. by rewrite nth_map_seq. Qed.

Lemma instance_vars_closed cfg :
  (16 ≤ config_nr_rounds cfg)%nat →
  instance_vars cfg =
  (if String.eqb (config_attack cfg) "collision" then 2 else 1) *
  (if config_use_tseitin_adders cfg
   then 688 * Z.of_nat (config_nr_rounds cfg) + 1068
   else if config_use_compact_adders cfg
        then 96 * Z.of_nat (config_nr_rounds cfg) + 448
        else 160 * Z.of_nat (config_nr_rounds cfg) + 608).
Proof.
  intros HR. unfold instance_vars, circuit_vars, adder5_vars, adder2_vars.
  f_equal. rewrite Nat.max_r by done.
  destruct (config_use_tseitin_adders cfg);
    [|destruct (config_use_compact_adders cfg)]; lia.
Qed.
(** * Well-formed output *)

(** ** The variable counter never goes down *)

Lemma grows_ret {A} (x : A) : grows (ret x).
Proof. intros st. simpl. lia. Qed.

Lemma grows_gets {A} (f : state → A) : grows (gets f).
Proof. intros st. simpl. lia. Qed.

Lemma grows_modify f :
  (∀ st, nr_variables st ≤ nr_variables (f st)) → grows (modify f).
Proof. intros H st. apply H. Qed.

Lemma grows_bind {A B} (m : M A) (f : A → M B) :
  grows m → (∀ x, grows (f x)) → grows (bind m f).
Proof.
  intros Hm Hf st. rewrite bind_run.
  etransitivity; [apply Hm|apply Hf].
Qed.

Lemma grows_forM {X} (l : list X) body :
  (∀ x, grows (body x)) → grows (forM l body).
Proof.
  intros Hb. induction l as [|x l IH]; [apply grows_ret|].
  apply grows_bind; [apply Hb|]. intros ?. apply IH.
Qed.

Lemma grows_foldM {X Acc} (l : list X) (body : Acc → X → M Acc) s :
  (∀ s x, grows (body s x)) → grows (foldM body s l).
Proof.
  intros Hb. revert s. induction l as [|x l IH]; intros s; [apply grows_ret|].
  apply grows_bind; [apply Hb|]. intros s'. apply IH.
Qed.

Create HintDb grows discriminated.

Ltac grows_leaf :=
  unfold put_cnf, put_opb, put_cerr, set_cache, set_nr_variables,
    incr_nr_clauses, incr_nr_xor_clauses, incr_nr_constraints;
  cbn [nr_variables]; lia.

Ltac grows_step :=
  lazymatch goal with
  | |- grows (ret _) => apply grows_ret
  | |- grows (gets _) => apply grows_gets
  | |- grows (modify _) => apply grows_modify; intros ?; grows_leaf
  | |- grows (bind _ _) => apply grows_bind; [|intros ?]
  | |- grows (forM _ _) => apply grows_forM; intros ?
  | |- grows (foldM _ _ _) => apply grows_foldM; intros ? ?
  | |- grows (if ?b then _ else _) => destruct b
  | |- grows (match ?o with _ => _ end) => destruct o
  | |- grows (let _ := _ in _) => cbv zeta
  | |- grows ?m =>
      first [ solve [auto 1 with grows nocore]
            | let h := head_of m in unfold h ]
  end.

Ltac grows_tac := repeat grows_step.

Lemma comment_grows s : grows (comment s).
Proof. grows_tac. Qed.
#[local] Hint Resolve comment_grows : grows.

Lemma clause_grows v : grows (clause v).
Proof. grows_tac. Qed.
#[local] Hint Resolve clause_grows : grows.

Lemma xor_clause_grows v : grows (xor_clause v).
Proof. grows_tac. Qed.
#[local] Hint Resolve xor_clause_grows : grows.

Lemma constant_grows r v : grows (constant r v).
Proof. grows_tac. Qed.
#[local] Hint Resolve constant_grows : grows.

Lemma constant32_grows r v : grows (constant32 r v).
Proof. grows_tac. Qed.
#[local] Hint Resolve constant32_grows : grows.

Lemma new_vars_grows cfg l n d : grows (new_vars cfg l n d).
Proof. grows_tac. Qed.
#[local] Hint Resolve new_vars_grows : grows.

Lemma new_constant_grows cfg l v : grows (new_constant cfg l v).
Proof. grows_tac. Qed.
#[local] Hint Resolve new_constant_grows : grows.

Lemma halfadder_grows cfg e l r : grows (halfadder cfg e l r).
Proof. grows_tac. Qed.
#[local] Hint Resolve halfadder_grows : grows.

Lemma xor2_grows cfg r a b n : grows (xor2 cfg r a b n).
Proof. grows_tac. Qed.
#[local] Hint Resolve xor2_grows : grows.

Lemma xor3_grows cfg r a b c n : grows (xor3 cfg r a b c n).
Proof. grows_tac. Qed.
#[local] Hint Resolve xor3_grows : grows.

Lemma xor4_grows cfg r a b c d : grows (xor4 cfg r a b c d).
Proof. grows_tac. Qed.
#[local] Hint Resolve xor4_grows : grows.

Lemma eq_grows cfg a b n : grows (eq cfg a b n).
Proof. grows_tac. Qed.
#[local] Hint Resolve eq_grows : grows.

Lemma neq_grows cfg a b n : grows (neq cfg a b n).
Proof. grows_tac. Qed.
#[local] Hint Resolve neq_grows : grows.

Lemma and2_grows r a b n : grows (and2 r a b n).
Proof. grows_tac. Qed.
#[local] Hint Resolve and2_grows : grows.

Lemma or2_grows r a b n : grows (or2 r a b n).
Proof. grows_tac. Qed.
#[local] Hint Resolve or2_grows : grows.

Lemma adder_column_grows cfg e l r ins ad i :
  grows (adder_column cfg e l r ins ad i).
Proof. grows_tac. Qed.
#[local] Hint Resolve adder_column_grows : grows.

Lemma add2_grows cfg e l r a b : grows (add2 cfg e l r a b).
Proof. grows_tac. Qed.
#[local] Hint Resolve add2_grows : grows.

Lemma add5_grows cfg e l r a b c d f : grows (add5 cfg e l r a b c d f).
Proof. grows_tac. Qed.
#[local] Hint Resolve add5_grows : grows.

Lemma round_f_grows cfg i f b c d : grows (round_f cfg i f b c d).
Proof. grows_tac. Qed.
#[local] Hint Resolve round_f_grows : grows.

Lemma sha1_round_grows cfg e w k a i : grows (sha1_round cfg e w k a i).
Proof. grows_tac. Qed.
#[local] Hint Resolve sha1_round_grows : grows.

Lemma sha1_new_grows cfg e R name : grows (sha1_new cfg e R name).
Proof. grows_tac. Qed.
#[local] Hint Resolve sha1_new_grows : grows.

Lemma fix_hash_bits_grows cfg rnd f h : grows (fix_hash_bits cfg rnd f h).
Proof. grows_tac. Qed.
#[local] Hint Resolve fix_hash_bits_grows : grows.

Lemma preimage_grows cfg e rnd : grows (preimage cfg e rnd).
Proof. grows_tac. Qed.
#[local] Hint Resolve preimage_grows : grows.

Lemma second_preimage_grows cfg e rnd : grows (second_preimage cfg e rnd).
Proof. grows_tac. Qed.
#[local] Hint Resolve second_preimage_grows : grows.

Lemma collision_grows cfg e rnd : grows (collision cfg e rnd).
Proof. grows_tac. Qed.
#[local] Hint Resolve collision_grows : grows.

Lemma generate_grows e libc cfg argv seed :
  grows (generate e libc cfg argv seed).
Proof. grows_tac. Qed.
#[local] Hint Resolve generate_grows : grows.

(** ** Words that fit *)

Lemma var_lit_ok N x : var_ok N x → lit_ok N x.
Proof. unfold var_ok, lit_ok. lia. Qed.

Lemma var_lit_ok_neg N x : var_ok N x → lit_ok N (- x).
Proof. unfold var_ok, lit_ok. lia. Qed.

Lemma fits_le N n n' w : (n ≤ n')%nat → fits N n' w → fits N n w.
Proof. intros Hn H i Hi. apply H. lia. Qed.

Lemma fits_drop N n k w : fits N (k + n) w → fits N n (drop k w).
Proof. intros H i Hi. rewrite at_drop. apply H. lia. Qed.

Lemma fits_rotl N x n : fits N 32 x → fits N 32 (rotl x n).
Proof.
  intros H i Hi. rewrite rotl_at by done. apply H.
  apply Nat.mod_upper_bound. lia.
Qed.

Lemma fits_Forall N w : Forall (var_ok N) w → fits N (length w) w.
Proof.
  intros H i Hi. rewrite Forall_forall in H.
  apply H, list_elem_of_In, nth_In, Hi.
Qed.

Lemma Forall_fits N n w : length w = n → fits N n w → Forall (var_ok N) w.
Proof.
  intros <- H. apply Forall_forall. intros x Hx%list_elem_of_In.
  apply (In_nth _ _ 0) in Hx as (i & Hi & <-). by apply H.
Qed.

(** ** The rules of [tidy] *)

Section Tidy.

Variable N : Z.

Lemma tidy_ret {A} (x : A) (Q : A → Prop) : Q x → tidy N (ret x) Q.
Proof. by intros HQ st _ Hs. Qed.

Lemma tidy_bind {A B} (m : M A) (f : A → M B) Q1 (Q : B → Prop) :
  tidy N m Q1 → (∀ x, grows (f x)) → (∀ x, Q1 x → tidy N (f x) Q) →
  tidy N (bind m f) Q.
Proof.
  intros Hm Hg Hf st. rewrite bind_run. intros Hn Hs.
  destruct (Hm st) as [Hs1 HQ1]; [|done|by apply Hf].
  etransitivity; [apply Hg|apply Hn].
Qed.

Lemma tidy_conseq {A} (m : M A) (Q Q' : A → Prop) :
  tidy N m Q → (∀ x, Q x → Q' x) → tidy N m Q'.
Proof. intros Hm H st Hn Hs. destruct (Hm st Hn Hs). auto. Qed.

Lemma tidy_forM {X} (l : list X) body :
  (∀ x, grows (body x)) →
  (∀ x, x ∈ l → tidy N (body x) (λ _, True)) →
  tidy N (forM l body) (λ _, True).
Proof.
  intros Hg. induction l as [|x l IH]; intros Hb; [by apply tidy_ret|].
  apply (tidy_bind _ _ (λ _, True)).
  - apply Hb. by left.
  - intros _. by apply grows_forM.
  - intros _ _. apply IH. intros y Hy. apply Hb. by right.
Qed.

Lemma tidy_foldM {Acc} (body : Acc → nat → M Acc) (lo hi : nat)
    (P : nat → Acc → Prop) s :
  (∀ s x, grows (body s x)) →
  P lo s →
  (∀ k s, (lo ≤ k < hi)%nat → P k s → tidy N (body s k) (P (S k))) →
  tidy N (foldM body s (range lo hi)) (P (Nat.max lo hi)).
Proof.
  intros Hg H0 Hb. unfold range.
  destruct (Nat.le_gt_cases hi lo) as [Hle|Hlt].
  { replace (hi - lo)%nat with 0%nat by lia.
    replace (Nat.max lo hi) with lo by lia. by apply tidy_ret. }
  replace (Nat.max lo hi) with (lo + (hi - lo))%nat by lia.
  assert (Hd : (lo + (hi - lo) ≤ hi)%nat) by lia.
  revert Hd. generalize (hi - lo)%nat. intros d. clear Hlt.
  revert lo s H0 Hb. induction d as [|d IH]; intros lo s H0 Hb Hd.
  { rewrite Nat.add_0_r. by apply tidy_ret. }
  cbn [seq foldM]. apply (tidy_bind _ _ (P (S lo))).
  - apply Hb; [lia|done].
  - intros s'. by apply grows_foldM.
  - intros s' Hs'. replace (lo + S d)%nat with (S lo + d)%nat by lia.
    apply IH; [done| |lia]. intros k s'' Hk. apply Hb. lia.
Qed.

Lemma tidy_put_cnf ls :
  Forall (cnf_line_ok N) ls → tidy N (modify (put_cnf ls)) (λ _, True).
Proof.
  intros H st _ (Hn & Hc & Ho & Hk). split; [|done].
  split_and!; try done. cbn. by apply Forall_app.
Qed.

Lemma tidy_put_opb ls :
  Forall (opb_line_ok N) ls → tidy N (modify (put_opb ls)) (λ _, True).
Proof.
  intros H st _ (Hn & Hc & Ho & Hk). split; [|done].
  split_and!; try done. cbn. by apply Forall_app.
Qed.

Lemma tidy_counter (f : state → state) :
  (∀ st, nr_variables (f st) = nr_variables st ∧ cnf (f st) = cnf st ∧
         opb (f st) = opb st ∧ cache (f st) = cache st) →
  tidy N (modify f) (λ _, True).
Proof.
  intros H st _ (Hn & Hc & Ho & Hk). split; [|done].
  destruct (H st) as (E1 & E2 & E3 & E4).
  unfold tidy_state, cache_ranged. cbn. by rewrite E1, E2, E3, E4.
Qed.

Lemma tidy_fresh_var : tidy N fresh_var (var_ok N).
Proof.
  intros st Hn (H0 & Hc & Ho & Hk). unfold fresh_var in *.
  rewrite bind_run in *. destruct st. cbn in *.
  split; [|unfold var_ok; lia]. split_and!; try done. cbn. lia.
Qed.

End Tidy.

(** One step through a program, by the shape of its head. *)
Ltac tidy_step :=
  lazymatch goal with
  | |- tidy _ (ret tt) ?Q =>
      first [is_evar Q; unify Q (λ _ : unit, True) | idtac];
      apply tidy_ret; try exact I
  | |- tidy _ (ret _) _ => apply tidy_ret
  | |- tidy _ (bind _ _) _ =>
      eapply tidy_bind; [ | intros ?; grows_tac | intros ? ? ]
  | |- tidy _ (forM (range _ _) _) _ =>
      apply tidy_forM; [intros ?; grows_tac | intros ? ?%elem_of_seq]
  | |- tidy _ (forM _ _) _ =>
      apply tidy_forM; [intros ?; grows_tac | intros ? ?]
  | |- tidy _ (modify (put_cnf _)) _ => apply tidy_put_cnf
  | |- tidy _ (modify (put_opb _)) _ => apply tidy_put_opb
  | |- tidy _ (modify _) _ => apply tidy_counter; intros ?; by split_and!
  | |- tidy _ (if ?b then _ else _) ?Q =>
      first [is_evar Q; unify Q (λ _ : unit, True) | idtac]; destruct b
  | |- tidy _ (let _ := _ in _) _ => cbv zeta
  end.

(** The literals of a clause over words that fit. *)
Ltac fit_lit :=
  lazymatch goal with
  | |- lit_ok _ (if ?b then _ else _) => destruct b; fit_lit
  | |- lit_ok _ (- _) => apply var_lit_ok_neg; fit_lit
  | |- lit_ok _ _ => apply var_lit_ok; fit_lit
  | |- var_ok _ (at_ (drop _ _) _) => rewrite at_drop; fit_lit
  | |- var_ok _ (at_ (rotl _ _) _) => rewrite rotl_at by lia; fit_lit
  | |- var_ok _ (at_ _ _) =>
      match goal with
      | H : fits _ _ ?w |- var_ok _ (at_ ?w _) =>
          apply H; first [lia | apply Nat.mod_upper_bound; lia]
      end
  | |- var_ok _ _ => assumption
  end.

(** A word that fits, from the words at hand. *)
Ltac fit_word :=
  first [ assumption | intros ? ?; fit_lit ].

Ltac fit_clause :=
  repeat (cbn [snd cnf_line_ok opb_line_ok];
          lazymatch goal with
          | |- Forall _ [] => constructor
          | |- Forall _ (_ :: _) => constructor
          | |- True => exact I
          | |- lit_ok _ _ => fit_lit
          | |- var_ok _ _ => fit_lit
          end).

Section Leaves.

Variable N : Z.

Lemma comment_tidy s : tidy N (comment s) (λ _, True).
Proof. unfold comment. repeat tidy_step; fit_clause. Qed.

Lemma clause_tidy v : Forall (lit_ok N) v → tidy N (clause v) (λ _, True).
Proof.
  intros H. unfold clause. repeat tidy_step.
  - by repeat constructor.
  - constructor; [|constructor]. cbn. by apply Forall_map.
Qed.

Lemma xor_clause_tidy v :
  Forall (lit_ok N) v → tidy N (xor_clause v) (λ _, True).
Proof. intros H. unfold xor_clause. repeat tidy_step. by repeat constructor. Qed.

Lemma constant_tidy r value :
  var_ok N r → tidy N (constant r value) (λ _, True).
Proof.
  intros H. unfold constant. repeat tidy_step; fit_clause.
Qed.

Lemma constant32_tidy r value :
  fits N 32 r → tidy N (constant32 r value) (λ _, True).
Proof.
  intros H. unfold constant32.
  eapply tidy_bind; [apply comment_tidy|intros ?; grows_tac|intros _ _].
  repeat tidy_step; fit_clause.
Qed.

Lemma new_vars_tidy cfg label n d :
  tidy N (new_vars cfg label n d)
       (λ x, length x = n ∧ Forall (var_ok N) x).
Proof.
  unfold new_vars.
  eapply tidy_bind; [|intros ?; grows_tac|].
  { apply (tidy_foldM N _ 0%nat n (λ k x, length x = k ∧ Forall (var_ok N) x));
      [intros ? ?; grows_tac|done|].
    intros k x Hk [Hl Hx].
    eapply tidy_bind; [apply tidy_fresh_var|intros ?; grows_tac|].
    intros v Hv. apply tidy_ret. split.
    - rewrite length_app. simpl. lia.
    - apply Forall_app. split; [done|by constructor]. }
  rewrite Nat.max_r by lia. intros x [Hl Hx].
  pose proof (fits_Forall _ _ Hx) as Hf. rewrite Hl in Hf.
  eapply tidy_bind; [apply comment_tidy|intros ?; grows_tac|intros _ _].
  apply (tidy_bind N _ _ (λ _, True));
    [|intros ?; grows_tac|intros _ _; by apply tidy_ret].
  destruct (config_restrict_branching cfg); [|by apply tidy_ret].
  destruct d; repeat tidy_step; fit_clause.
Qed.

Lemma new_vars_fits cfg label n d :
  tidy N (new_vars cfg label n d) (fits N n).
Proof.
  eapply tidy_conseq; [apply new_vars_tidy|].
  intros x [<- Hx]. by apply fits_Forall.
Qed.

Lemma new_constant_tidy cfg label value :
  tidy N (new_constant cfg label value) (fits N 32).
Proof.
  unfold new_constant.
  eapply tidy_bind; [apply new_vars_fits|intros ?; grows_tac|].
  intros r Hr.
  eapply tidy_bind; [by apply constant32_tidy|intros ?; grows_tac|].
  intros _ _. by apply tidy_ret.
Qed.

End Leaves.

(** A program of leaves, loops and branches. *)
Ltac tidy_leaf :=
  lazymatch goal with
  | |- tidy _ (comment _) _ => apply comment_tidy
  | |- tidy _ (clause _) _ => apply clause_tidy; fit_clause
  | |- tidy _ (xor_clause _) _ => apply xor_clause_tidy; fit_clause
  | |- tidy _ (constant _ _) _ => apply constant_tidy; fit_lit
  | |- tidy _ (constant32 _ _) _ => apply constant32_tidy; fit_word
  end.

Ltac tidy_tac := repeat first [tidy_leaf | tidy_step].

(** ** Gates *)

Section Gates.

Variable N : Z.
Variable cfg : config.

Lemma and2_tidy r a b n :
  fits N n r → fits N n a → fits N n b → tidy N (and2 r a b n) (λ _, True).
Proof. intros Hr Ha Hb. unfold and2. tidy_tac. Qed.

Lemma or2_tidy r a b n :
  fits N n r → fits N n a → fits N n b → tidy N (or2 r a b n) (λ _, True).
Proof. intros Hr Ha Hb. unfold or2. tidy_tac. Qed.

Lemma xor2_tidy r a b n :
  fits N n r → fits N n a → fits N n b →
  tidy N (xor2 cfg r a b n) (λ _, True).
Proof. intros Hr Ha Hb. unfold xor2. tidy_tac. Qed.

Lemma xor3_tidy r a b c n :
  fits N n r → fits N n a → fits N n b → fits N n c →
  tidy N (xor3 cfg r a b c n) (λ _, True).
Proof. intros Hr Ha Hb Hc. unfold xor3. tidy_tac. Qed.

Lemma xor4_tidy r a b c d :
  fits N 32 r → fits N 32 a → fits N 32 b → fits N 32 c → fits N 32 d →
  tidy N (xor4 cfg r a b c d) (λ _, True).
Proof. intros Hr Ha Hb Hc Hd. unfold xor4. tidy_tac. Qed.

Lemma eq_tidy a b n :
  fits N n a → fits N n b → tidy N (eq cfg a b n) (λ _, True).
Proof. intros Ha Hb. unfold eq. tidy_tac. Qed.

Lemma neq_tidy a b n :
  fits N n a → fits N n b → tidy N (neq cfg a b n) (λ _, True).
Proof. intros Ha Hb. unfold neq. tidy_tac. Qed.

Lemma round_f_tidy i f b c d :
  fits N 32 f → fits N 32 b → fits N 32 c → fits N 32 d →
  tidy N (round_f cfg i f b c d) (λ _, True).
Proof.
  intros Hf Hb Hc Hd. unfold round_f.
  repeat lazymatch goal with
         | |- tidy _ (if ?t then _ else _) _ => destruct t
         end;
    lazymatch goal with
    | |- tidy _ (xor3 _ _ _ _ _ _) _ => by apply xor3_tidy
    | |- _ => tidy_tac
    end.
Qed.

End Gates.

(** ** The half-adder constraint and the adders *)

Lemma Forall_lookup_total_nil {A} (P : list A → Prop) (l : list (list A)) i :
  Forall P l → P [] → P (l !!! i).
Proof.
  intros H Hnil. rewrite list_lookup_total_alt.
  destruct (l !! i) as [x|] eqn:E; simpl; [|done].
  by eapply Forall_lookup_1.
Qed.

Lemma push_back_ok (P : Z → Prop) k x ad :
  P x → Forall (Forall P) ad → Forall (Forall P) (push_back k x ad).
Proof.
  intros Hx H. unfold push_back. apply Forall_alter; [done|].
  intros l _ Hl. apply Forall_app. split; [done|by constructor].
Qed.

Lemma push_all_ok (P : Z → Prop) (g : nat → nat) (h : nat → Z) js ad :
  (∀ j, j ∈ js → P (h j)) → Forall (Forall P) ad →
  Forall (Forall P) (foldl (λ ad j, push_back (g j) (h j) ad) ad js).
Proof.
  revert ad. induction js as [|j js IH]; intros ad Hh H; [done|].
  cbn [foldl]. apply IH.
  - intros j' Hj'. apply Hh. by right.
  - apply push_back_ok; [apply Hh; by left|done].
Qed.

Section Adders.

Variable N : Z.
Variable cfg : config.
Variable espresso : list string → list string.

Lemma halfadder_lit_ok lhs rhs l :
  Forall (var_ok N) lhs → Forall (var_ok N) rhs →
  1 ≤ Z.abs l ≤ Z.of_nat (length lhs + length rhs) →
  lit_ok N (halfadder_lit lhs rhs l).
Proof.
  intros Hl Hr Hrange. unfold halfadder_lit.
  set (j := Z.to_nat (Z.abs l - 1)).
  assert (Hv : var_ok N (if (j <? length lhs)%nat then at_ lhs j
                         else at_ rhs (length rhs - 1 - (j - length lhs)))).
  { destruct (Nat.ltb_spec j (length lhs)).
    - by apply (fits_Forall N lhs).
    - apply (fits_Forall N rhs); [done|]. lia. }
  destruct (l <? 0); [by apply var_lit_ok_neg|by apply var_lit_ok].
Qed.

Lemma minimized_clauses_tidy n m :
  tidy N (minimized_clauses espresso n m)
       (λ cl, ∀ c l, c ∈ cl → l ∈ c → 1 ≤ Z.abs l ≤ Z.of_nat (n + m)).
Proof.
  intros st _ (Hn & Hc & Ho & Hk). rewrite minimized_clauses_eq.
  destruct (cache st !! (n, m)) as [cl|] eqn:E; cbn [fst snd].
  - split; [done|]. intros c l. by apply (Hk n m cl).
  - split; [|intros c l; apply read_espresso_range].
    split_and!; try done. intros n' m' cl c l. cbn.
    destruct (decide ((n', m') = (n, m))) as [[= -> ->]|Hne].
    + rewrite lookup_insert_eq. intros [= <-]. apply read_espresso_range.
    + rewrite lookup_insert_ne by done. apply Hk.
Qed.

Lemma halfadder_tidy lhs rhs :
  Forall (var_ok N) lhs → Forall (var_ok N) rhs →
  tidy N (halfadder cfg espresso lhs rhs) (λ _, True).
Proof.
  intros Hl Hr. unfold halfadder.
  apply (tidy_bind N _ _ (λ _, True)); [|intros ?; grows_tac|intros _ _].
  - destruct (config_use_halfadder_clauses cfg).
    + apply tidy_put_cnf. by repeat constructor.
    + cbv zeta.
      eapply tidy_bind;
        [apply minimized_clauses_tidy|intros ?; grows_tac|intros cl Hcl].
      apply tidy_forM; [intros ?; grows_tac|intros c Hc].
      apply (tidy_bind N _ _ (λ _, True)); [|intros ?; grows_tac|intros _ _].
      * apply tidy_put_cnf. constructor; [|constructor]. cbn.
        apply Forall_map, Forall_forall. intros l Hlc.
        apply halfadder_lit_ok; try done. by apply (Hcl c l).
      * tidy_step.
  - apply (tidy_bind N _ _ (λ _, True)); [|intros ?; grows_tac|intros _ _].
    + apply tidy_put_opb. constructor; [|constructor]. cbn.
      apply Forall_app. split; [by apply Forall_map|].
      apply Forall_forall. intros t Ht.
      apply elem_of_lookup_imap in Ht as (i & x & -> & Hx).
      cbn. rewrite Forall_forall in Hr. eapply Hr, list_elem_of_lookup_2, Hx.
    + tidy_step.
Qed.

Lemma adder_column_tidy label r ins ad i :
  Forall (Forall (var_ok N)) ad → Forall (var_ok N) (ins i) →
  var_ok N (at_ r i) →
  tidy N (adder_column cfg espresso label r ins ad i)
       (λ ad', Forall (Forall (var_ok N)) ad').
Proof.
  intros Had Hins Hr. unfold adder_column. cbv zeta.
  set (ad1 := foldl (λ ad x, push_back i x ad) ad (ins i)).
  assert (Had1 : Forall (Forall (var_ok N)) ad1).
  { unfold ad1. clear ad1. revert ad Had.
    induction Hins as [|x xs Hx _ IH]; intros ad Had; [done|].
    cbn [foldl]. apply IH. by apply push_back_ok. }
  clearbody ad1.
  eapply tidy_bind; [apply new_vars_tidy|intros ?; grows_tac|].
  intros cs [Hcl Hcs].
  assert (Hrhs : Forall (var_ok N) (at_ r i :: cs)) by (by constructor).
  set (ad2 := foldl _ ad1 _).
  assert (Had2 : Forall (Forall (var_ok N)) ad2).
  { apply (push_all_ok _ (λ j, (i + j)%nat) (λ j, at_ (at_ r i :: cs) j));
      [|done].
    intros j Hj%elem_of_seq. apply (fits_Forall N _ Hrhs). simpl. lia. }
  clearbody ad2.
  eapply tidy_bind; [|intros ?; grows_tac|intros _ _; by apply tidy_ret].
  apply halfadder_tidy; [|done].
  by apply Forall_lookup_total_nil.
Qed.

Lemma pow_terms_ok a :
  fits N 32 a → Forall (λ t : Z * Z, var_ok N t.2) (pow_terms a).
Proof.
  intros H. unfold pow_terms. apply Forall_map, Forall_forall.
  intros i Hi%elem_of_seq. apply H. lia.
Qed.

Lemma neg_pow_terms_ok a :
  fits N 32 a → Forall (λ t : Z * Z, var_ok N t.2) (neg_pow_terms a).
Proof.
  intros H. unfold neg_pow_terms. apply Forall_map, Forall_forall.
  intros i Hi%elem_of_seq. apply H. lia.
Qed.

Lemma adder_columns_tidy label r (ins : nat → list Z) :
  fits N 32 r → (∀ i, (i < 32)%nat → Forall (var_ok N) (ins i)) →
  tidy N (foldM (adder_column cfg espresso label r ins)
                (replicate (32 + 5) []) (range 0 32);;; ret tt)
       (λ _, True).
Proof.
  intros Hr Hins.
  eapply tidy_bind; [|intros ?; grows_tac|intros _ _; by apply tidy_ret].
  apply (tidy_foldM N _ 0 32 (λ _ ad, Forall (Forall (var_ok N)) ad)).
  - intros ? ?. grows_tac.
  - apply Forall_forall. intros l ->%elem_of_replicate_inv. constructor.
  - intros k ad Hk Had. apply adder_column_tidy; [done|apply Hins; lia|].
    apply Hr. lia.
Qed.

Lemma add2_tidy label r a b :
  fits N 32 r → fits N 32 a → fits N 32 b →
  tidy N (add2 cfg espresso label r a b) (λ _, True).
Proof.
  intros Hr Ha Hb. unfold add2.
  eapply tidy_bind; [apply comment_tidy|intros ?; grows_tac|intros _ _].
  destruct (config_use_tseitin_adders cfg);
    [|destruct (config_use_compact_adders cfg)].
  - eapply tidy_bind; [apply new_vars_fits|intros ?; grows_tac|intros c Hc].
    eapply tidy_bind; [apply new_vars_fits|intros ?; grows_tac|intros t0 Ht0].
    eapply tidy_bind; [apply new_vars_fits|intros ?; grows_tac|intros t1 Ht1].
    eapply tidy_bind; [apply new_vars_fits|intros ?; grows_tac|intros t2 Ht2].
    eapply tidy_bind;
      [apply and2_tidy; fit_word|intros ?; grows_tac|intros _ _].
    eapply tidy_bind;
      [apply xor2_tidy; fit_word|intros ?; grows_tac|intros _ _].
    eapply tidy_bind;
      [apply xor2_tidy; fit_word|intros ?; grows_tac|intros _ _].
    eapply tidy_bind;
      [apply and2_tidy; fit_word|intros ?; grows_tac|intros _ _].
    eapply tidy_bind;
      [apply and2_tidy; fit_word|intros ?; grows_tac|intros _ _].
    eapply tidy_bind;
      [apply or2_tidy; fit_word|intros ?; grows_tac|intros _ _].
    apply xor2_tidy; fit_word.
  - eapply tidy_bind; [|intros ?; grows_tac|intros _ _; tidy_step].
    apply tidy_put_opb. constructor; [|constructor]. cbn [opb_line_ok].
    rewrite !Forall_app. split_and!;
      [by apply pow_terms_ok..|by apply neg_pow_terms_ok].
  - apply adder_columns_tidy; [done|]. intros i Hi. fit_clause.
Qed.

Lemma add5_tidy label r a b c d e :
  fits N 32 r → fits N 32 a → fits N 32 b → fits N 32 c → fits N 32 d →
  fits N 32 e →
  tidy N (add5 cfg espresso label r a b c d e) (λ _, True).
Proof.
  intros Hr Ha Hb Hc Hd He. unfold add5.
  eapply tidy_bind; [apply comment_tidy|intros ?; grows_tac|intros _ _].
  destruct (config_use_tseitin_adders cfg);
    [|destruct (config_use_compact_adders cfg)].
  - eapply tidy_bind; [apply new_vars_fits|intros ?; grows_tac|intros t0 Ht0].
    eapply tidy_bind; [apply new_vars_fits|intros ?; grows_tac|intros t1 Ht1].
    eapply tidy_bind; [apply new_vars_fits|intros ?; grows_tac|intros t2 Ht2].
    eapply tidy_bind; [by apply add2_tidy|intros ?; grows_tac|intros _ _].
    eapply tidy_bind; [by apply add2_tidy|intros ?; grows_tac|intros _ _].
    eapply tidy_bind; [by apply add2_tidy|intros ?; grows_tac|intros _ _].
    by apply add2_tidy.
  - eapply tidy_bind; [|intros ?; grows_tac|intros _ _; tidy_step].
    apply tidy_put_opb. constructor; [|constructor]. cbn [opb_line_ok].
    rewrite !Forall_app. split_and!;
      [by apply pow_terms_ok..|by apply neg_pow_terms_ok].
  - apply adder_columns_tidy; [done|]. intros i Hi. fit_clause.
Qed.

End Adders.

(** ** The circuit *)

Section Circuit.

Variable N : Z.
Variable cfg : config.
Variable espresso : list string → list string.

Lemma sha1_round_tidy w k a i :
  fits N 32 (w !!! i) → fits N 32 (k !!! (i / 20)%nat) →
  (∀ j, (j ≤ 5)%nat → fits N 32 (a !!! (i + j)%nat)) →
  tidy N (sha1_round cfg espresso w k a i) (λ _, True).
Proof.
  intros Hw Hk Ha. unfold sha1_round. cbv zeta.
  pose proof (Ha 0%nat ltac:(lia)) as Ha0.
  pose proof (Ha 1%nat ltac:(lia)) as Ha1.
  pose proof (Ha 2%nat ltac:(lia)) as Ha2.
  pose proof (Ha 3%nat ltac:(lia)) as Ha3.
  pose proof (Ha 4%nat ltac:(lia)) as Ha4.
  pose proof (Ha 5%nat ltac:(lia)) as Ha5.
  eapply tidy_bind; [apply new_vars_fits|intros ?; grows_tac|intros f Hf].
  eapply tidy_bind;
    [apply round_f_tidy; fit_word|intros ?; grows_tac|intros _ _].
  apply add5_tidy; fit_word.
Qed.

(** A loop that allocates one word per index. *)
Lemma alloc_loop_tidy (lbl : nat → string) (d : bool) (idx : nat → nat)
    (arr : list (list Z)) lo hi :
  (∀ i, (lo ≤ i < hi)%nat → (idx i < length arr)%nat) →
  (∀ i j, (lo ≤ i < hi)%nat → (lo ≤ j < hi)%nat → idx i = idx j → i = j) →
  tidy N (foldM (λ w i, x <- new_vars cfg (lbl i) 32 d;; ret (<[idx i := x]> w))
                arr (range lo hi))
    (λ arr',
       length arr' = length arr ∧
       (∀ i, (lo ≤ i < hi)%nat → fits N 32 (arr' !!! idx i)) ∧
       (∀ j, (∀ i, (lo ≤ i < hi)%nat → j ≠ idx i) → arr' !!! j = arr !!! j)).
Proof.
  intros Hidx Hinj. eapply tidy_conseq.
  { apply (tidy_foldM N _ lo hi
      (λ k arr',
         length arr' = length arr ∧
         (∀ i, (lo ≤ i < k)%nat → (i < hi)%nat → fits N 32 (arr' !!! idx i)) ∧
         (∀ j, (∀ i, (lo ≤ i < k)%nat → (i < hi)%nat → j ≠ idx i) →
               arr' !!! j = arr !!! j))).
    - intros ? ?. grows_tac.
    - split; [done|]. split; [intros; lia|done].
    - intros k arr' Hk (Hl & Hw & Hu).
      eapply tidy_bind; [apply new_vars_fits|intros ?; grows_tac|intros x Hx].
      apply tidy_ret. split; [by rewrite length_insert|]. split.
      + intros i Hik Hih. destruct (decide (i = k)) as [->|Hne].
        * rewrite list_lookup_total_insert_eq by (rewrite Hl; apply Hidx; lia).
          done.
        * rewrite list_lookup_total_insert_ne; [apply Hw; lia|].
          intros E. apply Hinj in E; lia.
      + intros j Hj. rewrite list_lookup_total_insert_ne; [apply Hu|].
        * intros i Hik Hih. apply Hj; lia.
        * intros E. apply (Hj k); [lia|lia|done]. }
  cbn beta. intros arr' (Hl & Hw & Hu). split; [done|]. split.
  - intros i Hi. apply Hw; lia.
  - intros j Hj. apply Hu. intros i Hi Hih. apply Hj. lia.
Qed.

(** The message schedule. *)
Lemma schedule_loop_tidy (w wt : list (list Z)) R :
  (R ≤ 80)%nat → length w = 80%nat →
  (∀ i, (i < 16)%nat → fits N 32 (w !!! i)) →
  (∀ i, (16 ≤ i < R)%nat → fits N 32 (wt !!! i)) →
  tidy N (foldM (λ w i,
            xor4 cfg (wt !!! i) (w !!! (i - 3)%nat) (w !!! (i - 8)%nat)
                 (w !!! (i - 14)%nat) (w !!! (i - 16)%nat);;;
            ret (<[i := rotl (wt !!! i) 1]> w)) w (range 16 R))
    (λ w', ∀ i, (i < Nat.max 16 R)%nat → fits N 32 (w' !!! i)).
Proof.
  intros HR Hl Hw Hwt. eapply tidy_conseq.
  { apply (tidy_foldM N _ 16 R
      (λ k w', length w' = 80%nat ∧
               ∀ i, (i < k)%nat → fits N 32 (w' !!! i))).
    - intros ? ?. grows_tac.
    - done.
    - intros k w' Hk [Hl' Hw'].
      eapply tidy_bind; [|intros ?; grows_tac|intros _ _].
      { apply xor4_tidy; [apply Hwt; lia|apply Hw'; lia..]. }
      apply tidy_ret. split; [by rewrite length_insert|].
      intros j Hj. destruct (decide (j = k)) as [->|].
      + rewrite list_lookup_total_insert_eq by lia.
        apply fits_rotl, Hwt. lia.
      + rewrite list_lookup_total_insert_ne by lia. apply Hw'. lia. }
  cbn beta. by intros w' [_ Hw'].
Qed.

Lemma rounds_tidy w k a R :
  (∀ i, (i < R)%nat → fits N 32 (w !!! i)) →
  (∀ j, (j < 4)%nat → fits N 32 (k !!! j)) →
  (∀ j, (j < R + 5)%nat → fits N 32 (a !!! j)) →
  (R ≤ 80)%nat →
  tidy N (forM (range 0 R) (sha1_round cfg espresso w k a)) (λ _, True).
Proof.
  intros Hw Hk Ha HR.
  apply tidy_forM; [intros ?; grows_tac|]. intros i Hi%elem_of_seq.
  apply sha1_round_tidy; [apply Hw; lia| |intros; apply Ha; lia].
  apply Hk. apply Nat.Div0.div_lt_upper_bound. lia.
Qed.

Lemma sha1_new_tidy R name :
  (R ≤ 80)%nat →
  tidy N (sha1_new cfg espresso R name)
    (λ c, (∀ i, (i < 16)%nat → fits N 32 (sha1_w c !!! i)) ∧
          (∀ i, (i < 5)%nat → fits N 32 (sha1_h_out c !!! i))).
Proof.
  intros HR. unfold sha1_new.
  eapply tidy_bind; [apply comment_tidy|intros ?; grows_tac|intros _ _].
  eapply tidy_bind; [apply comment_tidy|intros ?; grows_tac|intros _ _].
  (* w[0..16) *)
  eapply tidy_bind; [|intros ?; grows_tac|].
  { apply (alloc_loop_tidy
             (λ i, "w" +:+ name +:+ "[" +:+ pretty i +:+ "]")
             (negb (config_restrict_branching cfg)) (λ i, i));
      [intros; rewrite length_replicate; lia|done]. }
  intros w0 (Hw0l & Hw0 & _). rewrite length_replicate in Hw0l.
  (* wt[16..R) *)
  eapply tidy_bind; [|intros ?; grows_tac|].
  { apply (alloc_loop_tidy
             (λ i, "w" +:+ name +:+ "[" +:+ pretty i +:+ "]") true (λ i, i));
      [intros; rewrite length_replicate; lia|done]. }
  intros wt (_ & Hwt & _).
  (* h_in, h_out *)
  eapply tidy_bind; [apply new_vars_fits|intros ?; grows_tac|intros i0 Hi0].
  eapply tidy_bind; [apply new_vars_fits|intros ?; grows_tac|intros i1 Hi1].
  eapply tidy_bind; [apply new_vars_fits|intros ?; grows_tac|intros i2 Hi2].
  eapply tidy_bind; [apply new_vars_fits|intros ?; grows_tac|intros i3 Hi3].
  eapply tidy_bind; [apply new_vars_fits|intros ?; grows_tac|intros i4 Hi4].
  eapply tidy_bind; [apply new_vars_fits|intros ?; grows_tac|intros o0 Ho0].
  eapply tidy_bind; [apply new_vars_fits|intros ?; grows_tac|intros o1 Ho1].
  eapply tidy_bind; [apply new_vars_fits|intros ?; grows_tac|intros o2 Ho2].
  eapply tidy_bind; [apply new_vars_fits|intros ?; grows_tac|intros o3 Ho3].
  eapply tidy_bind; [apply new_vars_fits|intros ?; grows_tac|intros o4 Ho4].
  (* a[5..R+5) *)
  eapply tidy_bind; [|intros ?; grows_tac|].
  { apply (alloc_loop_tidy
             (λ i, "a[" +:+ pretty (i + 5)%nat +:+ "]") true
             (λ i, (i + 5)%nat));
      [intros; rewrite length_replicate; lia|intros; lia]. }
  intros a0 (Ha0l & Ha0 & _). rewrite length_replicate in Ha0l.
  (* the schedule *)
  eapply tidy_bind; [|intros ?; grows_tac|].
  { apply schedule_loop_tidy; try done. intros i Hi16. apply Hw0. lia. }
  intros w Hw.
  (* constants *)
  eapply tidy_bind; [apply new_constant_tidy|intros ?; grows_tac|intros k0 Hk0].
  eapply tidy_bind; [apply new_constant_tidy|intros ?; grows_tac|intros k1 Hk1].
  eapply tidy_bind; [apply new_constant_tidy|intros ?; grows_tac|intros k2 Hk2].
  eapply tidy_bind; [apply new_constant_tidy|intros ?; grows_tac|intros k3 Hk3].
  cbv zeta.
  eapply tidy_bind; [by apply constant32_tidy|intros ?; grows_tac|intros _ _].
  eapply tidy_bind; [by apply constant32_tidy|intros ?; grows_tac|intros _ _].
  eapply tidy_bind; [by apply constant32_tidy|intros ?; grows_tac|intros _ _].
  eapply tidy_bind; [by apply constant32_tidy|intros ?; grows_tac|intros _ _].
  eapply tidy_bind; [by apply constant32_tidy|intros ?; grows_tac|intros _ _].
  (* the working words *)
  set (a := <[0%nat := rotl i4 (32 - 30)]>
            (<[1%nat := rotl i3 (32 - 30)]>
             (<[2%nat := rotl i2 (32 - 30)]>
              (<[3%nat := rotl i1 (32 - 0)]>
               (<[4%nat := rotl i0 (32 - 0)]> a0))))).
  assert (Haw : ∀ j, (j < R + 5)%nat → fits N 32 (a !!! j)).
  { intros j Hj. unfold a.
    destruct j as [|[|[|[|[|j]]]]].
    - rewrite list_lookup_total_insert_eq by (rewrite ?length_insert; lia).
      by apply fits_rotl.
    - rewrite list_lookup_total_insert_ne by lia.
      rewrite list_lookup_total_insert_eq by (rewrite ?length_insert; lia).
      by apply fits_rotl.
    - rewrite !list_lookup_total_insert_ne by lia.
      rewrite list_lookup_total_insert_eq by (rewrite ?length_insert; lia).
      by apply fits_rotl.
    - rewrite !list_lookup_total_insert_ne by lia.
      rewrite list_lookup_total_insert_eq by (rewrite ?length_insert; lia).
      by apply fits_rotl.
    - rewrite !list_lookup_total_insert_ne by lia.
      rewrite list_lookup_total_insert_eq by (rewrite ?length_insert; lia).
      by apply fits_rotl.
    - rewrite !list_lookup_total_insert_ne by lia.
      replace (S (S (S (S (S j))))) with (j + 5)%nat by lia.
      apply Ha0. lia. }
  clearbody a.
  (* the rounds *)
  eapply tidy_bind; [|intros ?; grows_tac|intros _ _].
  { apply rounds_tidy; [intros; apply Hw; lia| |done|done].
    intros j Hj. destruct j as [|[|[|[|?]]]]; try lia; done. }
  (* the final additions *)
  pose proof (Haw (R + 4)%nat ltac:(lia)) as Ha4.
  pose proof (Haw (R + 3)%nat ltac:(lia)) as Ha3.
  pose proof (Haw (R + 2)%nat ltac:(lia)) as Ha2.
  pose proof (Haw (R + 1)%nat ltac:(lia)) as Ha1.
  pose proof (Haw (R + 0)%nat ltac:(lia)) as Ha0'.
  eapply tidy_bind;
    [apply add2_tidy; fit_word|intros ?; grows_tac|intros _ _].
  eapply tidy_bind;
    [apply add2_tidy; fit_word|intros ?; grows_tac|intros _ _].
  eapply tidy_bind;
    [apply add2_tidy; fit_word|intros ?; grows_tac|intros _ _].
  eapply tidy_bind;
    [apply add2_tidy; fit_word|intros ?; grows_tac|intros _ _].
  eapply tidy_bind;
    [apply add2_tidy; fit_word|intros ?; grows_tac|intros _ _].
  apply tidy_ret. cbn [sha1_w sha1_h_out]. split.
  - intros i Hi. apply Hw. lia.
  - intros j Hj. destruct j as [|[|[|[|[|?]]]]]; try lia; done.
Qed.

End Circuit.

(** ** The attacks and the run *)

Section Attacks.

Variable N : Z.
Variable cfg : config.
Variable espresso : list string → list string.
Variable rnd : randomness.

Hypothesis shuffles : shuffle_ok rnd.
Hypothesis rounds : (config_nr_rounds cfg ≤ 80)%nat.

Lemma pin_bit_fits (ws : list (list Z)) (bound k i : nat) n :
  (∀ j, (j < bound)%nat → fits N 32 (ws !!! j)) → (k = 32 * bound)%nat →
  (0 < bound)%nat →
  var_ok N (at_ (ws !!! (nth i (random_shuffle rnd n (seq 0 k)) 0 / 32)%nat)
                (nth i (random_shuffle rnd n (seq 0 k)) 0 mod 32)%nat).
Proof.
  intros Hw -> Hb.
  pose proof (shuffle_bound rnd n (32 * bound) i shuffles ltac:(lia)) as Hlt.
  apply Hw.
  - apply Nat.Div0.div_lt_upper_bound. lia.
  - apply Nat.mod_upper_bound. lia.
Qed.

Lemma pin_word_fits (ws : list (list Z)) (bound k i : nat) n :
  (∀ j, (j < bound)%nat → fits N 32 (ws !!! j)) → (k = 32 * bound)%nat →
  (0 < bound)%nat →
  fits N 1
    (drop (nth i (random_shuffle rnd n (seq 0 k)) 0 mod 32)%nat
          (ws !!! (nth i (random_shuffle rnd n (seq 0 k)) 0 / 32)%nat)).
Proof.
  intros Hw Hk Hb j Hj. rewrite at_drop.
  replace j with 0%nat by lia. rewrite Nat.add_0_r.
  apply (pin_bit_fits ws bound); [done|done|lia].
Qed.

Lemma fix_hash_bits_tidy f h :
  (∀ i, (i < 5)%nat → fits N 32 (sha1_h_out f !!! i)) →
  tidy N (fix_hash_bits cfg rnd f h) (λ _, True).
Proof.
  intros Hf. unfold fix_hash_bits.
  eapply tidy_bind; [apply comment_tidy|intros ?; grows_tac|intros _ _].
  cbv zeta. apply tidy_forM; [intros ?; grows_tac|]. intros i _.
  apply constant_tidy. apply (pin_bit_fits _ 5); [done|done|lia].
Qed.

Lemma preimage_tidy : tidy N (preimage cfg espresso rnd) (λ _, True).
Proof.
  unfold preimage.
  eapply tidy_bind;
    [by apply sha1_new_tidy|intros ?; grows_tac|intros f [Hw Hh]].
  cbv zeta.
  eapply tidy_bind; [apply comment_tidy|intros ?; grows_tac|intros _ _].
  eapply tidy_bind; [|intros ?; grows_tac|intros _ _].
  { apply tidy_forM; [intros ?; grows_tac|]. intros i _.
    apply constant_tidy. apply (pin_bit_fits _ 16); [done|done|lia]. }
  by apply fix_hash_bits_tidy.
Qed.

Lemma second_preimage_tidy :
  tidy N (second_preimage cfg espresso rnd) (λ _, True).
Proof.
  unfold second_preimage.
  eapply tidy_bind;
    [by apply sha1_new_tidy|intros ?; grows_tac|intros f [Hw Hh]].
  cbv zeta.
  eapply tidy_bind; [apply comment_tidy|intros ?; grows_tac|intros _ _].
  apply (tidy_bind N _ _ (λ _, True)); [|intros ?; grows_tac|intros _ _].
  { destruct (0 <? config_nr_message_bits cfg)%nat; [|by apply tidy_ret].
    apply constant_tidy. apply (pin_bit_fits _ 16); [done|done|lia]. }
  eapply tidy_bind; [|intros ?; grows_tac|intros _ _].
  { apply tidy_forM; [intros ?; grows_tac|]. intros i _.
    apply constant_tidy. apply (pin_bit_fits _ 16); [done|done|lia]. }
  by apply fix_hash_bits_tidy.
Qed.

Lemma collision_tidy : tidy N (collision cfg espresso rnd) (λ _, True).
Proof.
  unfold collision.
  eapply tidy_bind;
    [by apply sha1_new_tidy|intros ?; grows_tac|intros f [Hfw Hfh]].
  eapply tidy_bind;
    [by apply sha1_new_tidy|intros ?; grows_tac|intros g [Hgw Hgh]].
  apply (tidy_bind N _ _ (λ _, True)); [|intros ?; grows_tac|intros _ _].
  { destruct (0 <? config_nr_message_bits cfg)%nat; [|by apply tidy_ret].
    apply tidy_counter. by intros st. }
  eapply tidy_bind; [apply comment_tidy|intros ?; grows_tac|intros _ _].
  cbv zeta.
  eapply tidy_bind; [|intros ?; grows_tac|intros _ _].
  { apply neq_tidy; (apply (pin_word_fits _ 16); [done|done|lia]). }
  eapply tidy_bind; [apply comment_tidy|intros ?; grows_tac|intros _ _].
  apply tidy_forM; [intros ?; grows_tac|]. intros i _.
  apply eq_tidy; (apply (pin_word_fits _ 5); [done|done|lia]).
Qed.

End Attacks.

Lemma generate_tidy N espresso libc cfg argv seed :
  shuffle_ok (libc seed) → (config_nr_rounds cfg ≤ 80)%nat →
  tidy N (generate espresso libc cfg argv seed) (λ _, True).
Proof.
  intros Hs HR. unfold generate.
  do 7 (eapply tidy_bind;
          [apply comment_tidy|intros ?; grows_tac|intros _ _]).
  cbv zeta.
  destruct (String.eqb (config_attack cfg) "preimage");
    [by apply preimage_tidy|].
  destruct (String.eqb (config_attack cfg) "second-preimage");
    [by apply second_preimage_tidy|].
  destruct (String.eqb (config_attack cfg) "collision");
    [by apply collision_tidy|by apply tidy_ret].
Qed.

Lemma tidy_initial N : tidy_state N initial_state.
Proof.
  split_and!; [done|constructor|constructor|].
  intros n m cl c l H. unfold initial_state in H. cbn [cache] in H.
  by rewrite lookup_empty in H.
Qed.

(** * The half-adder column loop inside the adders *)

Lemma add2_columns cfg espresso label r a b st :
  config_use_tseitin_adders cfg = false →
  config_use_compact_adders cfg = false →
  add2 cfg espresso label r a b st =
  (comment "add2";;; columns cfg espresso label r [a; b];;; ret tt) st.
Proof. intros Ht Hc. unfold add2, columns. by rewrite Ht, Hc. Qed.

Lemma add5_columns cfg espresso label r a b c d e st :
  config_use_tseitin_adders cfg = false →
  config_use_compact_adders cfg = false →
  add5 cfg espresso label r a b c d e st =
  (comment "add5";;; columns cfg espresso label r [a; b; c; d; e];;; ret tt) st.
Proof. intros Ht Hc. unfold add5, columns. by rewrite Ht, Hc. Qed.

Lemma overflow_mod ρ r ad s :
  length r = 32%nat → s = word_val ρ r + pending ρ ad 32 →
  word_val ρ r = wrap32 s.
Proof.
  intros Hrl ->. destruct (wsum_multiple ρ 32 0 ad) as [q Hq]. unfold pending.
  pose proof (word_val_bounds ρ r) as Hb. rewrite Hrl in Hb.
  unfold wrap32. rewrite Hq. change (2 ^ Z.of_nat 32) with (2 ^ 32) in *.
  replace (word_val ρ r + 2 ^ 32 * q) with (word_val ρ r + q * 2 ^ 32) by lia.
  rewrite Z_mod_plus_full. by rewrite Z.mod_small.
Qed.

Lemma columns_exact cfg espresso label r words st :
  config_use_tseitin_adders cfg = false →
  inv espresso st → word32 r → Forall word32 words →
  length words = 2%nat ∨ length words = 5%nat →
  spec cfg espresso (columns cfg espresso label r words) st (λ ad st' dc do,
    (∀ j x, (32 ≤ j)%nat → x ∈ ad !!! j →
            nr_variables st < x ≤ nr_variables st') ∧
    ∀ ρ, holds cfg espresso ρ dc do →
         foldr Z.add 0 (map (word_val ρ) words) =
         word_val ρ r + pending ρ ad 32).
Proof.
  intros Ht Hi Hr Hw [Hl|Hl].
  - destruct words as [|a [|b [|? ?]]]; try discriminate Hl.
    apply Forall_cons in Hw as [Ha Hw]. apply Forall_cons in Hw as [Hb _].
    eapply spec_conseq.
    { apply (adder_columns_exact cfg espresso 2 1 shapes_2 ltac:(lia) label r
               (λ i, [at_ a i; at_ b i])); try done.
      intros i Hi32. split; [done|].
      repeat (apply Forall_cons; split); [by apply Ha|by apply Hb|done]. }
    cbn beta. intros ad st' dc do _ [Hf H]. split; [done|].
    intros ρ Hh. rewrite <- (H ρ Hh).
    destruct Ha as [Hal _], Hb as [Hbl _].
    rewrite ins_sum_2 by lia. rewrite !firstn_all2 by lia. simpl. lia.
  - destruct words as [|a [|b [|c [|d [|e [|? ?]]]]]]; try discriminate Hl.
    apply Forall_cons in Hw as [Ha Hw]. apply Forall_cons in Hw as [Hb Hw].
    apply Forall_cons in Hw as [Hc Hw]. apply Forall_cons in Hw as [Hd Hw].
    apply Forall_cons in Hw as [He _].
    eapply spec_conseq.
    { apply (adder_columns_exact cfg espresso 5 2 shapes_5 ltac:(lia) label r
               (λ i, [at_ a i; at_ b i; at_ c i; at_ d i; at_ e i])); try done.
      intros i Hi32. split; [done|].
      repeat (apply Forall_cons; split);
        [by apply Ha|by apply Hb|by apply Hc|by apply Hd|by apply He|done]. }
    cbn beta. intros ad st' dc do _ [Hf H]. split; [done|].
    intros ρ Hh. rewrite <- (H ρ Hh).
    destruct Ha as [Hal _], Hb as [Hbl _], Hc as [Hcl _], Hd as [Hdl _],
      He as [Hel _].
    rewrite ins_sum_5 by lia. rewrite !firstn_all2 by lia. simpl. lia.
Qed.

Lemma word_from_word32 n : 0 < n → word32 (word_from n).
Proof.
  intros Hn. split; [done|]. intros i Hi. unfold at_, word_from.
  rewrite nth_lookup, list_lookup_fmap, lookup_seq_lt by done. simpl. lia.
Qed.

Lemma inv_state_96 espresso : inv espresso state_96.
Proof.
  split; [done|]. intros n m cl. unfold state_96, initial_state. cbn [cache set_nr_variables].
  by rewrite lookup_empty.
Qed.

(** * What [main] prints *)

Lemma printed_opb_main espresso libc argv opts now cfg :
  opt_help opts = false → configure opts = inr cfg →
  check_config cfg = None → config_opb cfg = true →
  printed_opb (main espresso libc argv opts now) =
  opb (generate espresso libc cfg argv (default now (opt_seed opts))
         initial_state).2.
Proof.
  intros Hh Hc Hk Ho. unfold main. rewrite Hh, Hc, Hk.
  unfold printed_opb, flush. cbn [stdout]. rewrite Ho.
  destruct (config_cnf cfg); cbn [app flat_map]; by rewrite app_nil_r.
Qed.

Lemma main_adder_equations espresso libc argv opts now cfg :
  opt_help opts = false → configure opts = inr cfg →
  check_config cfg = None →
  config_opb cfg = true →
  config_use_tseitin_adders cfg = false →
  config_use_compact_adders cfg = true →
  config_attack cfg = "preimage" →
  adder_equations (printed_opb (main espresso libc argv opts now)) =
  (config_nr_rounds cfg + 5)%nat.
Proof.
  intros Hh Hc Hk Ho Ht Hcp Ha.
  rewrite (printed_opb_main espresso libc argv opts now cfg) by done.
  exact (generate_count cfg espresso Ht Hcp libc argv
           (default now (opt_seed opts)) Ha initial_state).
Qed.

(** * The claims *)

Lemma inv_initial espresso : inv espresso initial_state.
Proof.
  split; [done|]. intros n m cl. unfold initial_state. cbn [cache].
  by rewrite lookup_empty.
Qed.



(** C2, as amended.  When both --cnf and --opb are requested, [main]
    accepts the configuration, the rounds are in 16..80, and neither --xor
    nor (without --tseitin-adders) --compact-adders is given, the two
    printed encodings have the same satisfying assignments.  In the default
    adder mode the minimizer is assumed to have answered its truth tables
    exactly; [std::random_shuffle] is assumed to permute. *)
Theorem cnf_opb_agree espresso libc argv opts now cfg ρ :
  opt_help opts = false →
  configure opts = inr cfg →
  check_config cfg = None →
  config_cnf cfg = true → config_opb cfg = true →
  config_use_xor_clauses cfg = false →
  (config_use_tseitin_adders cfg = true ∨ config_use_compact_adders cfg = false) →
  (config_use_tseitin_adders cfg = false →
   config_use_halfadder_clauses cfg = false → minimizer_exact espresso = true) →
  (16 ≤ config_nr_rounds cfg ≤ 80)%nat →
  shuffle_ok (libc (default now (opt_seed opts))) →
  sat_cnf ρ (printed_cnf (main espresso libc argv opts now)) = true ↔
  sat_opb ρ (printed_opb (main espresso libc argv opts now)) = true.
Proof.
  intros Hh Hcfg Hchk Hc Ho Hx Hcomp Hex HR Hs.
  unfold main. rewrite Hh, Hcfg, Hchk. unfold printed_cnf, printed_opb, flush.
  cbn [stdout]. rewrite Hc, Ho. cbn [flat_map app]. rewrite !app_nil_r.
  destruct (generate_spec cfg espresso libc argv (default now (opt_seed opts))
              initial_state (inv_initial espresso) HR Hs)
    as (dc & do & -> & -> & _ & Hag & _).
  cbn [cnf opb initial_state app]. by rewrite Hag.
Qed.

Lemma cnf_opb_agree_witness :
  sat_cnf (λ _, false)
    (printed_cnf (main no_espresso still_libc tseitin_argv tseitin_options 0))
    = true ↔
  sat_opb (λ _, false)
    (printed_opb (main no_espresso still_libc tseitin_argv tseitin_options 0))
    = true.
Proof.
  apply (cnf_opb_agree no_espresso still_libc tseitin_argv tseitin_options 0
           {| config_attack := "preimage"; config_nr_rounds := 16;
              config_nr_message_bits := 0; config_nr_hash_bits := 160;
              config_cnf := true; config_opb := true;
              config_use_xor_clauses := false;
              config_use_halfadder_clauses := false;
              config_use_tseitin_adders := true;
              config_restrict_branching := false;
              config_use_compact_adders := false |}).
  - reflexivity.
  - reflexivity.
  - reflexivity.
  - reflexivity.
  - reflexivity.
  - reflexivity.
  - left. reflexivity.
  - intros H. discriminate H.
  - simpl. lia.
  - intros n l. reflexivity.
Defined.

(** C2 as stated fails: with --cnf --opb --compact-adders the CNF holds no
    adder constraint, and this assignment satisfies the printed CNF but not
    the printed OPB. *)
Lemma cnf_opb_differ :
  sat_cnf compact_assignment
    (printed_cnf (main no_espresso still_libc compact_argv compact_options 0))
    = true ∧
  sat_opb compact_assignment
    (printed_opb (main no_espresso still_libc compact_argv compact_options 0))
    = false.
Proof. split; vm_compute; reflexivity. Qed.

(** C3 fails on the code: the equation of a compact adder is an equality
    over the integers, with no reduction modulo 2^32.  Here [a] and [b] are
    both 0x80000000 and [r] is 0, so [r] is the sum modulo 2^32, and the
    emitted equation rejects the assignment. *)
Lemma compact_add2_rejects_wraparound :
  let a := word_from 1 in
  let b := word_from 33 in
  let r := word_from 65 in
  word_val wrap_assignment r =
    wrap32 (word_val wrap_assignment a + word_val wrap_assignment b) ∧
  sat_opb wrap_assignment
    (opb (add2 compact_config no_espresso "h_out" r a b state_96).2) = false.
Proof. split; vm_compute; reflexivity. Qed.

(** What the compact equation of [add2] admits: the assignments on which
    [r] is the sum of [a] and [b] over the integers. *)
Lemma compact_add2_exact cfg espresso label r a b st ρ :
  config_use_tseitin_adders cfg = false →
  config_use_compact_adders cfg = true →
  word32 r → word32 a → word32 b →
  opb (add2 cfg espresso label r a b st).2 =
    opb st ++ [OComment "add2";
               OConstraint (pow_terms a ++ pow_terms b ++ neg_pow_terms r) Eq 0] ∧
  (opb_line_sat ρ
     (OConstraint (pow_terms a ++ pow_terms b ++ neg_pow_terms r) Eq 0) = true ↔
   word_val ρ r = word_val ρ a + word_val ρ b).
Proof.
  intros Ht Hc Hr Ha Hb. split.
  - unfold add2. rewrite !bind_run, Ht, Hc. cbn. by rewrite <- app_assoc.
  - cbn [opb_line_sat].
    rewrite !lin_val_app, !lin_val_pow, lin_val_neg_pow by done.
    rewrite Z.eqb_eq. lia.
Qed.

(** C4 fails on the code: with --restrict-branching the 512 message
    variables receive the negative hints and every other variable a positive
    one. *)
Lemma restrict_branching_hints :
  filter (λ l, is_hint l = true)
    (printed_cnf (main no_espresso still_libc restrict_argv restrict_options 0)) =
  map (λ i, CHint (- Z.of_nat i)) (seq 1 512) ++
  map (λ i, CHint (Z.of_nat i)) (seq 513 (3168 - 512)).
Proof. vm_compute. reflexivity. Qed.

(** C5. In the rounds 40 <= i < 60 the CNF lines of the mixing function are,
    for each bit [j], six 3-literal clauses; an assignment satisfies those
    of bit [j] exactly when [f[j]] is the majority of [b[j]], [c[j]] and
    [d[j]], and then it satisfies the clause [f ∨ ¬b ∨ ¬c ∨ ¬d] too. *)
Theorem majority_clauses cfg i f b c d st ρ j :
  (40 ≤ i < 60)%nat → (j < 32)%nat →
  0 < at_ f j → 0 < at_ b j → 0 < at_ c j → 0 < at_ d j →
  cnf (round_f cfg i f b c d st).2 =
    cnf st ++ flat_map (λ j, map CClause
                 (maj_clauses (at_ f j) (at_ b j) (at_ c j) (at_ d j)))
              (seq 0 32) ∧
  Forall (λ cl, length cl = 3%nat)
         (maj_clauses (at_ f j) (at_ b j) (at_ c j) (at_ d j)) ∧
  (sat_cnf ρ (map CClause
                (maj_clauses (at_ f j) (at_ b j) (at_ c j) (at_ d j))) = true ↔
   ρ (at_ f j) =
   (ρ (at_ b j) && ρ (at_ c j)) || (ρ (at_ b j) && ρ (at_ d j)) ||
   (ρ (at_ c j) && ρ (at_ d j))) ∧
  (sat_cnf ρ (map CClause
                (maj_clauses (at_ f j) (at_ b j) (at_ c j) (at_ d j))) = true →
   clause_sat ρ [at_ f j; - at_ b j; - at_ c j; - at_ d j] = true).
Proof.
  intros Hi Hj Hf Hb Hc Hd. split; [|split].
  - unfold round_f.
    destruct (Nat.ltb_spec i 20); [lia|]. destruct (Nat.ltb_spec i 40); [lia|].
    destruct (Nat.ltb_spec i 60); [|lia].
    change (seq 0 32) with (range 0 32). apply forM_cnf_flat.
    intros x s. unfold maj_clauses, clause. rewrite !bind_run. cbn.
    by rewrite <- !app_assoc.
  - unfold maj_clauses. repeat constructor.
  - unfold sat_cnf, maj_clauses. cbn [map forallb cnf_line_sat].
    unfold clause_sat. cbn [existsb].
    rewrite !lit_val_neg, !lit_val_pos by assumption.
    destruct (ρ (at_ f j)), (ρ (at_ b j)), (ρ (at_ c j)), (ρ (at_ d j));
      simpl; split; try (split; intros; congruence); try (intros; congruence).
Qed.

Lemma majority_clauses_witness :
  sat_cnf (λ _, true)
    (map CClause (maj_clauses (at_ (word_from 1) 0) (at_ (word_from 33) 0)
                              (at_ (word_from 65) 0) (at_ (word_from 97) 0)))
    = true ↔
  true = true && true || true && true || true && true.
Proof.
  refine (proj1 (proj2 (proj2
    (majority_clauses opb_config 40 (word_from 1) (word_from 33)
       (word_from 65) (word_from 97) initial_state (λ _, true) 0
       _ _ _ _ _ _))));
    (lia || (vm_compute; reflexivity)).
Defined.







(** C8 as stated fails: the run of the scenario holds 85 adder equations,
    not 5 * 80 + 5. *)
Lemma compact_run_has_85_equations :
  adder_equations
    (printed_opb (main no_espresso still_libc compact80_argv
                       compact80_options 0)) ≠ (5 * 80 + 5)%nat.
Proof.
  rewrite (main_adder_equations no_espresso still_libc compact80_argv
             compact80_options 0 compact80_config) by reflexivity.
  intros E. discriminate E.
Qed.

(** C8, amended. With --opb --compact-adders --attack preimage and any
    number R of rounds, the OPB output holds exactly R + 5 adder equations:
    one [add5] per round and the five [add2] of the final sums (85 for
    R = 80). *)
Theorem compact_adder_equations espresso libc argv opts now cfg :
  opt_help opts = false → configure opts = inr cfg →
  check_config cfg = None →
  config_opb cfg = true →
  config_use_tseitin_adders cfg = false →
  config_use_compact_adders cfg = true →
  config_attack cfg = "preimage" →
  adder_equations (printed_opb (main espresso libc argv opts now)) =
  (config_nr_rounds cfg + 5)%nat.
Proof.
  intros Hh Hc Hk Ho Ht Hcp Ha. by apply main_adder_equations.
Qed.

Lemma compact_adder_equations_witness :
  adder_equations
    (printed_opb (main no_espresso still_libc compact80_argv
                       compact80_options 0)) =
  (config_nr_rounds compact80_config + 5)%nat.
Proof.
  apply (compact_adder_equations no_espresso still_libc compact80_argv
           compact80_options 0 compact80_config); reflexivity.
Defined.







(** * Further properties of the generator *)







(** X4. The headers [main] prints are those of the bodies under them: the
    clause count of the [p cnf] line is the number of clause lines of the
    CNF body (XOR lines, [h] lines and [d] lines are not counted) and the
    [#constraint=] count is the number of constraint lines of the OPB body,
    both as 32-bit unsigned counters. *)
Theorem header_counts espresso libc argv opts now :
  Forall header_ok (stdout (main espresso libc argv opts now)).
Proof.
  unfold main. destruct (opt_help opts).
  { repeat constructor. }
  destruct (configure opts) as [msg|cfg]; [constructor|].
  destruct (check_config cfg); [constructor|].
  cbn [stdout].
  pose proof (generate_counted espresso libc cfg argv
                (default now (opt_seed opts)) initial_state counted_initial)
    as (Hc & _ & Ho).
  unfold flush.
  destruct (config_cnf cfg), (config_opb cfg); repeat constructor; done.
Qed.

(** X5. [and2] writes, for each of the [n] bits, three clauses to the CNF
    buffer and their three constraints to the OPB buffer; an assignment
    satisfies either set exactly when [r[i] = a[i] ∧ b[i]] on every bit. *)
Theorem and2_exact r a b n st ρ :
  posw n r → posw n a → posw n b →
  ∃ dc do,
    cnf (and2 r a b n st).2 = cnf st ++ dc ∧
    opb (and2 r a b n st).2 = opb st ++ do ∧
    length dc = (3 * n)%nat ∧ length do = (3 * n)%nat ∧
    (sat_cnf ρ dc = true ↔
     ∀ i, (i < n)%nat → ρ (at_ r i) = ρ (at_ a i) && ρ (at_ b i)) ∧
    (sat_opb ρ do = true ↔
     ∀ i, (i < n)%nat → ρ (at_ r i) = ρ (at_ a i) && ρ (at_ b i)).
Proof.
  intros Hr Ha Hb.
  eassert (W : writes (and2 r a b n) _ _)
    by (unfold and2; repeat writes_step).
  eexists _, _. split; [apply W|]. split; [apply W|].
  split; [|split]; [rewrite (lines_per_bit _ _ 3), range_length by done; lia..|].
  split.
  - apply sat_cnf_bits. intros i Hi. gate_bit ρ i Hi. gate_table ρ.
  - apply sat_opb_bits. intros i Hi. gate_bit ρ i Hi. gate_table ρ.
Qed.

Lemma and2_exact_witness :
  ∃ dc do,
    cnf (and2 (word_from 65) (word_from 1) (word_from 33) 32 state_96).2 =
      cnf state_96 ++ dc ∧
    opb (and2 (word_from 65) (word_from 1) (word_from 33) 32 state_96).2 =
      opb state_96 ++ do ∧
    length dc = (3 * 32)%nat ∧ length do = (3 * 32)%nat ∧
    (sat_cnf all_false dc = true ↔
     ∀ i, (i < 32)%nat →
       all_false (at_ (word_from 65) i) =
       all_false (at_ (word_from 1) i) && all_false (at_ (word_from 33) i)) ∧
    (sat_opb all_false do = true ↔
     ∀ i, (i < 32)%nat →
       all_false (at_ (word_from 65) i) =
       all_false (at_ (word_from 1) i) && all_false (at_ (word_from 33) i)).
Proof.
  apply (and2_exact (word_from 65) (word_from 1) (word_from 33) 32 state_96
           all_false); apply word_from_word32; lia.
Defined.

(** X6. [or2] writes three clauses per bit, and their constraints; an
    assignment satisfies either set exactly when [r[i] = a[i] ∨ b[i]] on
    every bit. *)
Theorem or2_exact r a b n st ρ :
  posw n r → posw n a → posw n b →
  ∃ dc do,
    cnf (or2 r a b n st).2 = cnf st ++ dc ∧
    opb (or2 r a b n st).2 = opb st ++ do ∧
    length dc = (3 * n)%nat ∧ length do = (3 * n)%nat ∧
    (sat_cnf ρ dc = true ↔
     ∀ i, (i < n)%nat → ρ (at_ r i) = ρ (at_ a i) || ρ (at_ b i)) ∧
    (sat_opb ρ do = true ↔
     ∀ i, (i < n)%nat → ρ (at_ r i) = ρ (at_ a i) || ρ (at_ b i)).
Proof.
  intros Hr Ha Hb.
  eassert (W : writes (or2 r a b n) _ _)
    by (unfold or2; repeat writes_step).
  eexists _, _. split; [apply W|]. split; [apply W|].
  split; [|split]; [rewrite (lines_per_bit _ _ 3), range_length by done; lia..|].
  split.
  - apply sat_cnf_bits. intros i Hi. gate_bit ρ i Hi. gate_table ρ.
  - apply sat_opb_bits. intros i Hi. gate_bit ρ i Hi. gate_table ρ.
Qed.

Lemma or2_exact_witness :
  ∃ dc do,
    cnf (or2 (word_from 65) (word_from 1) (word_from 33) 32 state_96).2 =
      cnf state_96 ++ dc ∧
    opb (or2 (word_from 65) (word_from 1) (word_from 33) 32 state_96).2 =
      opb state_96 ++ do ∧
    length dc = (3 * 32)%nat ∧ length do = (3 * 32)%nat ∧
    (sat_cnf all_false dc = true ↔
     ∀ i, (i < 32)%nat →
       all_false (at_ (word_from 65) i) =
       all_false (at_ (word_from 1) i) || all_false (at_ (word_from 33) i)) ∧
    (sat_opb all_false do = true ↔
     ∀ i, (i < 32)%nat →
       all_false (at_ (word_from 65) i) =
       all_false (at_ (word_from 1) i) || all_false (at_ (word_from 33) i)).
Proof.
  apply (or2_exact (word_from 65) (word_from 1) (word_from 33) 32 state_96
           all_false); apply word_from_word32; lia.
Defined.

(** X7. [xor2] writes a comment and then, per bit, one XOR line to the CNF buffer
    alone (--xor) or four clauses with their constraints; an assignment
    satisfies the CNF lines exactly when [r[i] = a[i] ⊕ b[i]] on every bit,
    and the OPB lines exactly when that holds or, with --xor, always. *)
Theorem xor2_exact cfg r a b n st ρ :
  posw n r → posw n a → posw n b →
  ∃ dc do,
    cnf (xor2 cfg r a b n st).2 = cnf st ++ dc ∧
    opb (xor2 cfg r a b n st).2 = opb st ++ do ∧
    length dc = (if config_use_xor_clauses cfg then 1 + n else 1 + 4 * n)%nat ∧
    (sat_cnf ρ dc = true ↔
     ∀ i, (i < n)%nat → ρ (at_ r i) = xorb (ρ (at_ a i)) (ρ (at_ b i))) ∧
    (sat_opb ρ do = true ↔
     config_use_xor_clauses cfg = true ∨
     ∀ i, (i < n)%nat → ρ (at_ r i) = xorb (ρ (at_ a i)) (ρ (at_ b i))).
Proof.
  intros Hr Ha Hb.
  eassert (W : writes (xor2 cfg r a b n) _ _)
    by (unfold xor2; repeat writes_step).
  eexists _, _. split; [apply W|]. split; [apply W|].
  cbn [app]. rewrite sat_cnf_comment, sat_opb_comment.
  destruct (config_use_xor_clauses cfg); split_and!.
  - cbn [length]. f_equal. rewrite (lines_per_bit _ _ 1), range_length by done. lia.
  - apply sat_cnf_bits. intros i Hi. gate_bit ρ i Hi. gate_table ρ.
  - split; [by left|]. intros _. apply sat_opb_nothing.
  - cbn [length]. f_equal. rewrite (lines_per_bit _ _ 4), range_length by done. lia.
  - apply sat_cnf_bits. intros i Hi. gate_bit ρ i Hi. gate_table ρ.
  - apply or_left_iff; [done|].
    apply sat_opb_bits. intros i Hi. gate_bit ρ i Hi. gate_table ρ.
Qed.

Lemma xor2_exact_witness :
  ∃ dc do,
    cnf (xor2 opb_config (word_from 65) (word_from 1) (word_from 33) 32 state_96).2 = cnf state_96 ++ dc ∧
    opb (xor2 opb_config (word_from 65) (word_from 1) (word_from 33) 32 state_96).2 = opb state_96 ++ do ∧
    length dc =
      (if config_use_xor_clauses opb_config then 1 + 32 else 1 + 4 * 32)%nat ∧
    (sat_cnf all_false dc = true ↔
     ∀ i, (i < 32)%nat → all_false (at_ (word_from 65) i) =
       xorb (all_false (at_ (word_from 1) i)) (all_false (at_ (word_from 33) i))) ∧
    (sat_opb all_false do = true ↔
     config_use_xor_clauses opb_config = true ∨
     ∀ i, (i < 32)%nat → all_false (at_ (word_from 65) i) =
       xorb (all_false (at_ (word_from 1) i)) (all_false (at_ (word_from 33) i))).
Proof.
  apply (xor2_exact opb_config (word_from 65) (word_from 1) (word_from 33) 32 state_96
           all_false); apply word_from_word32; lia.
Defined.

(** X8. [xor3] writes a comment and then, per bit, one XOR line to the CNF buffer
    alone (--xor) or eight clauses with their constraints; an assignment
    satisfies the CNF lines exactly when [r[i] = a[i] ⊕ b[i] ⊕ c[i]] on every
    bit, and the OPB lines exactly when that holds or, with --xor, always. *)
Theorem xor3_exact cfg r a b c n st ρ :
  posw n r → posw n a → posw n b → posw n c →
  ∃ dc do,
    cnf (xor3 cfg r a b c n st).2 = cnf st ++ dc ∧
    opb (xor3 cfg r a b c n st).2 = opb st ++ do ∧
    length dc = (if config_use_xor_clauses cfg then 1 + n else 1 + 8 * n)%nat ∧
    (sat_cnf ρ dc = true ↔
     ∀ i, (i < n)%nat → ρ (at_ r i) = xorb (xorb (ρ (at_ a i)) (ρ (at_ b i))) (ρ (at_ c i))) ∧
    (sat_opb ρ do = true ↔
     config_use_xor_clauses cfg = true ∨
     ∀ i, (i < n)%nat → ρ (at_ r i) = xorb (xorb (ρ (at_ a i)) (ρ (at_ b i))) (ρ (at_ c i))).
Proof.
  intros Hr Ha Hb Hc.
  eassert (W : writes (xor3 cfg r a b c n) _ _)
    by (unfold xor3; repeat writes_step).
  eexists _, _. split; [apply W|]. split; [apply W|].
  cbn [app]. rewrite sat_cnf_comment, sat_opb_comment.
  destruct (config_use_xor_clauses cfg); split_and!.
  - cbn [length]. f_equal. rewrite (lines_per_bit _ _ 1), range_length by done. lia.
  - apply sat_cnf_bits. intros i Hi. gate_bit ρ i Hi. gate_table ρ.
  - split; [by left|]. intros _. apply sat_opb_nothing.
  - cbn [length]. f_equal. rewrite (lines_per_bit _ _ 8), range_length by done. lia.
  - apply sat_cnf_bits. intros i Hi. gate_bit ρ i Hi. gate_table ρ.
  - apply or_left_iff; [done|].
    apply sat_opb_bits. intros i Hi. gate_bit ρ i Hi. gate_table ρ.
Qed.

Lemma xor3_exact_witness :
  ∃ dc do,
    cnf (xor3 opb_config (word_from 65) (word_from 1) (word_from 33) (word_from 97) 32 state_96).2 = cnf state_96 ++ dc ∧
    opb (xor3 opb_config (word_from 65) (word_from 1) (word_from 33) (word_from 97) 32 state_96).2 = opb state_96 ++ do ∧
    length dc =
      (if config_use_xor_clauses opb_config then 1 + 32 else 1 + 8 * 32)%nat ∧
    (sat_cnf all_false dc = true ↔
     ∀ i, (i < 32)%nat → all_false (at_ (word_from 65) i) =
       xorb (xorb (all_false (at_ (word_from 1) i)) (all_false (at_ (word_from 33) i)))
            (all_false (at_ (word_from 97) i))) ∧
    (sat_opb all_false do = true ↔
     config_use_xor_clauses opb_config = true ∨
     ∀ i, (i < 32)%nat → all_false (at_ (word_from 65) i) =
       xorb (xorb (all_false (at_ (word_from 1) i)) (all_false (at_ (word_from 33) i)))
            (all_false (at_ (word_from 97) i))).
Proof.
  apply (xor3_exact opb_config (word_from 65) (word_from 1) (word_from 33) (word_from 97) 32 state_96
           all_false); apply word_from_word32; lia.
Defined.

(** X9. [xor4] writes a comment and then, for each of the 32 bits, one XOR line to
    the CNF buffer alone (--xor) or sixteen clauses with their constraints;
    an assignment satisfies the CNF lines exactly when
    [r[i] = a[i] ⊕ b[i] ⊕ c[i] ⊕ d[i]] on every bit, and the OPB lines
    exactly when that holds or, with --xor, always. *)
Theorem xor4_exact cfg r a b c d st ρ :
  posw 32 r → posw 32 a → posw 32 b → posw 32 c → posw 32 d →
  ∃ dc do,
    cnf (xor4 cfg r a b c d st).2 = cnf st ++ dc ∧
    opb (xor4 cfg r a b c d st).2 = opb st ++ do ∧
    length dc = (if config_use_xor_clauses cfg then 1 + 32 else 1 + 16 * 32)%nat ∧
    (sat_cnf ρ dc = true ↔
     ∀ i, (i < 32)%nat → ρ (at_ r i) =
       xorb (xorb (xorb (ρ (at_ a i)) (ρ (at_ b i))) (ρ (at_ c i))) (ρ (at_ d i))) ∧
    (sat_opb ρ do = true ↔
     config_use_xor_clauses cfg = true ∨
     ∀ i, (i < 32)%nat → ρ (at_ r i) =
       xorb (xorb (xorb (ρ (at_ a i)) (ρ (at_ b i))) (ρ (at_ c i))) (ρ (at_ d i))).
Proof.
  intros Hr Ha Hb Hc Hd.
  eassert (W : writes (xor4 cfg r a b c d) _ _)
    by (unfold xor4; repeat writes_step).
  eexists _, _. split; [apply W|]. split; [apply W|].
  cbn [app]. rewrite sat_cnf_comment, sat_opb_comment.
  destruct (config_use_xor_clauses cfg); split_and!.
  - reflexivity.
  - apply sat_cnf_bits. intros i Hi. gate_bit ρ i Hi. gate_table ρ.
  - split; [by left|]. intros _. apply sat_opb_nothing.
  - reflexivity.
  - apply sat_cnf_bits. intros i Hi. gate_bit ρ i Hi. gate_table ρ.
  - apply or_left_iff; [done|].
    apply sat_opb_bits. intros i Hi. gate_bit ρ i Hi. gate_table ρ.
Qed.

Lemma xor4_exact_witness :
  ∃ dc do,
    cnf (xor4 opb_config (word_from 65) (word_from 1) (word_from 33) (word_from 97) (word_from 129) state_96).2 = cnf state_96 ++ dc ∧
    opb (xor4 opb_config (word_from 65) (word_from 1) (word_from 33) (word_from 97) (word_from 129) state_96).2 = opb state_96 ++ do ∧
    length dc =
      (if config_use_xor_clauses opb_config then 1 + 32 else 1 + 16 * 32)%nat ∧
    (sat_cnf all_false dc = true ↔
     ∀ i, (i < 32)%nat → all_false (at_ (word_from 65) i) =
       xorb (xorb (xorb (all_false (at_ (word_from 1) i)) (all_false (at_ (word_from 33) i)))
                  (all_false (at_ (word_from 97) i)))
            (all_false (at_ (word_from 129) i))) ∧
    (sat_opb all_false do = true ↔
     config_use_xor_clauses opb_config = true ∨
     ∀ i, (i < 32)%nat → all_false (at_ (word_from 65) i) =
       xorb (xorb (xorb (all_false (at_ (word_from 1) i)) (all_false (at_ (word_from 33) i)))
                  (all_false (at_ (word_from 97) i)))
            (all_false (at_ (word_from 129) i))).
Proof.
  apply (xor4_exact opb_config (word_from 65) (word_from 1) (word_from 33) (word_from 97) (word_from 129) state_96
           all_false); apply word_from_word32; lia.
Defined.

(** X10. [eq] writes, per bit, one XOR line to the CNF buffer alone (--xor) or two
    clauses with their constraints; an assignment satisfies the CNF lines
    exactly when [a[i] = b[i]] on every bit, and the OPB lines exactly when
    that holds or, with --xor, always. *)
Theorem eq_exact cfg a b n st ρ :
  posw n a → posw n b →
  ∃ dc do,
    cnf (eq cfg a b n st).2 = cnf st ++ dc ∧
    opb (eq cfg a b n st).2 = opb st ++ do ∧
    length dc = (if config_use_xor_clauses cfg then n else 2 * n)%nat ∧
    (sat_cnf ρ dc = true ↔
     ∀ i, (i < n)%nat → ρ (at_ a i) = ρ (at_ b i)) ∧
    (sat_opb ρ do = true ↔
     config_use_xor_clauses cfg = true ∨
     ∀ i, (i < n)%nat → ρ (at_ a i) = ρ (at_ b i)).
Proof.
  intros Ha Hb.
  eassert (W : writes (eq cfg a b n) _ _)
    by (unfold eq; repeat writes_step).
  eexists _, _. split; [apply W|]. split; [apply W|].
  cbn [app].
  destruct (config_use_xor_clauses cfg); split_and!.
  - rewrite (lines_per_bit _ _ 1), range_length by done. lia.
  - apply sat_cnf_bits. intros i Hi. gate_bit ρ i Hi. gate_table ρ.
  - split; [by left|]. intros _. apply sat_opb_nothing.
  - rewrite (lines_per_bit _ _ 2), range_length by done. lia.
  - apply sat_cnf_bits. intros i Hi. gate_bit ρ i Hi. gate_table ρ.
  - apply or_left_iff; [done|].
    apply sat_opb_bits. intros i Hi. gate_bit ρ i Hi. gate_table ρ.
Qed.

Lemma eq_exact_witness :
  ∃ dc do,
    cnf (eq opb_config (word_from 65) (word_from 1) 32 state_96).2 = cnf state_96 ++ dc ∧
    opb (eq opb_config (word_from 65) (word_from 1) 32 state_96).2 = opb state_96 ++ do ∧
    length dc =
      (if config_use_xor_clauses opb_config then 32 else 2 * 32)%nat ∧
    (sat_cnf all_false dc = true ↔
     ∀ i, (i < 32)%nat → all_false (at_ (word_from 65) i) = all_false (at_ (word_from 1) i)) ∧
    (sat_opb all_false do = true ↔
     config_use_xor_clauses opb_config = true ∨
     ∀ i, (i < 32)%nat → all_false (at_ (word_from 65) i) = all_false (at_ (word_from 1) i)).
Proof.
  apply (eq_exact opb_config (word_from 65) (word_from 1) 32 state_96
           all_false); apply word_from_word32; lia.
Defined.

(** X11. [neq] writes, per bit, one XOR line to the CNF buffer alone (--xor) or two
    clauses with their constraints; an assignment satisfies the CNF lines
    exactly when [a[i] ≠ b[i]] on every bit, and the OPB lines exactly when
    that holds or, with --xor, always. *)
Theorem neq_exact cfg a b n st ρ :
  posw n a → posw n b →
  ∃ dc do,
    cnf (neq cfg a b n st).2 = cnf st ++ dc ∧
    opb (neq cfg a b n st).2 = opb st ++ do ∧
    length dc = (if config_use_xor_clauses cfg then n else 2 * n)%nat ∧
    (sat_cnf ρ dc = true ↔
     ∀ i, (i < n)%nat → ρ (at_ a i) = negb (ρ (at_ b i))) ∧
    (sat_opb ρ do = true ↔
     config_use_xor_clauses cfg = true ∨
     ∀ i, (i < n)%nat → ρ (at_ a i) = negb (ρ (at_ b i))).
Proof.
  intros Ha Hb.
  eassert (W : writes (neq cfg a b n) _ _)
    by (unfold neq; repeat writes_step).
  eexists _, _. split; [apply W|]. split; [apply W|].
  cbn [app].
  destruct (config_use_xor_clauses cfg); split_and!.
  - rewrite (lines_per_bit _ _ 1), range_length by done. lia.
  - apply sat_cnf_bits. intros i Hi. gate_bit ρ i Hi. gate_table ρ.
  - split; [by left|]. intros _. apply sat_opb_nothing.
  - rewrite (lines_per_bit _ _ 2), range_length by done. lia.
  - apply sat_cnf_bits. intros i Hi. gate_bit ρ i Hi. gate_table ρ.
  - apply or_left_iff; [done|].
    apply sat_opb_bits. intros i Hi. gate_bit ρ i Hi. gate_table ρ.
Qed.

Lemma neq_exact_witness :
  ∃ dc do,
    cnf (neq opb_config (word_from 65) (word_from 1) 32 state_96).2 = cnf state_96 ++ dc ∧
    opb (neq opb_config (word_from 65) (word_from 1) 32 state_96).2 = opb state_96 ++ do ∧
    length dc =
      (if config_use_xor_clauses opb_config then 32 else 2 * 32)%nat ∧
    (sat_cnf all_false dc = true ↔
     ∀ i, (i < 32)%nat → all_false (at_ (word_from 65) i) =
       negb (all_false (at_ (word_from 1) i))) ∧
    (sat_opb all_false do = true ↔
     config_use_xor_clauses opb_config = true ∨
     ∀ i, (i < 32)%nat → all_false (at_ (word_from 65) i) =
       negb (all_false (at_ (word_from 1) i))).
Proof.
  apply (neq_exact opb_config (word_from 65) (word_from 1) 32 state_96
           all_false); apply word_from_word32; lia.
Defined.

(** X12. The lines [round_f] writes for a round [i < 80] are satisfied by
    exactly the assignments on which the word [f] reads the native mixing
    function of that round on the words [b], [c] and [d]: the choice in
    rounds 0..19, the parity in rounds 20..39 and 60..79, the majority in
    rounds 40..59.  The OPB buffer carries the same constraint unless --xor
    is given. *)
Theorem round_f_exact cfg i f b c d st ρ :
  (i < 80)%nat → word32 f → word32 b → word32 c → word32 d →
  ∃ dc do,
    cnf (round_f cfg i f b c d st).2 = cnf st ++ dc ∧
    opb (round_f cfg i f b c d st).2 = opb st ++ do ∧
    (sat_cnf ρ dc = true ↔
     word_val ρ f = native_f i (word_val ρ b) (word_val ρ c) (word_val ρ d)) ∧
    (config_use_xor_clauses cfg = false →
     sat_opb ρ do = true ↔
     word_val ρ f = native_f i (word_val ρ b) (word_val ρ c) (word_val ρ d)).
Proof.
  intros Hi [Hfl Hf] [Hbl Hb] [Hcl Hc] [Hdl Hd].
  eassert (W : writes (round_f cfg i f b c d) _ _)
    by (unfold round_f, xor3; repeat writes_step).
  eexists _, _. split; [apply W|]. split; [apply W|].
  clear W. rewrite (f_word_bits ρ i f b c d) by done. unfold f_bit.
  destruct (i <? 20)%nat; [|destruct (i <? 40)%nat; [|destruct (i <? 60)%nat;
    [|destruct (Nat.ltb_spec i 80); [|lia]]]];
    cbn [app]; rewrite ?sat_cnf_comment, ?sat_opb_comment.
  - split; [|intros _].
    + apply sat_cnf_bits. intros j Hj. gate_bit ρ j Hj. gate_table ρ.
    + apply sat_opb_bits. intros j Hj. gate_bit ρ j Hj. gate_table ρ.
  - destruct (config_use_xor_clauses cfg); (split; [|intros Hx; try done]).
    + apply sat_cnf_bits. intros j Hj. gate_bit ρ j Hj. gate_table ρ.
    + apply sat_cnf_bits. intros j Hj. gate_bit ρ j Hj. gate_table ρ.
    + apply sat_opb_bits. intros j Hj. gate_bit ρ j Hj. gate_table ρ.
  - split; [|intros _].
    + apply sat_cnf_bits. intros j Hj. gate_bit ρ j Hj. gate_table ρ.
    + apply sat_opb_bits. intros j Hj. gate_bit ρ j Hj. gate_table ρ.
  - destruct (config_use_xor_clauses cfg); (split; [|intros Hx; try done]).
    + apply sat_cnf_bits. intros j Hj. gate_bit ρ j Hj. gate_table ρ.
    + apply sat_cnf_bits. intros j Hj. gate_bit ρ j Hj. gate_table ρ.
    + apply sat_opb_bits. intros j Hj. gate_bit ρ j Hj. gate_table ρ.
Qed.

Lemma round_f_exact_witness :
  ∃ dc do,
    cnf (round_f opb_config 0 (word_from 97) (word_from 1) (word_from 33)
                 (word_from 65) state_96).2 = cnf state_96 ++ dc ∧
    opb (round_f opb_config 0 (word_from 97) (word_from 1) (word_from 33)
                 (word_from 65) state_96).2 = opb state_96 ++ do ∧
    (sat_cnf all_false dc = true ↔
     word_val all_false (word_from 97) =
     native_f 0 (word_val all_false (word_from 1))
              (word_val all_false (word_from 33))
              (word_val all_false (word_from 65))) ∧
    (config_use_xor_clauses opb_config = false →
     sat_opb all_false do = true ↔
     word_val all_false (word_from 97) =
     native_f 0 (word_val all_false (word_from 1))
              (word_val all_false (word_from 33))
              (word_val all_false (word_from 65))).
Proof.
  apply (round_f_exact opb_config 0 (word_from 97) (word_from 1)
           (word_from 33) (word_from 65) state_96 all_false);
    [lia|apply word_from_word32; lia..].
Defined.

(** X13. The lines [constant32] writes are satisfied by exactly the
    assignments on which the word [r] reads [value]. *)
Theorem constant32_exact r value st ρ :
  word32 r → 0 ≤ value < 2 ^ 32 →
  ∃ dc do,
    cnf (constant32 r value st).2 = cnf st ++ dc ∧
    opb (constant32 r value st).2 = opb st ++ do ∧
    (sat_cnf ρ dc = true ↔ word_val ρ r = value) ∧
    (sat_opb ρ do = true ↔ word_val ρ r = value).
Proof.
  intros Hr Hv. pose proof Hr as [_ Hp].
  eassert (W : writes (constant32 r value) _ _)
    by (unfold constant32; repeat writes_step).
  eexists _, _. split; [apply W|]. split; [apply W|]. clear W.
  cbn [app]. rewrite sat_cnf_comment, sat_opb_comment.
  rewrite <- (constant_bits_word ρ r value) by done. clear Hr. split.
  - apply sat_cnf_bits. intros i Hi.
    destruct (Z.testbit value (Z.of_nat i)); gate_bit ρ i Hi; gate_table ρ.
  - apply sat_opb_bits. intros i Hi.
    destruct (Z.testbit value (Z.of_nat i)); gate_bit ρ i Hi; gate_table ρ.
Qed.

Lemma constant32_exact_witness :
  ∃ dc do,
    cnf (constant32 (word_from 1) 0x67452301 state_96).2 =
      cnf state_96 ++ dc ∧
    opb (constant32 (word_from 1) 0x67452301 state_96).2 =
      opb state_96 ++ do ∧
    (sat_cnf all_false dc = true ↔
     word_val all_false (word_from 1) = 0x67452301) ∧
    (sat_opb all_false do = true ↔
     word_val all_false (word_from 1) = 0x67452301).
Proof.
  apply (constant32_exact (word_from 1) 0x67452301 state_96 all_false);
    [apply word_from_word32|]; lia.
Defined.

(** X14. The circuit's [rotl] is a rewiring that reads as the native
    [rotl]: for 0 < n < 32 the rewired word spells the rotation of the
    number the word spells. *)
Theorem rotl_reads_native ρ x n :
  length x = 32%nat → (0 < n < 32)%nat →
  word_val ρ (rotl x n) = rotl32 (word_val ρ x) (Z.of_nat n).
Proof. apply word_val_rotl. Qed.

Lemma rotl_reads_native_witness :
  word_val only_128 (rotl (word_from 97) 5) =
  rotl32 (word_val only_128 (word_from 97)) (Z.of_nat 5).
Proof. apply rotl_reads_native; [reflexivity|lia]. Defined.

(** X15. Rotating by [32 - n] undoes rotating by [n]; this is how the
    constructor presents [h_in] to the round loop, whose words [c], [d] and
    [e] are read rotated by 30. *)
Theorem rotl_inverse x n :
  length x = 32%nat → (n ≤ 32)%nat → rotl (rotl x n) (32 - n) = x.
Proof.
  intros Hl Hn. apply (nth_ext _ _ 0 0); [by rewrite rotl_length|].
  intros i Hi. rewrite rotl_length in Hi.
  change (nth i ?l 0) with (at_ l i). rewrite rotl_at by done.
  rewrite rotl_at by (apply Nat.mod_upper_bound; lia).
  by rewrite rotl_index.
Qed.

Lemma rotl_inverse_witness :
  rotl (rotl (word_from 1) 30) (32 - 30) = word_from 1.
Proof. apply rotl_inverse; [reflexivity|lia]. Defined.





(** X18. [new_vars] hands out the [n] variables that follow the counter, in
    order, and moves the counter past them; what it writes (a comment, and
    branching hints under [--restrict-branching]) constrains nothing.  The
    bound is that of the [int] counter. *)
Theorem new_vars_fresh cfg label n d st ρ :
  (0 < n)%nat → nr_variables st + Z.of_nat n < 2 ^ 31 →
  (new_vars cfg label n d st).1 =
    map (λ i, nr_variables st + 1 + Z.of_nat i) (seq 0 n) ∧
  nr_variables (new_vars cfg label n d st).2 = nr_variables st + Z.of_nat n ∧
  sat_cnf ρ (cnf (new_vars cfg label n d st).2) = sat_cnf ρ (cnf st) ∧
  sat_opb ρ (opb (new_vars cfg label n d st).2) = sat_opb ρ (opb st).
Proof.
  intros _ _.
  destruct (new_vars_run cfg label n d st) as [Hx Hn].
  split_and!; [done|done|apply (new_vars_cnf_value ρ)|
               apply (new_vars_opb_value ρ)].
Qed.

Lemma new_vars_fresh_witness :
  (new_vars opb_config "w" 3 true state_96).1 =
    map (λ i, nr_variables state_96 + 1 + Z.of_nat i) (seq 0 3) ∧
  nr_variables (new_vars opb_config "w" 3 true state_96).2 =
    nr_variables state_96 + Z.of_nat 3 ∧
  sat_cnf all_false (cnf (new_vars opb_config "w" 3 true state_96).2) =
    sat_cnf all_false (cnf state_96) ∧
  sat_opb all_false (opb (new_vars opb_config "w" 3 true state_96).2) =
    sat_opb all_false (opb state_96).
Proof.
  apply (new_vars_fresh opb_config "w" 3 true state_96 all_false);
    [lia | vm_compute; reflexivity].
Defined.

(** X19. The cache of minimized clauses: after a call for the shape
    [(n, m)] the cache holds the clauses returned under that key and every
    other key is as before; a second call returns the same clauses without
    consulting the minimizer and leaves the state alone. *)
Theorem minimized_clauses_cached espresso espresso' n m st :
  cache (minimized_clauses espresso n m st).2 !! (n, m) =
    Some (minimized_clauses espresso n m st).1 ∧
  (∀ k, k ≠ (n, m) →
     cache (minimized_clauses espresso n m st).2 !! k = cache st !! k) ∧
  minimized_clauses espresso' n m (minimized_clauses espresso n m st).2 =
    minimized_clauses espresso n m st.
Proof.
  rewrite (minimized_clauses_eq espresso n m st).
  destruct (cache st !! (n, m)) as [cl|] eqn:E; cbn [fst snd].
  - split_and!; [done|done|]. by rewrite minimized_clauses_eq, E.
  - split_and!.
    + cbn. by rewrite lookup_insert_eq.
    + intros k Hk. cbn. by rewrite lookup_insert_ne.
    + rewrite minimized_clauses_eq. cbn. by rewrite lookup_insert_eq.
Qed.

(** X20. How the minimizer's answer is read: the lines starting with [.i],
    [.o] or [.p] are skipped, every other line up to the first [.e] line (or
    to the end of the input) is one clause, read off its first [nm]
    characters, and nothing after the [.e] line is read.  Every literal of a
    clause read is one of [1 .. nm], negated or not.  The bounds on the
    lines read as clauses are those of [buf[512]] and of the [nm]
    characters the loop looks at. *)
Theorem read_espresso_answer nm hdr rows rest :
  forallb is_header hdr = true → forallb is_cube rows = true →
  Forall (λ r, nm ≤ String.length r < 511)%nat rows →
  read_espresso nm (hdr ++ rows ++ ".e" :: rest) = map (cube_clause nm) rows ∧
  read_espresso nm (hdr ++ rows) = map (cube_clause nm) rows ∧
  ∀ c l, c ∈ map (cube_clause nm) rows → l ∈ c →
         1 ≤ Z.abs l ≤ Z.of_nat nm.
Proof.
  intros Hh Hr _. split_and!.
  - rewrite read_espresso_header, read_espresso_rows by done.
    rewrite read_espresso_end by done. apply app_nil_r.
  - rewrite read_espresso_header by done.
    rewrite <- (app_nil_r rows) at 1.
    rewrite read_espresso_rows by done. apply app_nil_r.
  - intros c l Hc. rewrite <- (app_nil_r (map _ _)) in Hc.
    change [] with (read_espresso nm []) in Hc.
    rewrite <- read_espresso_rows in Hc by done.
    revert Hc. apply read_espresso_range.
Qed.

Lemma read_espresso_answer_witness :
  read_espresso 4 (answer_header ++ answer_rows ++ ".e" :: ["1111 1"]) =
    map (cube_clause 4) answer_rows ∧
  read_espresso 4 (answer_header ++ answer_rows) =
    map (cube_clause 4) answer_rows ∧
  ∀ c l, c ∈ map (cube_clause 4) answer_rows → l ∈ c →
         1 ≤ Z.abs l ≤ Z.of_nat 4.
Proof.
  apply (read_espresso_answer 4 answer_header answer_rows ["1111 1"]);
    [reflexivity|reflexivity|].
  repeat constructor; simpl; lia.
Defined.



(** X22. The half-adder constraint is exact in both formats: the OPB line
    holds exactly when the number of true inputs [lhs] is the binary number
    [rhs], and so do the CNF lines, whether the [h] line of
    [--halfadder] or the clauses read back from a minimizer whose answer
    for this shape is exact. *)
Theorem halfadder_exact cfg espresso lhs rhs st ρ :
  cache_ok espresso st →
  Forall (λ x, 0 < x) lhs → Forall (λ x, 0 < x) rhs →
  (config_use_halfadder_clauses cfg = false →
   exact_cover (length lhs) (length rhs)
     (read_espresso (length lhs + length rhs)
        (espresso (pla_input (length lhs) (length rhs)))) = true) →
  ∃ dc,
    cnf (halfadder cfg espresso lhs rhs st).2 = cnf st ++ dc ∧
    opb (halfadder cfg espresso lhs rhs st).2 = opb st ++ [ha_opb lhs rhs] ∧
    (sat_cnf ρ dc = true ↔ count_true ρ lhs = word_val ρ rhs) ∧
    (opb_line_sat ρ (ha_opb lhs rhs) = true ↔
     count_true ρ lhs = word_val ρ rhs).
Proof.
  intros Hc Hl Hr Hex.
  destruct (halfadder_run cfg espresso lhs rhs st Hc) as (H1 & H2 & _).
  exists (ha_cnf cfg espresso lhs rhs). split; [done|]. split; [done|].
  split.
  - unfold ha_cnf. destruct (config_use_halfadder_clauses cfg).
    + simpl. rewrite andb_true_r. apply Z.eqb_eq.
    + rewrite sat_cnf_clauses.
      rewrite (exact_cover_sound ρ lhs rhs Hl Hr _ (Hex eq_refl)).
      * apply Z.eqb_eq.
      * intros c l. apply read_espresso_range.
  - rewrite ha_opb_sat by done. apply Z.eqb_eq.
Qed.

Lemma halfadder_exact_witness :
  ∃ dc,
    cnf (halfadder opb_config echo_espresso [1; 2] [3; 4] initial_state).2 =
      cnf initial_state ++ dc ∧
    opb (halfadder opb_config echo_espresso [1; 2] [3; 4] initial_state).2 =
      opb initial_state ++ [ha_opb [1; 2] [3; 4]] ∧
    (sat_cnf one_and_three dc = true ↔
     count_true one_and_three [1; 2] = word_val one_and_three [3; 4]) ∧
    (opb_line_sat one_and_three (ha_opb [1; 2] [3; 4]) = true ↔
     count_true one_and_three [1; 2] = word_val one_and_three [3; 4]).
Proof.
  apply (halfadder_exact opb_config echo_espresso [1; 2] [3; 4] initial_state
           one_and_three).
  - intros n m cl H. discriminate H.
  - repeat constructor.
  - repeat constructor.
  - intros _. vm_compute. reflexivity.
Defined.

(** X23. The truth table written to the minimizer is that of the
    half-adder relation: read back unminimized, every row with output 1 as
    one product term, it gives clauses that hold exactly on the rows whose
    first [n] bits sum to the number spelled by the last [m] bits.  The
    bounds are those of the shifts [1U << n] and [1U << m]. *)
Theorem written_table_exact n m :
  (n < 32)%nat → (m < 32)%nat →
  exact_cover n m (read_espresso (n + m) (echo_espresso (pla_input n m)))
  = true.
Proof.
  intros Hn _. unfold exact_cover. apply forallb_forall. intros row Hrow.
  apply list_elem_of_In, all_rows_length in Hrow.
  apply eqb_true_iff, Bool.eq_iff_eq_true.
  rewrite echoed_clauses. unfold halfadder_sat. rewrite Z.eqb_eq.
  rewrite <- (table_relation row n m) by (done || lia).
  split; intros H i j Hi Hj Hp.
  - intros E. apply (pla_row_clause row n m i j Hrow) in E.
    by rewrite (H i j Hi Hj Hp) in E.
  - apply Bool.not_false_iff_true. intros E.
    apply (pla_row_clause row n m i j Hrow) in E. by apply (H i j Hi Hj Hp).
Qed.

Lemma written_table_exact_witness :
  exact_cover 2 2 (read_espresso (2 + 2) (echo_espresso (pla_input 2 2)))
  = true.
Proof. apply (written_table_exact 2 2); lia. Defined.

(** X24. What [main] prints is well formed for the number of variables
    its header declares: with at most 80 rounds, every literal of a clause,
    XOR or [d] line of the CNF body and every term of a [>=] line of the OPB
    body has a variable among [1 .. nv], and every entry of an [h] line and
    every term of an [=] line (both printed without [abs]) is such a
    variable itself; no line mentions the variable 0 that a read past an
    array would give.  The bounds on the pinned bits are those of the
    shuffled arrays. *)
Theorem output_well_formed espresso libc argv opts now cfg :
  configure opts = inr cfg →
  (config_nr_rounds cfg ≤ 80)%nat →
  (config_nr_message_bits cfg ≤ 512)%nat →
  (config_nr_hash_bits cfg ≤ 160)%nat →
  shuffle_ok (libc (default now (opt_seed opts))) →
  Forall chunk_ok (stdout (main espresso libc argv opts now)).
Proof.
  intros Hc HR _ _ Hs. unfold main.
  destruct (opt_help opts); [by repeat constructor|].
  rewrite Hc. destruct (check_config cfg); [constructor|]. cbn [stdout].
  set (seed := default now (opt_seed opts)) in *.
  set (st := (generate espresso libc cfg argv seed initial_state).2).
  destruct (generate_tidy (nr_variables st) espresso libc cfg argv seed Hs HR
              initial_state) as [(_ & Hcnf & Hopb & _) _];
    [reflexivity|apply tidy_initial|].
  fold st in Hcnf, Hopb. unfold flush.
  destruct (config_cnf cfg), (config_opb cfg); repeat constructor; done.
Qed.

Lemma output_well_formed_witness :
  Forall chunk_ok
    (stdout (main echo_espresso still_libc collision_argv collision_options 0)).
Proof.
  apply (output_well_formed echo_espresso still_libc collision_argv
           collision_options 0 collision_config).
  - reflexivity.
  - simpl. lia.
  - simpl. lia.
  - simpl. lia.
  - intros n l. reflexivity.
Defined.

(** X25. How a solution is read: in the circuit that [sha1(nr_rounds,
    name)] builds, bit [j] of the message word [w[i]] is the variable
    [32 i + j + 1] counted from the variable counter at the call, and bit
    [j] of the hash word [h_out[i]] is the variable
    [32 (max 16 R + 5 + i) + j + 1]; [main] builds its first circuit with
    the counter at 0. *)
Theorem circuit_variables cfg espresso R name st :
  (R ≤ 80)%nat →
  (∀ i j, (i < 16)%nat → (j < 32)%nat →
     at_ (sha1_w (sha1_new cfg espresso R name st).1 !!! i) j =
     nr_variables st + 32 * Z.of_nat i + Z.of_nat j + 1) ∧
  (∀ i j, (i < 5)%nat → (j < 32)%nat →
     at_ (sha1_h_out (sha1_new cfg espresso R name st).1 !!! i) j =
     nr_variables st + 32 * Z.of_nat (Nat.max 16 R + 5 + i) + Z.of_nat j + 1).
Proof.
  intros HR.
  destruct (sha1_new_numbered cfg espresso R name st HR)
    as (_ & Hw & _ & Ho).
  split; intros i j Hi Hj.
  - rewrite Hw, at_block by done. lia.
  - rewrite Ho, at_block by done. lia.
Qed.

Lemma circuit_variables_witness :
  (∀ i j, (i < 16)%nat → (j < 32)%nat →
     at_ (sha1_w (sha1_new opb_config no_espresso 16 "" initial_state).1
            !!! i) j =
     nr_variables initial_state + 32 * Z.of_nat i + Z.of_nat j + 1) ∧
  (∀ i j, (i < 5)%nat → (j < 32)%nat →
     at_ (sha1_h_out (sha1_new opb_config no_espresso 16 "" initial_state).1
            !!! i) j =
     nr_variables initial_state + 32 * Z.of_nat (Nat.max 16 16 + 5 + i) +
     Z.of_nat j + 1).
Proof.
  apply (circuit_variables opb_config no_espresso 16 "" initial_state). lia.
Defined.

(** X26. The size of an instance: for 16 to 80 rounds the number of
    variables declared in the headers [main] prints is [160 R + 608] with
    the default (half-adder) adders, with or without [--halfadder],
    [96 R + 448] with [--compact-adders] and [688 R + 1068] with
    [--tseitin-adders]; a collision instance has twice as many.  Neither
    the pinned bits nor the minimizer's answers change it. *)
Theorem instance_variable_count espresso libc argv opts now cfg :
  configure opts = inr cfg →
  (16 ≤ config_nr_rounds cfg ≤ 80)%nat →
  Forall
    (declares
       ((if String.eqb (config_attack cfg) "collision" then 2 else 1) *
        (if config_use_tseitin_adders cfg
         then 688 * Z.of_nat (config_nr_rounds cfg) + 1068
         else if config_use_compact_adders cfg
              then 96 * Z.of_nat (config_nr_rounds cfg) + 448
              else 160 * Z.of_nat (config_nr_rounds cfg) + 608)))
    (stdout (main espresso libc argv opts now)).
Proof.
  intros Hc [HR16 HR]. rewrite <- instance_vars_closed by done. unfold main.
  destruct (opt_help opts); [by repeat constructor|].
  rewrite Hc. destruct (check_config cfg); [constructor|]. cbn [stdout].
  pose proof (generate_numbered espresso libc cfg argv
                (default now (opt_seed opts)) initial_state HR
                (configure_attack opts cfg Hc)) as E.
  unfold numbered in E. cbn [nr_variables initial_state] in E.
  rewrite Z.add_0_l in E. unfold flush.
  destruct (config_cnf cfg), (config_opb cfg); repeat constructor; done.
Qed.

Lemma instance_variable_count_witness :
  let cfg := collision_config in
  Forall
    (declares
       ((if String.eqb (config_attack cfg) "collision" then 2 else 1) *
        (if config_use_tseitin_adders cfg
         then 688 * Z.of_nat (config_nr_rounds cfg) + 1068
         else if config_use_compact_adders cfg
              then 96 * Z.of_nat (config_nr_rounds cfg) + 448
              else 160 * Z.of_nat (config_nr_rounds cfg) + 608)))
    (stdout (main echo_espresso still_libc collision_argv collision_options 0)).
Proof.
  intros cfg.
  apply (instance_variable_count echo_espresso still_libc collision_argv
           collision_options 0 cfg); [reflexivity|simpl; lia].
Defined.
